(** * stcdetail/ini.go: the git-config style INI parser and the
      structure-preserving editor, as a shallow embedding.

    Go [string] and [[]byte] are both byte sequences and are modelled as
    [list byte]; a [rune] is a [Z] (with [eofRune = -1]); indices, line and
    column numbers are [nat] (they are bounded by eight times the length of
    the input, so Go's [int] never wraps on them).  Go panics are explicit:
    a [ParseError] panic is the [Throw] outcome of the parser monad, every
    other panic (the [IniQKey] validity panics, a nil dereference, an index
    out of range) is a value of [Panic]. *)

From Stdlib Require Import ZArith Lia.
From Stdlib Require Import Strings.Byte Strings.String.
From stdpp Require Import base decidable countable list gmap fin_maps pretty.

Local Open Scope Z_scope.

Abbreviation bytes := (list byte).

(** ** Bytes, runes and literals *)

Definition rune_of_byte (b : byte) : Z := Z.of_N (Byte.to_N b).

(** Go's [byte(c)] on a rune: truncation to the low eight bits. *)
Definition byte_of_rune (c : Z) : byte :=
  match Byte.of_N (Z.to_N (c mod 256)) with
  | Some b => b
  | None => x00
  end.

Definition eofRune : Z := -1.
Definition tabwidth : nat := 8.

(** A Go string literal. *)
Definition lit (s : string) : bytes := list_byte_of_string s.

#[global] Instance byte_eq_dec : EqDecision byte := Byte.byte_eq_dec.

Definition bytes_eqb (a b : bytes) : bool := bool_decide (a = b).

Lemma byte_of_to_N (b : byte) : default x00 (Byte.of_N (Byte.to_N b)) = b.
Proof. now rewrite Byte.of_to_N. Qed.

#[global] Instance byte_countable : Countable byte :=
  inj_countable' Byte.to_N (fun n => default x00 (Byte.of_N n)) byte_of_to_N.

(** Character codes used by the source. *)
Abbreviation ch_nul := 0%Z (only parsing).
Abbreviation ch_bs := 8%Z (only parsing).
Abbreviation ch_tab := 9%Z (only parsing).
Abbreviation ch_nl := 10%Z (only parsing).
Abbreviation ch_cr := 13%Z (only parsing).
Abbreviation ch_sp := 32%Z (only parsing).
Abbreviation ch_quote := 34%Z (only parsing).
Abbreviation ch_hash := 35%Z (only parsing).
Abbreviation ch_minus := 45%Z (only parsing).
Abbreviation ch_semi := 59%Z (only parsing).
Abbreviation ch_eq := 61%Z (only parsing).
Abbreviation ch_lbrack := 91%Z (only parsing).
Abbreviation ch_bslash := 92%Z (only parsing).
Abbreviation ch_rbrack := 93%Z (only parsing).

(** ** Character classes *)

(** [c &^= 0x20; return c >= 'A' && c <= 'Z'] *)
Definition isAlpha (c : Z) : bool :=
  let c := Z.ldiff c 32 in (65 <=? c) && (c <=? 90).

Definition isKeyChar (c : Z) : bool :=
  isAlpha c || ((48 <=? c) && (c <=? 57)) || (c =? ch_minus).

(** ** Go's UTF-8 decoding, as [strings.IndexFunc] applies it to a string *)

Definition RuneError : Z := 65533.

Definition cont_in (lo hi : Z) (b : byte) : bool :=
  (lo <=? rune_of_byte b) && (rune_of_byte b <=? hi).

(** [utf8.DecodeRuneInString] on a non-empty string [b0 :: rest]: the rune
    and the number of bytes it takes. *)
Definition decodeRune (b0 : byte) (rest : bytes) : Z * nat :=
  let s0 := rune_of_byte b0 in
  if s0 <? 128 then (s0, 1%nat)
  else if (s0 <? 194) || (244 <? s0) then (RuneError, 1%nat)
  else
    let sz : nat := if s0 <? 224 then 2%nat else if s0 <? 240 then 3%nat else 4%nat in
    let lo := if s0 =? 224 then 160 else if s0 =? 240 then 144 else 128 in
    let hi := if s0 =? 237 then 159 else if s0 =? 244 then 143 else 191 in
    if (length rest <? sz - 1)%nat then (RuneError, 1%nat)
    else
      match rest with
      | b1 :: rest1 =>
        if negb (cont_in lo hi b1) then (RuneError, 1%nat)
        else
          let s1 := rune_of_byte b1 in
          if (sz <=? 2)%nat then
            (Z.lor (Z.shiftl (Z.land s0 31) 6) (Z.land s1 63), 2%nat)
          else
            match rest1 with
            | b2 :: rest2 =>
              if negb (cont_in 128 191 b2) then (RuneError, 1%nat)
              else
                let s2 := rune_of_byte b2 in
                if (sz <=? 3)%nat then
                  (Z.lor (Z.lor (Z.shiftl (Z.land s0 15) 12)
                                (Z.shiftl (Z.land s1 63) 6))
                         (Z.land s2 63), 3%nat)
                else
                  match rest2 with
                  | b3 :: _ =>
                    if negb (cont_in 128 191 b3) then (RuneError, 1%nat)
                    else
                      (Z.lor (Z.lor (Z.lor (Z.shiftl (Z.land s0 7) 18)
                                           (Z.shiftl (Z.land s1 63) 12))
                                    (Z.shiftl (Z.land s2 63) 6))
                             (Z.land (rune_of_byte b3) 63), 4%nat)
                  | [] => (RuneError, 1%nat)
                  end
            | [] => (RuneError, 1%nat)
            end
      | [] => (RuneError, 1%nat)
      end.

(** [strings.IndexFunc(s, f)]: the byte index of the first rune of [s]
    satisfying [f], or [-1].  [skipn] counts the bytes of the current rune
    still to be stepped over, [i] is the byte index of the head of [s]. *)
Fixpoint indexFuncFrom (f : Z -> bool) (s : bytes) (skipn i : nat) : Z :=
  match s with
  | [] => -1
  | b :: t =>
    match skipn with
    | S k => indexFuncFrom f t k (S i)
    | O =>
      let '(r, size) := decodeRune b t in
      if f r then Z.of_nat i else indexFuncFrom f t (size - 1)%nat (S i)
    end
  end.

Definition IndexFunc (s : bytes) (f : Z -> bool) : Z := indexFuncFrom f s 0 0.

(** ** Validity of sections, subsections and keys *)

Definition ValidIniSection (s : bytes) : bool :=
  (0 <? length s)%nat && (-1 =? IndexFunc s (fun r => negb (isKeyChar r))).

Definition ValidIniSubsection (s : bytes) : bool :=
  forallb (fun b => negb ((rune_of_byte b =? ch_nl) || (rune_of_byte b =? ch_nul))) s.

Definition ValidIniKey (s : bytes) : bool :=
  match s with
  | [] => false
  | b0 :: _ =>
    isAlpha (rune_of_byte b0) && (-1 =? IndexFunc s (fun r => negb (isKeyChar r)))
  end.

(** ** Sections *)

Record IniSection := mkIniSection {
  Section_ : bytes;
  Subsection : option bytes
}.

#[global] Instance IniSection_eq_dec : EqDecision IniSection.
Proof. solve_decision. Defined.

(** A [*IniSection] is an [option IniSection]; [None] is the nil pointer. *)
Definition IniSection_Valid (s : option IniSection) : bool :=
  match s with
  | None => true
  | Some s =>
    if negb (ValidIniSection (Section_ s)) then false
    else match Subsection s with
         | None => true
         | Some sub => ValidIniSubsection sub
         end
  end.

(** Values a Go panic can carry out of this package, other than a
    [ParseError]. *)
Inductive Panic :=
| PanicIllegalSubsectionChar        (* "illegal character in IniSection Subsection" *)
| PanicIllegalSection (rendered : bytes)  (* "illegal INI section %s" *)
| PanicIllegalKey (key : bytes)     (* "illegal INI key %q" *)
| PanicNilDeref                     (* nil pointer dereference *)
| PanicIndexOutOfRange.             (* runtime error: index out of range *)

(** The subsection loop of [IniSection.String]; [None] is the panic on a
    newline or NUL. *)
Fixpoint escapeSubsection (sub : bytes) : option bytes :=
  match sub with
  | [] => Some []
  | b :: t =>
    let c := rune_of_byte b in
    if (c =? ch_nl) || (c =? ch_nul) then None
    else
      match escapeSubsection t with
      | None => None
      | Some r =>
        if (c =? ch_bslash) || (c =? ch_quote) then Some (x5c :: b :: r)
        else Some (b :: r)
      end
  end.

Definition IniSection_String (s : option IniSection) : Panic + bytes :=
  match s with
  | None => inr []
  | Some s =>
    match Subsection s with
    | Some sub =>
      match escapeSubsection sub with
      | None => inl PanicIllegalSubsectionChar
      | Some e => inr (lit "[" ++ Section_ s ++ lit " " ++ [x22] ++ e ++ [x22] ++ lit "]")
      end
    | None => inr (lit "[" ++ Section_ s ++ lit "]")
    end
  end.

Definition IniSection_Eq (s s2 : option IniSection) : bool :=
  match s, s2 with
  | None, None => true
  | None, _ | _, None => false
  | Some a, Some b =>
    if negb (bytes_eqb (Section_ a) (Section_ b)) then false
    else match Subsection a, Subsection b with
         | None, None => true
         | None, _ | _, None => false
         | Some x, Some y => bytes_eqb x y
         end
  end.

Definition IniQKey (s : option IniSection) (key : bytes) : Panic + bytes :=
  if negb (IniSection_Valid s) then
    match IniSection_String s with
    | inl p => inl p
    | inr str => inl (PanicIllegalSection str)
    end
  else if negb (ValidIniKey key) then inl (PanicIllegalKey key)
  else
    match s with
    | None => inr key
    | Some sec =>
      match Subsection sec with
      | None => inr (Section_ sec ++ lit "." ++ key)
      | Some sub => inr (Section_ sec ++ lit "." ++ sub ++ lit "." ++ key)
      end
    end.

(** ** Parser data *)

Record IniRange := mkIniRange {
  StartIndex : nat;
  EndIndex : nat;
  PrevEndIndex : nat;
  Input : bytes
}.

Record IniItem := mkIniItem {
  ItemSection : option IniSection;
  Key : bytes;
  Value : option bytes;
  ItemRange : IniRange
}.

Definition IniItem_Val (ii : IniItem) : bytes :=
  match Value ii with
  | None => []
  | Some v => v
  end.

Definition IniItem_QKey (ii : IniItem) : Panic + bytes :=
  IniQKey (ItemSection ii) (Key ii).

Record IniSecStart := mkIniSecStart {
  SecSection : IniSection;
  SecRange : IniRange
}.

(** The values of Go's [error] interface that a sink hook can return:
    [BadKey], [BadValue], or any other error, each with its [Error()]
    string. *)
Inductive error :=
| BadKey (msg : bytes)
| BadValue (msg : bytes)
| OtherError (msg : bytes).

Definition error_Error (e : error) : bytes :=
  match e with
  | BadKey m | BadValue m | OtherError m => m
  end.

Record ParseError := mkParseError {
  File : bytes;
  Lineno : nat;
  Colno : nat;
  Msg : bytes
}.

(** [%d] on a non-negative int. *)
Definition fmt_d (n : nat) : bytes := lit (pretty n).

(** [%c] on a rune below [0x800] (the parser only formats byte values):
    its UTF-8 encoding. *)
Definition fmt_c (c : Z) : bytes :=
  if c <? 128 then [byte_of_rune c]
  else [byte_of_rune (Z.lor 192 (Z.shiftr c 6)); byte_of_rune (Z.lor 128 (Z.land c 63))].

Definition ParseError_Error (err : ParseError) : bytes :=
  if bytes_eqb (File err) [] then
    fmt_d (Lineno err) ++ lit ":" ++ fmt_d (Colno err) ++ lit ": " ++ Msg err
  else
    File err ++ lit ":" ++ fmt_d (Lineno err) ++ lit ":" ++ fmt_d (Colno err)
      ++ lit ": " ++ Msg err.

(** [ParseErrors.Error]: the loop writes a newline before every error but
    the first. *)
Fixpoint ParseErrors_Error_from (first : bool) (err : list ParseError) : bytes :=
  match err with
  | [] => []
  | e :: rest =>
    (if first then [] else [x0a]) ++ ParseError_Error e
      ++ ParseErrors_Error_from false rest
  end.

Definition ParseErrors_Error (err : list ParseError) : bytes :=
  ParseErrors_Error_from true err.

Record position := mkPos {
  index : nat;
  lineno : nat;
  colno : nat
}.

(** ** The sink interface *)

(** What a hook call can do: return (with the sink's new state and Go's
    [error], nil being [None]) or panic. *)
Inductive HookRes (T : Type) :=
| HookOk (s : T) (err : option error)
| HookPanic (p : Panic).
Arguments HookOk {T} s err.
Arguments HookPanic {T} p.

(** [IniSink] with its optional methods; a sink without [Section], [Done]
    or [Init] gets the no-op that [newParser] installs. *)
Class IniSink (T : Type) := {
  sink_Item : IniItem -> T -> HookRes T;
  sink_Section : IniSecStart -> T -> HookRes T;
  sink_Done : IniRange -> T -> Panic + T;
  sink_Init : T -> T
}.

(** ** The parser state and its monad *)

Record iniParse (T : Type) := mkParse {
  pos : position;
  input : bytes;
  file : bytes;
  sec : option IniSection;
  prevEnd : nat;
  sink : T
}.
Arguments mkParse {T}.
Arguments pos {T}.
Arguments input {T}.
Arguments file {T}.
Arguments sec {T}.
Arguments prevEnd {T}.
Arguments sink {T}.

Definition set_pos {T} (p : position) (l : iniParse T) : iniParse T :=
  mkParse p (input l) (file l) (sec l) (prevEnd l) (sink l).
Definition set_sec {T} (s : option IniSection) (l : iniParse T) : iniParse T :=
  mkParse (pos l) (input l) (file l) s (prevEnd l) (sink l).
Definition set_prevEnd {T} (n : nat) (l : iniParse T) : iniParse T :=
  mkParse (pos l) (input l) (file l) (sec l) n (sink l).
Definition set_sink {T} (s : T) (l : iniParse T) : iniParse T :=
  mkParse (pos l) (input l) (file l) (sec l) (prevEnd l) s.

(** Outcome of running a piece of the parser: a normal return, a
    [ParseError] panic (the state is kept: [recover] goes on with it), any
    other panic, or the model's fuel running out. *)
Inductive Res (T A : Type) :=
| Ok (a : A) (l : iniParse T)
| Throw (e : ParseError) (l : iniParse T)
| Crash (p : Panic)
| OutOfFuel.
Arguments Ok {T A} a l.
Arguments Throw {T A} e l.
Arguments Crash {T A} p.
Arguments OutOfFuel {T A}.

Definition Parser (T A : Type) := iniParse T -> Res T A.

Definition retP {T A} (a : A) : Parser T A := fun l => Ok a l.

Definition bindP {T A B} (m : Parser T A) (k : A -> Parser T B) : Parser T B :=
  fun l =>
    match m l with
    | Ok a l' => k a l'
    | Throw e l' => Throw e l'
    | Crash p => Crash p
    | OutOfFuel => OutOfFuel
    end.

Declare Scope parser_scope.
Delimit Scope parser_scope with parser.
Notation "x <- m ;; k" := (bindP m (fun x => k))
  (at level 100, m at next level, right associativity) : parser_scope.
Notation "m >> k" := (bindP m (fun _ => k))
  (at level 100, right associativity) : parser_scope.
Local Open Scope parser_scope.

Definition gets {T A} (f : iniParse T -> A) : Parser T A := fun l => Ok (f l) l.
Definition modify {T} (f : iniParse T -> iniParse T) : Parser T unit :=
  fun l => Ok tt (f l).
Definition state {T A} (f : iniParse T -> A * iniParse T) : Parser T A :=
  fun l => let '(a, l') := f l in Ok a l'.
Definition crash {T A} (p : Panic) : Parser T A := fun _ => Crash p.
Definition when {T} (b : bool) (m : Parser T unit) : Parser T unit :=
  if b then m else retP tt.

Definition throwAt {T A} (p : position) (msg : bytes) : Parser T A :=
  fun l => Throw (mkParseError (file l) (lineno p + 1) (colno p + 1) msg) l.

Definition throw {T A} (msg : bytes) : Parser T A :=
  fun l => throwAt (pos l) msg l.

(** ** Cursor primitives *)

Section Cursor.
Context {T : Type}.
Implicit Types l : iniParse T.

Definition peek l : Z :=
  match input l !! index (pos l) with
  | Some b => rune_of_byte b
  | None => eofRune
  end.

(** [at(n)]: the bound check is [n > len(l.input)], so [n = len(l.input)]
    reaches the indexing and panics. *)
Definition at_ (n : nat) l : Panic + Z :=
  let n := (n + index (pos l))%nat in
  if (length (input l) <? n)%nat then inr eofRune
  else match input l !! n with
       | Some b => inr (rune_of_byte b)
       | None => inl PanicIndexOutOfRange
       end.

Definition remaining l : nat := (length (input l) - index (pos l))%nat.

(** One step of the loop of [skip]: the line and column after byte [b]. *)
Definition lineCol (lc : nat * nat) (b : byte) : nat * nat :=
  let c := rune_of_byte b in
  if c =? ch_nl then (S (fst lc), 0%nat)
  else if c =? ch_tab then (fst lc, (snd lc + (8 - snd lc mod tabwidth))%nat)
  else (fst lc, S (snd lc)).

Definition skip (n : nat) l : iniParse T :=
  let n := if (remaining l <? n)%nat then remaining l else n in
  let i := index (pos l) in
  let lc := foldl lineCol (lineno (pos l), colno (pos l)) (take n (drop i (input l))) in
  set_pos (mkPos (i + n) (fst lc) (snd lc)) l.

Definition take_ (n : nat) l : bytes * iniParse T :=
  let i := index (pos l) in
  let l' := skip n l in
  (take (index (pos l') - i) (drop i (input l)), l').

Definition match_ (text : bytes) l : bool * iniParse T :=
  let n := length text in
  if (n <=? remaining l)%nat
     && bytes_eqb (take n (drop (index (pos l)) (input l))) text
  then (true, skip n l)
  else (false, l).

(** Number of leading bytes of [s] satisfying [fn]. *)
Fixpoint span (fn : Z -> bool) (s : bytes) : nat :=
  match s with
  | b :: t => if fn (rune_of_byte b) then S (span fn t) else O
  | [] => O
  end.

Definition skipWhile (fn : Z -> bool) l : bool * iniParse T :=
  let n := span fn (drop (index (pos l)) (input l)) in
  if (0 <? n)%nat then (true, skip n l) else (false, l).

(** [bytes.IndexByte]. *)
Fixpoint IndexByte (s : bytes) (c : Z) : option nat :=
  match s with
  | [] => None
  | b :: t => if rune_of_byte b =? c then Some O else S <$> IndexByte t c
  end.

Definition skipTo (c : Z) l : bool * iniParse T :=
  match IndexByte (drop (index (pos l)) (input l)) c with
  | Some i => (true, skip i l)
  | None => (false, skip (remaining l) l)
  end.

Definition takeWhile (fn : Z -> bool) l : bytes * iniParse T :=
  let i := index (pos l) in
  let l' := snd (skipWhile fn l) in
  (take (index (pos l') - i) (drop i (input l)), l').

Definition isWS (r : Z) : bool := (r =? ch_sp) || (r =? ch_tab) || (r =? ch_cr).

Definition skipWS l : bool * iniParse T := skipWhile isWS l.

Definition getKey l : bytes * iniParse T := takeWhile isKeyChar l.

End Cursor.

(** ** Grammar *)

Section Grammar.
Context {T : Type} `{IniSink T}.

(** The scanning loop of [getSubsection] over byte index [i]. *)
Inductive SubLoop :=
| SubExit (i : nat) (ret : bytes)   (* the loop is left, by [break] or by its condition *)
| SubNil                            (* [return nil] inside the loop *)
| SubCrash                          (* index out of range *)
| SubFuel.

Fixpoint subsectionLoop (fuel : nat) (inp : bytes) (i : nat) (ret : bytes) : SubLoop :=
  if (i + 1 <? length inp)%nat then
    match fuel with
    | O => SubFuel
    | S fuel' =>
      match inp !! i with
      | None => SubCrash
      | Some b =>
        let c := rune_of_byte b in
        if c =? ch_quote then SubExit i ret
        else if (c =? ch_nul) || (c =? ch_nl) then SubNil
        else if c =? ch_bslash then
          match inp !! (i + 1)%nat with
          | None => SubCrash
          | Some nb =>
            let nc := rune_of_byte nb in
            subsectionLoop fuel' inp (i + 2)
              (if (nc =? ch_bslash) || (nc =? ch_quote) then ret ++ [nb] else ret)
          end
        else subsectionLoop fuel' inp (i + 1) (ret ++ [b])
      end
    end
  else SubExit i ret.

Definition getSubsection : Parser T (option bytes) := fun l =>
  if (remaining l <? 2)%nat || negb (peek l =? ch_quote) then Ok None l
  else
    match subsectionLoop (length (input l)) (input l) (index (pos l) + 1) [] with
    | SubFuel => OutOfFuel
    | SubCrash => Crash PanicIndexOutOfRange
    | SubNil => Ok None l
    | SubExit i ret =>
      match input l !! i with
      | None => Crash PanicIndexOutOfRange
      | Some b =>
        if negb (rune_of_byte b =? ch_quote) then Ok None l
        else Ok (Some ret) (skip (i + 1 - index (pos l)) l)
      end
    end.

Definition getSection : Parser T (option IniSection) :=
  m <- state (match_ (lit "[")) ;;
  if negb m then retP None
  else
    name <- state getKey ;;
    when (length name =? 0)%nat (throw (lit "expected section name after '['")) >>
    m2 <- state (match_ (lit "]")) ;;
    if m2 then retP (Some (mkIniSection name None))
    else
      ws <- state skipWS ;;
      when (negb ws)
        (throw (lit "expected ']' or space followed by quoted subsection")) >>
      sub <- getSubsection ;;
      when (bool_decide (sub = None))
        (throw (lit "expected quoted subsection after space")) >>
      m3 <- state (match_ (lit "]")) ;;
      when (negb m3) (throw (lit "expected ']'")) >>
      retP (Some (mkIniSection name sub)).

(** ** Escaping of values *)

Definition needQuotes (val : bytes) : bool :=
  match val with
  | [] => false
  | b0 :: _ =>
    if (rune_of_byte b0 =? ch_sp) || (rune_of_byte b0 =? ch_tab) then true
    else
      existsb (fun b =>
                 let c := rune_of_byte b in
                 (c <? ch_sp) || (127 <=? c)
                 || (c =? ch_quote) || (c =? ch_hash) || (c =? ch_semi) || (c =? ch_bslash))
              val
  end.

Definition escapeByte (b : byte) : bytes :=
  let c := rune_of_byte b in
  if (c =? ch_quote) || (c =? ch_bslash) then [x5c; b]
  else if c =? ch_bs then lit "\b"
  else if c =? ch_nl then lit "\n"
  else if c =? ch_tab then lit "\t"
  else [b].

Definition EscapeIniValue (val : bytes) : bytes :=
  if negb (needQuotes val) then val
  else [x22] ++ concat (map escapeByte val) ++ [x22].

(** The [for] loop of [getValue]; one unit of fuel per iteration. *)
Fixpoint getValueLoop (fuel : nat) (ret : bytes) (escape inquote : bool)
  : Parser T bytes :=
  match fuel with
  | O => fun _ => OutOfFuel
  | S fuel' =>
    c <- gets peek ;;
    if escape then
      if (c =? ch_quote) || (c =? ch_bslash) then
        modify (skip 1) >> getValueLoop fuel' (ret ++ [byte_of_rune c]) false inquote
      else if c =? 110 then
        modify (skip 1) >> getValueLoop fuel' (ret ++ [x0a]) false inquote
      else if c =? 116 then
        modify (skip 1) >> getValueLoop fuel' (ret ++ [x09]) false inquote
      else if c =? 98 then
        modify (skip 1) >> getValueLoop fuel' (ret ++ [x08]) false inquote
      else if c =? ch_nl then
        modify (skip 1) >> getValueLoop fuel' ret false inquote
      else
        let invalid : Parser T bytes :=
          when (c =? eofRune) (throw (lit "incomplete escape sequence at EOF")) >>
          throw (lit "invalid escape sequence " ++ [x5c] ++ fmt_c c) in
        if c =? ch_cr then
          fun l =>
            match at_ 1 l with
            | inl p => Crash p
            | inr a =>
              if a =? ch_nl then
                (modify (skip 1) >> modify (skip 1) >>
                 getValueLoop fuel' ret false inquote) l
              else invalid l
            end
        else invalid
    else if c =? ch_bslash then
      modify (skip 1) >> getValueLoop fuel' ret true inquote
    else if c =? ch_quote then
      modify (skip 1) >> getValueLoop fuel' ret false (negb inquote)
    else
      fun l =>
        let crlf : Panic + bool :=
          if (c =? ch_nl) || (c =? eofRune) then inr true
          else if c =? ch_cr then
            match at_ 1 l with
            | inl p => inl p
            | inr a => inr (a =? ch_nl)
            end
          else inr false in
        match crlf with
        | inl p => Crash p
        | inr true =>
          (when (c =? ch_cr) (modify (skip 1)) >>
           when inquote (throw (lit "missing close quotes")) >>
           modify (skip 1) >>
           retP ret) l
        | inr false =>
          if negb inquote && ((c =? ch_hash) || (c =? ch_semi)) then
            (state (skipTo ch_nl) >> modify (skip 1) >>
             getValueLoop fuel' ret false inquote) l
          else
            (modify (skip 1) >>
             getValueLoop fuel' (ret ++ [byte_of_rune c]) false inquote) l
        end
  end.

Definition getValue : Parser T bytes := fun l =>
  getValueLoop (S (remaining l)) [] false false l.

Definition getRange (startIdx : nat) (l : iniParse T) : IniRange * iniParse T :=
  let prev := prevEnd l in
  (mkIniRange startIdx (index (pos l)) prev (input l),
   set_prevEnd (index (pos l)) l).

Definition callHook (h : T -> HookRes T) : Parser T (option error) := fun l =>
  match h (sink l) with
  | HookOk s e => Ok e (set_sink s l)
  | HookPanic p => Crash p
  end.

(** The body of [do1], before the deferred [recover]. *)
Definition do1_body : Parser T unit :=
  startindex <- gets (fun l => index (pos l)) ;;
  state skipWS >>
  keypos <- gets pos ;;
  osec <- getSection ;;
  match osec with
  | Some s =>
    state skipWS >>
    state (match_ [x0a]) >>
    modify (set_sec (Some s)) >>
    r <- state (getRange startindex) ;;
    err <- callHook (sink_Section (mkIniSecStart s r)) ;;
    match err with
    | Some e => throwAt keypos (error_Error e)
    | None => retP tt
    end
  | None =>
    c <- gets peek ;;
    if isAlpha c then
      k <- state getKey ;;
      state skipWS >>
      m <- state (match_ (lit "=")) ;;
      vv <- (if negb m then
               c <- gets peek ;;
               when (negb (c =? ch_nl) && negb (c =? ch_hash)
                     && negb (c =? ch_semi) && negb (c =? eofRune))
                 (throw (lit "Expected '=' after " ++ k)) >>
               valpos <- gets pos ;;
               found <- state (skipTo ch_nl) ;;
               when found (modify (skip 1)) >>
               retP (None, valpos)
             else
               state skipWS >>
               valpos <- gets pos ;;
               val <- getValue ;;
               retP (Some val, valpos)) ;;
      cursec <- gets sec ;;
      r <- state (getRange startindex) ;;
      err <- callHook (sink_Item (mkIniItem cursec k (fst vv) r)) ;;
      match err with
      | Some (BadKey ke) => throwAt keypos ke
      | Some e => throwAt (snd vv) (error_Error e)
      | None => retP tt
      end
    else if (c =? ch_hash) || (c =? ch_semi) || (c =? ch_nl) then
      state (skipTo ch_nl) >> modify (skip 1)
    else throw (lit "Expected section or key")
  end.

(** [do1]: a [ParseError] panic is recovered, becomes the result, and the
    cursor goes to the next newline; any other panic goes on. *)
Definition do1 : Parser T (option ParseError) := fun l =>
  match do1_body l with
  | Ok _ l' => Ok None l'
  | Throw pe l' => Ok (Some pe) (snd (skipTo ch_nl l'))
  | Crash p => Crash p
  | OutOfFuel => OutOfFuel
  end.

(** The loop of [do]; one unit of fuel per iteration. *)
Fixpoint doLoop (fuel : nat) (err : list ParseError) : Parser T (list ParseError) :=
  fun l =>
    if (0 <? remaining l)%nat then
      match fuel with
      | O => OutOfFuel
      | S fuel' =>
        (e <- do1 ;;
         doLoop fuel' (match e with Some pe => err ++ [pe] | None => err end)) l
      end
    else Ok err l.

(** [do] returns Go's [error]: [None] is nil, [Some errs] a [ParseErrors]. *)
Definition do_ : Parser T (option (list ParseError)) :=
  n <- gets (fun l => length (input l)) ;;
  err <- doLoop n [] ;;
  i <- gets (fun l => index (pos l)) ;;
  r <- state (getRange i) ;;
  (fun l => match sink_Done r (sink l) with
            | inl p => Crash p
            | inr s => Ok tt (set_sink s l)
            end) >>
  retP (match err with [] => None | _ => Some err end).

Definition newParser (snk : T) (path : bytes) (inp : bytes) : iniParse T :=
  mkParse (mkPos 0 0 0) inp path None 0%nat (sink_Init snk).

Definition IniParseContents (snk : T) (filename : bytes) (contents : bytes)
  : Res T (option (list ParseError)) :=
  do_ (newParser snk filename contents).

End Grammar.

Local Close Scope parser_scope.

(** ** The editor: a fragment list with element handles *)

(** A [*list.Element] of [container/list] is its allocation number; [None]
    is the nil pointer.  The list holds the elements that are in it, in
    order, each with its [Value]; an element that was removed is in no list
    any more ([e.list == nil]) and keeps its number. *)
Abbreviation Elem := (option nat).

Record IniEditor := mkEditor {
  fragments : list (nat * bytes);
  nextElem : nat;
  secEnd : gmap bytes Elem;
  values : gmap bytes (list Elem);
  lastSec : option IniSection
}.

Definition set_fragments (f : list (nat * bytes)) (ie : IniEditor) : IniEditor :=
  mkEditor f (nextElem ie) (secEnd ie) (values ie) (lastSec ie).
Definition set_nextElem (n : nat) (ie : IniEditor) : IniEditor :=
  mkEditor (fragments ie) n (secEnd ie) (values ie) (lastSec ie).
Definition set_secEnd (m : gmap bytes Elem) (ie : IniEditor) : IniEditor :=
  mkEditor (fragments ie) (nextElem ie) m (values ie) (lastSec ie).
Definition set_values (m : gmap bytes (list Elem)) (ie : IniEditor) : IniEditor :=
  mkEditor (fragments ie) (nextElem ie) (secEnd ie) m (lastSec ie).
Definition set_lastSec (s : option IniSection) (ie : IniEditor) : IniEditor :=
  mkEditor (fragments ie) (nextElem ie) (secEnd ie) (values ie) s.

(** An editor method returns or panics; either way the editor, mutated in
    place, is left in some state. *)
Inductive EdRes (A : Type) :=
| Done (a : A) (ie : IniEditor)
| Panicked (p : Panic) (ie : IniEditor).
Arguments Done {A} a ie.
Arguments Panicked {A} p ie.

Definition Ed (A : Type) := IniEditor -> EdRes A.

Definition retE {A} (a : A) : Ed A := fun ie => Done a ie.
Definition bindE {A B} (m : Ed A) (k : A -> Ed B) : Ed B :=
  fun ie =>
    match m ie with
    | Done a ie' => k a ie'
    | Panicked p ie' => Panicked p ie'
    end.

Declare Scope ed_scope.
Delimit Scope ed_scope with ed.
Notation "x <- m ;; k" := (bindE m (fun x => k))
  (at level 100, m at next level, right associativity) : ed_scope.
Notation "m >> k" := (bindE m (fun _ => k))
  (at level 100, right associativity) : ed_scope.
Local Open Scope ed_scope.

Definition getsE {A} (f : IniEditor -> A) : Ed A := fun ie => Done (f ie) ie.
Definition modifyE (f : IniEditor -> IniEditor) : Ed unit := fun ie => Done tt (f ie).
Definition panicE {A} (p : Panic) : Ed A := fun ie => Panicked p ie.
Definition liftE {A} (r : Panic + A) : Ed A :=
  match r with
  | inl p => panicE p
  | inr a => retE a
  end.

(** *** [container/list] *)

Definition inList (id : nat) (fr : list (nat * bytes)) : bool :=
  existsb (fun x => (fst x =? id)%nat) fr.

Fixpoint insertAfter (x : nat * bytes) (mark : nat) (fr : list (nat * bytes))
  : list (nat * bytes) :=
  match fr with
  | [] => []
  | y :: t => if (fst y =? mark)%nat then y :: x :: t else y :: insertAfter x mark t
  end.

Fixpoint insertBefore (x : nat * bytes) (mark : nat) (fr : list (nat * bytes))
  : list (nat * bytes) :=
  match fr with
  | [] => []
  | y :: t => if (fst y =? mark)%nat then x :: y :: t else y :: insertBefore x mark t
  end.

Definition removeElem (id : nat) (fr : list (nat * bytes)) : list (nat * bytes) :=
  filter (fun x => fst x ≠ id) fr.

Definition setElemValue (id : nat) (v : bytes) (fr : list (nat * bytes))
  : list (nat * bytes) :=
  map (fun x => if (fst x =? id)%nat then (id, v) else x) fr.

Definition PushBack (v : bytes) : Ed Elem := fun ie =>
  let id := nextElem ie in
  Done (Some id) (set_nextElem (S id) (set_fragments (fragments ie ++ [(id, v)]) ie)).

(** [InsertAfter] and [InsertBefore] read [mark.list]: a nil mark panics,
    a mark that is not in the list makes them return nil. *)
Definition InsertAfter (v : bytes) (mark : Elem) : Ed Elem := fun ie =>
  match mark with
  | None => Panicked PanicNilDeref ie
  | Some m =>
    if inList m (fragments ie) then
      let id := nextElem ie in
      Done (Some id)
           (set_nextElem (S id) (set_fragments (insertAfter (id, v) m (fragments ie)) ie))
    else Done None ie
  end.

Definition InsertBefore (v : bytes) (mark : Elem) : Ed Elem := fun ie =>
  match mark with
  | None => Panicked PanicNilDeref ie
  | Some m =>
    if inList m (fragments ie) then
      let id := nextElem ie in
      Done (Some id)
           (set_nextElem (S id) (set_fragments (insertBefore (id, v) m (fragments ie)) ie))
    else Done None ie
  end.

(** [Remove] reads [e.list]: nil panics, an element that is not in the
    list is left alone. *)
Definition Remove (e : Elem) : Ed unit := fun ie =>
  match e with
  | None => Panicked PanicNilDeref ie
  | Some id => Done tt (set_fragments (removeElem id (fragments ie)) ie)
  end.

(** [Back()] with the [Value] of the element it returns. *)
Definition Back (ie : IniEditor) : option (nat * bytes) := last (fragments ie).

Fixpoint forE {A} (xs : list A) (f : A -> Ed unit) : Ed unit :=
  match xs with
  | [] => retE tt
  | x :: t => f x >> forE t f
  end.

(** *** Serialization *)

(** [WriteTo] on a writer whose [Write] appends and reports how many bytes
    it took, with an error or not; the loop stops at the first error. *)
Fixpoint WriteToFrom {W : Type} (write : bytes -> W -> W * nat * bool)
    (fr : list (nat * bytes)) (n : nat) (w : W) : W * nat * bool :=
  match fr with
  | [] => (w, n, false)
  | e :: t =>
    let '(w', k, failed) := write (snd e) w in
    if failed then (w', (n + k)%nat, true)
    else WriteToFrom write t (n + k) w'
  end.

Definition IniEditor_WriteTo {W : Type} (write : bytes -> W -> W * nat * bool)
    (ie : IniEditor) (w : W) : W * nat * bool :=
  WriteToFrom write (fragments ie) 0 w.

(** [strings.Builder.Write]. *)
Definition Builder_Write (p : bytes) (b : bytes) : bytes * nat * bool :=
  (b ++ p, length p, false).

Definition IniEditor_String (ie : IniEditor) : bytes :=
  fst (fst (IniEditor_WriteTo Builder_Write ie [])).

(** *** Edits *)

Definition lookupValues (k : bytes) (ie : IniEditor) : list Elem :=
  default [] (values ie !! k).

Definition IniEditor_Del (isec : option IniSection) (key : bytes) : Ed unit :=
  k <- liftE (IniQKey isec key) ;;
  vs <- getsE (lookupValues k) ;;
  forE vs Remove >>
  modifyE (fun ie => set_values (delete k (values ie)) ie).

Definition iniLine (key value : bytes) : bytes :=
  [x09] ++ key ++ lit " = " ++ EscapeIniValue value ++ [x0a].

Definition IniEditor_newItem (isec : option IniSection) (key value : bytes) : Ed Elem :=
  ss <- liftE (IniSection_String isec) ;;
  found <- getsE (fun ie => secEnd ie !! ss) ;;
  e <- match found with
       | Some e => retE e
       | None =>
         back <- getsE Back ;;
         let ssb := ss ++ [x0a] in
         e <- match back with
              | Some (id, []) =>
                modifyE (fun ie => set_fragments (setElemValue id ssb (fragments ie)) ie) >>
                retE (Some id)
              | _ => PushBack ssb
              end ;;
         e <- InsertAfter [] e ;;
         modifyE (fun ie => set_secEnd (<[ss := e]> (secEnd ie)) ie) >>
         retE e
       end ;;
  e <- InsertBefore (iniLine key value) e ;;
  k <- liftE (IniQKey isec key) ;;
  modifyE (fun ie => set_values (<[k := lookupValues k ie ++ [e]]> (values ie)) ie) >>
  retE e.

Definition IniEditor_Set (isec : option IniSection) (key value : bytes) : Ed unit :=
  k <- liftE (IniQKey isec key) ;;
  vs <- getsE (lookupValues k) ;;
  match last vs with
  | Some lastv =>
    e <- InsertAfter (iniLine key value) lastv ;;
    modifyE (fun ie => set_values (<[k := [e]]> (values ie)) ie) >>
    forE vs Remove
  | None =>
    IniEditor_newItem isec key value >> retE tt
  end.

Definition IniEditor_Add (isec : option IniSection) (key value : bytes) : Ed unit :=
  k <- liftE (IniQKey isec key) ;;
  vs <- getsE (lookupValues k) ;;
  match last vs with
  | Some lastv =>
    e <- InsertAfter (iniLine key value) lastv ;;
    modifyE (fun ie => set_values (<[k := vs ++ [e]]> (values ie)) ie)
  | None =>
    IniEditor_newItem isec key value >> retE tt
  end.

(** *** The sink hooks *)

(** [Input[lo:hi]], which panics unless [lo <= hi <= len(Input)]. *)
Definition slice (inp : bytes) (lo hi : nat) : Ed bytes :=
  if (lo <=? hi)%nat && (hi <=? length inp)%nat
  then retE (take (hi - lo) (drop lo inp))
  else panicE PanicIndexOutOfRange.

Definition appendItem (r : IniRange) : Ed (Elem * Elem) :=
  e1 <- (if (PrevEndIndex r <? StartIndex r)%nat
         then s <- slice (Input r) (PrevEndIndex r) (StartIndex r) ;; PushBack s
         else retE None) ;;
  e2 <- (if (StartIndex r <? EndIndex r)%nat
         then s <- slice (Input r) (StartIndex r) (EndIndex r) ;; PushBack s
         else retE None) ;;
  retE (match e1 with None => e2 | Some _ => e1 end, e2).

Definition IniEditor_Section (ss : IniSecStart) : Ed (option error) :=
  ee <- appendItem (SecRange ss) ;;
  last_ <- getsE lastSec ;;
  sig <- liftE (IniSection_String last_) ;;
  modifyE (fun ie => set_secEnd (<[sig := fst ee]> (secEnd ie)) ie) >>
  modifyE (set_lastSec (Some (SecSection ss))) >>
  retE None.

Definition IniEditor_Item (ii : IniItem) : Ed (option error) :=
  k <- liftE (IniItem_QKey ii) ;;
  ee <- appendItem (ItemRange ii) ;;
  modifyE (fun ie => set_values (<[k := lookupValues k ie ++ [snd ee]]> (values ie)) ie) >>
  retE None.

Definition IniEditor_Done (r : IniRange) : Ed unit :=
  ee <- appendItem r ;;
  e <- match fst ee with
       | None => PushBack []
       | Some _ => retE (fst ee)
       end ;;
  last_ <- getsE lastSec ;;
  sig <- liftE (IniSection_String last_) ;;
  modifyE (fun ie => set_secEnd (<[sig := e]> (secEnd ie)) ie) >>
  modifyE (set_lastSec None).

Definition hookOfEd (m : Ed (option error)) (ie : IniEditor) : HookRes IniEditor :=
  match m ie with
  | Done err ie' => HookOk ie' err
  | Panicked p _ => HookPanic p
  end.

#[global] Instance IniEditor_IniSink : IniSink IniEditor := {
  sink_Item ii := hookOfEd (IniEditor_Item ii);
  sink_Section ss := hookOfEd (IniEditor_Section ss);
  sink_Done r ie :=
    match IniEditor_Done r ie with
    | Done _ ie' => inr ie'
    | Panicked p _ => inl p
    end;
  sink_Init ie := ie
}.

(** The editor [NewIniEdit] starts from: an empty list and empty maps. *)
Definition emptyEditor : IniEditor := mkEditor [] 0 ∅ ∅ None.

(** [NewIniEdit] returns the editor and [do]'s error. *)
Definition NewIniEdit (filename contents : bytes)
  : Res IniEditor (IniEditor * option (list ParseError)) :=
  match IniParseContents emptyEditor filename contents with
  | Ok err l => Ok (sink l, err) l
  | Throw e l => Throw e l
  | Crash p => Crash p
  | OutOfFuel => OutOfFuel
  end.

(** ** Edit scripts *)

Inductive EditError := ErrInvalidNumArgs | ErrInvalidSection.

(** [IniEdits] is a slice of closures over the editor. *)
Abbreviation IniEdits := (list (Ed unit)).

Definition IniEdits_Del (ie : IniEdits) (sec : bytes) (args : list bytes)
  : option EditError * IniEdits :=
  let queue s k :=
    if negb (IniSection_Valid (Some s)) then (Some ErrInvalidSection, ie)
    else (None, ie ++ [IniEditor_Del (Some s) k]) in
  match args with
  | [k] => queue (mkIniSection sec None) k
  | [sub; k] => queue (mkIniSection sec (Some sub)) k
  | _ => (Some ErrInvalidNumArgs, ie)
  end.

Definition IniEdits_Add (ie : IniEdits) (sec : bytes) (args : list bytes)
  : option EditError * IniEdits :=
  let queue s k v :=
    if negb (IniSection_Valid (Some s)) then (Some ErrInvalidSection, ie)
    else (None, ie ++ [IniEditor_Add (Some s) k v]) in
  match args with
  | [k; v] => queue (mkIniSection sec None) k v
  | [sub; k; v] => queue (mkIniSection sec (Some sub)) k v
  | _ => (Some ErrInvalidNumArgs, ie)
  end.

Definition IniEdits_Set (ie : IniEdits) (sec : bytes) (args : list bytes)
  : option EditError * IniEdits :=
  let queue s k v :=
    if negb (IniSection_Valid (Some s)) then (Some ErrInvalidSection, ie)
    else (None, ie ++ [IniEditor_Set (Some s) k v]) in
  match args with
  | [k; v] => queue (mkIniSection sec None) k v
  | [sub; k; v] => queue (mkIniSection sec (Some sub)) k v
  | _ => (Some ErrInvalidNumArgs, ie)
  end.

(** [Apply]: the batch is set to nil after the loop, so a panic in an
    operation leaves it as it was. *)
Definition IniEdits_Apply (ie : IniEdits) (target : IniEditor)
  : IniEdits * EdRes unit :=
  match forE ie (fun f => f) target with
  | Done _ t' => ([], Done tt t')
  | Panicked p t' => (ie, Panicked p t')
  end.

(** ** Predicates used to state the properties *)

(** An ASCII letter, an ASCII digit or ['-'], by its code. *)
Definition asciiLetterDigitHyphen (b : byte) : bool :=
  let c := rune_of_byte b in
  ((65 <=? c) && (c <=? 90)) || ((97 <=? c) && (c <=? 122))
  || ((48 <=? c) && (c <=? 57)) || (c =? 45).


(** The argument lists of the edit scripts, as the documentation of
    [IniEdits.Del], [IniEdits.Add] and [IniEdits.Set] gives them:
    [(key)] or [(subsec, key)], and [(key, value)] or
    [(subsec, key, value)]. *)
Definition keyArgs (args : list bytes) : option (option bytes * bytes) :=
  match args with
  | [k] => Some (None, k)
  | [sub; k] => Some (Some sub, k)
  | _ => None
  end.

Definition keyValueArgs (args : list bytes) : option (option bytes * bytes * bytes) :=
  match args with
  | [k; v] => Some (None, k, v)
  | [sub; k; v] => Some (Some sub, k, v)
  | _ => None
  end.

(** What appending an operation [op] for section [s] does to batch [ie]. *)
Definition queued (ie : IniEdits) (s : IniSection) (op : Ed unit)
  : option EditError * IniEdits :=
  if IniSection_Valid (Some s) then (None, ie ++ [op])
  else (Some ErrInvalidSection, ie).

(** The operations of a batch run one after the other on [t], each on the
    state the one before it left, and reach [t']. *)
Inductive runsInOrder : list (Ed unit) -> IniEditor -> IniEditor -> Prop :=
| runs_nil t : runsInOrder [] t t
| runs_cons f fs t t' t'' :
    f t = Done tt t' -> runsInOrder fs t' t'' -> runsInOrder (f :: fs) t t''.

(** The input of example 4 of the specification. *)
Definition example4_input : bytes := lit "= foo" ++ [x0a].


(** The cursor is within the input. *)
Definition inBounds {T} (l : iniParse T) : Prop :=
  (index (pos l) <= length (input l))%nat.

(** [l'] is [l] with the cursor moved forward, and nothing else changed. *)
Record moved {T} (l l' : iniParse T) : Prop := mkMoved {
  moved_input : input l' = input l;
  moved_file : file l' = file l;
  moved_sec : sec l' = sec l;
  moved_prevEnd : prevEnd l' = prevEnd l;
  moved_sink : sink l' = sink l;
  moved_index : (index (pos l) <= index (pos l'))%nat;
  moved_bound : (index (pos l') <= length (input l'))%nat
}.

(** A piece of the parser that only moves the cursor, raises its
    [ParseError]s with the file name of the parser, and whose loops end. *)
(** A [ParseError] raised by parser [l]: it carries the parser's file name
    and a 1-based line and column. *)
Definition errorOf {T} (l : iniParse T) (e : ParseError) : Prop :=
  File e = file l /\ (1 <= Lineno e)%nat /\ (1 <= Colno e)%nat.

Definition cursorRes {T A} (l : iniParse T) (r : Res T A) : Prop :=
  match r with
  | Ok _ l' => moved l l'
  | Throw e l' => moved l l' /\ errorOf l e
  | Crash _ => True
  | OutOfFuel => False
  end.

Definition cursorOnly {T A} (m : Parser T A) : Prop :=
  forall l, inBounds l -> cursorRes l (m l).


(** *** The shape of one statement *)

Section Shape.
Context {T : Type} `{IniSink T}.

(** The range a hook gets for the statement read from [l] to [l1]. *)
Definition stmtRange (l l1 : iniParse T) : IniRange :=
  mkIniRange (index (pos l)) (index (pos l1)) (prevEnd l) (input l).

(** The hook a statement calls: [Section] for a header (the current
    section is then the new one), [Item] for a key, in the current
    section. *)
Inductive hookOf (l l1 : iniParse T) : (T -> HookRes T) -> Prop :=
| hook_section s :
    sec l1 = Some s ->
    hookOf l l1 (sink_Section (mkIniSecStart s (stmtRange l l1)))
| hook_item k v :
    sec l1 = sec l ->
    hookOf l l1 (sink_Item (mkIniItem (sec l) k v (stmtRange l l1))).

(** The parser after a hook returned with sink state [s']. *)
Definition afterHook (l1 : iniParse T) (s' : T) : iniParse T :=
  set_sink s' (set_prevEnd (index (pos l1)) l1).

(** What the body of [do1] can do from [l]: skip a comment or blank line;
    raise a syntax error, having consumed a byte or standing on a byte
    that is not a newline; read a statement up to [l1] and call its hook,
    whose error, if any, is raised; or panic. *)
Inductive stmtShape (l : iniParse T) : Res T unit -> Prop :=
| shape_skip l' :
    moved l l' -> (index (pos l) < index (pos l'))%nat ->
    stmtShape l (Ok tt l')
| shape_throw e l' :
    moved l l' -> errorOf l e ->
    ((index (pos l) < index (pos l'))%nat
     \/ (peek l' <> ch_nl /\ peek l' <> eofRune)) ->
    stmtShape l (Throw e l')
| shape_hook_ok l1 hook s' :
    input l1 = input l -> file l1 = file l -> prevEnd l1 = prevEnd l ->
    sink l1 = sink l -> (index (pos l) < index (pos l1))%nat -> inBounds l1 ->
    hookOf l l1 hook -> hook (sink l) = HookOk s' None ->
    stmtShape l (Ok tt (afterHook l1 s'))
| shape_hook_err l1 hook s' err e :
    input l1 = input l -> file l1 = file l -> prevEnd l1 = prevEnd l ->
    sink l1 = sink l -> (index (pos l) < index (pos l1))%nat -> inBounds l1 ->
    hookOf l l1 hook -> hook (sink l) = HookOk s' (Some err) ->
    errorOf l e -> Msg e = error_Error err ->
    stmtShape l (Throw e (afterHook l1 s'))
| shape_crash p : stmtShape l (Crash p).

End Shape.


(** *** The statement loop *)

(** [statements n l errs l']: the loop of [do] runs [n] statements from
    [l], each with input left, and stops at [l'], where none is left;
    [errs] are the errors of the statements that failed, in order. *)
Inductive statements {T} `{IniSink T}
  : nat -> iniParse T -> list ParseError -> iniParse T -> Prop :=
| stmts_end l :
    remaining l = 0%nat -> statements 0 l [] l
| stmts_ok l l1 l' n errs :
    (0 < remaining l)%nat -> do1 l = Ok None l1 ->
    statements n l1 errs l' -> statements (S n) l errs l'
| stmts_err l l1 l' n pe errs :
    (0 < remaining l)%nat -> do1 l = Ok (Some pe) l1 ->
    statements n l1 errs l' -> statements (S n) l (pe :: errs) l'.

(** The line [file:line:col: message] of an error, and the line
    [line:col: message]. *)
Definition lineWithFile (e : ParseError) : bytes :=
  File e ++ lit ":" ++ fmt_d (Lineno e) ++ lit ":" ++ fmt_d (Colno e)
    ++ lit ": " ++ Msg e.

Definition lineWithoutFile (e : ParseError) : bytes :=
  fmt_d (Lineno e) ++ lit ":" ++ fmt_d (Colno e) ++ lit ": " ++ Msg e.

(** Lines joined by newlines. *)
Fixpoint joinLines (ls : list bytes) : bytes :=
  match ls with
  | [] => []
  | [x] => x
  | x :: rest => x ++ [x0a] ++ joinLines rest
  end.

(** Go's [error] from a list of errors: nil when there is none. *)
Definition errorsResult (errs : list ParseError) : option (list ParseError) :=
  match errs with
  | [] => None
  | _ => Some errs
  end.


(** The line an error renders as: without the file name when it is
    empty. *)
Definition lineOfError (e : ParseError) : bytes :=
  if bytes_eqb (File e) [] then lineWithoutFile e else lineWithFile e.

(** An error raised where the parser stands: it reports the line and the
    column of the cursor, counted from 1. *)
Definition raisedAt {T} (l : iniParse T) (e : ParseError) : Prop :=
  Lineno e = (lineno (pos l) + 1)%nat /\ Colno e = (colno (pos l) + 1)%nat.

(** Between [l] and [l'] only the cursor changed: no hook was called and
    no statement was completed, so the sink, the current section and the
    end of the previous statement are the same. *)
Definition untouched {T} (l l' : iniParse T) : Prop :=
  input l' = input l /\ file l' = file l /\ sink l' = sink l
  /\ sec l' = sec l /\ prevEnd l' = prevEnd l.

(** A piece of the parser that calls no hook, and raises its errors where
    it stands. *)
Definition raisedRes {T A} (l : iniParse T) (r : Res T A) : Prop :=
  match r with
  | Ok _ l' => untouched l l'
  | Throw e l' => untouched l l' /\ raisedAt l' e
  | Crash _ | OutOfFuel => True
  end.

Definition raisesHere {T A} (m : Parser T A) : Prop :=
  forall l, raisedRes l (m l).

(** An error that a hook returned: a statement was read from [l] to
    [l1], its hook was called on the range of the statement and returned
    [err], which is raised as [e]; [l0] is the parser after the hook. *)
Definition hookError {T} `{IniSink T} (l : iniParse T) (e : ParseError)
    (l0 : iniParse T) : Prop :=
  exists l1 (hook : T -> HookRes T) s' err,
    input l1 = input l /\ prevEnd l1 = prevEnd l /\ sink l1 = sink l
    /\ hookOf l l1 hook
    /\ hook (sink l) = HookOk s' (Some err)
    /\ Msg e = error_Error err
    /\ l0 = afterHook l1 s'.

(** A sink that records the keys of the items it is given, and refuses
    the key [a]. *)
#[global] Instance refusing_IniSink : IniSink (list bytes) := {
  sink_Item ii s :=
    if bytes_eqb (Key ii) (lit "a") then HookOk s (Some (BadValue (lit "refused")))
    else HookOk (s ++ [Key ii]) None;
  sink_Section _ s := HookOk s None;
  sink_Done _ s := inr s;
  sink_Init s := s
}.

(** Three well-formed lines. *)
Definition three_lines : bytes :=
  lit "a=1" ++ [x0a] ++ lit "b=2" ++ [x0a] ++ lit "c=3" ++ [x0a].

(** A parser on a small file with a malformed line and a malformed
    header, feeding an editor. *)
Definition sample_input : bytes :=
  lit "= foo" ++ [x0a] ++ lit "[core]" ++ [x0a; x09] ++ lit "foo = 1" ++ [x0a]
    ++ lit "[a" ++ [x0a; x09] ++ lit "bar" ++ [x0a].

Definition sampleParser : iniParse IniEditor :=
  newParser emptyEditor (lit "f.ini") sample_input.


(** The bytes of an editor's fragments, in sequence order. *)
Definition fragmentBytes (ie : IniEditor) : bytes :=
  concat (map snd (fragments ie)).

(** While an editor is being built: its fragments are the input up to the
    end of the last statement handed to a hook. *)
Definition coversPrefix (l : iniParse IniEditor) : Prop :=
  (prevEnd l <= index (pos l))%nat
  /\ fragmentBytes (sink l) = take (prevEnd l) (input l).


(** The input of examples 5 and 6 of the specification, with two
    realizations of [core.foo]. *)
Definition example6_input : bytes :=
  lit "[core]" ++ [x0a; x09] ++ lit "foo = 1" ++ [x0a; x09] ++ lit "foo = 2" ++ [x0a].

Definition core : option IniSection := Some (mkIniSection (lit "core") None).


(** *** Reading an escaped value back *)

(** The input from the cursor on is [text]. *)
Definition atText {T} (l : iniParse T) (text : bytes) : Prop :=
  drop (index (pos l)) (input l) = text.

(** The byte an escape character stands for. *)
Definition unescaped (c : Z) : option byte :=
  if ((c =? 34) || (c =? 92))%Z then Some (byte_of_rune c)
  else if (c =? 110)%Z then Some x0a
  else if (c =? 116)%Z then Some x09
  else if (c =? 98)%Z then Some x08
  else None.

(** A byte that [needQuotes] lets through. *)
Definition plainByte (b : byte) : Prop :=
  let c := rune_of_byte b in
  (32 <= c < 127)%Z /\ c <> 34%Z /\ c <> 35%Z /\ c <> 59%Z /\ c <> 92%Z.

(** The text starts with a byte that is not a newline. *)
Definition headNotNL (text : bytes) : Prop :=
  exists t0 tl, text = t0 :: tl /\ rune_of_byte t0 <> 10%Z.


(** *** Editor states *)

(** The element is not nil and is in the list. *)
Definition liveIn (fr : list (nat * bytes)) (e : Elem) : Prop :=
  match e with
  | Some id => id ∈ map fst fr
  | None => False
  end.

(** The invariant of the editor: the elements of the list were allocated
    before [nextElem]; every entry of the key index is a non-empty list of
    elements that are in the list; the entries of different keys share no
    element; and every insertion point is an element that is in the list
    and is indexed under no key. *)
Definition wfEditor (ie : IniEditor) : Prop :=
  Forall (fun x => (fst x < nextElem ie)%nat) (fragments ie)
  /\ map_Forall (fun _ vs => vs <> [] /\ Forall (liveIn (fragments ie)) vs) (values ie)
  /\ map_Forall
       (fun k vs =>
          map_Forall (fun k' vs' => k <> k' -> Forall (fun e => e ∉ vs') vs) (values ie))
       (values ie)
  /\ map_Forall
       (fun _ e => liveIn (fragments ie) e /\ map_Forall (fun _ vs => e ∉ vs) (values ie))
       (secEnd ie).

#[global] Instance liveIn_dec fr e : Decision (liveIn fr e).
Proof. destruct e; cbn; apply _. Defined.

#[global] Instance wfEditor_dec ie : Decision (wfEditor ie).
Proof. unfold wfEditor. apply _. Defined.

(** The list without the elements [vs]. *)
Definition withoutElems (vs : list Elem) (fr : list (nat * bytes)) : list (nat * bytes) :=
  filter (fun x => Some (fst x) ∉ vs) fr.

(** The editor built from the input of example 6. *)
Definition example6_editor : IniEditor :=
  match NewIniEdit (lit "f.ini") example6_input with
  | Ok (ie, _) _ => ie
  | _ => emptyEditor
  end.


(** What [Del] leaves, for the qualified key [k]. *)
Definition afterDel (k : bytes) (ie : IniEditor) : IniEditor :=
  mkEditor (withoutElems (lookupValues k ie) (fragments ie)) (nextElem ie)
           (secEnd ie) (delete k (values ie)) (lastSec ie).

(** What [Set] leaves when the qualified key [k] is indexed as [vs],
    whose last element stands between [pre] and [post]. *)
Definition afterSet (k : bytes) (vs : list Elem) (pre post : list (nat * bytes))
    (line : bytes)
    (ie : IniEditor) : IniEditor :=
  mkEditor (withoutElems vs pre ++ (nextElem ie, line) :: withoutElems vs post)
           (S (nextElem ie)) (secEnd ie) (<[k := [Some (nextElem ie)]]> (values ie))
           (lastSec ie).


(** What a run returned, if it returned. *)
Definition returned {T A} (r : Res T A) : option A :=
  match r with
  | Ok a _ => Some a
  | _ => None
  end.

(** Build an editor from [contents], which must parse without error,
    apply the edit [m] and serialize; [None] if the parse reports errors
    or anything panics. *)
Definition editAndSerialize (filename contents : bytes) (m : Ed unit) : option bytes :=
  match NewIniEdit filename contents with
  | Ok (ie, None) _ =>
    match m ie with
    | Done _ ie' => Some (IniEditor_String ie')
    | Panicked _ _ => None
    end
  | _ => None
  end.


(** *** Steps of the editor that keep its invariant *)

(** [e] is in the list and indexed under no key. *)
Definition usable (ie : IniEditor) (e : Elem) : Prop :=
  liveIn (fragments ie) e
  /\ forall k vs, values ie !! k = Some vs -> e ∉ vs.

(** [e] is usable and is the insertion point of no section. *)
Definition fresh (ie : IniEditor) (e : Elem) : Prop :=
  usable ie e /\ forall ss e', secEnd ie !! ss = Some e' -> e' <> e.

(** [ie'] has the elements of [ie], maybe more, and the same indices. *)
Definition stable (ie ie' : IniEditor) : Prop :=
  (forall e, liveIn (fragments ie) e -> liveIn (fragments ie') e)
  /\ values ie' = values ie /\ secEnd ie' = secEnd ie /\ lastSec ie' = lastSec ie.

(** The editor states the package can produce: the result of
    [NewIniEdit], whatever the errors, and what [Del], [Set] and [Add]
    make of such a state when they return. *)
Inductive reachable : IniEditor -> Prop :=
| reach_new filename contents ie err l :
    NewIniEdit filename contents = Ok (ie, err) l -> reachable ie
| reach_Del ie isec key ie' :
    reachable ie -> IniEditor_Del isec key ie = Done tt ie' -> reachable ie'
| reach_Set ie isec key value ie' :
    reachable ie -> IniEditor_Set isec key value ie = Done tt ie' -> reachable ie'
| reach_Add ie isec key value ie' :
    reachable ie -> IniEditor_Add isec key value ie = Done tt ie' -> reachable ie'.

(** ** Predicates used to state the further properties *)

(** The bytes on which the parser itself can index out of range: a
    carriage return makes [getValue] call [at(1)], a backslash makes the
    loop of [getSubsection] step by two. *)
Definition crashProne (inp : bytes) : bool :=
  existsb (fun b => (rune_of_byte b =? ch_cr) || (rune_of_byte b =? ch_bslash)) inp.

(** A piece of the parser that only moves the cursor, raises its
    [ParseError]s with the file name of the parser, whose loops end, and
    whose only other panic is an index out of range, on an input with a
    carriage return or a backslash. *)
Definition stepRes {T A} (l : iniParse T) (r : Res T A) : Prop :=
  match r with
  | Ok _ l' => moved l l'
  | Throw e l' => moved l l' /\ errorOf l e
  | Crash p => p = PanicIndexOutOfRange /\ crashProne (input l) = true
  | OutOfFuel => False
  end.

Definition stepOnly {T A} (m : Parser T A) : Prop :=
  forall l, inBounds l -> stepRes l (m l).

Section Outcome.
Context {T : Type} `{IniSink T}.

(** The hook a statement calls: [Section] for a header (the current
    section is then the new one, and it is valid), [Item] for a key, which
    is valid, in the current section. *)
Inductive calledHook (l l1 : iniParse T) : (T -> HookRes T) -> Prop :=
| called_section s :
    sec l1 = Some s -> IniSection_Valid (Some s) = true ->
    calledHook l l1 (sink_Section (mkIniSecStart s (stmtRange l l1)))
| called_item k v :
    sec l1 = sec l -> ValidIniKey k = true ->
    calledHook l l1 (sink_Item (mkIniItem (sec l) k v (stmtRange l l1))).

(** What the body of [do1] does from [l]: it skips a comment or a blank
    line; it raises a syntax error, having consumed a byte or standing on
    a byte that is not a newline; it reads a statement up to [l1] and
    calls its hook, whose error, if any, is raised; or it panics, in the
    hook or with an index out of range on an input with a carriage return
    or a backslash. *)
Inductive stmtOutcome (l : iniParse T) : Res T unit -> Prop :=
| outcome_skip l' :
    moved l l' -> (index (pos l) < index (pos l'))%nat ->
    stmtOutcome l (Ok tt l')
| outcome_throw e l' :
    moved l l' -> errorOf l e ->
    ((index (pos l) < index (pos l'))%nat
     \/ (peek l' <> ch_nl /\ peek l' <> eofRune)) ->
    stmtOutcome l (Throw e l')
| outcome_hook_ok l1 hook s' :
    input l1 = input l -> file l1 = file l -> prevEnd l1 = prevEnd l ->
    sink l1 = sink l -> (index (pos l) < index (pos l1))%nat -> inBounds l1 ->
    calledHook l l1 hook -> hook (sink l) = HookOk s' None ->
    stmtOutcome l (Ok tt (afterHook l1 s'))
| outcome_hook_err l1 hook s' err e :
    input l1 = input l -> file l1 = file l -> prevEnd l1 = prevEnd l ->
    sink l1 = sink l -> (index (pos l) < index (pos l1))%nat -> inBounds l1 ->
    calledHook l l1 hook -> hook (sink l) = HookOk s' (Some err) ->
    errorOf l e -> Msg e = error_Error err ->
    stmtOutcome l (Throw e (afterHook l1 s'))
| outcome_hook_panic l1 hook p :
    input l1 = input l -> file l1 = file l -> prevEnd l1 = prevEnd l ->
    sink l1 = sink l -> (index (pos l) < index (pos l1))%nat -> inBounds l1 ->
    calledHook l l1 hook -> hook (sink l) = HookPanic p ->
    stmtOutcome l (Crash p)
| outcome_index_panic :
    crashProne (input l) = true -> stmtOutcome l (Crash PanicIndexOutOfRange).

End Outcome.

(** A sink none of whose hooks panics. *)
Definition hooksReturn (T : Type) `{IniSink T} : Prop :=
  (forall ii s, exists s' e, sink_Item ii s = HookOk s' e)
  /\ (forall ss s, exists s' e, sink_Section ss s = HookOk s' e)
  /\ (forall r s, exists s', sink_Done r s = inr s').

(** A sink that implements [Item] alone and records the items it is
    given: [newParser] gives such a sink a [Section] and a [Done] that do
    nothing. *)
#[global] Instance recording_IniSink : IniSink (list IniItem) := {
  sink_Item ii s := HookOk (s ++ [ii]) None;
  sink_Section _ s := HookOk s None;
  sink_Done _ s := inr s;
  sink_Init s := s
}.

(** What holds of the parser between two statements when its sink is an
    editor: the previous statement ended at or before the cursor, and the
    current section, which is also the editor's, is valid. *)
Definition editorParse (l : iniParse IniEditor) : Prop :=
  (prevEnd l <= index (pos l))%nat
  /\ IniSection_Valid (sec l) = true
  /\ IniSection_Valid (lastSec (sink l)) = true.

(** The elements of the list are distinct, and were allocated before
    [nextElem]. *)
Definition uniqueIds (ie : IniEditor) : Prop :=
  NoDup (map fst (fragments ie))
  /\ Forall (fun x => (fst x < nextElem ie)%nat) (fragments ie).

(** A step of the editor that keeps the elements distinct. *)
Definition keepsIds {A} (m : Ed A) : Prop :=
  forall ie, uniqueIds ie ->
    match m ie with
    | Done _ ie' => uniqueIds ie'
    | Panicked _ _ => True
    end.

(** An ASCII letter, by its code. *)
Definition asciiLetter (b : byte) : bool :=
  let c := rune_of_byte b in
  ((65 <=? c) && (c <=? 90)) || ((97 <=? c) && (c <=? 122)).

(** An operation of an edit script on a valid section and a valid key. *)
Inductive validEdit : Ed unit -> Prop :=
| valid_Del isec key :
    IniSection_Valid isec = true -> ValidIniKey key = true ->
    validEdit (IniEditor_Del isec key)
| valid_Set isec key value :
    IniSection_Valid isec = true -> ValidIniKey key = true ->
    validEdit (IniEditor_Set isec key value)
| valid_Add isec key value :
    IniSection_Valid isec = true -> ValidIniKey key = true ->
    validEdit (IniEditor_Add isec key value).


(** * Properties *)

(** ** Bytes and runes *)

Lemma rune_of_byte_range (b : byte) : 0 <= rune_of_byte b < 256.
Proof.
  unfold rune_of_byte. pose proof (Byte.to_N_bounded b). lia.
Qed.

Lemma byte_of_rune_of_byte (b : byte) : byte_of_rune (rune_of_byte b) = b.
Proof.
  unfold byte_of_rune. pose proof (rune_of_byte_range b) as Hr.
  rewrite Z.mod_small by lia. unfold rune_of_byte.
  rewrite N2Z.id, Byte.of_to_N. reflexivity.
Qed.

Lemma rune_of_byte_inj (a b : byte) : rune_of_byte a = rune_of_byte b -> a = b.
Proof.
  intros Heq. rewrite <- (byte_of_rune_of_byte a), <- (byte_of_rune_of_byte b).
  now rewrite Heq.
Qed.

Lemma lor_ge_128 (a b : Z) : 128 <= a -> 0 <= b -> 128 <= Z.lor a b.
Proof.
  intros Ha Hb.
  assert (Hnn : 0 <= Z.lor a b) by (apply Z.lor_nonneg; lia).
  assert (Hlog : Z.log2 (Z.lor a b) = Z.max (Z.log2 a) (Z.log2 b))
    by (apply Z.log2_lor; lia).
  assert (H7 : 7 <= Z.log2 a) by (apply Z.log2_le_pow2; lia).
  destruct (Z.eq_dec (Z.lor a b) 0) as [H0 | H0].
  - rewrite H0 in Hlog. change (Z.log2 0) with 0 in Hlog. lia.
  - change 128 with (2 ^ 7). apply Z.log2_le_pow2; lia.
Qed.

Lemma lor_ge_128_r (a b : Z) : 0 <= a -> 128 <= b -> 128 <= Z.lor a b.
Proof. intros. rewrite Z.lor_comm. now apply lor_ge_128. Qed.

(** Clearing bit 5 of a rune outside ASCII leaves it outside ASCII. *)
Lemma ldiff_ge_128 (r : Z) : 128 <= r -> 128 <= Z.ldiff r 32.
Proof.
  intros Hr.
  assert (H7 : 7 <= Z.log2 r) by (apply Z.log2_le_pow2; lia).
  assert (Hbit : Z.testbit (Z.ldiff r 32) (Z.log2 r) = true).
  { rewrite Z.ldiff_spec, Z.bit_log2 by lia.
    change 32 with (2 ^ 5). rewrite Z.pow2_bits_eqb by lia.
    destruct (Z.eqb_spec 5 (Z.log2 r)); [lia | reflexivity]. }
  assert (Hnn : 0 <= Z.ldiff r 32) by (apply Z.ldiff_nonneg; lia).
  destruct (Z.lt_ge_cases (Z.log2 (Z.ldiff r 32)) (Z.log2 r)) as [Hlt | Hge].
  - rewrite Z.bits_above_log2 in Hbit by lia. discriminate.
  - destruct (Z.eq_dec (Z.ldiff r 32) 0) as [H0 | H0].
    + rewrite H0 in Hge. change (Z.log2 0) with 0 in Hge. lia.
    + change 128 with (2 ^ 7). apply Z.log2_le_pow2; lia.
Qed.

Lemma isKeyChar_high (r : Z) : 128 <= r -> isKeyChar r = false.
Proof.
  intros Hr. pose proof (ldiff_ge_128 r Hr). unfold isKeyChar, isAlpha. lia.
Qed.

Lemma isKeyChar_byte (b : byte) :
  isKeyChar (rune_of_byte b) = asciiLetterDigitHyphen b.
Proof. destruct b; reflexivity. Qed.

(** ** UTF-8 decoding never turns a non-ASCII byte into a key character *)

Lemma decodeRune_ascii (b : byte) (t : bytes) :
  rune_of_byte b < 128 -> decodeRune b t = (rune_of_byte b, 1%nat).
Proof.
  intros Hb. unfold decodeRune.
  destruct (Z.ltb_spec (rune_of_byte b) 128); [reflexivity | lia].
Qed.

Lemma shiftl_land_nonneg (a m n : Z) :
  0 <= m -> 0 <= n -> 0 <= Z.shiftl (Z.land a m) n.
Proof.
  intros Hm Hn. apply Z.shiftl_nonneg. apply Z.land_nonneg. now right.
Qed.

Ltac absurd_leb :=
  match goal with
  | H : (_ <=? _)%nat = _ |- _ => vm_compute in H; discriminate H
  end.

Ltac arith_mod :=
  cbn [Z.pow Z.pow_pos Pos.iter Z.mul Pos.mul] in *;
  Z.to_euclidean_division_equations; lia.

Lemma decodeRune_high (b : byte) (t : bytes) :
  128 <= rune_of_byte b -> 128 <= fst (decodeRune b t).
Proof.
  intros Hb. unfold decodeRune, cont_in, RuneError.
  pose proof (rune_of_byte_range b) as Hr.
  set (s0 := rune_of_byte b) in *.
  destruct (Z.ltb_spec s0 128); [lia |].
  destruct (Z.ltb_spec s0 194); [cbn; lia |].
  destruct (Z.ltb_spec 244 s0); [cbn; lia |].
  cbn [orb].
  assert (H31 : Z.land s0 31 = s0 mod 32) by (apply (Z.land_ones s0 5); lia).
  assert (H15 : Z.land s0 15 = s0 mod 16) by (apply (Z.land_ones s0 4); lia).
  assert (H7 : Z.land s0 7 = s0 mod 8) by (apply (Z.land_ones s0 3); lia).
  destruct t as [| b1 t1]; [repeat case_match; cbn; lia |].
  pose proof (rune_of_byte_range b1) as Hr1.
  set (s1 := rune_of_byte b1) in *.
  assert (H63 : Z.land s1 63 = s1 mod 64) by (apply (Z.land_ones s1 6); lia).
  assert (Hc : forall c, 0 <= Z.land c 63) by (intros; apply Z.land_nonneg; lia).
  destruct (Z.ltb_spec s0 224).
  - repeat case_match; cbn [fst]; try lia; try absurd_leb.
    apply lor_ge_128; [| apply Hc].
    rewrite Z.shiftl_mul_pow2, H31 by lia. arith_mod.
  - destruct (Z.ltb_spec s0 240).
    + repeat case_match; cbn [fst]; try lia; try absurd_leb; subst.
      all: apply lor_ge_128; [| apply Hc].
      all: rewrite !Z.shiftl_mul_pow2, H15, H63 by lia.
      all: try (apply lor_ge_128_r; arith_mod).
      all: apply lor_ge_128; arith_mod.
    + repeat case_match; cbn [fst]; try lia; try absurd_leb; subst.
      all: apply lor_ge_128; [| apply Hc].
      all: apply lor_ge_128; [| apply shiftl_land_nonneg; lia].
      all: rewrite !Z.shiftl_mul_pow2, H7, H63 by lia.
      all: try (apply lor_ge_128_r; arith_mod).
      all: apply lor_ge_128; arith_mod.
Qed.

(** [IndexFunc] with "not a key character" finds nothing exactly when
    every byte is a key character. *)
Lemma indexFuncFrom_keychars (s : bytes) (i : nat) :
  indexFuncFrom (fun r => negb (isKeyChar r)) s 0 i = -1
  <-> Forall (fun b => isKeyChar (rune_of_byte b) = true) s.
Proof.
  revert i. induction s as [| b t IH]; intros i; cbn [indexFuncFrom].
  - split; [constructor | reflexivity].
  - destruct (Z_lt_le_dec (rune_of_byte b) 128) as [Hlo | Hhi].
    + rewrite decodeRune_ascii by assumption.
      destruct (isKeyChar (rune_of_byte b)) eqn:Hk; cbn [negb].
      * change (1 - 1)%nat with 0%nat. rewrite IH. split.
        -- intros Ht. now constructor.
        -- intros Hall. now inversion Hall.
      * split; [lia |]. intros Hall. inversion Hall; congruence.
    + pose proof (decodeRune_high b t Hhi) as Hr.
      destruct (decodeRune b t) as [r size]. cbn [fst] in Hr.
      rewrite (isKeyChar_high r Hr). cbn [negb].
      split; [lia |]. intros Hall. inversion Hall as [| ? ? Hb _]; subst.
      rewrite (isKeyChar_high _ Hhi) in Hb. discriminate.
Qed.

Lemma IndexFunc_keychars (s : bytes) :
  IndexFunc s (fun r => negb (isKeyChar r)) = -1
  <-> Forall (fun b => isKeyChar (rune_of_byte b) = true) s.
Proof. apply indexFuncFrom_keychars. Qed.

Lemma ValidIniSection_Forall (s : bytes) :
  ValidIniSection s = true
  <-> s <> [] /\ Forall (fun b => isKeyChar (rune_of_byte b) = true) s.
Proof.
  unfold ValidIniSection. rewrite andb_true_iff, Z.eqb_eq, Nat.ltb_lt.
  rewrite <- IndexFunc_keychars. destruct s; cbn [length]; split.
  - lia.
  - intros [Hne _]. congruence.
  - intros [_ Hi]. split; [discriminate | lia].
  - intros [_ Hi]. split; [lia | lia].
Qed.

Lemma ValidIniKey_Forall (s : bytes) :
  ValidIniKey s = true
  <-> (exists b t, s = b :: t /\ isAlpha (rune_of_byte b) = true)
      /\ Forall (fun b => isKeyChar (rune_of_byte b) = true) s.
Proof.
  unfold ValidIniKey. destruct s as [| b t].
  - split; [discriminate | intros [(? & ? & ? & _) _]; discriminate].
  - rewrite andb_true_iff, Z.eqb_eq, <- IndexFunc_keychars. split.
    + intros [Ha Hi]. split; [eauto | lia].
    + intros [(b' & t' & Heq & Ha) Hi]. inversion Heq; subst. split; [assumption | lia].
Qed.

(** C8: [ValidIniSection s] holds exactly when [s] is non-empty and each of
    its characters is an ASCII letter, an ASCII digit or ['-']; the empty
    string is not a valid section name; and no section, whatever its name,
    renders as the empty signature of the absent (preamble) section. *)
Theorem C8_ValidIniSection_iff :
  (forall s : bytes,
      ValidIniSection s = true
      <-> s <> [] /\ Forall (fun b => asciiLetterDigitHyphen b = true) s)
  /\ ValidIniSection [] = false
  /\ (forall s : IniSection,
         IniSection_String (Some s) <> IniSection_String None).
Proof.
  split; [| split].
  - intros s. rewrite ValidIniSection_Forall.
    assert (Heq : Forall (fun b => isKeyChar (rune_of_byte b) = true) s
                  <-> Forall (fun b => asciiLetterDigitHyphen b = true) s).
    { apply Forall_iff. intros b. now rewrite isKeyChar_byte. }
    now rewrite Heq.
  - reflexivity.
  - intros [name sub]. unfold IniSection_String. cbn [Subsection Section_].
    destruct sub as [sub |]; [destruct (escapeSubsection sub) |]; discriminate.
Qed.

(** ** Edit scripts *)

Local Open Scope ed_scope.

Lemma forE_app {A} (xs ys : list A) (f : A -> Ed unit) (t : IniEditor) :
  forE (xs ++ ys) f t =
  match forE xs f t with
  | Done _ t' => forE ys f t'
  | Panicked p t' => Panicked p t'
  end.
Proof.
  revert t. induction xs as [| x xs IH]; intros t; cbn [forE app].
  - reflexivity.
  - unfold bindE. destruct (f x t) as [[] t' | p t']; [apply IH | reflexivity].
Qed.

Lemma runsInOrder_forE (fs : list (Ed unit)) (t t' : IniEditor) :
  runsInOrder fs t t' <-> forE fs (fun f => f) t = Done tt t'.
Proof.
  split.
  - induction 1 as [| f fs t t1 t2 Hf _ IH]; cbn [forE]; [reflexivity |].
    unfold bindE. now rewrite Hf.
  - revert t. induction fs as [| f fs IH]; intros t; cbn [forE].
    + unfold retE. intros [= <-]. constructor.
    + unfold bindE. destruct (f t) as [[] t1 | p t1] eqn:Hf; [| discriminate].
      intros Hrest. econstructor; eauto.
Qed.

Lemma keyArgs_None (args : list bytes) :
  keyArgs args = None <-> length args <> 1%nat /\ length args <> 2%nat.
Proof.
  destruct args as [| a [| b [| c r]]]; cbn; split; try discriminate; try lia;
    intros; try reflexivity; lia.
Qed.

Lemma keyValueArgs_None (args : list bytes) :
  keyValueArgs args = None <-> length args <> 2%nat /\ length args <> 3%nat.
Proof.
  destruct args as [| a [| b [| c [| d r]]]]; cbn; split; try discriminate; try lia;
    intros; try reflexivity; lia.
Qed.

(** C7: appending to an edit script returns [ErrInvalidNumArgs] on a wrong
    number of arguments and [ErrInvalidSection] on an invalid section or
    subsection, leaving the batch as it was in both cases, and queues the
    operation otherwise; [Apply] returns with the batch empty exactly when
    the queued operations, run in append order on the target, all return,
    and then the target is the state the last one left. *)
Theorem C7_edit_script_validation :
  (forall (ie : IniEdits) (sec : bytes) (args : list bytes),
      IniEdits_Del ie sec args =
      match keyArgs args with
      | None => (Some ErrInvalidNumArgs, ie)
      | Some (sub, k) =>
        queued ie (mkIniSection sec sub) (IniEditor_Del (Some (mkIniSection sec sub)) k)
      end)
  /\ (forall (ie : IniEdits) (sec : bytes) (args : list bytes),
      IniEdits_Set ie sec args =
      match keyValueArgs args with
      | None => (Some ErrInvalidNumArgs, ie)
      | Some (sub, k, v) =>
        queued ie (mkIniSection sec sub) (IniEditor_Set (Some (mkIniSection sec sub)) k v)
      end)
  /\ (forall (ie : IniEdits) (sec : bytes) (args : list bytes),
      IniEdits_Add ie sec args =
      match keyValueArgs args with
      | None => (Some ErrInvalidNumArgs, ie)
      | Some (sub, k, v) =>
        queued ie (mkIniSection sec sub) (IniEditor_Add (Some (mkIniSection sec sub)) k v)
      end)
  /\ (forall args : list bytes,
      (keyArgs args = None <-> length args <> 1%nat /\ length args <> 2%nat)
      /\ (keyValueArgs args = None <-> length args <> 2%nat /\ length args <> 3%nat))
  /\ (forall (ie : IniEdits) (target target' : IniEditor),
      runsInOrder ie target target'
      <-> IniEdits_Apply ie target = ([], Done tt target')).
Proof.
  split; [| split; [| split; [| split]]].
  - intros ie sec args. unfold IniEdits_Del, queued.
    destruct args as [| a [| b [| c r]]]; cbn [keyArgs]; try reflexivity;
      now destruct (IniSection_Valid _).
  - intros ie sec args. unfold IniEdits_Set, queued.
    destruct args as [| a [| b [| c [| d r]]]]; cbn [keyValueArgs]; try reflexivity;
      now destruct (IniSection_Valid _).
  - intros ie sec args. unfold IniEdits_Add, queued.
    destruct args as [| a [| b [| c [| d r]]]]; cbn [keyValueArgs]; try reflexivity;
      now destruct (IniSection_Valid _).
  - intros args. split; [apply keyArgs_None | apply keyValueArgs_None].
  - intros ie target target'. rewrite runsInOrder_forE. unfold IniEdits_Apply.
    destruct (forE ie _ target) as [[] t1 | p t1]; split; intros [=]; subst; reflexivity.
Qed.

Lemma IniQKey_bad_key (s : option IniSection) (key : bytes) :
  IniSection_Valid s = true -> ValidIniKey key = false ->
  IniQKey s key = inl (PanicIllegalKey key).
Proof. intros Hs Hk. unfold IniQKey. now rewrite Hs, Hk. Qed.

(** C9: the edit-script operations accept a key that fails [ValidIniKey]
    when the section is valid (they return nil and queue the operation);
    [Apply] on a batch ending in such an operation never returns normally
    and leaves the batch in place; when the operations queued before it all
    return, the panic is [IniQKey]'s "illegal INI key" and the target is
    left in the state those operations produced. *)
Theorem C9_key_not_validated
    (ie : IniEdits) (sec key value : bytes) (sub : option bytes) (target : IniEditor) :
  ValidIniKey key = false ->
  IniSection_Valid (Some (mkIniSection sec sub)) = true ->
  let s := Some (mkIniSection sec sub) in
  let subArg := match sub with Some x => [x] | None => [] end in
  IniEdits_Del ie sec (subArg ++ [key]) = (None, ie ++ [IniEditor_Del s key])
  /\ IniEdits_Set ie sec (subArg ++ [key; value])
     = (None, ie ++ [IniEditor_Set s key value])
  /\ IniEdits_Add ie sec (subArg ++ [key; value])
     = (None, ie ++ [IniEditor_Add s key value])
  /\ forall op : Ed unit,
      op ∈ [IniEditor_Del s key; IniEditor_Set s key value; IniEditor_Add s key value] ->
      exists p t',
        IniEdits_Apply (ie ++ [op]) target = (ie ++ [op], Panicked p t')
        /\ forall t1, runsInOrder ie target t1 -> p = PanicIllegalKey key /\ t' = t1.
Proof.
  intros Hk Hs s subArg.
  split; [| split; [| split]].
  - unfold IniEdits_Del, subArg, s. destruct sub; cbn [app]; now rewrite Hs.
  - unfold IniEdits_Set, subArg, s. destruct sub; cbn [app]; now rewrite Hs.
  - unfold IniEdits_Add, subArg, s. destruct sub; cbn [app]; now rewrite Hs.
  - intros op Hop.
    assert (Hpanic : forall t, op t = Panicked (PanicIllegalKey key) t).
    { intros t. unfold s in Hop.
      rewrite !elem_of_cons, elem_of_nil in Hop.
      destruct Hop as [-> | [-> | [-> | []]]];
        unfold IniEditor_Del, IniEditor_Set, IniEditor_Add, bindE, liftE;
        now rewrite (IniQKey_bad_key _ _ Hs Hk). }
    unfold IniEdits_Apply. rewrite forE_app.
    destruct (forE ie (fun f => f) target) as [[] t1 | p t1] eqn:Hrun.
    + cbn [forE]. unfold bindE. rewrite Hpanic.
      exists (PanicIllegalKey key), t1. split; [reflexivity |].
      intros t2 Ht2. apply runsInOrder_forE in Ht2. split; congruence.
    + exists p, t1. split; [reflexivity |].
      intros t2 Ht2. apply runsInOrder_forE in Ht2. congruence.
Qed.

Lemma C9_witness :
  ValidIniKey (lit "1bad") = false
  /\ IniEdits_Del [] (lit "core") [lit "1bad"]
     = (None, [IniEditor_Del (Some (mkIniSection (lit "core") None)) (lit "1bad")])
  /\ exists p t',
      IniEdits_Apply [IniEditor_Del (Some (mkIniSection (lit "core") None)) (lit "1bad")]
                     (mkEditor [] 0 ∅ ∅ None)
      = ([IniEditor_Del (Some (mkIniSection (lit "core") None)) (lit "1bad")],
         Panicked p t')
      /\ p = PanicIllegalKey (lit "1bad") /\ t' = mkEditor [] 0 ∅ ∅ None.
Proof.
  assert (Hk : ValidIniKey (lit "1bad") = false) by (vm_compute; reflexivity).
  assert (Hs : IniSection_Valid (Some (mkIniSection (lit "core") None)) = true)
    by (vm_compute; reflexivity).
  destruct (C9_key_not_validated [] (lit "core") (lit "1bad") (lit "v") None
              (mkEditor [] 0 ∅ ∅ None) Hk Hs) as (HD & _ & _ & Hap).
  split; [exact Hk |]. split; [exact HD |].
  destruct (Hap (IniEditor_Del (Some (mkIniSection (lit "core") None)) (lit "1bad")))
    as (p & t' & Happ & Hrest).
  - apply list_elem_of_here.
  - exists p, t'. split; [exact Happ |]. apply Hrest. constructor.
Defined.

(** ** Example 4: a line starting with ['='] *)

Local Close Scope ed_scope.

Lemma returned_Some {T A} (r : Res T A) (a : A) :
  returned r = Some a -> exists l, r = Ok a l.
Proof. destruct r; cbn; intros [=]. subst. eauto. Qed.

(** C5: parsing ["= foo\n"] records exactly one syntax error, at line 1,
    column 1; its message is ["Expected section or key"], with a capital
    E.  The statement loop gives it for every sink and file name, and
    [NewIniEdit] returns it. *)
Theorem C5_example4_one_error :
  (forall (T : Type) (HS : IniSink T) (snk : T) (filename : bytes),
      returned (doLoop (length example4_input) []
                       (newParser snk filename example4_input))
      = Some [mkParseError filename 1 1 (lit "Expected section or key")])
  /\ (forall filename : bytes,
      snd <$> returned (NewIniEdit filename example4_input)
      = Some (Some [mkParseError filename 1 1 (lit "Expected section or key")])).
Proof.
  split.
  - intros T HS snk filename. vm_compute. reflexivity.
  - intros filename. vm_compute. reflexivity.
Qed.

Lemma C5_counterexample :
  snd <$> returned (NewIniEdit (lit "f.ini") example4_input)
  <> Some (Some [mkParseError (lit "f.ini") 1 1 (lit "expected section or key")]).
Proof. vm_compute. discriminate. Qed.

(** ** The cursor primitives only move the cursor *)

Section CursorFacts.
Context {T : Type}.
Implicit Types l : iniParse T.
Local Open Scope nat_scope.

Lemma moved_refl l : inBounds l -> moved l l.
Proof. intros Hb. now constructor. Qed.

Lemma moved_trans l1 l2 l3 : moved l1 l2 -> moved l2 l3 -> moved l1 l3.
Proof.
  intros [] []. constructor; try congruence; lia.
Qed.

Lemma moved_inBounds l l' : moved l l' -> inBounds l'.
Proof. intros []. assumption. Qed.

Lemma index_skip (n : nat) l :
  index (pos (skip n l)) = index (pos l) + Nat.min n (remaining l).
Proof.
  unfold skip. cbn [pos set_pos index].
  destruct (Nat.ltb_spec (remaining l) n); lia.
Qed.

Lemma skip_moved (n : nat) l : inBounds l -> moved l (skip n l).
Proof.
  intros Hb. constructor; try reflexivity.
  - rewrite index_skip. lia.
  - rewrite index_skip. unfold inBounds, remaining in *. cbn. lia.
Qed.

Lemma peek_drop l :
  peek l = match drop (index (pos l)) (input l) with
           | b :: _ => rune_of_byte b
           | [] => eofRune
           end.
Proof.
  unfold peek.
  replace (input l !! index (pos l)) with (drop (index (pos l)) (input l) !! 0)
    by (rewrite lookup_drop; f_equal; lia).
  now destruct (drop _ _).
Qed.

Lemma peek_eof l : peek l = eofRune <-> remaining l = 0.
Proof.
  unfold peek, remaining. destruct (input l !! index (pos l)) as [b |] eqn:Hl.
  - apply lookup_lt_Some in Hl. pose proof (rune_of_byte_range b).
    unfold eofRune. split; lia.
  - apply lookup_ge_None in Hl. split; [lia | reflexivity].
Qed.

Lemma peek_range l : (-1 <= peek l < 256)%Z.
Proof.
  unfold peek. destruct (input l !! _) as [b |].
  - pose proof (rune_of_byte_range b). lia.
  - unfold eofRune. lia.
Qed.

Lemma match_spec (text : bytes) l b l' :
  inBounds l -> match_ text l = (b, l') ->
  moved l l'
  /\ (b = true -> index (pos l') = index (pos l) + length text)
  /\ (b = false -> l' = l).
Proof.
  intros Hb. unfold match_.
  destruct (Nat.leb_spec (length text) (remaining l)) as [Hle | Hgt]; cbn [andb].
  - destruct (bytes_eqb _ text); intros [= <- <-].
    + split; [now apply skip_moved |]. split; [| discriminate].
      intros _. rewrite index_skip. lia.
    + split; [now apply moved_refl |]. split; [discriminate | reflexivity].
  - intros [= <- <-]. split; [now apply moved_refl |].
    split; [discriminate | reflexivity].
Qed.

Lemma span_le (fn : Z -> bool) (s : bytes) : span fn s <= length s.
Proof. induction s as [| b t IH]; cbn; [lia |]. destruct (fn _); cbn; lia. Qed.

Lemma span_pos (fn : Z -> bool) (s : bytes) :
  0 < span fn s <-> exists b t, s = b :: t /\ fn (rune_of_byte b) = true.
Proof.
  destruct s as [| b t]; cbn.
  - split; [lia | intros (? & ? & ? & _); discriminate].
  - destruct (fn (rune_of_byte b)) eqn:Hf; split.
    + eauto.
    + lia.
    + lia.
    + intros (b' & t' & [= <- <-] & Hb). congruence.
Qed.

Lemma skipWhile_spec (fn : Z -> bool) l b l' :
  inBounds l -> skipWhile fn l = (b, l') ->
  moved l l'
  /\ (b = true -> index (pos l) < index (pos l'))
  /\ (b = false -> l' = l)
  /\ (fn (peek l) = true -> peek l <> eofRune -> index (pos l) < index (pos l')).
Proof.
  intros Hb. unfold skipWhile.
  pose proof (span_le fn (drop (index (pos l)) (input l))) as Hle.
  rewrite length_drop in Hle.
  pose proof (span_pos fn (drop (index (pos l)) (input l))) as Hpos.
  destruct (Nat.ltb_spec 0 (span fn (drop (index (pos l)) (input l)))) as [Hgt | Hz];
    intros [= <- <-].
  - assert (Hadv : index (pos l) < index (pos (skip (span fn (drop (index (pos l)) (input l))) l))).
    { rewrite index_skip. unfold remaining. lia. }
    split; [now apply skip_moved |]. repeat split; try discriminate; auto.
  - split; [now apply moved_refl |]. repeat split; try discriminate; auto.
    intros Hfn Hne. exfalso.
    assert (Hex : exists b t, drop (index (pos l)) (input l) = b :: t
                              /\ fn (rune_of_byte b) = true).
    { rewrite peek_drop in Hfn, Hne.
      destruct (drop (index (pos l)) (input l)) as [| b t]; [congruence | eauto]. }
    apply Hpos in Hex. lia.
Qed.

Lemma IndexByte_spec (s : bytes) (c : Z) :
  match IndexByte s c with
  | Some i => i < length s /\ (rune_of_byte <$> s !! i) = Some c
              /\ (forall j b, j < i -> s !! j = Some b -> rune_of_byte b <> c)
  | None => Forall (fun b => rune_of_byte b <> c) s
  end.
Proof.
  induction s as [| b t IH]; cbn [IndexByte]; [constructor |].
  destruct (Z.eqb_spec (rune_of_byte b) c) as [Heq | Hne].
  - cbn. split; [lia |]. split; [now rewrite Heq |]. intros; lia.
  - destruct (IndexByte t c) as [i |]; cbn.
    + destruct IH as (Hi & Hc & Hbefore). split; [lia |]. split; [exact Hc |].
      intros [| j] b' Hj Hb'; cbn in Hb'; [congruence |].
      eapply Hbefore; [| eassumption]. lia.
    + now constructor.
Qed.

Lemma skipTo_spec (c : Z) l b l' :
  inBounds l -> skipTo c l = (b, l') ->
  moved l l'
  /\ (b = true -> peek l' = c)
  /\ (b = false -> remaining l' = 0)
  /\ (peek l <> c -> peek l <> eofRune -> index (pos l) < index (pos l')).
Proof.
  intros Hb. unfold skipTo.
  pose proof (IndexByte_spec (drop (index (pos l)) (input l)) c) as Hspec.
  destruct (IndexByte (drop (index (pos l)) (input l)) c) as [i |];
    intros [= <- <-].
  - destruct Hspec as (Hi & Hc & Hbefore). rewrite length_drop in Hi.
    split; [now apply skip_moved |].
    assert (Hidx : index (pos (skip i l)) = index (pos l) + i).
    { rewrite index_skip. unfold remaining. lia. }
    split; [| split; [discriminate |]].
    + intros _. unfold peek. rewrite Hidx. cbn [skip input set_pos].
      rewrite lookup_drop in Hc. destruct (input l !! (index (pos l) + i)); cbn in Hc; congruence.
    + intros Hne _. rewrite Hidx. destruct i; [| lia]. exfalso. apply Hne.
      unfold peek. rewrite lookup_drop, Nat.add_0_r in Hc.
      destruct (input l !! index (pos l)); cbn in Hc; congruence.
  - split; [now apply skip_moved |].
    assert (Hidx : index (pos (skip (remaining l) l)) = length (input l)).
    { rewrite index_skip. unfold remaining, inBounds in *. lia. }
    split; [discriminate |]. split.
    + intros _. unfold remaining at 1. rewrite Hidx.
      unfold skip. cbn [input set_pos]. lia.
    + intros _ Hne. rewrite Hidx. rewrite peek_eof in Hne. unfold remaining in Hne. lia.
Qed.

End CursorFacts.

Local Open Scope parser_scope.

(** ** Pieces of the parser that only move the cursor *)

Section ParserFacts.
Context {T : Type} `{IniSink T}.
Implicit Types l : iniParse T.
Local Open Scope nat_scope.

Lemma errorOf_moved l l1 (e : ParseError) :
  moved l l1 -> errorOf l1 e -> errorOf l e.
Proof.
  intros Hm (Hf & Hl & Hc). split; [| split; assumption].
  rewrite Hf. apply Hm.
Qed.

Lemma errorOf_throwAt l (p : position) (msg : bytes) :
  errorOf l (mkParseError (file l) (lineno p + 1) (colno p + 1) msg).
Proof. split; [reflexivity | cbn; lia]. Qed.

Lemma cursorRes_trans {A} l l1 (r : Res T A) :
  moved l l1 -> cursorRes l1 r -> cursorRes l r.
Proof.
  intros Hm. destruct r as [a l2 | e l2 | p |]; cbn [cursorRes]; try tauto.
  - intros H2. eapply moved_trans; eassumption.
  - intros [H2 He]. split; [eapply moved_trans; eassumption |].
    eapply errorOf_moved; eassumption.
Qed.

Lemma cursorOnly_ret {A} (a : A) : cursorOnly (T := T) (retP a).
Proof. intros l Hb. now apply moved_refl. Qed.

Lemma cursorOnly_bind {A B} (m : Parser T A) (k : A -> Parser T B) :
  cursorOnly m -> (forall a, cursorOnly (k a)) -> cursorOnly (bindP m k).
Proof.
  intros Hm Hk l Hb. unfold bindP. specialize (Hm l Hb).
  destruct (m l) as [a l1 | e l1 | p |]; try assumption.
  cbn [cursorRes] in Hm.
  eapply cursorRes_trans; [eassumption |].
  apply Hk. eapply moved_inBounds; eassumption.
Qed.

Lemma cursorOnly_gets {A} (f : iniParse T -> A) : cursorOnly (gets f).
Proof. intros l Hb. now apply moved_refl. Qed.

Lemma cursorOnly_state {A} (f : iniParse T -> A * iniParse T) :
  (forall l, inBounds l -> moved l (snd (f l))) -> cursorOnly (state f).
Proof.
  intros Hf l Hb. unfold state. specialize (Hf l Hb). now destruct (f l).
Qed.

Lemma cursorOnly_skip (n : nat) : cursorOnly (T := T) (modify (skip n)).
Proof. intros l Hb. now apply skip_moved. Qed.

Lemma cursorOnly_throwAt {A} (p : position) (msg : bytes) :
  cursorOnly (T := T) (A := A) (throwAt p msg).
Proof. intros l Hb. split; [now apply moved_refl | apply errorOf_throwAt]. Qed.

Lemma cursorOnly_throw {A} (msg : bytes) : cursorOnly (T := T) (A := A) (throw msg).
Proof. intros l Hb. split; [now apply moved_refl | apply errorOf_throwAt]. Qed.

Lemma cursorOnly_when (b : bool) (m : Parser T unit) :
  cursorOnly m -> cursorOnly (when b m).
Proof. intros Hm. destruct b; [exact Hm | apply cursorOnly_ret]. Qed.

Lemma cursorOnly_match (text : bytes) : cursorOnly (T := T) (state (match_ text)).
Proof.
  apply cursorOnly_state. intros l Hb.
  destruct (match_ text l) as [b l'] eqn:Hm. now apply (match_spec text l b l').
Qed.

Lemma cursorOnly_skipWhile (fn : Z -> bool) : cursorOnly (T := T) (state (skipWhile fn)).
Proof.
  apply cursorOnly_state. intros l Hb.
  destruct (skipWhile fn l) as [b l'] eqn:Hm. now apply (skipWhile_spec fn l b l').
Qed.

Lemma cursorOnly_skipTo (c : Z) : cursorOnly (T := T) (state (skipTo c)).
Proof.
  apply cursorOnly_state. intros l Hb.
  destruct (skipTo c l) as [b l'] eqn:Hm. now apply (skipTo_spec c l b l').
Qed.

Lemma cursorOnly_takeWhile (fn : Z -> bool) : cursorOnly (T := T) (state (takeWhile fn)).
Proof.
  apply cursorOnly_state. intros l Hb. unfold takeWhile. cbn [snd].
  destruct (skipWhile fn l) as [b l'] eqn:Hm. now apply (skipWhile_spec fn l b l').
Qed.

(** The loop of [getSubsection] ends: [i] grows at each iteration. *)
Lemma subsectionLoop_fuel (fuel : nat) (inp : bytes) (i : nat) (ret : bytes) :
  length inp <= fuel + i -> subsectionLoop fuel inp i ret <> SubFuel.
Proof.
  revert i ret. induction fuel as [| fuel IH]; intros i ret Hlen.
  - cbn [subsectionLoop]. destruct (Nat.ltb_spec (i + 1) (length inp)); [lia | discriminate].
  - cbn [subsectionLoop].
    destruct (Nat.ltb_spec (i + 1) (length inp)); [| discriminate].
    destruct (inp !! i) as [b |]; [| discriminate].
    repeat case_match; try discriminate; apply IH; lia.
Qed.

Lemma cursorOnly_getSubsection : cursorOnly (T := T) getSubsection.
Proof.
  intros l Hb. unfold getSubsection.
  destruct (_ || _); [now apply moved_refl |].
  pose proof (subsectionLoop_fuel (length (input l)) (input l) (index (pos l) + 1) []) as Hf.
  destruct (subsectionLoop _ _ _ _) as [i ret | | |]; try exact I.
  - destruct (input l !! i); [| exact I].
    destruct (negb _); [now apply moved_refl | now apply skip_moved].
  - now apply moved_refl.
  - apply Hf; [lia | reflexivity].
Qed.

Ltac cursor_step :=
  first
    [ apply cursorOnly_ret
    | apply cursorOnly_throw
    | apply cursorOnly_throwAt
    | apply cursorOnly_gets
    | apply cursorOnly_skip
    | apply cursorOnly_match
    | apply cursorOnly_skipWhile
    | apply cursorOnly_skipTo
    | apply cursorOnly_takeWhile
    | apply cursorOnly_getSubsection
    | apply cursorOnly_when
    | (apply cursorOnly_bind; [| intros ?]) ].

Lemma cursorOnly_getSection : cursorOnly (T := T) getSection.
Proof.
  unfold getSection, getKey, skipWS.
  repeat (cursor_step || case_match).
Qed.

Lemma remaining_skip1 l :
  inBounds l -> peek l <> eofRune -> remaining (skip 1 l) < remaining l.
Proof.
  intros Hb Hne. rewrite peek_eof in Hne. unfold remaining at 1.
  rewrite index_skip. unfold skip. cbn [input set_pos]. unfold remaining in *. lia.
Qed.

Lemma remaining_moved l l' : moved l l' -> remaining l' <= remaining l.
Proof. intros [Hi _ _ _ _ Hidx _]. unfold remaining. rewrite Hi. lia. Qed.

Lemma at_spec (n : nat) l :
  match at_ n l with
  | inr a => (-1 <= a < 256)%Z
  | inl _ => True
  end.
Proof.
  unfold at_. destruct (_ <? _); [unfold eofRune; lia |].
  destruct (input l !! _) as [b |]; [| exact I].
  pose proof (rune_of_byte_range b). lia.
Qed.

(** The loop of [getValue] only moves the cursor, and its fuel suffices:
    every iteration that goes on has consumed a byte. *)
Lemma getValueLoop_cursor (fuel : nat) :
  forall (ret : bytes) (escape inquote : bool) l,
    inBounds l -> remaining l < fuel ->
    cursorRes l (getValueLoop fuel ret escape inquote l).
Proof.
  induction fuel as [| fuel IH]; intros ret escape inquote l Hb Hfuel; [lia |].
  assert (Hnext : forall ret' e' q',
             peek l <> eofRune ->
             cursorRes l ((modify (skip 1) >> getValueLoop fuel ret' e' q') l)).
  { intros ret' e' q' Hne. unfold bindP, modify.
    eapply cursorRes_trans; [now apply skip_moved |].
    apply IH; [eapply moved_inBounds; now apply skip_moved |].
    pose proof (remaining_skip1 l Hb Hne). lia. }
  assert (Hne_of : forall c : Z, (peek l =? c)%Z = true -> (0 <= c)%Z -> peek l <> eofRune).
  { intros c Hc Hc0. apply Z.eqb_eq in Hc. unfold eofRune. lia. }
  assert (Htwo : forall ret' e' q',
             peek l <> eofRune ->
             cursorRes l ((modify (skip 1) >> modify (skip 1) >>
                           getValueLoop fuel ret' e' q') l)).
  { intros ret' e' q' Hne. unfold bindP, modify.
    pose proof (skip_moved 1 l Hb) as Hm1.
    pose proof (skip_moved 1 _ (moved_inBounds _ _ Hm1)) as Hm2.
    eapply cursorRes_trans; [exact Hm1 |].
    eapply cursorRes_trans; [exact Hm2 |].
    apply IH; [eapply moved_inBounds; eassumption |].
    pose proof (remaining_skip1 l Hb Hne).
    pose proof (remaining_moved _ _ Hm2). lia. }
  assert (Hcomment : forall ret' e' q',
             peek l <> 10%Z -> peek l <> eofRune ->
             cursorRes l ((state (skipTo 10) >> modify (skip 1) >>
                           getValueLoop fuel ret' e' q') l)).
  { intros ret' e' q' Hnl Hne. unfold bindP at 1. unfold state at 1.
    destruct (skipTo 10 l) as [found l1] eqn:Hto.
    destruct (skipTo_spec 10 l found l1 Hb Hto) as (Hm1 & _ & _ & Hadv).
    eapply cursorRes_trans; [exact Hm1 |].
    unfold bindP, modify.
    pose proof (skip_moved 1 _ (moved_inBounds _ _ Hm1)) as Hm2.
    eapply cursorRes_trans; [exact Hm2 |].
    apply IH; [eapply moved_inBounds; eassumption |].
    pose proof (remaining_moved _ _ Hm2).
    specialize (Hadv Hnl Hne).
    destruct Hm1 as [Hi _ _ _ _ Hidx Hbd]. unfold remaining in *. rewrite Hi in *. lia. }
  assert (Hinvalid : forall c : Z,
             cursorRes l ((when (c =? eofRune)%Z
                             (throw (lit "incomplete escape sequence at EOF")) >>
                           throw (A := bytes)
                             (lit "invalid escape sequence " ++ [x5c] ++ fmt_c c)) l)).
  { intros c. apply (cursorOnly_bind _ _ (cursorOnly_when _ _ (cursorOnly_throw _)));
      [| exact Hb].
    intros _. apply cursorOnly_throw. }
  assert (Hend : forall (c : Z) (q : bool) (r : bytes),
             cursorRes l ((when (c =? 13)%Z (modify (skip 1)) >>
                           when q (throw (lit "missing close quotes")) >>
                           modify (skip 1) >> retP r) l)).
  { intros c q r.
    assert (Hc : cursorOnly (T := T)
                   (when (c =? 13)%Z (modify (skip 1)) >>
                    when q (throw (lit "missing close quotes")) >>
                    modify (skip 1) >> retP r)) by repeat cursor_step.
    now apply Hc. }
  cbn [getValueLoop]. unfold bindP at 1. unfold gets at 1.
  pose proof (peek_range l) as Hrange.
  destruct escape.
  - repeat case_match; try exact I; try apply Hinvalid;
      try (apply Hnext; unfold eofRune in *; lia);
      try (apply Htwo; unfold eofRune in *; lia).
  - repeat case_match; try exact I; try discriminate;
      try apply Hend; try apply (Hend 13%Z); try apply (Hend 0%Z);
      try (apply Hnext; unfold eofRune in *; lia);
      try (apply Hcomment; unfold eofRune in *; lia).
Qed.

Lemma cursorOnly_getValue : cursorOnly (T := T) getValue.
Proof.
  intros l Hb. unfold getValue. apply getValueLoop_cursor; [exact Hb | lia].
Qed.


(** ** The shape of a statement *)


Lemma bindP_gets {A B} (f : iniParse T -> A) (k : A -> Parser T B) l :
  bindP (gets f) k l = k (f l) l.
Proof. reflexivity. Qed.

Lemma bindP_modify {B} (f : iniParse T -> iniParse T) (k : unit -> Parser T B) l :
  bindP (modify f) k l = k tt (f l).
Proof. reflexivity. Qed.

Lemma bindP_state {A B} (f : iniParse T -> A * iniParse T) (k : A -> Parser T B) l :
  bindP (state f) k l = k (fst (f l)) (snd (f l)).
Proof. unfold bindP, state. now destruct (f l). Qed.

Lemma bindP_ret {A B} (a : A) (k : A -> Parser T B) l :
  bindP (retP a) k l = k a l.
Proof. reflexivity. Qed.

Lemma bindP_assoc {A B C} (m : Parser T A) (k : A -> Parser T B) (k' : B -> Parser T C) l :
  bindP (bindP m k) k' l = bindP m (fun a => bindP (k a) k') l.
Proof. unfold bindP. now destruct (m l). Qed.

(** [getSection] has consumed the bracket when it returns a section or
    raises an error. *)
Lemma getSection_progress l :
  inBounds l ->
  match getSection l with
  | Ok (Some _) l' | Throw _ l' => index (pos l) < index (pos l')
  | _ => True
  end.
Proof.
  intros Hb. unfold getSection. rewrite bindP_state.
  destruct (match_ (lit "[") l) as [m l1] eqn:Hm. cbn [fst snd].
  destruct (match_spec _ _ _ _ Hb Hm) as (Hm1 & Hlen & _).
  destruct m; cbn [negb]; [| exact I].
  specialize (Hlen eq_refl). cbn in Hlen.
  match goal with
  | |- match ?rest l1 with _ => _ end =>
    assert (Hrest : cursorOnly (T := T) rest)
      by (unfold getKey, skipWS; repeat (cursor_step || case_match));
    specialize (Hrest l1 (moved_inBounds _ _ Hm1));
    destruct (rest l1) as [[s |] l2 | e l2 | p |]
  end; try exact I.
  - destruct Hrest as [_ _ _ _ _ Hidx _]. lia.
  - destruct Hrest as [[_ _ _ _ _ Hidx _] _]. lia.
Qed.

Lemma isAlpha_isKeyChar (c : Z) : isAlpha c = true -> isKeyChar c = true.
Proof. unfold isKeyChar. now intros ->. Qed.

Lemma isAlpha_not_eof (c : Z) : isAlpha c = true -> c <> eofRune.
Proof. intros Ha ->. vm_compute in Ha. discriminate. Qed.

Lemma peek_same l l' :
  input l' = input l -> index (pos l') = index (pos l) -> peek l' = peek l.
Proof. intros Hi Hx. unfold peek. now rewrite Hi, Hx. Qed.

Lemma moved_progress_or_same l l' :
  moved l l' -> index (pos l) < index (pos l') \/ peek l' = peek l.
Proof.
  intros [Hi _ _ _ _ Hidx _].
  destruct (Nat.eq_dec (index (pos l)) (index (pos l'))) as [Heq | Hne]; [| lia].
  right. now apply peek_same.
Qed.

Lemma getKey_spec l k l' :
  inBounds l -> getKey l = (k, l') ->
  moved l l'
  /\ (isKeyChar (peek l) = true -> peek l <> eofRune ->
      index (pos l) < index (pos l')).
Proof.
  intros Hb. unfold getKey, takeWhile.
  destruct (skipWhile isKeyChar l) as [b l1] eqn:Hs. cbn [snd]. intros [= _ <-].
  destruct (skipWhile_spec _ _ _ _ Hb Hs) as (Hm & _ & _ & Hadv). now split.
Qed.

Lemma skipTo_skip1_progress (c : Z) l b l' :
  inBounds l -> peek l <> eofRune -> c <> eofRune -> skipTo c l = (b, l') ->
  moved l (skip 1 l') /\ index (pos l) < index (pos (skip 1 l')).
Proof.
  intros Hb Hne Hc Hto.
  destruct (skipTo_spec _ _ _ _ Hb Hto) as (Hm & Htrue & Hfalse & _).
  pose proof (moved_inBounds _ _ Hm) as Hb'.
  pose proof (skip_moved 1 l' Hb') as Hm'.
  split; [eapply moved_trans; eassumption |].
  destruct b.
  - assert (Hne' : peek l' <> eofRune) by (rewrite Htrue; auto).
    pose proof (remaining_skip1 l' Hb' Hne') as Hlt.
    destruct Hm as [Hi _ _ _ _ Hidx Hbd]. destruct Hm' as [Hi' _ _ _ _ Hidx' Hbd'].
    unfold remaining in Hlt. rewrite Hi' in *. lia.
  - specialize (Hfalse eq_refl). rewrite peek_eof in Hne.
    destruct Hm as [Hi _ _ _ _ Hidx Hbd]. destruct Hm' as [Hi' _ _ _ _ Hidx' Hbd'].
    unfold remaining in *. rewrite Hi in *. lia.
Qed.

(** The end of a statement: the range is taken, the hook is called, and
    its error, if any, is raised. *)
Lemma hook_finish l l1 (hook : IniRange -> T -> HookRes T)
    (k : option error -> Parser T unit) :
  input l1 = input l -> file l1 = file l -> prevEnd l1 = prevEnd l ->
  sink l1 = sink l -> index (pos l) < index (pos l1) -> inBounds l1 ->
  hookOf l l1 (hook (stmtRange l l1)) ->
  k None = retP tt ->
  (forall e, exists p, k (Some e) = throwAt p (error_Error e)) ->
  stmtShape l
    ((r <- state (getRange (index (pos l))) ;; err <- callHook (hook r) ;; k err) l1).
Proof.
  intros Hi Hf Hp Hs Hlt Hb1 Hhook Hnone Hsome.
  rewrite bindP_state. unfold getRange. cbn [fst snd].
  rewrite Hp, Hi. fold (stmtRange l l1).
  unfold bindP, callHook. cbn [sink set_prevEnd]. rewrite Hs.
  destruct (hook (stmtRange l l1) (sink l)) as [s' [e |] | p] eqn:Hh.
  - destruct (Hsome e) as [p ->]. unfold throwAt.
    eapply (shape_hook_err l l1 _ s' e); eauto.
    cbn [file set_sink set_prevEnd]. rewrite Hf. apply errorOf_throwAt.
  - rewrite Hnone. unfold retP.
    eapply (shape_hook_ok l l1 _ s'); eauto.
  - constructor.
Qed.

(** One statement, from a cursor with input left, has the shape
    [stmtShape]; in particular its loops end. *)
Lemma do1_body_shape l :
  inBounds l -> 0 < remaining l -> stmtShape l (do1_body l).
Proof.
  intros Hb Hrem. unfold do1_body.
  assert (Hpeek : peek l <> eofRune) by (rewrite peek_eof; lia).
  rewrite bindP_gets, bindP_state.
  destruct (skipWS l) as [ws la] eqn:Hws. cbn [fst snd].
  destruct (skipWhile_spec _ _ _ _ Hb Hws) as (Hma & _ & _ & _).
  pose proof (moved_inBounds _ _ Hma) as Hba.
  rewrite bindP_gets. unfold bindP at 1.
  pose proof (cursorOnly_getSection la Hba) as Hsec.
  pose proof (getSection_progress la Hba) as Hprog.
  destruct (getSection la) as [[s |] lb | e lb | p |]; cbn [cursorRes] in Hsec.
  - (* a section header *)
    rewrite bindP_state.
    destruct (skipWS lb) as [ws2 lc] eqn:Hws2. cbn [fst snd].
    pose proof (moved_inBounds _ _ Hsec) as Hbb.
    destruct (skipWhile_spec _ _ _ _ Hbb Hws2) as (Hmc & _ & _ & _).
    rewrite bindP_state.
    destruct (match_ [x0a] lc) as [m ld] eqn:Hnl. cbn [fst snd].
    destruct (match_spec _ _ _ _ (moved_inBounds _ _ Hmc) Hnl) as (Hmd & _ & _).
    rewrite bindP_modify.
    pose proof (moved_trans _ _ _ Hma (moved_trans _ _ _ Hsec (moved_trans _ _ _ Hmc Hmd)))
      as Hall.
    destruct Hsec as [_ _ _ _ _ Hx1 _]. destruct Hmc as [_ _ _ _ _ Hx2 _].
    destruct Hmd as [_ _ _ _ _ Hx3 _]. destruct Hma as [_ _ _ _ _ Hx0 _].
    destruct Hall as [Hi Hf Hsc Hp Hs Hidx Hbd].
    apply (hook_finish l (set_sec (Some s) ld)
             (fun r => sink_Section (mkIniSecStart s r))); try assumption.
    + cbn. lia.
    + now constructor.
    + reflexivity.
    + intros e0. eexists. reflexivity.
  - (* not a section header *)
    pose proof (moved_trans _ _ _ Hma Hsec) as Hmb.
    pose proof (moved_inBounds _ _ Hmb) as Hbb.
    rewrite bindP_gets.
    destruct (isAlpha (peek lb)) eqn:Halpha.
    + (* a key *)
      rewrite bindP_state.
      destruct (getKey lb) as [k lc] eqn:Hk. cbn [fst snd].
      destruct (getKey_spec _ _ _ Hbb Hk) as (Hmc & Hadv).
      specialize (Hadv (isAlpha_isKeyChar _ Halpha) (isAlpha_not_eof _ Halpha)).
      rewrite bindP_state.
      destruct (skipWS lc) as [ws2 ld] eqn:Hws2. cbn [fst snd].
      destruct (skipWhile_spec _ _ _ _ (moved_inBounds _ _ Hmc) Hws2) as (Hmd & _ & _ & _).
      rewrite bindP_state.
      destruct (match_ (lit "=") ld) as [m le] eqn:Heq. cbn [fst snd].
      destruct (match_spec _ _ _ _ (moved_inBounds _ _ Hmd) Heq) as (Hme & _ & _).
      pose proof (moved_trans _ _ _ Hmb (moved_trans _ _ _ Hmc (moved_trans _ _ _ Hmd Hme)))
        as Hall.
      assert (Hlt : index (pos l) < index (pos le)).
      { destruct Hmb as [_ _ _ _ _ Hx1 _]. destruct Hmd as [_ _ _ _ _ Hx2 _].
        destruct Hme as [_ _ _ _ _ Hx3 _]. lia. }
      unfold bindP at 1.
      match goal with
      | |- stmtShape l match ?mv le with _ => _ end =>
        assert (Hmv : cursorOnly (T := T) mv)
          by (unfold skipWS; destruct m; cbn [negb];
              repeat (cursor_step || apply cursorOnly_getValue));
        specialize (Hmv le (moved_inBounds _ _ Hall));
        destruct (mv le) as [vv lf | e lf | p |]; cbn [cursorRes] in Hmv
      end.
      * pose proof (moved_trans _ _ _ Hall Hmv) as Hfin.
        rewrite bindP_gets.
        destruct Hmv as [_ _ _ _ _ Hx4 _].
        destruct Hfin as [Hi Hf Hsc Hp Hs Hidx Hbd].
        rewrite Hsc.
        apply (hook_finish l lf (fun r => sink_Item (mkIniItem (sec l) k (fst vv) r)));
          try assumption.
        -- lia.
        -- now constructor.
        -- reflexivity.
        -- intros [ke | m0 | m0]; eexists; reflexivity.
      * destruct Hmv as [Hmv He].
        pose proof (moved_trans _ _ _ Hall Hmv) as Hfin.
        apply shape_throw; [exact Hfin | exact (errorOf_moved _ _ _ Hall He) |].
        left. destruct Hmv as [_ _ _ _ _ Hx4 _]. lia.
      * constructor.
      * contradiction.
    + destruct (_ || _) eqn:Hcomment.
      * (* a comment or a blank line *)
        rewrite bindP_state.
        destruct (skipTo 10 lb) as [found lc] eqn:Hto. cbn [fst snd].
        unfold modify.
        assert (Hne : peek lb <> eofRune) by (unfold eofRune; lia).
        destruct (skipTo_skip1_progress 10 lb found lc Hbb Hne ltac:(discriminate) Hto)
          as (Hmc & Hadv).
        apply shape_skip; [eapply moved_trans; eassumption |].
        destruct Hmb as [_ _ _ _ _ Hx1 _]. lia.
      * (* neither *)
        unfold throw, throwAt.
        apply shape_throw; [exact Hmb | |].
        -- eapply errorOf_moved; [exact Hmb |]. apply errorOf_throwAt.
        -- destruct (moved_progress_or_same _ _ Hmb) as [Hlt | Hsame]; [now left |].
           right. rewrite Hsame. split; [| exact Hpeek].
           rewrite <- Hsame. lia.
  - (* the header is malformed *)
    destruct Hsec as [Hsec He].
    apply shape_throw; [eapply moved_trans; eassumption | |].
    + exact (errorOf_moved _ _ _ Hma He).
    + left. destruct Hma as [_ _ _ _ _ Hx0 _]. lia.
  - constructor.
  - contradiction.
Qed.

End ParserFacts.

(** ** Where an error is raised *)

Section Raised.
Context {T : Type} `{IniSink T}.
Implicit Types l : iniParse T.
Local Open Scope parser_scope.
Local Open Scope nat_scope.

Lemma untouched_refl l : untouched l l.
Proof. now repeat split. Qed.

Lemma untouched_trans l1 l2 l3 : untouched l1 l2 -> untouched l2 l3 -> untouched l1 l3.
Proof. intros (? & ? & ? & ? & ?) (? & ? & ? & ? & ?). repeat split; congruence. Qed.

Lemma untouched_skip (n : nat) l : untouched l (skip n l).
Proof. now repeat split. Qed.

Lemma untouched_match (text : bytes) l : untouched l (snd (match_ text l)).
Proof. unfold match_. case_match; [apply untouched_skip | apply untouched_refl]. Qed.

Lemma untouched_skipWhile (fn : Z -> bool) l : untouched l (snd (skipWhile fn l)).
Proof. unfold skipWhile. case_match; [apply untouched_skip | apply untouched_refl]. Qed.

Lemma untouched_skipTo (c : Z) l : untouched l (snd (skipTo c l)).
Proof. unfold skipTo. case_match; apply untouched_skip. Qed.

Lemma untouched_takeWhile (fn : Z -> bool) l : untouched l (snd (takeWhile fn l)).
Proof. unfold takeWhile. cbn [snd]. apply untouched_skipWhile. Qed.

Lemma raisedRes_trans {A} l l1 (r : Res T A) :
  untouched l l1 -> raisedRes l1 r -> raisedRes l r.
Proof.
  intros Hu. destruct r as [a l2 | e l2 | p |]; cbn [raisedRes]; try tauto.
  - now apply untouched_trans.
  - intros [H2 He]. split; [now apply (untouched_trans _ l1) | exact He].
Qed.

Lemma raisesHere_ret {A} (a : A) : raisesHere (T := T) (retP a).
Proof. intros l. apply untouched_refl. Qed.

Lemma raisesHere_bind {A B} (m : Parser T A) (k : A -> Parser T B) :
  raisesHere m -> (forall a, raisesHere (k a)) -> raisesHere (bindP m k).
Proof.
  intros Hm Hk l. unfold bindP. specialize (Hm l).
  destruct (m l) as [a l1 | e l1 | p |]; try exact Hm.
  eapply raisedRes_trans; [exact Hm | apply Hk].
Qed.

Lemma raisesHere_gets {A} (f : iniParse T -> A) : raisesHere (gets f).
Proof. intros l. apply untouched_refl. Qed.

Lemma raisesHere_state {A} (f : iniParse T -> A * iniParse T) :
  (forall l, untouched l (snd (f l))) -> raisesHere (state f).
Proof. intros Hf l. unfold state. specialize (Hf l). now destruct (f l). Qed.

Lemma raisesHere_skip (n : nat) : raisesHere (T := T) (modify (skip n)).
Proof. intros l. apply untouched_skip. Qed.

Lemma raisesHere_throw {A} (msg : bytes) : raisesHere (T := T) (A := A) (throw msg).
Proof. intros l. split; [apply untouched_refl | now split]. Qed.

Lemma raisesHere_when (b : bool) (m : Parser T unit) :
  raisesHere m -> raisesHere (when b m).
Proof. intros Hm. destruct b; [exact Hm | apply raisesHere_ret]. Qed.

Lemma raisesHere_getSubsection : raisesHere (T := T) getSubsection.
Proof.
  intros l. unfold getSubsection.
  repeat case_match; cbn [raisedRes];
    first [exact I | apply untouched_refl | apply untouched_skip].
Qed.

Ltac raised_step :=
  first
    [ apply raisesHere_ret
    | apply raisesHere_throw
    | apply raisesHere_gets
    | apply raisesHere_skip
    | (apply raisesHere_state; intros ?;
       first [apply untouched_match | apply untouched_skipWhile
             | apply untouched_skipTo | apply untouched_takeWhile])
    | apply raisesHere_getSubsection
    | apply raisesHere_when
    | (apply raisesHere_bind; [| intros ?]) ].

Lemma raisesHere_getSection : raisesHere (T := T) getSection.
Proof.
  unfold getSection, getKey, skipWS.
  repeat (raised_step || case_match).
Qed.

Lemma raisesHere_getValueLoop (fuel : nat) :
  forall (ret : bytes) (escape inquote : bool),
    raisesHere (T := T) (getValueLoop fuel ret escape inquote).
Proof.
  induction fuel as [| fuel IH]; intros ret escape inquote; [intros l; exact I |].
  cbn [getValueLoop].
  apply raisesHere_bind; [apply raisesHere_gets | intros c].
  assert (Hinvalid : raisesHere (T := T) (A := bytes)
            (when (c =? eofRune)%Z (throw (lit "incomplete escape sequence at EOF")) >>
             throw (lit "invalid escape sequence " ++ [x5c] ++ fmt_c c)))
    by (repeat raised_step).
  repeat match goal with
         | |- raisesHere (if ?b then _ else _) => destruct b
         | |- raisesHere (bindP (modify (skip 1)) _) =>
           apply raisesHere_bind; [apply raisesHere_skip | intros _]
         | |- raisesHere (getValueLoop fuel _ _ _) => apply IH
         end; try exact Hinvalid.
  - intros l. destruct (at_ 1 l) as [p | a]; [exact I |].
    destruct (a =? 10)%Z; [| apply Hinvalid].
    revert l. repeat raised_step. apply IH.
  - intros l. cbn zeta.
    match goal with |- raisedRes l (match ?crlf with _ => _ end) => destruct crlf as [p | []] end;
      [exact I | |].
    + revert l. repeat raised_step.
    + destruct (_ && _); revert l; repeat raised_step; apply IH.
Qed.

Lemma raisesHere_getValue : raisesHere (T := T) getValue.
Proof. intros l. apply raisesHere_getValueLoop. Qed.

(** The end of a statement: when it raises an error, the hook returned
    it. *)
Lemma hook_raised l lk (hook : IniRange -> T -> HookRes T)
    (k : option error -> Parser T unit) (e : ParseError) l0 :
  input lk = input l -> prevEnd lk = prevEnd l -> sink lk = sink l ->
  hookOf l lk (hook (stmtRange l lk)) ->
  k None = retP tt ->
  (forall err, exists p, k (Some err) = throwAt p (error_Error err)) ->
  (r <- state (getRange (index (pos l))) ;; err <- callHook (hook r) ;; k err) lk
  = Throw e l0 ->
  hookError l e l0.
Proof.
  intros Hi Hp Hs Hhook Hnone Hsome.
  rewrite bindP_state. unfold getRange. cbn [fst snd].
  rewrite Hp, Hi. fold (stmtRange l lk).
  unfold bindP, callHook. cbn [sink set_prevEnd]. rewrite Hs.
  destruct (hook (stmtRange l lk) (sink l)) as [s' [err |] | p] eqn:Hh; [| | discriminate].
  - destruct (Hsome err) as [p ->]. unfold throwAt. intros [= <- <-].
    exists lk, (hook (stmtRange l lk)), s', err. now repeat split.
  - rewrite Hnone. discriminate.
Qed.

(** An error of a statement is one a hook returned, or the parser raised
    it where it stood, before any hook was called. *)
Lemma do1_body_raised l (e : ParseError) l0 :
  do1_body l = Throw e l0 -> hookError l e l0 \/ (untouched l l0 /\ raisedAt l0 e).
Proof.
  unfold do1_body. rewrite bindP_gets, bindP_state.
  pose proof (untouched_skipWhile isWS l) as Hua. fold (skipWS l) in Hua.
  set (la := snd (skipWS l)) in *. cbn [fst]. rewrite bindP_gets.
  unfold bindP at 1.
  pose proof (raisesHere_getSection la) as Hsec.
  destruct (getSection la) as [[s |] lb | e' lb | p |]; cbn [raisedRes] in Hsec;
    try discriminate.
  - (* a section header *)
    rewrite !bindP_state, bindP_modify. intros Hrun. left.
    set (lk := set_sec (Some s) (snd (match_ [x0a] (snd (skipWS lb))))) in *.
    assert (Huk : untouched l (snd (match_ [x0a] (snd (skipWS lb))))).
    { eapply untouched_trans; [exact Hua |].
      eapply untouched_trans; [exact Hsec |].
      eapply untouched_trans; [apply untouched_skipWhile | apply untouched_match]. }
    destruct Huk as (Hi & _ & Hs & _ & Hp).
    refine (hook_raised l lk (fun r => sink_Section (mkIniSecStart s r)) _ e l0
              Hi Hp Hs _ eq_refl _ Hrun).
    + now constructor.
    + intros err. eauto.
  - (* no header *)
    pose proof (untouched_trans _ _ _ Hua Hsec) as Hub.
    rewrite bindP_gets. destruct (isAlpha (peek lb)).
    + rewrite !bindP_state. cbn [fst].
      set (lc := snd (match_ (lit "=") (snd (skipWS (snd (getKey lb)))))).
      assert (Huc : untouched l lc).
      { eapply untouched_trans; [exact Hub |].
        eapply untouched_trans; [apply untouched_takeWhile |].
        eapply untouched_trans; [apply untouched_skipWhile | apply untouched_match]. }
      unfold bindP at 1.
      match goal with
      | |- match ?m lc with _ => _ end = _ -> _ =>
        assert (Hval : raisesHere (T := T) m)
          by (destruct (negb _); unfold skipWS;
              repeat first [raised_step | apply raisesHere_getValue | case_match]);
        specialize (Hval lc); destruct (m lc) as [vv ld | e2 ld | p |];
        cbn [raisedRes] in Hval; try discriminate
      end.
      * rewrite bindP_gets. intros Hrun. left.
        destruct (untouched_trans _ _ _ Huc Hval) as (Hi & _ & Hs & Hsc & Hp).
        rewrite Hsc in Hrun.
        refine (hook_raised l ld
                  (fun r => sink_Item (mkIniItem (sec l) (fst (getKey lb)) (fst vv) r))
                  _ e l0 Hi Hp Hs _ eq_refl _ Hrun).
        -- now constructor.
        -- intros [ke | m | m]; eauto.
      * intros [= <- <-]. right. destruct Hval as [Hud Hat].
        split; [eapply untouched_trans; eassumption | exact Hat].
    + case_match.
      * rewrite bindP_state. unfold modify. discriminate.
      * intros Hthrow. right.
        pose proof (raisesHere_throw (A := unit) (lit "Expected section or key") lb) as Hr.
        rewrite Hthrow in Hr. destruct Hr as [Hu Hat].
        split; [eapply untouched_trans; eassumption | exact Hat].
  - (* the header is malformed *)
    intros [= <- <-]. right. destruct Hsec as [Hu Hat].
    split; [eapply untouched_trans; eassumption | exact Hat].
Qed.

(** [skip] over bytes with no newline stays on the line. *)
Lemma foldl_lineCol_line (s : bytes) :
  forall (ln col : nat),
    Forall (fun b => rune_of_byte b <> 10%Z) s ->
    fst (foldl lineCol (ln, col) s) = ln.
Proof.
  induction s as [| b t IH]; intros ln col Hs; [reflexivity |].
  apply Forall_cons in Hs as [Hb Ht]. cbn [foldl]. unfold lineCol at 2. cbn [fst snd].
  destruct (Z.eqb_spec (rune_of_byte b) 10); [contradiction |].
  destruct (rune_of_byte b =? 9)%Z; now apply IH.
Qed.

(** The recovery of [do1] stays on the line it starts on. *)
Lemma skipTo_same_line l : lineno (pos (snd (skipTo 10 l))) = lineno (pos l).
Proof.
  unfold skipTo.
  pose proof (IndexByte_spec (drop (index (pos l)) (input l)) 10) as Hspec.
  destruct (IndexByte _ 10) as [i |]; cbn [snd]; unfold skip;
    cbn [pos set_pos lineno]; apply foldl_lineCol_line.
  - destruct Hspec as (_ & _ & Hbefore).
    apply Forall_lookup. intros j b Hj.
    apply lookup_take_Some in Hj as [Hj Hlt].
    apply (Hbefore j b); [| exact Hj].
    destruct (remaining l <? i) eqn:Hr; [apply Nat.ltb_lt in Hr |]; lia.
  - now apply Forall_take.
Qed.

(** On a newline [do1] reads the newline alone. *)
Lemma do1_newline l :
  peek l = 10%Z ->
  exists l', do1 l = Ok None l' /\ index (pos l') = index (pos l) + 1
             /\ lineno (pos l') = lineno (pos l) + 1 /\ untouched l l'.
Proof.
  intros Hnl. pose proof Hnl as Hd. rewrite peek_drop in Hd.
  destruct (drop (index (pos l)) (input l)) as [| b t] eqn:Hdrop;
    [unfold eofRune in Hd; lia |].
  assert (Hb : b = x0a) by (apply rune_of_byte_inj; exact Hd). subst b.
  assert (Hrem : remaining l = S (length t)).
  { unfold remaining. rewrite <- (length_drop (input l)), Hdrop. reflexivity. }
  assert (Hws : skipWS l = (false, l)).
  { unfold skipWS, skipWhile. now rewrite Hdrop. }
  assert (Hm : match_ (lit "[") l = (false, l)).
  { unfold match_. rewrite Hdrop, Hrem. reflexivity. }
  assert (Hto : skipTo 10 l = (true, skip 0 l)).
  { unfold skipTo. now rewrite Hdrop. }
  unfold do1, do1_body.
  rewrite bindP_gets, bindP_state, Hws. cbn [fst snd].
  rewrite bindP_gets. unfold getSection at 1. rewrite bindP_assoc, bindP_state, Hm.
  cbn [fst snd negb]. rewrite bindP_ret, bindP_gets, Hnl.
  change (isAlpha 10) with false. cbn match.
  change ((10 =? 35)%Z || (10 =? 59)%Z || (10 =? 10)%Z) with true. cbn match.
  rewrite bindP_state, Hto. cbn [fst snd]. unfold modify.
  eexists. split; [reflexivity |].
  assert (Hrem0 : remaining (skip 0 l) = S (length t)).
  { unfold remaining in *. rewrite index_skip. cbn [skip input set_pos].
    unfold remaining. lia. }
  split; [rewrite !index_skip, Hrem0; unfold remaining; lia |].
  split; [| eapply untouched_trans; apply untouched_skip].
  unfold skip at 1. cbn [pos set_pos lineno]. rewrite Hrem0. cbn [Nat.ltb Nat.leb].
  assert (Hidx0 : index (pos (skip 0 l)) = index (pos l)) by (rewrite index_skip; lia).
  rewrite Hidx0. cbn [skip input set_pos]. rewrite Hdrop.
  assert (Hln0 : lineno (pos (skip 0 l)) = lineno (pos l))
    by (unfold skip; rewrite Hrem; reflexivity).
  cbn [take foldl]. unfold lineCol. cbn [fst snd]. rewrite Hln0.
  change (rune_of_byte x0a =? 10)%Z with true. cbn match.
  rewrite take_0. cbn [foldl fst]. lia.
Qed.

End Raised.

(** ** The statement loop *)

Section Loop.
Context {T : Type} `{IniSink T}.
Implicit Types l : iniParse T.
Local Open Scope nat_scope.

(** One iteration of the loop of [do] leaves the input and the file name
    alone and moves the cursor strictly forward; after an error the cursor
    is on a newline or at the end of the input. *)
Lemma do1_progress l :
  inBounds l -> 0 < remaining l ->
  match do1 l with
  | Ok e l' =>
    input l' = input l /\ file l' = file l
    /\ index (pos l) < index (pos l') /\ inBounds l'
    /\ forall pe, e = Some pe ->
         errorOf l pe /\ (peek l' = ch_nl \/ remaining l' = 0)
         /\ exists l0, do1_body l = Throw pe l0 /\ l' = snd (skipTo ch_nl l0)
  | Crash _ => True
  | Throw _ _ | OutOfFuel => False
  end.
Proof.
  intros Hb Hrem. unfold do1.
  assert (Hrecover : forall e l0,
             input l0 = input l -> file l0 = file l -> inBounds l0 ->
             index (pos l) <= index (pos l0) ->
             (index (pos l) < index (pos l0) \/ (peek l0 <> 10%Z /\ peek l0 <> eofRune)) ->
             errorOf l e ->
             input (snd (skipTo 10 l0)) = input l /\ file (snd (skipTo 10 l0)) = file l
             /\ index (pos l) < index (pos (snd (skipTo 10 l0)))
             /\ inBounds (snd (skipTo 10 l0))
             /\ forall pe, Some e = Some pe ->
                  errorOf l pe
                  /\ (peek (snd (skipTo 10 l0)) = 10%Z \/ remaining (snd (skipTo 10 l0)) = 0)
                  /\ exists l1, Throw (A := unit) e l0 = Throw pe l1
                                /\ snd (skipTo 10 l0) = snd (skipTo 10 l1)).
  { intros e l0 Hi Hf Hb0 Hle Hadv He.
    destruct (skipTo 10 l0) as [found l1] eqn:Hto. cbn [snd].
    destruct (skipTo_spec _ _ _ _ Hb0 Hto) as (Hm & Htrue & Hfalse & Hstep).
    destruct Hm as [Hi1 Hf1 _ _ _ Hidx1 Hbd1].
    split; [congruence |]. split; [congruence |].
    split; [destruct Hadv as [Hlt | [Hnl Hne]]; [lia | specialize (Hstep Hnl Hne); lia] |].
    split; [exact Hbd1 |].
    intros pe [= <-]. split; [exact He |].
    split; [destruct found; [left | right]; auto |].
    exists l0. split; [reflexivity |]. now rewrite Hto. }
  pose proof (do1_body_shape l Hb Hrem) as Hshape.
  destruct (do1_body l) as [[] l' | e l' | p |] eqn:Hbody.
  - inversion Hshape as [l2 Hm Hlt | | l1 hook s' Hi Hf Hp Hs Hlt Hb1 Hhook Hcall | |]; subst.
    + destruct Hm as [Hi Hf _ _ _ Hidx Hbd].
      refine (conj Hi (conj Hf (conj Hlt (conj Hbd _)))). intros pe [=].
    + refine (conj Hi (conj Hf (conj Hlt (conj Hb1 _)))). intros pe [=].
  - inversion Hshape as [| e2 l2 Hm He Hadv | |
                         l1 hook s' err e2 Hi Hf Hp Hs Hlt Hb1 Hhook Hcall He Hmsg |]; subst.
    + destruct Hm as [Hi Hf _ _ _ Hidx Hbd].
      exact (Hrecover e l' Hi Hf Hbd Hidx Hadv He).
    + assert (Hb2 : inBounds (afterHook l1 s')) by exact Hb1.
      exact (Hrecover e (afterHook l1 s') Hi Hf Hb2 ltac:(cbn; lia)
               ltac:(left; cbn; lia) He).
  - exact I.
  - inversion Hshape.
Qed.

Lemma doLoop_statements (fuel : nat) :
  forall (acc : list ParseError) l,
    inBounds l -> remaining l <= fuel ->
    match doLoop fuel acc l with
    | Ok errs l' =>
      exists n es, statements n l es l' /\ errs = acc ++ es
                   /\ n <= remaining l /\ remaining l' = 0
                   /\ input l' = input l /\ file l' = file l /\ inBounds l'
    | Crash _ => True
    | Throw _ _ | OutOfFuel => False
    end.
Proof.
  induction fuel as [| fuel IH]; intros acc l Hb Hfuel.
  - cbn [doLoop]. destruct (Nat.ltb_spec 0 (remaining l)); [lia |].
    exists 0, []. rewrite app_nil_r. repeat split; try lia; try assumption.
    constructor. lia.
  - cbn [doLoop]. destruct (Nat.ltb_spec 0 (remaining l)) as [Hrem | Hz].
    + unfold bindP. pose proof (do1_progress l Hb Hrem) as H1.
      destruct (do1 l) as [e l1 | e l1 | p |] eqn:Hdo1; try contradiction; [| exact I].
      destruct H1 as (Hi & Hf & Hlt & Hb1 & Herr).
      assert (Hrem1 : remaining l1 < remaining l).
      { unfold remaining, inBounds in *. rewrite Hi in *. lia. }
      specialize (IH (match e with Some pe => acc ++ [pe] | None => acc end) l1 Hb1
                     ltac:(lia)).
      destruct (doLoop fuel _ l1) as [errs l' | | |]; try assumption.
      destruct IH as (n & es & Hst & Herrs & Hn & Hend & Hi' & Hf' & Hb').
      destruct e as [pe |].
      * exists (S n), (pe :: es). rewrite Herrs, <- app_assoc.
        repeat split; try lia; try congruence; try assumption.
        eapply stmts_err; eassumption.
      * exists (S n), es.
        repeat split; try lia; try congruence; try assumption.
        eapply stmts_ok; eassumption.
    + exists 0, []. rewrite app_nil_r. repeat split; try lia; try assumption.
      constructor. lia.
Qed.

Lemma do_statements l :
  inBounds l ->
  match do_ l with
  | Ok r l' =>
    exists n errs lend,
      statements n l errs lend /\ n <= remaining l /\ remaining lend = 0
      /\ r = errorsResult errs
      /\ index (pos l') = length (input l) /\ input l' = input l
  | Crash _ => True
  | Throw _ _ | OutOfFuel => False
  end.
Proof.
  intros Hb. unfold do_. rewrite bindP_gets. unfold bindP at 1.
  pose proof (doLoop_statements (length (input l)) [] l Hb
                ltac:(unfold remaining; lia)) as Hloop.
  destruct (doLoop _ _ l) as [errs lend | | |]; try assumption.
  destruct Hloop as (n & es & Hst & Herrs & Hn & Hend & Hi & Hf & Hbe).
  cbn [app] in Herrs. subst es.
  rewrite bindP_gets, bindP_state. unfold getRange. cbn [fst snd].
  unfold bindP at 1.
  destruct (sink_Done _ _) as [p | s']; [exact I |].
  cbn [retP bindP].
  exists n, errs, lend. repeat split; try assumption.
  - cbn. unfold remaining, inBounds in *. rewrite Hi in *. lia.
Qed.

Lemma statements_errors n l errs l' :
  inBounds l -> statements n l errs l' -> Forall (errorOf l) errs.
Proof.
  intros Hb Hst. revert Hb.
  induction Hst as [l Hz | l l1 l' n errs Hrem Hdo _ IH | l l1 l' n pe errs Hrem Hdo _ IH];
    intros Hb.
  - constructor.
  - pose proof (do1_progress l Hb Hrem) as H1. rewrite Hdo in H1.
    destruct H1 as (Hi & Hf & _ & Hb1 & _).
    eapply Forall_impl; [apply IH; exact Hb1 |].
    intros e (He & Hl & Hc). split; [congruence | now split].
  - pose proof (do1_progress l Hb Hrem) as H1. rewrite Hdo in H1.
    destruct H1 as (Hi & Hf & _ & Hb1 & Herr).
    constructor; [apply (Herr pe eq_refl) |].
    eapply Forall_impl; [apply IH; exact Hb1 |].
    intros e (He & Hl & Hc). split; [congruence | now split].
Qed.

(** C10: every iteration of the loop of [do] that comes back, from a
    cursor with input left, has moved the cursor strictly forward (also on
    its error-recovery path) and left the input alone; so the parse ends,
    by returning or by a panic, and never by exhausting the fuel of the
    model, after at most as many statements as there are bytes left. *)
Theorem C10_parse_terminates (l : iniParse T) :
  inBounds l ->
  (0 < remaining l ->
   match do1 l with
   | Ok _ l' =>
     index (pos l) < index (pos l') /\ index (pos l') <= length (input l')
     /\ input l' = input l
   | Crash _ => True
   | Throw _ _ | OutOfFuel => False
   end)
  /\ match do_ l with
     | Ok _ l' =>
       exists n errs lend,
         statements n l errs lend /\ n <= remaining l /\ remaining lend = 0
     | Crash _ => True
     | Throw _ _ | OutOfFuel => False
     end.
Proof.
  intros Hb. split.
  - intros Hrem. pose proof (do1_progress l Hb Hrem) as H1.
    destruct (do1 l) as [e l' | | |]; try assumption.
    destruct H1 as (Hi & _ & Hlt & Hb' & _). now repeat split.
  - pose proof (do_statements l Hb) as H2.
    destruct (do_ l) as [r l' | | |]; try assumption.
    destruct H2 as (n & errs & lend & Hst & Hn & Hend & _).
    exists n, errs, lend. now repeat split.
Qed.

Lemma ParseErrors_Error_from_join (first : bool) (errs : list ParseError) :
  ParseErrors_Error_from first errs
  = match errs with
    | [] => []
    | _ => (if first then [] else [x0a]) ++ joinLines (map ParseError_Error errs)
    end.
Proof.
  revert first. induction errs as [| e rest IH]; intros first; [reflexivity |].
  cbn [ParseErrors_Error_from map joinLines]. rewrite IH.
  destruct rest as [| e2 rest]; [now rewrite !app_nil_r | reflexivity].
Qed.

Lemma ParseErrors_Error_lines (errs : list ParseError) :
  ParseErrors_Error errs = joinLines (map lineOfError errs).
Proof.
  unfold ParseErrors_Error. rewrite ParseErrors_Error_from_join.
  now destruct errs.
Qed.

Lemma errorsResult_Some (errs es : list ParseError) :
  errorsResult errs = Some es -> es = errs /\ errs <> [].
Proof. destruct errs; [discriminate |]. intros [= <-]. now split. Qed.

(** C6 (as amended): a [ParseError] panic is caught by [do1], which gives
    it back with the cursor moved to the next newline or to the end of
    the input.  The error is one that the hook of the statement returned,
    or the parser raised it, and then it ends only the statement it is
    raised in: it reports the place where the parser stood, no hook was
    called, the sink, the current section and the end of the previous
    statement are as they were, and the cursor is left on the line the
    error reports.  The iteration after a failed statement reads the
    newline alone, so the loop goes on at the start of the next line.
    When [do] returns, every statement up to the end of the input has
    been run, the result is nil if none failed and else the errors of the
    failed statements in order, each with the parser's file name and a
    1-based line and column; they render newline-joined, one line per
    error, [file:line:col: message], or [line:col: message] when the file
    name is empty. *)
Theorem C6_errors_collected (l : iniParse T) (r : option (list ParseError))
    (l' : iniParse T) :
  inBounds l ->
  do_ l = Ok r l' ->
  (forall l1 pe l2,
      inBounds l1 -> 0 < remaining l1 -> do1 l1 = Ok (Some pe) l2 ->
      (exists l0,
          do1_body l1 = Throw pe l0 /\ l2 = snd (skipTo ch_nl l0)
          /\ (hookError l1 pe l0
              \/ (raisedAt l0 pe /\ untouched l1 l2
                  /\ Lineno pe = lineno (pos l2) + 1)))
      /\ (peek l2 = ch_nl \/ remaining l2 = 0)
      /\ index (pos l1) < index (pos l2)
      /\ (0 < remaining l2 ->
          exists l3, do1 l2 = Ok None l3 /\ index (pos l3) = index (pos l2) + 1
                     /\ lineno (pos l3) = lineno (pos l2) + 1 /\ untouched l2 l3))
  /\ exists n errs lend,
      statements n l errs lend
      /\ remaining lend = 0
      /\ index (pos l') = length (input l)
      /\ r = errorsResult errs
      /\ Forall (errorOf l) errs
      /\ ParseErrors_Error errs = joinLines (map lineOfError errs).
Proof.
  intros Hb Hdo. split.
  - intros l1 pe l2 Hb1 Hrem1 Hdo1.
    pose proof (do1_progress l1 Hb1 Hrem1) as H1. rewrite Hdo1 in H1.
    destruct H1 as (_ & _ & Hlt & _ & Herr).
    destruct (Herr pe eq_refl) as (_ & Hnl & l0 & Hbody & Hl2).
    split; [| split; [exact Hnl |]; split; [exact Hlt |]].
    + exists l0. split; [exact Hbody |]. split; [exact Hl2 |].
      destruct (do1_body_raised l1 pe l0 Hbody) as [Hhook | [Hu Hat]]; [now left | right].
      subst l2. split; [exact Hat |].
      split; [eapply untouched_trans; [exact Hu | apply untouched_skipTo] |].
      rewrite skipTo_same_line. apply Hat.
    + intros Hrem2. destruct Hnl as [Hnl | Hz]; [| lia].
      now apply do1_newline.
  - pose proof (do_statements l Hb) as H2. rewrite Hdo in H2.
    destruct H2 as (n & errs & lend & Hst & _ & Hend & Hr & Hidx & _).
    exists n, errs, lend. repeat split; try assumption.
    + eapply statements_errors; eassumption.
    + apply ParseErrors_Error_lines.
Qed.

End Loop.

Lemma C10_witness :
  inBounds sampleParser
  /\ match do_ sampleParser with
     | Ok _ l' =>
       exists n errs lend,
         statements n sampleParser errs lend
         /\ (n <= remaining sampleParser)%nat /\ remaining lend = 0%nat
     | Crash _ => True
     | Throw _ _ | OutOfFuel => False
     end.
Proof.
  assert (Hb : inBounds sampleParser) by (unfold inBounds; vm_compute; lia).
  split; [exact Hb |].
  pose proof (C10_parse_terminates sampleParser Hb) as [_ Hdo].
  exact Hdo.
Defined.

Lemma C6_witness :
  exists r l',
    do_ sampleParser = Ok r l'
    /\ exists n errs lend,
        statements n sampleParser errs lend
        /\ remaining lend = 0%nat
        /\ index (pos l') = length (input sampleParser)
        /\ r = errorsResult errs
        /\ Forall (errorOf sampleParser) errs
        /\ ParseErrors_Error errs = joinLines (map lineOfError errs).
Proof.
  assert (Hb : inBounds sampleParser) by (unfold inBounds; vm_compute; lia).
  assert (Hret : returned (do_ sampleParser)
                 = Some (Some [mkParseError (lit "f.ini") 1 1 (lit "Expected section or key");
                               mkParseError (lit "f.ini") 4 3
                                 (lit "expected ']' or space followed by quoted subsection")]))
    by (vm_compute; reflexivity).
  destruct (returned_Some _ _ Hret) as [l' Hdo].
  eexists. exists l'. split; [exact Hdo |].
  pose proof (C6_errors_collected sampleParser _ l' Hb Hdo) as [_ Hall].
  exact Hall.
Defined.

(** With an empty file name the two errors of the sample render without
    the [file:] prefix.  An error that a hook returns ends more than its
    statement: the statement has consumed its newline when the hook is
    called, so the recovery skips the line after it.  With a sink that
    refuses the key [a], on three well-formed lines the error of the
    first line, reported on line 1, leaves the cursor at the end of the
    second line, and the sink gets [c] and never [b]; without the first
    line it gets [b] and [c].  And not every parse goes on to the end of
    the input: a carriage return as the last byte of a value makes the
    parser index out of range. *)
Lemma C6_counterexample :
  (exists errs,
      returned (do_ (newParser emptyEditor [] sample_input)) = Some (Some errs)
      /\ ParseErrors_Error errs <> joinLines (map lineWithFile errs))
  /\ match do1 (newParser ([] : list bytes) (lit "f.ini") three_lines) with
     | Ok (Some pe) l2 =>
       pe = mkParseError (lit "f.ini") 1 3 (lit "refused")
       /\ lineno (pos l2) = 1%nat /\ index (pos l2) = 7%nat
     | _ => False
     end
  /\ match do_ (newParser ([] : list bytes) (lit "f.ini") three_lines) with
     | Ok r l' =>
       r = Some [mkParseError (lit "f.ini") 1 3 (lit "refused")]
       /\ sink l' = [lit "c"]
     | _ => False
     end
  /\ match do_ (newParser ([] : list bytes) (lit "f.ini") (drop 4 three_lines)) with
     | Ok r l' => r = None /\ sink l' = [lit "b"; lit "c"]
     | _ => False
     end
  /\ do_ (newParser ([] : list bytes) (lit "f.ini") (lit "a=x" ++ [x0d]))
     = Crash PanicIndexOutOfRange.
Proof.
  split; [| split; [| split; [| split]]].
  - eexists. split; [vm_compute; reflexivity |].
    vm_compute. discriminate.
  - vm_compute. now repeat split.
  - vm_compute. now split.
  - vm_compute. now split.
  - vm_compute. reflexivity.
Qed.


(** ** Invariants of the sink along the statement loop *)

Section SinkInvariant.
Context {T : Type} `{IniSink T}.
Implicit Types l : iniParse T.
Local Open Scope nat_scope.

Variable Inv : iniParse T -> Prop.
Hypothesis Inv_moved : forall l l', moved l l' -> Inv l -> Inv l'.
Hypothesis Inv_hook :
  forall l l1 hook s' err,
    inBounds l -> Inv l ->
    input l1 = input l -> file l1 = file l -> prevEnd l1 = prevEnd l ->
    sink l1 = sink l -> index (pos l) < index (pos l1) -> inBounds l1 ->
    hookOf l l1 hook -> hook (sink l) = HookOk s' err ->
    Inv (afterHook l1 s').

Lemma do1_invariant l e l' :
  inBounds l -> 0 < remaining l -> Inv l -> do1 l = Ok e l' -> Inv l'.
Proof.
  intros Hb Hrem HI. unfold do1.
  pose proof (do1_body_shape l Hb Hrem) as Hshape.
  destruct (do1_body l) as [[] l0 | pe l0 | p |] eqn:Hbody; try discriminate.
  - intros [= <- <-].
    inversion Hshape as [l2 Hm Hlt | | l1 hook s' Hi Hf Hp Hs Hlt Hb1 Hhook Hcall | |]; subst.
    + eapply Inv_moved; eassumption.
    + apply (Inv_hook l l1 hook s' None); assumption.
  - intros [= <- <-].
    assert (HI0 : Inv l0 /\ inBounds l0).
    { inversion Hshape as [| e2 l2 Hm He Hadv | |
                           l1 hook s' err e2 Hi Hf Hp Hs Hlt Hb1 Hhook Hcall He Hmsg |]; subst.
      - split; [eapply Inv_moved; eassumption | eapply moved_inBounds; eassumption].
      - split; [apply (Inv_hook l l1 hook s' (Some err)); assumption | exact Hb1]. }
    destruct HI0 as [HI0 Hb0].
    destruct (skipTo 10 l0) as [found l1] eqn:Hto. cbn [snd].
    destruct (skipTo_spec _ _ _ _ Hb0 Hto) as (Hm & _).
    eapply Inv_moved; eassumption.
Qed.

Lemma statements_invariant n l errs l' :
  statements n l errs l' -> inBounds l -> Inv l -> Inv l' /\ inBounds l'.
Proof.
  induction 1 as [l Hz | l l1 l' n errs Hrem Hdo _ IH | l l1 l' n pe errs Hrem Hdo _ IH];
    intros Hb HI.
  - now split.
  - pose proof (do1_progress l Hb Hrem) as H1. rewrite Hdo in H1.
    apply IH; [apply H1 | eapply do1_invariant; eassumption].
  - pose proof (do1_progress l Hb Hrem) as H1. rewrite Hdo in H1.
    apply IH; [apply H1 | eapply do1_invariant; eassumption].
Qed.

(** When [do] returns, the state it returns is the one the statement
    loop stopped in, after the [Done] hook got the trailing range. *)
Lemma do_inv l r l' :
  inBounds l -> Inv l -> do_ l = Ok r l' ->
  exists lend s',
    Inv lend /\ inBounds lend /\ remaining lend = 0 /\ input lend = input l
    /\ sink_Done (mkIniRange (index (pos lend)) (index (pos lend)) (prevEnd lend)
                             (input lend)) (sink lend) = inr s'
    /\ l' = set_sink s' (set_prevEnd (index (pos lend)) lend).
Proof.
  intros Hb HI. unfold do_. rewrite bindP_gets. unfold bindP at 1.
  pose proof (doLoop_statements (length (input l)) [] l Hb
                ltac:(unfold remaining; lia)) as Hloop.
  destruct (doLoop _ _ l) as [errs lend | | |]; try discriminate.
  destruct Hloop as (n & es & Hst & Herrs & Hn & Hend & Hi & Hf & Hbe).
  destruct (statements_invariant _ _ _ _ Hst Hb HI) as [HIe _].
  rewrite bindP_gets, bindP_state. unfold getRange. cbn [fst snd].
  unfold bindP at 1. cbn [sink set_prevEnd].
  destruct (sink_Done _ _) as [p | s'] eqn:Hdone; [discriminate |].
  cbn [retP bindP]. intros [= <- <-].
  exists lend, s'. repeat split; try assumption.
Qed.

End SinkInvariant.

(** ** Building an editor: the round trip *)

Local Open Scope ed_scope.

Lemma WriteToFrom_Builder (fr : list (nat * bytes)) (n : nat) (w : bytes) :
  WriteToFrom Builder_Write fr n w
  = (w ++ concat (map snd fr), (n + length (concat (map snd fr)))%nat, false).
Proof.
  revert n w. induction fr as [| e t IH]; intros n w; cbn [WriteToFrom map concat].
  - now rewrite app_nil_r, Nat.add_0_r.
  - unfold Builder_Write at 1. rewrite IH, <- app_assoc, length_app.
    now rewrite Nat.add_assoc.
Qed.

Lemma IniEditor_String_fragments (ie : IniEditor) :
  IniEditor_String ie = fragmentBytes ie.
Proof.
  unfold IniEditor_String, IniEditor_WriteTo. now rewrite WriteToFrom_Builder.
Qed.

Lemma fragmentBytes_snoc (ie : IniEditor) (id : nat) (v : bytes) :
  concat (map snd (fragments ie ++ [(id, v)])) = fragmentBytes ie ++ v.
Proof.
  unfold fragmentBytes. rewrite map_app, concat_app. cbn. now rewrite app_nil_r.
Qed.

(** [appendItem] appends the gap and the statement of the range, and
    touches nothing but the list. *)
Lemma appendItem_spec (r : IniRange) (ie : IniEditor) ee ie' :
  appendItem r ie = Done ee ie' ->
  (PrevEndIndex r <= StartIndex r)%nat -> (StartIndex r <= EndIndex r)%nat ->
  fragmentBytes ie'
  = fragmentBytes ie
      ++ take (StartIndex r - PrevEndIndex r) (drop (PrevEndIndex r) (Input r))
      ++ take (EndIndex r - StartIndex r) (drop (StartIndex r) (Input r))
  /\ secEnd ie' = secEnd ie /\ values ie' = values ie /\ lastSec ie' = lastSec ie.
Proof.
  intros Happ Hps Hse. unfold appendItem, bindE, slice, PushBack, retE, panicE in Happ.
  destruct (Nat.ltb_spec (PrevEndIndex r) (StartIndex r)) as [Hgap | Hnogap];
    destruct (Nat.ltb_spec (StartIndex r) (EndIndex r)) as [Hst | Hnost];
    repeat match type of Happ with
           | context [if ?c then _ else _] => destruct c; cbn in Happ; try discriminate
           end;
    injection Happ as <- <-; cbn [fragments secEnd values lastSec set_nextElem set_fragments].
  all: unfold fragmentBytes; cbn [fragments set_nextElem set_fragments].
  all: rewrite ?map_app, ?concat_app; cbn [map concat snd].
  all: rewrite ?app_nil_r, <- ?app_assoc.
  - auto.
  - replace (EndIndex r - StartIndex r)%nat with 0%nat by lia.
    cbn [take]. now rewrite app_nil_r.
  - replace (StartIndex r - PrevEndIndex r)%nat with 0%nat by lia.
    cbn [take app]. auto.
  - replace (EndIndex r - StartIndex r)%nat with 0%nat by lia.
    replace (StartIndex r - PrevEndIndex r)%nat with 0%nat by lia.
    cbn [take]. rewrite !app_nil_r. auto.
Qed.

Lemma slices_prefix (inp : bytes) (a b c : nat) :
  (a <= b)%nat -> (b <= c)%nat ->
  take a inp ++ take (b - a) (drop a inp) ++ take (c - b) (drop b inp) = take c inp.
Proof.
  intros Hab Hbc. rewrite app_assoc, take_take_drop.
  replace (a + (b - a))%nat with b by lia.
  rewrite take_take_drop. f_equal. lia.
Qed.

Lemma IniEditor_Section_bytes (ss : IniSecStart) (ie ie' : IniEditor) err :
  IniEditor_Section ss ie = Done err ie' ->
  exists ee ie1, appendItem (SecRange ss) ie = Done ee ie1
                 /\ fragments ie' = fragments ie1.
Proof.
  unfold IniEditor_Section, bindE at 1. 
  destruct (appendItem (SecRange ss) ie) as [ee ie1 | p ie1]; [| discriminate].
  unfold bindE, getsE, liftE, modifyE, retE, panicE.
  destruct (IniSection_String (lastSec ie1)); [discriminate |].
  intros [= _ <-]. eauto.
Qed.

Lemma IniEditor_Item_bytes (ii : IniItem) (ie ie' : IniEditor) err :
  IniEditor_Item ii ie = Done err ie' ->
  exists ee ie1, appendItem (ItemRange ii) ie = Done ee ie1
                 /\ fragments ie' = fragments ie1.
Proof.
  unfold IniEditor_Item, bindE at 1, liftE.
  destruct (IniItem_QKey ii); [discriminate |]. unfold retE at 1.
  unfold bindE at 1.
  destruct (appendItem (ItemRange ii) ie) as [ee ie1 | p ie1]; [| discriminate].
  unfold bindE, modifyE, retE.
  intros [= _ <-]. eauto.
Qed.

Lemma IniEditor_Done_bytes (r : IniRange) (ie ie' : IniEditor) :
  IniEditor_Done r ie = Done tt ie' ->
  exists ee ie1, appendItem r ie = Done ee ie1
                 /\ fragmentBytes ie' = fragmentBytes ie1.
Proof.
  unfold IniEditor_Done, bindE at 1.
  destruct (appendItem r ie) as [ee ie1 | p ie1]; [| discriminate].
  unfold bindE at 1.
  destruct (fst ee) as [e1 |].
  - unfold retE at 1. unfold bindE, getsE, liftE, modifyE, retE, panicE.
    destruct (IniSection_String (lastSec ie1)); [discriminate |].
    intros [= <-]. eauto.
  - unfold PushBack at 1. unfold bindE, getsE, liftE, modifyE, retE, panicE.
    cbn [lastSec set_nextElem set_fragments].
    destruct (IniSection_String (lastSec ie1)); [discriminate |].
    intros [= <-]. exists ee, ie1. split; [reflexivity |].
    unfold fragmentBytes at 1. cbn [fragments set_secEnd set_lastSec set_nextElem set_fragments].
    rewrite fragmentBytes_snoc. now rewrite app_nil_r.
Qed.

Lemma coversPrefix_moved (l l' : iniParse IniEditor) :
  moved l l' -> coversPrefix l -> coversPrefix l'.
Proof.
  intros [Hi _ _ Hp Hs Hidx _] [Hle Hbytes]. unfold coversPrefix.
  rewrite Hp, Hs, Hi. split; [lia | exact Hbytes].
Qed.

Lemma coversPrefix_hook (l l1 : iniParse IniEditor) hook s' err :
  inBounds l -> coversPrefix l ->
  input l1 = input l -> file l1 = file l -> prevEnd l1 = prevEnd l ->
  sink l1 = sink l -> (index (pos l) < index (pos l1))%nat -> inBounds l1 ->
  hookOf l l1 hook -> hook (sink l) = HookOk s' err ->
  coversPrefix (afterHook l1 s').
Proof.
  intros Hb [Hle Hbytes] Hi Hf Hp Hs Hlt Hb1 Hhook Hcall.
  unfold coversPrefix, afterHook. cbn [prevEnd index pos sink input set_sink set_prevEnd].
  split; [lia |].
  assert (Happ : exists ee ie1, appendItem (stmtRange l l1) (sink l) = Done ee ie1
                                /\ fragments s' = fragments ie1).
  { destruct Hhook as [s Hsec | k v Hsec]; cbn [sink_Section sink_Item IniEditor_IniSink] in Hcall;
      unfold hookOfEd in Hcall.
    - destruct (IniEditor_Section _ (sink l)) as [e2 ie2 | p ie2] eqn:Hed; [| discriminate].
      injection Hcall as <- <-. apply (IniEditor_Section_bytes _ _ _ _ Hed).
    - destruct (IniEditor_Item _ (sink l)) as [e2 ie2 | p ie2] eqn:Hed; [| discriminate].
      injection Hcall as <- <-. apply (IniEditor_Item_bytes _ _ _ _ Hed). }
  destruct Happ as (ee & ie1 & Happ & Hfr).
  apply appendItem_spec in Happ; cbn [stmtRange PrevEndIndex StartIndex EndIndex Input];
    [| lia | lia].
  destruct Happ as (Hb1' & _).
  unfold fragmentBytes at 1. rewrite Hfr. fold (fragmentBytes ie1).
  rewrite Hb1', Hbytes, Hi. cbn [stmtRange PrevEndIndex StartIndex EndIndex Input].
  apply slices_prefix; lia.
Qed.

(** The round trip, whatever the errors: an editor built from [contents]
    serializes to [contents]. *)
Lemma NewIniEdit_round_trip (filename contents : bytes) (ie : IniEditor)
    (err : option (list ParseError)) (l : iniParse IniEditor) :
  NewIniEdit filename contents = Ok (ie, err) l ->
  IniEditor_String ie = contents.
Proof.
  unfold NewIniEdit, IniParseContents.
  destruct (do_ (newParser emptyEditor filename contents)) as [r l' | | |] eqn:Hdo;
    try discriminate.
  intros [= <- <- <-].
  assert (Hb : inBounds (newParser emptyEditor filename contents))
    by (unfold inBounds; cbn; lia).
  assert (HI : coversPrefix (newParser emptyEditor filename contents))
    by (split; [cbn; lia | reflexivity]).
  destruct (do_inv coversPrefix coversPrefix_moved coversPrefix_hook _ _ _ Hb HI Hdo)
    as (lend & s' & [Hle Hbytes] & Hbe & Hend & Hi & Hdone & ->).
  cbn [sink set_sink]. rewrite IniEditor_String_fragments.
  cbn [sink_Done IniEditor_IniSink] in Hdone.
  destruct (IniEditor_Done _ (sink lend)) as [[] ie2 | p ie2] eqn:Hed; [| discriminate].
  injection Hdone as <-.
  destruct (IniEditor_Done_bytes _ _ _ Hed) as (ee & ie1 & Happ & Hfb).
  apply appendItem_spec in Happ; cbn [PrevEndIndex StartIndex EndIndex Input]; [| lia | lia].
  destruct Happ as (Hb1 & _). rewrite Hfb, Hb1, Hbytes.
  cbn [PrevEndIndex StartIndex EndIndex Input].
  rewrite slices_prefix by lia.
  rewrite Hi. cbn [newParser input]. apply take_ge.
  unfold remaining, inBounds in *. rewrite Hi in *. cbn [newParser input] in *. lia.
Qed.

(** C1: an input that parses with no syntax error, built into an editor
    and serialized with no edit, gives the input back byte for byte. *)
Theorem C1_round_trip (filename contents : bytes) (ie : IniEditor)
    (l : iniParse IniEditor) :
  NewIniEdit filename contents = Ok (ie, None) l ->
  IniEditor_String ie = contents
  /\ fst (fst (IniEditor_WriteTo Builder_Write ie [])) = contents.
Proof.
  intros Hnew. pose proof (NewIniEdit_round_trip _ _ _ _ _ Hnew) as Hrt.
  split; exact Hrt.
Qed.

Lemma C1_witness :
  exists ie l,
    NewIniEdit (lit "f.ini") example6_input = Ok (ie, None) l
    /\ IniEditor_String ie = example6_input
    /\ fst (fst (IniEditor_WriteTo Builder_Write ie [])) = example6_input.
Proof.
  assert (Hret : snd <$> returned (NewIniEdit (lit "f.ini") example6_input) = Some None)
    by (vm_compute; reflexivity).
  destruct (NewIniEdit (lit "f.ini") example6_input) as [[ie err] l | | |] eqn:Hnew;
    try discriminate Hret.
  injection Hret as ->.
  exists ie, l. split; [reflexivity |].
  exact (C1_round_trip _ _ _ _ Hnew).
Defined.

(** ** Escaping a value and reading it back *)

Local Close Scope ed_scope.
Local Open Scope parser_scope.

Section EscapeRoundTrip.
Context {T : Type} `{IniSink T}.
Implicit Types l : iniParse T.
Local Open Scope nat_scope.

Lemma atText_peek l b t : atText l (b :: t) -> peek l = rune_of_byte b.
Proof. unfold atText. intros Hd. rewrite peek_drop. now rewrite Hd. Qed.

Lemma atText_eof l : atText l [] -> peek l = eofRune.
Proof. unfold atText. intros Hd. rewrite peek_drop. now rewrite Hd. Qed.

Lemma atText_remaining l text : atText l text -> remaining l = length text.
Proof. unfold atText, remaining. intros <-. now rewrite length_drop. Qed.

Lemma atText_skip1 l b t : atText l (b :: t) -> atText (skip 1 l) t.
Proof.
  intros Hd. pose proof (atText_remaining _ _ Hd) as Hrem. cbn [length] in Hrem.
  unfold atText in *. rewrite index_skip.
  replace (Nat.min 1 (remaining l)) with 1 by lia.
  unfold skip. cbn [input set_pos].
  rewrite <- (drop_drop (input l) 1 (index (pos l))).
  now rewrite Hd.
Qed.

Lemma atText_skip_eof l : atText l [] -> atText (skip 1 l) [].
Proof.
  intros Hd. pose proof (atText_remaining _ _ Hd) as Hrem. cbn [length] in Hrem.
  unfold atText in *. rewrite index_skip, Hrem.
  unfold skip. cbn [input set_pos]. now rewrite Nat.min_0_r, Nat.add_0_r.
Qed.

Lemma atText_at1 l b b' t : atText l (b :: b' :: t) -> at_ 1 l = inr (rune_of_byte b').
Proof.
  unfold atText, at_. intros Hd.
  assert (Hl : input l !! (1 + index (pos l)) = Some b').
  { rewrite Nat.add_comm, <- lookup_drop, Hd. reflexivity. }
  pose proof (lookup_lt_Some _ _ _ Hl) as Hlt.
  destruct (Nat.ltb_spec (length (input l)) (1 + index (pos l))); [lia |].
  now rewrite Hl.
Qed.

Lemma index_skip1_text l b t :
  atText l (b :: t) -> index (pos (skip 1 l)) = S (index (pos l)).
Proof.
  intros Hd. pose proof (atText_remaining _ _ Hd) as Hrem. cbn [length] in Hrem.
  rewrite index_skip. lia.
Qed.

(** *** Single iterations of the loop of [getValue] *)

Lemma step_backslash fuel ret q l :
  peek l = 92%Z ->
  getValueLoop (S fuel) ret false q l = getValueLoop fuel ret true q (skip 1 l).
Proof. intros Hp. cbn [getValueLoop]. rewrite bindP_gets, Hp. reflexivity. Qed.

Lemma step_quote fuel ret q l :
  peek l = 34%Z ->
  getValueLoop (S fuel) ret false q l = getValueLoop fuel ret false (negb q) (skip 1 l).
Proof. intros Hp. cbn [getValueLoop]. rewrite bindP_gets, Hp. reflexivity. Qed.

Lemma step_escaped fuel ret q l (b : byte) :
  unescaped (peek l) = Some b ->
  getValueLoop (S fuel) ret true q l = getValueLoop fuel (ret ++ [b]) false q (skip 1 l).
Proof.
  intros Hu. cbn [getValueLoop]. rewrite bindP_gets. unfold unescaped in Hu.
  repeat (destruct (_ : bool) in Hu |- *; [injection Hu as <-; reflexivity |]).
  discriminate.
Qed.

Lemma step_raw fuel ret q l (c : Z) :
  peek l = c ->
  c <> 92%Z -> c <> 34%Z -> c <> 10%Z -> c <> eofRune ->
  (c = 13%Z -> exists a, at_ 1 l = inr a /\ a <> 10%Z) ->
  (q = false -> c <> 35%Z /\ c <> 59%Z) ->
  getValueLoop (S fuel) ret false q l
  = getValueLoop fuel (ret ++ [byte_of_rune c]) false q (skip 1 l).
Proof.
  intros Hp H92 H34 H10 Heof H13 Hq. cbn [getValueLoop]. rewrite bindP_gets, Hp.
  destruct (Z.eqb_spec c 92); [contradiction |].
  destruct (Z.eqb_spec c 34); [contradiction |].
  destruct (Z.eqb_spec c 10); [contradiction |].
  destruct (Z.eqb_spec c eofRune); [contradiction |]. cbn [orb].
  assert (Hcomment : negb q && ((c =? 35)%Z || (c =? 59)%Z) = false).
  { destruct q; [reflexivity |]. destruct (Hq eq_refl) as [H35 H59].
    destruct (Z.eqb_spec c 35); [contradiction |].
    destruct (Z.eqb_spec c 59); [contradiction |]. reflexivity. }
  destruct (Z.eqb_spec c 13) as [Hcr | Hcr].
  - destruct (H13 Hcr) as (a & -> & Ha).
    destruct (Z.eqb_spec a 10); [contradiction |]. now rewrite Hcomment.
  - now rewrite Hcomment.
Qed.

Lemma step_end fuel ret l :
  peek l = 10%Z \/ peek l = eofRune ->
  getValueLoop (S fuel) ret false false l = Ok ret (skip 1 l).
Proof.
  intros Hp. cbn [getValueLoop]. rewrite bindP_gets.
  destruct Hp as [-> | ->]; reflexivity.
Qed.

(** *** Runs of the loop over unquoted and over quoted text *)

Lemma needQuotes_false (s : bytes) :
  needQuotes s = false -> Forall plainByte s.
Proof.
  unfold needQuotes. destruct s as [| b0 t]; [constructor |].
  destruct (_ || _); [discriminate |].
  intros Hex. apply Forall_forall. intros b Hb.
  match type of Hex with
  | existsb ?f _ = false =>
    assert (Hnot : f b = false);
      [ destruct (f b) eqn:Hc; [| reflexivity];
        assert (Htrue : existsb f (b0 :: t) = true)
          by (apply existsb_exists; exists b; split;
              [now apply list_elem_of_In | exact Hc]);
        congruence |]
  end.
  cbn beta zeta in Hnot. unfold plainByte. cbn zeta.
  pose proof (rune_of_byte_range b). lia.
Qed.

Lemma plain_run (s : bytes) :
  Forall plainByte s ->
  forall (ret tail : bytes) (fuel : nat) l,
    atText l (s ++ tail) ->
    exists l1,
      atText l1 tail /\ input l1 = input l
      /\ index (pos l1) = index (pos l) + length s
      /\ getValueLoop (length s + fuel) ret false false l
         = getValueLoop fuel (ret ++ s) false false l1.
Proof.
  induction 1 as [| b s Hb _ IH]; intros ret tail fuel l Ht.
  - exists l. cbn [length app]. rewrite app_nil_r, Nat.add_0_r. auto.
  - cbn [app] in Ht. destruct Hb as (Hrange & H34 & H35 & H59 & H92).
    destruct (IH (ret ++ [b]) tail fuel (skip 1 l) (atText_skip1 _ _ _ Ht))
      as (l1 & Ht1 & Hi1 & Hx1 & Hrun).
    exists l1. split; [exact Ht1 |]. split; [exact Hi1 |].
    split; [rewrite Hx1, (index_skip1_text _ _ _ Ht); cbn [length]; lia |].
    cbn [length Nat.add].
    rewrite (step_raw _ _ _ _ (rune_of_byte b) (atText_peek _ _ _ Ht));
      [ rewrite byte_of_rune_of_byte, Hrun, <- app_assoc; reflexivity
      | unfold eofRune; try lia; intros _; split; assumption .. ].
Qed.

Lemma escapeByte_cases (b : byte) :
  let c := rune_of_byte b in
  (((c = 34 \/ c = 92)%Z /\ escapeByte b = [x5c; b])
   \/ (c = 8%Z /\ b = x08 /\ escapeByte b = [x5c; x62])
   \/ (c = 10%Z /\ b = x0a /\ escapeByte b = [x5c; x6e])
   \/ (c = 9%Z /\ b = x09 /\ escapeByte b = [x5c; x74])
   \/ (c <> 34 /\ c <> 92 /\ c <> 8 /\ c <> 10 /\ c <> 9 /\ escapeByte b = [b])%Z).
Proof. destruct b; vm_compute; intuition (try reflexivity; try discriminate). Qed.

Lemma headNotNL_escaped (s tail : bytes) :
  headNotNL tail -> headNotNL (concat (map escapeByte s) ++ tail).
Proof.
  intros Htail. destruct s as [| b s]; [exact Htail |].
  cbn [map concat].
  destruct (escapeByte_cases b) as [[_ ->] | [(_ & _ & ->) | [(_ & _ & ->) | [(_ & _ & ->)
                                   | (_ & _ & _ & Hnl & _ & ->)]]]];
    cbn [app]; eexists; eexists; (split; [reflexivity |]); try (vm_compute; discriminate).
  exact Hnl.
Qed.

Lemma quoted_run (s : bytes) :
  forall (ret tail : bytes) (fuel : nat) l,
    headNotNL tail ->
    atText l (concat (map escapeByte s) ++ tail) ->
    exists l1,
      atText l1 tail /\ input l1 = input l
      /\ index (pos l1) = index (pos l) + length (concat (map escapeByte s))
      /\ getValueLoop (length (concat (map escapeByte s)) + fuel) ret false true l
         = getValueLoop fuel (ret ++ s) false true l1.
Proof.
  induction s as [| b s IH]; intros ret tail fuel l Htail Ht.
  - exists l. cbn [map concat length app] in *. rewrite app_nil_r, Nat.add_0_r. auto.
  - cbn [map concat] in Ht |- *. rewrite <- app_assoc in Ht. rewrite length_app.
    pose proof (headNotNL_escaped s tail Htail) as Hnext.
    assert (Htwo : forall e, escapeByte b = [x5c; e] ->
                     unescaped (rune_of_byte e) = Some b ->
                     exists l1,
                       atText l1 tail /\ input l1 = input l
                       /\ index (pos l1)
                          = index (pos l) + (length (escapeByte b)
                                             + length (concat (map escapeByte s)))
                       /\ getValueLoop (length (escapeByte b)
                                        + length (concat (map escapeByte s)) + fuel)
                                       ret false true l
                          = getValueLoop fuel (ret ++ b :: s) false true l1).
    { intros e He Hun. rewrite He in Ht |- *. cbn [app length] in Ht |- *.
      pose proof (atText_skip1 _ _ _ Ht) as Ht1.
      pose proof (atText_skip1 _ _ _ Ht1) as Ht2.
      destruct (IH (ret ++ [b]) tail fuel _ Htail Ht2) as (l1 & Hl1 & Hi1 & Hx1 & Hrun).
      exists l1. split; [exact Hl1 |]. split; [exact Hi1 |].
      split.
      - rewrite Hx1, (index_skip1_text _ _ _ Ht1), (index_skip1_text _ _ _ Ht). lia.
      - cbn [Nat.add].
        rewrite (step_backslash _ _ _ _ (atText_peek _ _ _ Ht)).
        rewrite (step_escaped _ _ _ _ b); [| now rewrite (atText_peek _ _ _ Ht1)].
        rewrite Hrun, <- app_assoc. reflexivity. }
    destruct (escapeByte_cases b) as [[Hc He] | [(Hc & Hb & He) | [(Hc & Hb & He)
                                     | [(Hc & Hb & He) | (H34 & H92 & H8 & H10 & H9 & He)]]]].
    + apply (Htwo b He). unfold unescaped.
      destruct Hc as [Hc | Hc]; rewrite Hc; cbn [Z.eqb orb Pos.eqb];
        f_equal; rewrite <- Hc; apply byte_of_rune_of_byte.
    + apply (Htwo x62 He). now subst b.
    + apply (Htwo x6e He). now subst b.
    + apply (Htwo x74 He). now subst b.
    + rewrite He in Ht |- *. cbn [app length] in Ht |- *.
      pose proof (atText_skip1 _ _ _ Ht) as Ht1.
      destruct (IH (ret ++ [b]) tail fuel _ Htail Ht1) as (l1 & Hl1 & Hi1 & Hx1 & Hrun).
      exists l1. split; [exact Hl1 |]. split; [exact Hi1 |].
      split; [rewrite Hx1, (index_skip1_text _ _ _ Ht); lia |].
      cbn [Nat.add].
      rewrite (step_raw _ _ _ _ (rune_of_byte b) (atText_peek _ _ _ Ht));
        [ rewrite byte_of_rune_of_byte, Hrun, <- app_assoc; reflexivity
        | assumption | assumption | assumption
        | pose proof (rune_of_byte_range b); unfold eofRune; lia
        | | discriminate ].
      intros _. destruct Hnext as (t0 & tl & Heq & Hnl).
      rewrite Heq in Ht. exists (rune_of_byte t0).
      split; [apply (atText_at1 _ _ _ _ Ht) | exact Hnl].
Qed.

Lemma input_skip (n : nat) l : input (skip n l) = input l.
Proof. reflexivity. Qed.

Lemma index_skip1_min l text :
  atText l text -> index (pos (skip 1 l)) = index (pos l) + Nat.min 1 (length text).
Proof. intros Ht. now rewrite index_skip, (atText_remaining _ _ Ht). Qed.

(** [getValue] on the escaped form of [s], followed by a newline or by the
    end of the input, returns [s] and stops after the terminator. *)
Lemma getValue_escaped l (s term : bytes) :
  atText l (EscapeIniValue s ++ term) ->
  term = [] \/ (exists rest, term = x0a :: rest) ->
  exists l',
    getValue l = Ok s l' /\ input l' = input l
    /\ index (pos l')
       = index (pos l) + length (EscapeIniValue s) + Nat.min 1 (length term).
Proof.
  intros Ht Hterm. unfold getValue. rewrite (atText_remaining _ _ Ht), length_app.
  assert (Hend : forall l1, atText l1 term -> peek l1 = 10%Z \/ peek l1 = eofRune).
  { intros l1 Ht1. destruct Hterm as [-> | [rest ->]].
    - right. now apply atText_eof.
    - left. now rewrite (atText_peek _ _ _ Ht1). }
  unfold EscapeIniValue in *. destruct (needQuotes s) eqn:Hq; cbn [negb] in *.
  - (* quoted *)
    cbn [app length] in Ht |- *. rewrite <- app_assoc in Ht. cbn [app] in Ht.
    rewrite length_app. cbn [length].
    match goal with
    | |- context [getValueLoop ?fuel] =>
      replace fuel
        with (S (length (concat (map escapeByte s)) + S (S (length term)))) by lia
    end.
    rewrite (step_quote _ _ _ _ (atText_peek _ _ _ Ht)). cbn [negb].
    pose proof (atText_skip1 _ _ _ Ht) as Ht0.
    destruct (quoted_run s [] (x22 :: term) (S (S (length term))) _
                ltac:(eexists; eexists; split; [reflexivity | vm_compute; discriminate])
                Ht0) as (l1 & Ht1 & Hi1 & Hx1 & Hrun).
    rewrite Hrun. cbn [app].
    rewrite (step_quote _ _ _ _ (atText_peek _ _ _ Ht1)). cbn [negb].
    pose proof (atText_skip1 _ _ _ Ht1) as Ht2.
    rewrite (step_end _ _ _ (Hend _ Ht2)).
    eexists. split; [reflexivity |].
    split; [now rewrite !input_skip, Hi1, input_skip |].
    rewrite (index_skip1_min _ _ Ht2), (index_skip1_text _ _ _ Ht1), Hx1,
      (index_skip1_text _ _ _ Ht). lia.
  - (* as it is *)
    match goal with
    | |- context [getValueLoop ?fuel] =>
      replace fuel with (length s + S (length term)) by lia
    end.
    destruct (plain_run s (needQuotes_false s Hq) [] term (S (length term)) l Ht)
      as (l1 & Ht1 & Hi1 & Hx1 & Hrun).
    rewrite Hrun. cbn [app].
    rewrite (step_end _ _ _ (Hend _ Ht1)).
    eexists. split; [reflexivity |].
    split; [now rewrite input_skip, Hi1 |].
    rewrite (index_skip1_min _ _ Ht1), Hx1. lia.
Qed.

(** C2: [getValue] reads the text of [EscapeIniValue s] back as [s], for
    every byte string [s], wherever the text stands in the input, when a
    newline or the end of the input follows it; and a value that starts
    with a space or a tab is escaped with quotes. *)
Theorem C2_escape_inverse :
  (forall (s pre rest : bytes) (ln cn : nat) (f : bytes) (sc : option IniSection)
          (pe : nat) (snk : T),
      exists l',
        getValue (mkParse (mkPos (length pre) ln cn)
                          (pre ++ EscapeIniValue s ++ x0a :: rest) f sc pe snk)
        = Ok s l'
        /\ index (pos l') = length pre + length (EscapeIniValue s) + 1)
  /\ (forall (s pre : bytes) (ln cn : nat) (f : bytes) (sc : option IniSection)
             (pe : nat) (snk : T),
      exists l',
        getValue (mkParse (mkPos (length pre) ln cn)
                          (pre ++ EscapeIniValue s) f sc pe snk)
        = Ok s l'
        /\ index (pos l') = length pre + length (EscapeIniValue s))
  /\ (forall t : bytes,
      (exists e, EscapeIniValue (x20 :: t) = x22 :: e)
      /\ (exists e, EscapeIniValue (x09 :: t) = x22 :: e)).
Proof.
  split; [| split].
  - intros s pre rest ln cn f sc pe snk.
    destruct (getValue_escaped
                (mkParse (mkPos (length pre) ln cn)
                         (pre ++ EscapeIniValue s ++ x0a :: rest) f sc pe snk)
                s (x0a :: rest)) as (l' & Hget & _ & Hidx).
    + unfold atText. cbn [pos index input]. now rewrite drop_app_length.
    + right. eauto.
    + exists l'. split; [exact Hget |]. rewrite Hidx. cbn. lia.
  - intros s pre ln cn f sc pe snk.
    destruct (getValue_escaped
                (mkParse (mkPos (length pre) ln cn)
                         (pre ++ EscapeIniValue s) f sc pe snk)
                s []) as (l' & Hget & _ & Hidx).
    + unfold atText. cbn [pos index input]. now rewrite app_nil_r, drop_app_length.
    + now left.
    + exists l'. split; [exact Hget |]. rewrite Hidx. cbn. lia.
  - intros t. split; eexists; reflexivity.
Qed.

End EscapeRoundTrip.

(** ** Edits on an editor *)

Local Close Scope parser_scope.
Local Open Scope ed_scope.

Section Edits.
Local Open Scope nat_scope.
Implicit Types fr : list (nat * bytes).
Implicit Types vs : list Elem.

Lemma inList_elem_of (id : nat) fr : inList id fr = true <-> id ∈ map fst fr.
Proof.
  unfold inList. rewrite existsb_exists, list_elem_of_fmap. split.
  - intros (x & Hin & Heq). apply Nat.eqb_eq in Heq. exists x.
    split; [now symmetry | now apply list_elem_of_In].
  - intros (x & Heq & Hin). exists x. split; [now apply list_elem_of_In |].
    apply Nat.eqb_eq. now symmetry.
Qed.

Lemma liveIn_Some fr (e : Elem) : liveIn fr e <-> exists id, e = Some id /\ id ∈ map fst fr.
Proof.
  destruct e as [id |]; cbn; split.
  - eauto.
  - now intros (id' & [= <-] & Hin).
  - contradiction.
  - now intros (id' & [=] & _).
Qed.

(** An element that is in the list splits it at its first occurrence. *)
Lemma split_at_elem (m : nat) fr :
  m ∈ map fst fr ->
  exists pre v post, fr = pre ++ (m, v) :: post /\ m ∉ map fst pre.
Proof.
  induction fr as [| [i v] t IH]; cbn [map fst].
  - intros Hin. now apply elem_of_nil in Hin.
  - destruct (decide (i = m)) as [-> | Hne].
    + intros _. exists [], v, t. split; [reflexivity | apply not_elem_of_nil].
    + intros Hin. apply elem_of_cons in Hin as [Heq | Hin]; [congruence |].
      destruct (IH Hin) as (pre & v' & post & -> & Hpre).
      exists ((i, v) :: pre), v', post. split; [reflexivity |].
      cbn [map fst]. rewrite elem_of_cons. intros [Heq | Hin']; [congruence | auto].
Qed.

Lemma insertAfter_split (x : nat * bytes) (m : nat) (v : bytes) pre post :
  m ∉ map fst pre ->
  insertAfter x m (pre ++ (m, v) :: post) = pre ++ (m, v) :: x :: post.
Proof.
  induction pre as [| [i w] pre IH]; cbn [app insertAfter map fst]; intros Hpre.
  - now rewrite Nat.eqb_refl.
  - rewrite not_elem_of_cons in Hpre. destruct Hpre as [Hne Hpre].
    destruct (Nat.eqb_spec i m); [congruence |]. now rewrite IH.
Qed.

Lemma withoutElems_app vs fr1 fr2 :
  withoutElems vs (fr1 ++ fr2) = withoutElems vs fr1 ++ withoutElems vs fr2.
Proof. apply filter_app. Qed.

Lemma withoutElems_cons_in vs (x : nat * bytes) fr :
  Some (fst x) ∈ vs -> withoutElems vs (x :: fr) = withoutElems vs fr.
Proof. intros Hin. unfold withoutElems. rewrite filter_cons_False; auto. Qed.

Lemma withoutElems_cons_out vs (x : nat * bytes) fr :
  Some (fst x) ∉ vs -> withoutElems vs (x :: fr) = x :: withoutElems vs fr.
Proof. intros Hin. unfold withoutElems. now rewrite filter_cons_True. Qed.

Lemma withoutElems_id vs fr :
  Forall (fun x => Some (fst x) ∉ vs) fr -> withoutElems vs fr = fr.
Proof.
  induction 1 as [| x fr Hx _ IH]; [reflexivity |].
  now rewrite withoutElems_cons_out, IH.
Qed.

Lemma withoutElems_ids vs fr (i : nat) :
  i ∈ map fst (withoutElems vs fr) <-> i ∈ map fst fr /\ Some i ∉ vs.
Proof.
  unfold withoutElems. rewrite !list_elem_of_fmap. split.
  - intros ([j v] & -> & Hin). apply list_elem_of_filter in Hin as [Hout Hin].
    split; [exists (j, v); auto | exact Hout].
  - intros [([j v] & -> & Hin) Hout]. exists (j, v). split; [reflexivity |].
    apply list_elem_of_filter. auto.
Qed.

(** Removing the elements of [vs] one after the other leaves the list
    without them; a nil among them would panic. *)
Lemma forE_Remove vs :
  Forall (fun e : Elem => e <> None) vs ->
  forall ie,
    forE vs Remove ie = Done tt (set_fragments (withoutElems vs (fragments ie)) ie).
Proof.
  induction 1 as [| e vs He _ IH]; intros ie; cbn [forE].
  - unfold retE. rewrite withoutElems_id; [now destruct ie |].
    apply Forall_forall. intros x _. apply not_elem_of_nil.
  - destruct e as [id |]; [| congruence]. unfold bindE, Remove. rewrite IH.
    cbn [fragments set_fragments]. unfold set_fragments. cbn. f_equal. f_equal.
    unfold withoutElems, removeElem. rewrite list_filter_filter.
    apply list_filter_iff. intros [j v]. cbn [fst]. rewrite not_elem_of_cons.
    split; [intros [H1 H2]; split; congruence | intros [H1 H2]; split; congruence].
Qed.

(** The invariant, with its quantifiers spelled out. *)
Lemma wfEditor_iff (ie : IniEditor) :
  wfEditor ie <->
  (forall x, x ∈ fragments ie -> fst x < nextElem ie)
  /\ (forall k vs, values ie !! k = Some vs ->
                   vs <> [] /\ forall e, e ∈ vs -> liveIn (fragments ie) e)
  /\ (forall k k' vs vs' e,
         values ie !! k = Some vs -> values ie !! k' = Some vs' -> k <> k' ->
         e ∈ vs -> e ∉ vs')
  /\ (forall ss e, secEnd ie !! ss = Some e ->
                   liveIn (fragments ie) e
                   /\ forall k vs, values ie !! k = Some vs -> e ∉ vs).
Proof.
  unfold wfEditor, map_Forall. rewrite Forall_forall. split.
  - intros (H1 & H2 & H3 & H4). split; [exact H1 |]. split; [| split].
    + intros k vs Hk. destruct (H2 k vs Hk) as [Hne Hall]. split; [exact Hne |].
      now apply Forall_forall.
    + intros k k' vs vs' e Hk Hk' Hne He.
      pose proof (H3 k vs Hk k' vs' Hk' Hne) as Hall.
      rewrite Forall_forall in Hall. now apply Hall.
    + exact H4.
  - intros (H1 & H2 & H3 & H4). split; [exact H1 |]. split; [| split].
    + intros k vs Hk. destruct (H2 k vs Hk) as [Hne Hall]. split; [exact Hne |].
      now apply Forall_forall.
    + intros k vs Hk k' vs' Hk' Hne. apply Forall_forall. intros e He. eauto.
    + exact H4.
Qed.

Lemma liveIn_alloc (ie : IniEditor) (e : Elem) :
  wfEditor ie -> liveIn (fragments ie) e ->
  exists id, e = Some id /\ id ∈ map fst (fragments ie) /\ id < nextElem ie.
Proof.
  intros Hwf Hlive. apply wfEditor_iff in Hwf as (H1 & _).
  apply liveIn_Some in Hlive as (id & -> & Hin). exists id.
  split; [reflexivity |]. split; [exact Hin |].
  apply list_elem_of_fmap in Hin as (x & -> & Hx). now apply H1.
Qed.

Lemma wf_entry (ie : IniEditor) (k : bytes) vs :
  wfEditor ie -> values ie !! k = Some vs ->
  vs <> [] /\ Forall (fun e : Elem => e <> None) vs /\ (Some (nextElem ie) ∉ vs)
  /\ forall e, e ∈ vs -> liveIn (fragments ie) e.
Proof.
  intros Hwf Hk. pose proof Hwf as Hwf'.
  apply wfEditor_iff in Hwf' as (_ & H2 & _). destruct (H2 k vs Hk) as [Hne Hlive].
  split; [exact Hne |]. split; [| split; [| exact Hlive]].
  - apply Forall_forall. intros e He ->. now apply (Hlive None He).
  - intros Hin. destruct (liveIn_alloc ie _ Hwf (Hlive _ Hin)) as (id & [= <-] & _ & Hlt).
    lia.
Qed.

Lemma lookupValues_Some (k : bytes) vs (ie : IniEditor) :
  values ie !! k = Some vs -> lookupValues k ie = vs.
Proof. unfold lookupValues. now intros ->. Qed.

Lemma IniEditor_Del_spec (isec : option IniSection) (key k : bytes) (ie : IniEditor) :
  wfEditor ie -> IniQKey isec key = inr k ->
  IniEditor_Del isec key ie = Done tt (afterDel k ie).
Proof.
  intros Hwf Hq. unfold IniEditor_Del, bindE at 1, liftE. rewrite Hq. unfold retE at 1.
  unfold bindE at 1, getsE. unfold bindE.
  rewrite forE_Remove; [reflexivity |].
  unfold lookupValues. destruct (values ie !! k) as [vs |] eqn:Hk; [| constructor].
  apply (wf_entry ie k vs Hwf Hk).
Qed.

Lemma afterDel_absent (k : bytes) (ie : IniEditor) :
  values ie !! k = None -> afterDel k ie = ie.
Proof.
  intros Hk. unfold afterDel, lookupValues. rewrite Hk. cbn [default].
  rewrite withoutElems_id by (apply Forall_forall; intros x _; apply not_elem_of_nil).
  rewrite delete_id by exact Hk. now destruct ie.
Qed.

Lemma wfEditor_afterDel (k : bytes) (ie : IniEditor) :
  wfEditor ie -> wfEditor (afterDel k ie).
Proof.
  intros Hwf. destruct (values ie !! k) as [vs |] eqn:Hk;
    [| now rewrite afterDel_absent].
  pose proof Hwf as Hwf'. apply wfEditor_iff in Hwf' as (H1 & H2 & H3 & H4).
  apply wfEditor_iff. unfold afterDel, lookupValues. rewrite Hk.
  cbn [default fragments nextElem secEnd values lastSec].
  assert (Hlive : forall e, liveIn (fragments ie) e -> e ∉ vs ->
                            liveIn (withoutElems vs (fragments ie)) e).
  { intros e He Hout. apply liveIn_Some in He as (id & -> & Hin).
    cbn. apply withoutElems_ids. auto. }
  split; [| split; [| split]].
  - intros x Hx. apply list_elem_of_filter in Hx as [_ Hx]. auto.
  - intros k' vs' Hk'. apply lookup_delete_Some in Hk' as [Hne Hk'].
    destruct (H2 k' vs' Hk') as [Hnil Hl]. split; [exact Hnil |].
    intros e He. apply Hlive; [auto |]. eapply (H3 k' k); eauto.
  - intros k1 k2 vs1 vs2 e Hk1 Hk2.
    apply lookup_delete_Some in Hk1 as [_ Hk1]. apply lookup_delete_Some in Hk2 as [_ Hk2].
    eauto.
  - intros ss e Hs. destruct (H4 ss e Hs) as [Hl Hout]. split.
    + apply Hlive; eauto.
    + intros k' vs' Hk'. apply lookup_delete_Some in Hk' as [_ Hk']. eauto.
Qed.

Lemma last_elem_of {A} (l : list A) (x : A) : last l = Some x -> x ∈ l.
Proof.
  intros Hl. apply last_Some in Hl as [l' ->]. apply elem_of_app. right.
  apply list_elem_of_here.
Qed.

(** [Set] on a key whose last element stands between [pre] and [post]. *)
Lemma IniEditor_Set_split (isec : option IniSection) (key value k : bytes)
    vs (m : nat) old pre post (ie : IniEditor) :
  IniQKey isec key = inr k -> values ie !! k = Some vs ->
  last vs = Some (Some m) ->
  fragments ie = pre ++ (m, old) :: post -> m ∉ map fst pre ->
  Forall (fun e : Elem => e <> None) vs -> Some (nextElem ie) ∉ vs ->
  IniEditor_Set isec key value ie
  = Done tt (afterSet k vs pre post (iniLine key value) ie).
Proof.
  intros Hq Hk Hlast Hfr Hpre Hnonnil Hfresh.
  pose proof (last_elem_of _ _ Hlast) as Hin.
  assert (Hm : m ∈ map fst (fragments ie)).
  { rewrite Hfr, map_app, elem_of_app. right. apply list_elem_of_here. }
  unfold IniEditor_Set, bindE at 1, liftE. rewrite Hq. unfold retE at 1.
  unfold bindE at 1, getsE. rewrite (lookupValues_Some _ _ _ Hk), Hlast.
  unfold bindE at 1, InsertAfter.
  rewrite (proj2 (inList_elem_of m (fragments ie)) Hm).
  unfold bindE, modifyE. rewrite forE_Remove by exact Hnonnil.
  cbn [fragments nextElem secEnd values lastSec set_values set_nextElem set_fragments].
  unfold afterSet, set_fragments.
  cbn [fragments nextElem secEnd values lastSec].
  f_equal. f_equal.
  rewrite Hfr, insertAfter_split by exact Hpre.
  rewrite withoutElems_app, withoutElems_cons_in by exact Hin.
  now rewrite withoutElems_cons_out by exact Hfresh.
Qed.

Lemma IniEditor_Set_spec (isec : option IniSection) (key value k : bytes)
    vs (ie : IniEditor) :
  wfEditor ie -> IniQKey isec key = inr k -> values ie !! k = Some vs ->
  exists m old pre post,
    last vs = Some (Some m)
    /\ fragments ie = pre ++ (m, old) :: post /\ (m ∉ map fst pre)
    /\ IniEditor_Set isec key value ie
       = Done tt (afterSet k vs pre post (iniLine key value) ie).
Proof.
  intros Hwf Hq Hk.
  destruct (wf_entry ie k vs Hwf Hk) as (Hne & Hnonnil & Hfresh & Hlive).
  destruct (last vs) as [lastv |] eqn:Hlast;
    [| apply last_None in Hlast; contradiction].
  pose proof (last_elem_of _ _ Hlast) as Hin.
  destruct (liveIn_alloc ie _ Hwf (Hlive _ Hin)) as (m & -> & Hm & _).
  destruct (split_at_elem m _ Hm) as (pre & old & post & Hfr & Hpre).
  exists m, old, pre, post. split; [reflexivity |]. split; [exact Hfr |].
  split; [exact Hpre |].
  now apply (IniEditor_Set_split isec key value k vs m old pre post ie).
Qed.

Lemma afterSet_ids (k : bytes) vs pre post line (ie : IniEditor) (i : nat) :
  i ∈ map fst (fragments (afterSet k vs pre post line ie))
  <-> (i ∈ map fst (pre ++ post) /\ Some i ∉ vs) \/ i = nextElem ie.
Proof.
  unfold afterSet. cbn [fragments].
  rewrite !map_app, !elem_of_app. cbn [map fst]. rewrite elem_of_cons.
  rewrite !withoutElems_ids. tauto.
Qed.

Lemma wfEditor_afterSet (k : bytes) vs (m : nat) old pre post line (ie : IniEditor) :
  wfEditor ie -> values ie !! k = Some vs -> Some m ∈ vs ->
  fragments ie = pre ++ (m, old) :: post ->
  wfEditor (afterSet k vs pre post line ie).
Proof.
  intros Hwf Hk Hm Hfr.
  destruct (wf_entry ie k vs Hwf Hk) as (Hne & Hnonnil & Hfresh & Hlivek).
  pose proof Hwf as Hwf'. apply wfEditor_iff in Hwf' as (H1 & H2 & H3 & H4).
  assert (Hids : forall i, i ∈ map fst (fragments ie) -> Some i ∉ vs ->
                           i ∈ map fst (pre ++ post)).
  { intros i Hi Hout. rewrite Hfr in Hi. rewrite map_app in Hi |- *.
    cbn [map fst] in Hi. rewrite elem_of_app, elem_of_cons in Hi.
    rewrite elem_of_app. destruct Hi as [Hi | [-> | Hi]]; [auto | contradiction | auto]. }
  assert (Hlive : forall e, liveIn (fragments ie) e -> e ∉ vs ->
                            liveIn (fragments (afterSet k vs pre post line ie)) e).
  { intros e He Hout. apply liveIn_Some in He as (id & -> & Hin).
    cbn [liveIn]. apply afterSet_ids. left. auto. }
  assert (Hold : forall e, liveIn (fragments ie) e -> e <> Some (nextElem ie)).
  { intros e He ->. destruct (liveIn_alloc ie _ Hwf He) as (id & [= <-] & _ & Hlt). lia. }
  apply wfEditor_iff. split; [| split; [| split]].
  - intros x Hx. unfold afterSet in Hx |- *. cbn [fragments nextElem] in Hx |- *.
    apply elem_of_app in Hx as [Hx | Hx].
    + apply list_elem_of_filter in Hx as [_ Hx].
      assert (Hxin : x ∈ fragments ie) by (rewrite Hfr, elem_of_app; auto).
      specialize (H1 x Hxin). lia.
    + apply elem_of_cons in Hx as [-> | Hx]; [cbn; lia |].
      apply list_elem_of_filter in Hx as [_ Hx].
      assert (Hxin : x ∈ fragments ie)
        by (rewrite Hfr, elem_of_app, elem_of_cons; auto).
      specialize (H1 x Hxin). lia.
  - intros k' vs'. unfold afterSet at 1. cbn [values].
    rewrite lookup_insert_Some. intros [[<- <-] | [Hne' Hk']].
    + split; [discriminate |]. intros e He. apply list_elem_of_singleton in He as ->.
      cbn [liveIn]. apply afterSet_ids. now right.
    + destruct (H2 k' vs' Hk') as [Hnil Hl]. split; [exact Hnil |].
      intros e He. apply Hlive; [auto |]. eapply (H3 k' k); eauto.
  - intros k1 k2 vs1 vs2 e. unfold afterSet. cbn [values].
    rewrite !lookup_insert_Some.
    intros [[<- <-] | [Hne1 Hk1]] [[<- <-] | [Hne2 Hk2]] Hne12 He; try congruence.
    + apply list_elem_of_singleton in He as ->. intros Hin.
      apply (Hold (Some (nextElem ie))); [| reflexivity].
      now apply (proj2 (H2 k2 vs2 Hk2)).
    + intros Hin. apply list_elem_of_singleton in Hin as ->.
      apply (Hold (Some (nextElem ie))); [| reflexivity].
      now apply (proj2 (H2 k1 vs1 Hk1)).
    + eauto.
  - intros ss e Hs. unfold afterSet at 1. cbn [secEnd] in Hs.
    destruct (H4 ss e Hs) as [Hl Hout]. split; [apply Hlive; eauto |].
    intros k' vs'. unfold afterSet. cbn [values].
    rewrite lookup_insert_Some. intros [[<- <-] | [Hne' Hk']]; [| eauto].
    intros Hin. apply list_elem_of_singleton in Hin. now apply (Hold e).
Qed.

(** Setting the same value again replaces the line by an equal one. *)
Lemma IniEditor_Set_again (isec : option IniSection) (key value k : bytes)
    vs (m : nat) old pre post (ie : IniEditor) :
  wfEditor ie -> IniQKey isec key = inr k -> values ie !! k = Some vs ->
  fragments ie = pre ++ (m, old) :: post ->
  let ie1 := afterSet k vs pre post (iniLine key value) ie in
  let ie2 := afterSet k [Some (nextElem ie)] (withoutElems vs pre) (withoutElems vs post)
                      (iniLine key value) ie1 in
  IniEditor_Set isec key value ie1 = Done tt ie2
  /\ values ie2 !! k = Some [Some (S (nextElem ie))]
  /\ IniEditor_String ie2 = IniEditor_String ie1.
Proof.
  intros Hwf Hq Hk Hfr ie1 ie2.
  pose proof Hwf as Hwf'. apply wfEditor_iff in Hwf' as (H1 & _).
  assert (Hlow : forall part, (forall x, x ∈ part -> x ∈ fragments ie) ->
                   nextElem ie ∉ map fst (withoutElems vs part)).
  { intros part Hsub Hin. apply withoutElems_ids in Hin as [Hin _].
    apply list_elem_of_fmap in Hin as (x & Heq & Hx).
    specialize (H1 x (Hsub x Hx)). lia. }
  assert (Hpre : nextElem ie ∉ map fst (withoutElems vs pre)).
  { apply Hlow. intros x Hx. rewrite Hfr, elem_of_app. auto. }
  assert (Hpost : nextElem ie ∉ map fst (withoutElems vs post)).
  { apply Hlow. intros x Hx. rewrite Hfr, elem_of_app, elem_of_cons. auto. }
  assert (Hsame : forall part, nextElem ie ∉ map fst part ->
                    withoutElems [Some (nextElem ie)] part = part).
  { intros part Hout. apply withoutElems_id, Forall_forall. intros x Hx Hin.
    apply list_elem_of_singleton in Hin as [= Heq]. apply Hout.
    apply list_elem_of_fmap. exists x. split; [now symmetry | exact Hx]. }
  split; [| split].
  - apply (IniEditor_Set_split isec key value k [Some (nextElem ie)] (nextElem ie)
             (iniLine key value)); try reflexivity; try assumption.
    + unfold ie1, afterSet. cbn [values]. apply lookup_insert_eq.
    + repeat constructor. discriminate.
    + unfold ie1, afterSet. cbn [nextElem]. intros Hin.
      apply list_elem_of_singleton in Hin as [= Heq]. lia.
  - unfold ie2, afterSet. cbn [values nextElem]. apply lookup_insert_eq.
  - rewrite !IniEditor_String_fragments. unfold fragmentBytes, ie2, ie1, afterSet.
    cbn [fragments nextElem]. rewrite (Hsame _ Hpre), (Hsame _ Hpost).
    rewrite !map_app, !concat_app. reflexivity.
Qed.

End Edits.

(** ** Every reachable editor state is well formed *)

Local Close Scope parser_scope.
Local Open Scope ed_scope.

Section Reachable.
Local Open Scope nat_scope.
Implicit Types fr : list (nat * bytes).
Implicit Types vs : list Elem.
Implicit Types ie : IniEditor.

Lemma bindE_assoc_eq {A B C} (m : Ed A) (k : A -> Ed B) (k' : B -> Ed C) ie :
  bindE (bindE m k) k' ie = bindE m (fun a => bindE (k a) k') ie.
Proof. unfold bindE. now destruct (m ie). Qed.

Lemma stable_refl ie : stable ie ie.
Proof. unfold stable. auto. Qed.

Lemma stable_trans ie1 ie2 ie3 : stable ie1 ie2 -> stable ie2 ie3 -> stable ie1 ie3.
Proof.
  intros (Hl & Hv & Hs & Hc) (Hl' & Hv' & Hs' & Hc'). unfold stable.
  repeat split; try congruence. auto.
Qed.

Lemma usable_stable ie ie' e : stable ie ie' -> usable ie e -> usable ie' e.
Proof.
  intros (Hl & Hv & _) [Hlive Hout]. split; [auto |]. now rewrite Hv.
Qed.

Lemma fresh_stable ie ie' e : stable ie ie' -> fresh ie e -> fresh ie' e.
Proof.
  intros Hst [Hu Hs]. split; [eapply usable_stable; eassumption |].
  destruct Hst as (_ & _ & Hse & _). now rewrite Hse.
Qed.

(** Growing the list by elements allocated from [nextElem] on. *)
Lemma wfEditor_grow ie fr' (n' : nat) :
  wfEditor ie ->
  (forall i, i ∈ map fst (fragments ie) -> i ∈ map fst fr') ->
  (forall x, x ∈ fr' -> fst x < n') ->
  wfEditor (set_nextElem n' (set_fragments fr' ie))
  /\ stable ie (set_nextElem n' (set_fragments fr' ie)).
Proof.
  intros Hwf Hsub Hlt.
  assert (Hlive : forall e, liveIn (fragments ie) e -> liveIn fr' e).
  { intros [i |] He; [cbn in *; auto | contradiction]. }
  split; [| unfold stable; cbn; auto].
  apply wfEditor_iff in Hwf as (H1 & H2 & H3 & H4). apply wfEditor_iff.
  cbn [fragments nextElem secEnd values set_nextElem set_fragments].
  split; [exact Hlt |]. split; [| split; [exact H3 |]].
  - intros k vs Hk. destruct (H2 k vs Hk) as [Hne Hl]. split; [exact Hne | auto].
  - intros ss e Hs. destruct (H4 ss e Hs) as [Hl Hout]. split; [auto | exact Hout].
Qed.

(** An element allocated now is in no index. *)
Lemma new_elem_fresh ie fr' (n' : nat) :
  wfEditor ie -> nextElem ie ∈ map fst fr' ->
  fresh (set_nextElem n' (set_fragments fr' ie)) (Some (nextElem ie)).
Proof.
  intros Hwf Hin. pose proof Hwf as Hwf'.
  apply wfEditor_iff in Hwf' as (_ & H2 & _ & H4).
  assert (Hold : forall e, liveIn (fragments ie) e -> e <> Some (nextElem ie)).
  { intros e He ->. destruct (liveIn_alloc ie _ Hwf He) as (id & [= <-] & _ & Hlt). lia. }
  split; [split |]; cbn [fragments values secEnd set_nextElem set_fragments].
  - exact Hin.
  - intros k vs Hk Hmem. apply (Hold (Some (nextElem ie))); [| reflexivity].
    now apply (proj2 (H2 k vs Hk)).
  - intros ss e' Hs. apply Hold. apply (H4 ss e' Hs).
Qed.

Lemma PushBack_wf (v : bytes) ie :
  wfEditor ie ->
  exists ie', PushBack v ie = Done (Some (nextElem ie)) ie'
              /\ wfEditor ie' /\ stable ie ie' /\ fresh ie' (Some (nextElem ie)).
Proof.
  intros Hwf. unfold PushBack. eexists. split; [reflexivity |].
  pose proof Hwf as Hwf'. apply wfEditor_iff in Hwf' as (H1 & _).
  destruct (wfEditor_grow ie (fragments ie ++ [(nextElem ie, v)]) (S (nextElem ie)) Hwf)
    as [Hwf1 Hst].
  - intros i Hi. rewrite map_app, elem_of_app. now left.
  - intros x Hx. apply elem_of_app in Hx as [Hx | Hx].
    + specialize (H1 x Hx). lia.
    + apply list_elem_of_singleton in Hx as ->. cbn. lia.
  - split; [exact Hwf1 |]. split; [exact Hst |].
    apply new_elem_fresh; [exact Hwf |].
    rewrite map_app, elem_of_app. right. apply list_elem_of_here.
Qed.

Lemma insertAfter_ids (x : nat * bytes) (m : nat) fr (i : nat) :
  m ∈ map fst fr ->
  (i ∈ map fst (insertAfter x m fr) <-> i ∈ map fst fr \/ i = fst x).
Proof.
  intros Hm. destruct (split_at_elem m fr Hm) as (pre & v & post & -> & Hpre).
  rewrite insertAfter_split by exact Hpre.
  rewrite !map_app, !elem_of_app. cbn [map fst]. rewrite !elem_of_cons. tauto.
Qed.

Lemma insertBefore_split (x : nat * bytes) (m : nat) (v : bytes) pre post :
  m ∉ map fst pre ->
  insertBefore x m (pre ++ (m, v) :: post) = pre ++ x :: (m, v) :: post.
Proof.
  induction pre as [| [i w] pre IH]; cbn [app insertBefore map fst]; intros Hpre.
  - now rewrite Nat.eqb_refl.
  - rewrite not_elem_of_cons in Hpre. destruct Hpre as [Hne Hpre].
    destruct (Nat.eqb_spec i m); [congruence |]. now rewrite IH.
Qed.

Lemma insertBefore_ids (x : nat * bytes) (m : nat) fr (i : nat) :
  m ∈ map fst fr ->
  (i ∈ map fst (insertBefore x m fr) <-> i ∈ map fst fr \/ i = fst x).
Proof.
  intros Hm. destruct (split_at_elem m fr Hm) as (pre & v & post & -> & Hpre).
  rewrite insertBefore_split by exact Hpre.
  rewrite !map_app, !elem_of_app. cbn [map fst]. rewrite !elem_of_cons. tauto.
Qed.

Lemma Insert_wf (after : bool) (v : bytes) (mark : Elem) ie :
  wfEditor ie -> liveIn (fragments ie) mark ->
  exists ie',
    (if after then InsertAfter v mark ie else InsertBefore v mark ie)
    = Done (Some (nextElem ie)) ie'
    /\ wfEditor ie' /\ stable ie ie' /\ fresh ie' (Some (nextElem ie)).
Proof.
  intros Hwf Hmark. apply liveIn_Some in Hmark as (m & -> & Hm).
  pose proof Hwf as Hwf'. apply wfEditor_iff in Hwf' as (H1 & _).
  set (fr' := if after then insertAfter (nextElem ie, v) m (fragments ie)
              else insertBefore (nextElem ie, v) m (fragments ie)).
  assert (Hids : forall i, i ∈ map fst fr' <-> i ∈ map fst (fragments ie) \/ i = nextElem ie).
  { intros i. unfold fr'. destruct after;
      [apply (insertAfter_ids (nextElem ie, v)) | apply (insertBefore_ids (nextElem ie, v))];
      exact Hm. }
  exists (set_nextElem (S (nextElem ie)) (set_fragments fr' ie)).
  split.
  { unfold InsertAfter, InsertBefore, fr'.
    rewrite (proj2 (inList_elem_of m (fragments ie)) Hm). now destruct after. }
  destruct (wfEditor_grow ie fr' (S (nextElem ie)) Hwf) as [Hwf1 Hst].
  - intros i Hi. apply Hids. now left.
  - intros x Hx.
    assert (Hxi : fst x ∈ map fst fr') by (apply list_elem_of_fmap; eauto).
    apply Hids in Hxi as [Hxi | ->]; [| lia].
    apply list_elem_of_fmap in Hxi as (y & -> & Hy). specialize (H1 y Hy). lia.
  - split; [exact Hwf1 |]. split; [exact Hst |].
    apply new_elem_fresh; [exact Hwf |]. apply Hids. now right.
Qed.

Lemma wfEditor_set_secEnd ie (sig : bytes) (e : Elem) :
  wfEditor ie -> usable ie e ->
  wfEditor (set_secEnd (<[sig := e]> (secEnd ie)) ie).
Proof.
  intros Hwf [Hlive Hout]. apply wfEditor_iff in Hwf as (H1 & H2 & H3 & H4).
  apply wfEditor_iff. cbn [fragments nextElem secEnd values set_secEnd].
  split; [exact H1 |]. split; [exact H2 |]. split; [exact H3 |].
  intros ss e'. rewrite lookup_insert_Some. intros [[_ <-] | [_ Hs]]; [now split | eauto].
Qed.

Lemma wfEditor_append_value ie (k : bytes) (e : Elem) :
  wfEditor ie -> fresh ie e ->
  wfEditor (set_values (<[k := lookupValues k ie ++ [e]]> (values ie)) ie).
Proof.
  intros Hwf [[Hlive Hout] Hsec]. apply wfEditor_iff in Hwf as (H1 & H2 & H3 & H4).
  assert (Hold : forall x, x ∈ lookupValues k ie ->
                   exists vs, values ie !! k = Some vs /\ x ∈ vs).
  { unfold lookupValues. destruct (values ie !! k) as [vs |]; cbn [default].
    - eauto.
    - intros x Hx. now apply elem_of_nil in Hx. }
  apply wfEditor_iff. cbn [fragments nextElem secEnd values set_values].
  split; [exact H1 |]. split; [| split].
  - intros k' vs'. rewrite lookup_insert_Some. intros [[<- <-] | [Hne Hk']]; [| eauto].
    split; [now destruct (lookupValues k ie) |].
    intros x Hx. apply elem_of_app in Hx as [Hx | Hx].
    + destruct (Hold x Hx) as (vs & Hk & Hin). now apply (proj2 (H2 k vs Hk)).
    + now apply list_elem_of_singleton in Hx as ->.
  - intros k1 k2 vs1 vs2 x. rewrite !lookup_insert_Some.
    intros [[<- <-] | [Hne1 Hk1]] [[<- <-] | [Hne2 Hk2]] Hne12 Hx; try congruence.
    + apply elem_of_app in Hx as [Hx | Hx].
      * destruct (Hold x Hx) as (vs & Hk & Hin). eauto.
      * apply list_elem_of_singleton in Hx as ->. eauto.
    + intros Hin. apply elem_of_app in Hin as [Hin | Hin].
      * destruct (Hold x Hin) as (vs & Hk & Hin'). eapply (H3 k1 k); eauto.
      * apply list_elem_of_singleton in Hin as ->. eapply Hout; eauto.
    + eauto.
  - intros ss e' Hs. destruct (H4 ss e' Hs) as [Hl Ho]. split; [exact Hl |].
    intros k' vs'. rewrite lookup_insert_Some. intros [[<- <-] | [Hne Hk']]; [| eauto].
    intros Hin. apply elem_of_app in Hin as [Hin | Hin].
    + destruct (Hold e' Hin) as (vs & Hk & Hin'). eapply Ho; eauto.
    + apply list_elem_of_singleton in Hin. eapply Hsec; eauto.
Qed.

Lemma wfEditor_set_lastSec ie (s : option IniSection) :
  wfEditor ie -> wfEditor (set_lastSec s ie).
Proof. intros Hwf. exact Hwf. Qed.

Lemma setElemValue_ids (id : nat) (v : bytes) fr :
  map fst (setElemValue id v fr) = map fst fr.
Proof.
  unfold setElemValue. rewrite map_map. apply map_ext. intros [i w]. cbn [fst].
  now destruct (Nat.eqb_spec i id).
Qed.

Lemma wfEditor_setElemValue ie (id : nat) (v : bytes) :
  wfEditor ie ->
  wfEditor (set_fragments (setElemValue id v (fragments ie)) ie)
  /\ stable ie (set_fragments (setElemValue id v (fragments ie)) ie).
Proof.
  intros Hwf. pose proof Hwf as Hwf'. apply wfEditor_iff in Hwf' as (H1 & _).
  destruct (wfEditor_grow ie (setElemValue id v (fragments ie)) (nextElem ie) Hwf)
    as [Hwf1 Hst].
  - intros i. now rewrite setElemValue_ids.
  - intros x Hx.
    assert (Hxi : fst x ∈ map fst (fragments ie)).
    { rewrite <- (setElemValue_ids id v). apply list_elem_of_fmap. eauto. }
    apply list_elem_of_fmap in Hxi as (y & -> & Hy). auto.
  - now destruct ie.
Qed.

(** [Add] on a key with realizations. *)
Lemma IniEditor_Add_existing_wf (isec : option IniSection) (key value k : bytes) vs ie ie' :
  wfEditor ie -> IniQKey isec key = inr k -> values ie !! k = Some vs ->
  IniEditor_Add isec key value ie = Done tt ie' -> wfEditor ie'.
Proof.
  intros Hwf Hq Hk. unfold IniEditor_Add, bindE at 1, liftE. rewrite Hq. unfold retE at 1.
  unfold bindE at 1, getsE. rewrite (lookupValues_Some _ _ _ Hk).
  destruct (wf_entry ie k vs Hwf Hk) as (Hne & _ & _ & Hlive).
  destruct (last vs) as [lastv |] eqn:Hlast; [| apply last_None in Hlast; contradiction].
  destruct (Insert_wf true (iniLine key value) lastv ie Hwf
              (Hlive _ (last_elem_of _ _ Hlast))) as (ie1 & Hins & Hwf1 & Hst & Hfresh).
  cbn beta iota in Hins. unfold bindE. rewrite Hins. unfold modifyE. intros [= <-].
  destruct Hst as (_ & Hv & _).
  replace vs with (lookupValues k ie1)
    by (apply lookupValues_Some; now rewrite Hv).
  now apply wfEditor_append_value.
Qed.

(** [newItem], for a key without realization. *)
Lemma IniEditor_newItem_wf (isec : option IniSection) (key value : bytes) ie e ie' :
  wfEditor ie -> IniEditor_newItem isec key value ie = Done e ie' -> wfEditor ie'.
Proof.
  intros Hwf. unfold IniEditor_newItem, bindE at 1, liftE.
  destruct (IniSection_String isec) as [p | ss]; [discriminate |]. unfold retE at 1.
  unfold bindE at 1, getsE.
  assert (Hfinish : forall ie1 mark,
             wfEditor ie1 -> liveIn (fragments ie1) mark ->
             (e0 <- InsertBefore (iniLine key value) mark ;;
              k <- liftE (IniQKey isec key) ;;
              modifyE (fun ie => set_values (<[k := lookupValues k ie ++ [e0]]> (values ie)) ie)
              >> retE e0) ie1 = Done e ie' ->
             wfEditor ie').
  { intros ie1 mark Hwf1 Hmark. unfold bindE at 1.
    destruct (Insert_wf false (iniLine key value) mark ie1 Hwf1 Hmark)
      as (ie2 & Hins & Hwf2 & _ & Hfresh).
    cbn beta iota in Hins. rewrite Hins. unfold bindE at 1, liftE.
    destruct (IniQKey isec key) as [p | k]; [discriminate |].
    unfold retE, bindE, modifyE. intros [= _ <-].
    now apply wfEditor_append_value. }
  destruct (secEnd ie !! ss) as [mark |] eqn:Hsec.
  - unfold bindE at 1, retE at 1.
    pose proof Hwf as Hwf'. apply wfEditor_iff in Hwf' as (_ & _ & _ & H4).
    apply (Hfinish ie mark Hwf). apply (H4 ss mark Hsec).
  - assert (Hmarker : forall ie1 e1,
               wfEditor ie1 -> liveIn (fragments ie1) e1 ->
               (e2 <- (e0 <- InsertAfter [] e1 ;;
                       modifyE (fun ie => set_secEnd (<[ss := e0]> (secEnd ie)) ie)
                       >> retE e0) ;;
                e0 <- InsertBefore (iniLine key value) e2 ;;
                k <- liftE (IniQKey isec key) ;;
                modifyE (fun ie => set_values (<[k := lookupValues k ie ++ [e0]]> (values ie)) ie)
                >> retE e0) ie1 = Done e ie' ->
               wfEditor ie').
    { intros ie1 e1 Hwf1 He1. unfold bindE at 1. unfold bindE at 1.
      destruct (Insert_wf true [] e1 ie1 Hwf1 He1) as (ie2 & Hins & Hwf2 & _ & Hfresh).
      cbn beta iota in Hins. rewrite Hins. unfold bindE at 1, modifyE at 1, retE at 1.
      apply Hfinish.
      - apply wfEditor_set_secEnd; [exact Hwf2 | apply Hfresh].
      - apply Hfresh. }
    rewrite bindE_assoc_eq. unfold bindE at 1. cbn beta iota.
    rewrite bindE_assoc_eq.
    destruct (Back ie) as [[id v] |] eqn:Hback.
    + destruct v as [| b v].
      * rewrite bindE_assoc_eq. unfold bindE at 1, modifyE at 1.
        unfold bindE at 1, retE at 1.
        destruct (wfEditor_setElemValue ie id (ss ++ [x0a]) Hwf) as [Hwf1 Hst].
        apply Hmarker; [exact Hwf1 |].
        apply Hst. cbn. unfold Back in Hback. apply last_elem_of in Hback.
        apply list_elem_of_fmap. exists (id, []). auto.
      * destruct (PushBack_wf (ss ++ [x0a]) ie Hwf) as (ie1 & Hpush & Hwf1 & _ & Hfresh).
        unfold bindE at 1. rewrite Hpush.
        apply Hmarker; [exact Hwf1 | apply Hfresh].
    + destruct (PushBack_wf (ss ++ [x0a]) ie Hwf) as (ie1 & Hpush & Hwf1 & _ & Hfresh).
      unfold bindE at 1. rewrite Hpush.
      apply Hmarker; [exact Hwf1 | apply Hfresh].
Qed.

Lemma lookupValues_None (k : bytes) ie :
  values ie !! k = None -> lookupValues k ie = [].
Proof. unfold lookupValues. now intros ->. Qed.

Lemma IniEditor_Del_wf (isec : option IniSection) (key : bytes) ie ie' :
  wfEditor ie -> IniEditor_Del isec key ie = Done tt ie' -> wfEditor ie'.
Proof.
  intros Hwf. destruct (IniQKey isec key) as [p | k] eqn:Hq.
  - unfold IniEditor_Del, bindE, liftE. rewrite Hq. discriminate.
  - rewrite (IniEditor_Del_spec isec key k ie Hwf Hq). intros [= <-].
    now apply wfEditor_afterDel.
Qed.

Lemma IniEditor_Set_wf (isec : option IniSection) (key value : bytes) ie ie' :
  wfEditor ie -> IniEditor_Set isec key value ie = Done tt ie' -> wfEditor ie'.
Proof.
  intros Hwf. destruct (IniQKey isec key) as [p | k] eqn:Hq.
  - unfold IniEditor_Set, bindE, liftE. rewrite Hq. discriminate.
  - destruct (values ie !! k) as [vs |] eqn:Hk.
    + destruct (IniEditor_Set_spec isec key value k vs ie Hwf Hq Hk)
        as (m & old & pre & post & Hlast & Hfr & _ & ->).
      intros [= <-].
      exact (wfEditor_afterSet k vs m old pre post _ ie Hwf Hk (last_elem_of _ _ Hlast) Hfr).
    + unfold IniEditor_Set, bindE at 1, liftE. rewrite Hq. unfold retE at 1.
      unfold bindE at 1, getsE. rewrite (lookupValues_None _ _ Hk). cbn [last].
      unfold bindE.
      destruct (IniEditor_newItem isec key value ie) as [e ie1 | p ie1] eqn:Hnew;
        [| discriminate].
      unfold retE. intros [= <-]. eapply IniEditor_newItem_wf; eassumption.
Qed.

Lemma IniEditor_Add_wf (isec : option IniSection) (key value : bytes) ie ie' :
  wfEditor ie -> IniEditor_Add isec key value ie = Done tt ie' -> wfEditor ie'.
Proof.
  intros Hwf. destruct (IniQKey isec key) as [p | k] eqn:Hq.
  - unfold IniEditor_Add, bindE, liftE. rewrite Hq. discriminate.
  - destruct (values ie !! k) as [vs |] eqn:Hk.
    + now apply (IniEditor_Add_existing_wf isec key value k vs).
    + unfold IniEditor_Add, bindE at 1, liftE. rewrite Hq. unfold retE at 1.
      unfold bindE at 1, getsE. rewrite (lookupValues_None _ _ Hk). cbn [last].
      unfold bindE.
      destruct (IniEditor_newItem isec key value ie) as [e ie1 | p ie1] eqn:Hnew;
        [| discriminate].
      unfold retE. intros [= <-]. eapply IniEditor_newItem_wf; eassumption.
Qed.

(** [appendItem] keeps the invariant; the elements it returns are new,
    and the second is not nil when the statement is not empty. *)
Lemma appendItem_wf (r : IniRange) ie ee ie' :
  wfEditor ie -> appendItem r ie = Done ee ie' ->
  wfEditor ie' /\ stable ie ie'
  /\ (fst ee = None \/ fresh ie' (fst ee))
  /\ (snd ee = None \/ fresh ie' (snd ee))
  /\ (StartIndex r < EndIndex r -> fst ee <> None /\ snd ee <> None).
Proof.
  intros Hwf. unfold appendItem.
  assert (Hpush : forall lo hi ie0 (b : bool) e ie1,
             wfEditor ie0 ->
             (if b then s <- slice (Input r) lo hi ;; PushBack s else retE None) ie0
             = Done e ie1 ->
             wfEditor ie1 /\ stable ie0 ie1
             /\ (if b then e <> None /\ fresh ie1 e else e = None)).
  { intros lo hi ie0 b e ie1 Hwf0. destruct b.
    - unfold bindE, slice. destruct (_ && _); [| discriminate]. unfold retE.
      destruct (PushBack_wf (take (hi - lo) (drop lo (Input r))) ie0 Hwf0)
        as (ie2 & -> & Hwf2 & Hst & Hfresh).
      intros [= <- <-].
      split; [exact Hwf2 |]. split; [exact Hst |]. split; [discriminate | exact Hfresh].
    - unfold retE. intros [= <- <-]. split; [exact Hwf0 |]. split; [apply stable_refl | reflexivity]. }
  match goal with
  | |- bindE ?m _ ie = _ -> _ =>
    unfold bindE at 1; destruct (m ie) as [e1 ie1 | p ie1] eqn:H1; [| discriminate]
  end.
  destruct (Hpush _ _ _ _ _ _ Hwf H1) as (Hwf1 & Hst1 & He1).
  match goal with
  | |- bindE ?m _ ie1 = _ -> _ =>
    unfold bindE at 1; destruct (m ie1) as [e2 ie2 | p ie2] eqn:H2; [| discriminate]
  end.
  destruct (Hpush _ _ _ _ _ _ Hwf1 H2) as (Hwf2 & Hst2 & He2).
  unfold retE. intros [= <- <-]. cbn [fst snd].
  split; [exact Hwf2 |]. split; [eapply stable_trans; eassumption |].
  assert (Hsnd : e2 = None \/ fresh ie2 e2).
  { destruct (StartIndex r <? EndIndex r); [right; apply He2 | now left]. }
  split; [| split; [exact Hsnd |]].
  - destruct (PrevEndIndex r <? StartIndex r).
    + destruct He1 as [Hne Hf]. destruct e1; [| congruence].
      right. eapply fresh_stable; eassumption.
    + subst e1. exact Hsnd.
  - intros Hlt. apply Nat.ltb_lt in Hlt. rewrite Hlt in He2. destruct He2 as [Hne2 _].
    split; [| exact Hne2]. destruct e1; [discriminate | exact Hne2].
Qed.

Lemma IniEditor_Section_wf (ss : IniSecStart) ie err ie' :
  wfEditor ie -> StartIndex (SecRange ss) < EndIndex (SecRange ss) ->
  IniEditor_Section ss ie = Done err ie' -> wfEditor ie'.
Proof.
  intros Hwf Hlt. unfold IniEditor_Section, bindE at 1.
  destruct (appendItem (SecRange ss) ie) as [ee ie1 | p ie1] eqn:Happ; [| discriminate].
  destruct (appendItem_wf _ _ _ _ Hwf Happ) as (Hwf1 & _ & Hfst & _ & Hsome).
  destruct (Hsome Hlt) as [Hne _]. destruct Hfst as [Hnone | Hfresh]; [contradiction |].
  unfold bindE, getsE, liftE, modifyE, retE, panicE.
  destruct (IniSection_String (lastSec ie1)) as [p | sig]; [discriminate |].
  intros [= _ <-]. apply wfEditor_set_lastSec, wfEditor_set_secEnd; [exact Hwf1 |].
  apply Hfresh.
Qed.

Lemma IniEditor_Item_wf (ii : IniItem) ie err ie' :
  wfEditor ie -> StartIndex (ItemRange ii) < EndIndex (ItemRange ii) ->
  IniEditor_Item ii ie = Done err ie' -> wfEditor ie'.
Proof.
  intros Hwf Hlt. unfold IniEditor_Item, bindE at 1, liftE.
  destruct (IniItem_QKey ii) as [p | k]; [discriminate |]. unfold retE at 1.
  unfold bindE at 1.
  destruct (appendItem (ItemRange ii) ie) as [ee ie1 | p ie1] eqn:Happ; [| discriminate].
  destruct (appendItem_wf _ _ _ _ Hwf Happ) as (Hwf1 & _ & _ & Hsnd & Hsome).
  destruct (Hsome Hlt) as [_ Hne]. destruct Hsnd as [Hnone | Hfresh]; [contradiction |].
  unfold bindE, modifyE, retE. intros [= _ <-].
  now apply wfEditor_append_value.
Qed.

Lemma IniEditor_Done_wf (r : IniRange) ie ie' :
  wfEditor ie -> IniEditor_Done r ie = Done tt ie' -> wfEditor ie'.
Proof.
  intros Hwf. unfold IniEditor_Done, bindE at 1.
  destruct (appendItem r ie) as [ee ie1 | p ie1] eqn:Happ; [| discriminate].
  destruct (appendItem_wf _ _ _ _ Hwf Happ) as (Hwf1 & _ & Hfst & _ & _).
  assert (Hrest : forall ie2 e, wfEditor ie2 -> fresh ie2 e ->
             (last_ <- getsE lastSec ;;
              sig <- liftE (IniSection_String last_) ;;
              modifyE (fun ie => set_secEnd (<[sig := e]> (secEnd ie)) ie) >>
              modifyE (set_lastSec None)) ie2 = Done tt ie' ->
             wfEditor ie').
  { intros ie2 e Hwf2 Hfresh. unfold bindE, getsE, liftE, modifyE, retE, panicE.
    destruct (IniSection_String (lastSec ie2)) as [p | sig]; [discriminate |].
    intros [= <-]. apply wfEditor_set_lastSec, wfEditor_set_secEnd; [exact Hwf2 |].
    apply Hfresh. }
  unfold bindE at 1. destruct (fst ee) as [id |] eqn:He.
  - unfold retE at 1. destruct Hfst as [Hnone | Hfresh]; [discriminate |].
    now apply Hrest.
  - destruct (PushBack_wf [] ie1 Hwf1) as (ie2 & -> & Hwf2 & _ & Hfresh).
    now apply Hrest.
Qed.

Lemma wfEditor_empty : wfEditor emptyEditor.
Proof.
  apply wfEditor_iff. unfold emptyEditor. cbn.
  split; [| split; [| split]].
  - intros x Hx. now apply elem_of_nil in Hx.
  - intros k vs Hl. now rewrite lookup_empty in Hl.
  - intros k k' vs vs' e Hl. now rewrite lookup_empty in Hl.
  - intros ss e Hl. now rewrite lookup_empty in Hl.
Qed.

(** The editor that [NewIniEdit] returns is well formed, whatever the
    input and the errors. *)
Lemma NewIniEdit_wf (filename contents : bytes) ie err (l : iniParse IniEditor) :
  NewIniEdit filename contents = Ok (ie, err) l -> wfEditor ie.
Proof.
  unfold NewIniEdit, IniParseContents.
  destruct (do_ (newParser emptyEditor filename contents)) as [r l' | | |] eqn:Hdo;
    try discriminate.
  intros [= <- <- <-].
  assert (Hb : inBounds (newParser emptyEditor filename contents))
    by (unfold inBounds; cbn; lia).
  destruct (do_inv (fun l => wfEditor (sink l))) with (3 := Hb) (5 := Hdo)
    as (lend & s' & Hwf & _ & _ & _ & Hdone & ->).
  - intros l0 l1 Hm. now rewrite (moved_sink _ _ Hm).
  - intros l0 l1 hook s' err0 _ Hwf _ _ _ _ Hlt _ Hhook Hcall.
    unfold afterHook. cbn [sink set_sink].
    destruct Hhook as [s Hsec | k v Hsec];
      cbn [sink_Section sink_Item IniEditor_IniSink] in Hcall; unfold hookOfEd in Hcall.
    + destruct (IniEditor_Section _ (sink l0)) as [e2 ie2 | p ie2] eqn:Hed; [| discriminate].
      injection Hcall as <- <-. eapply IniEditor_Section_wf; [exact Hwf | | exact Hed].
      exact Hlt.
    + destruct (IniEditor_Item _ (sink l0)) as [e2 ie2 | p ie2] eqn:Hed; [| discriminate].
      injection Hcall as <- <-. eapply IniEditor_Item_wf; [exact Hwf | | exact Hed].
      exact Hlt.
  - exact wfEditor_empty.
  - cbn [sink set_sink]. cbn [sink_Done IniEditor_IniSink] in Hdone.
    destruct (IniEditor_Done _ (sink lend)) as [[] ie2 | p ie2] eqn:Hed; [| discriminate].
    injection Hdone as <-. eapply IniEditor_Done_wf; eassumption.
Qed.

(** Every state the package can produce satisfies the invariant. *)
Theorem reachable_wfEditor ie : reachable ie -> wfEditor ie.
Proof.
  induction 1 as [filename contents ie err l Hnew
                 | ie isec key ie' _ IH Hdel
                 | ie isec key value ie' _ IH Hset
                 | ie isec key value ie' _ IH Hadd].
  - eapply NewIniEdit_wf; eassumption.
  - eapply IniEditor_Del_wf; eassumption.
  - eapply IniEditor_Set_wf; eassumption.
  - eapply IniEditor_Add_wf; eassumption.
Qed.

End Reachable.

(** ** The edits of the claims *)

Section EditClaims.
Local Open Scope nat_scope.
Implicit Types vs : list Elem.

(** C3: on an editor state in which the qualified key has realizations,
    [Set] puts the one new key line right after the last of them, removes
    them all, and leaves the key indexed under the new element alone; the
    state stays well formed ([wfEditor] holds of every reachable state, by
    [reachable_wfEditor]); and setting the same value once more yields
    one realization again and the same serialized bytes. *)
Theorem C3_Set_existing (ie : IniEditor) (isec : option IniSection)
    (key value k : bytes) vs :
  wfEditor ie -> IniQKey isec key = inr k -> values ie !! k = Some vs ->
  exists m old pre post,
    last vs = Some (Some m)
    /\ fragments ie = pre ++ (m, old) :: post /\ (m ∉ map fst pre)
    /\ IniEditor_Set isec key value ie
       = Done tt (afterSet k vs pre post (iniLine key value) ie)
    /\ values (afterSet k vs pre post (iniLine key value) ie) !! k
       = Some [Some (nextElem ie)]
    /\ (forall x, x ∈ fragments (afterSet k vs pre post (iniLine key value) ie) ->
                  Some (fst x) ∉ vs)
    /\ wfEditor (afterSet k vs pre post (iniLine key value) ie)
    /\ exists ie2,
        IniEditor_Set isec key value (afterSet k vs pre post (iniLine key value) ie)
        = Done tt ie2
        /\ values ie2 !! k = Some [Some (S (nextElem ie))]
        /\ IniEditor_String ie2
           = IniEditor_String (afterSet k vs pre post (iniLine key value) ie).
Proof.
  intros Hwf Hq Hk.
  destruct (IniEditor_Set_spec isec key value k vs ie Hwf Hq Hk)
    as (m & old & pre & post & Hlast & Hfr & Hpre & Hset).
  destruct (wf_entry ie k vs Hwf Hk) as (_ & _ & Hfresh & _).
  exists m, old, pre, post.
  split; [exact Hlast |]. split; [exact Hfr |]. split; [exact Hpre |].
  split; [exact Hset |].
  split; [unfold afterSet; cbn [values]; apply lookup_insert_eq |].
  split.
  { intros x. unfold afterSet. cbn [fragments].
    rewrite elem_of_app, elem_of_cons. unfold withoutElems.
    rewrite !list_elem_of_filter. intros [[Hout _] | [-> | [Hout _]]]; auto. }
  split; [exact (wfEditor_afterSet k vs m old pre post _ ie Hwf Hk
                   (last_elem_of _ _ Hlast) Hfr) |].
  destruct (IniEditor_Set_again isec key value k vs m old pre post ie Hwf Hq Hk Hfr)
    as (Hset2 & Hval2 & Hstr).
  eexists. split; [exact Hset2 |]. split; [exact Hval2 | exact Hstr].
Qed.

Lemma C3_witness :
  wfEditor example6_editor
  /\ exists ie1 ie2,
      IniEditor_Set core (lit "foo") (lit "3") example6_editor = Done tt ie1
      /\ values ie1 !! lit "core.foo" = Some [Some (nextElem example6_editor)]
      /\ IniEditor_Set core (lit "foo") (lit "3") ie1 = Done tt ie2
      /\ IniEditor_String ie2 = IniEditor_String ie1.
Proof.
  assert (Hwf : wfEditor example6_editor)
    by (apply (bool_decide_unpack _); vm_compute; exact I).
  assert (Hq : IniQKey core (lit "foo") = inr (lit "core.foo"))
    by (vm_compute; reflexivity).
  assert (Hk : values example6_editor !! lit "core.foo" = Some [Some 1; Some 2])
    by (vm_compute; reflexivity).
  split; [exact Hwf |].
  destruct (C3_Set_existing example6_editor core (lit "foo") (lit "3") (lit "core.foo")
              [Some 1; Some 2] Hwf Hq Hk)
    as (m & old & pre & post & _ & _ & _ & Hset & Hval & _ & _ & ie2 & Hset2 & _ & Hstr).
  eexists. exists ie2.
  split; [exact Hset |]. split; [exact Hval |]. split; [exact Hset2 | exact Hstr].
Defined.

(** C4: on a well-formed editor state, [Del] removes from the list every
    fragment indexed under the qualified key and drops the index entry, so
    that a lookup finds nothing; it changes nothing when the key is
    absent; the state stays well formed, and in particular no entry of the
    key index is an empty list.  On the input of example 6,
    [Del(core, foo)] leaves ["[core]\n"]. *)
Theorem C4_Del_removes_all :
  (forall (ie : IniEditor) (isec : option IniSection) (key k : bytes),
      wfEditor ie -> IniQKey isec key = inr k ->
      IniEditor_Del isec key ie = Done tt (afterDel k ie)
      /\ (forall x, x ∈ fragments (afterDel k ie)
                    <-> x ∈ fragments ie /\ Some (fst x) ∉ lookupValues k ie)
      /\ values (afterDel k ie) !! k = None
      /\ lookupValues k (afterDel k ie) = []
      /\ (values ie !! k = None -> afterDel k ie = ie)
      /\ wfEditor (afterDel k ie)
      /\ map_Forall (fun _ vs => vs <> []) (values (afterDel k ie)))
  /\ (forall filename : bytes,
      editAndSerialize filename example6_input (IniEditor_Del core (lit "foo"))
      = Some (lit "[core]" ++ [x0a])).
Proof.
  split.
  - intros ie isec key k Hwf Hq.
    split; [now apply IniEditor_Del_spec |].
    split.
    { intros x. unfold afterDel, withoutElems. cbn [fragments].
      rewrite list_elem_of_filter. tauto. }
    assert (Hnone : values (afterDel k ie) !! k = None)
      by (unfold afterDel; cbn [values]; apply lookup_delete_eq).
    split; [exact Hnone |].
    split; [unfold lookupValues; now rewrite Hnone |].
    split; [apply afterDel_absent |].
    pose proof (wfEditor_afterDel k ie Hwf) as Hwf'.
    split; [exact Hwf' |].
    destruct Hwf' as (_ & Hvals & _).
    eapply map_Forall_impl; [exact Hvals |]. intros ? ? [Hne _]. exact Hne.
  - intros filename. vm_compute. reflexivity.
Qed.

Lemma C4_witness :
  wfEditor example6_editor
  /\ IniEditor_Del core (lit "foo") example6_editor
     = Done tt (afterDel (lit "core.foo") example6_editor)
  /\ values (afterDel (lit "core.foo") example6_editor) !! lit "core.foo" = None
  /\ wfEditor (afterDel (lit "core.foo") example6_editor).
Proof.
  assert (Hwf : wfEditor example6_editor)
    by (apply (bool_decide_unpack _); vm_compute; exact I).
  assert (Hq : IniQKey core (lit "foo") = inr (lit "core.foo"))
    by (vm_compute; reflexivity).
  pose proof C4_Del_removes_all as [Hgen _].
  destruct (Hgen example6_editor core (lit "foo") (lit "core.foo") Hwf Hq)
    as (Hdel & _ & Hnone & _ & _ & Hwf' & _).
  split; [exact Hwf |]. split; [exact Hdel |]. split; [exact Hnone | exact Hwf'].
Defined.

(** Example 5 of the specification: [Set(core, foo, "2")] on
    ["[core]\n\tfoo = 1\n"] leaves ["[core]\n\tfoo = 2\n"]. *)
Example example5_Set (filename : bytes) :
  editAndSerialize filename (lit "[core]" ++ [x0a; x09] ++ lit "foo = 1" ++ [x0a])
                   (IniEditor_Set core (lit "foo") (lit "2"))
  = Some (lit "[core]" ++ [x0a; x09] ++ lit "foo = 2" ++ [x0a]).
Proof. vm_compute. reflexivity. Qed.

End EditClaims.

(** * Further properties of the code *)

(** ** What a statement does, panics included *)

Section ParserOutcome.
Context {T : Type} `{IniSink T}.
Implicit Types l : iniParse T.
Local Open Scope parser_scope.
Local Open Scope nat_scope.

Lemma crashProne_lookup (inp : bytes) (i : nat) (b : byte) :
  inp !! i = Some b ->
  rune_of_byte b = ch_cr \/ rune_of_byte b = ch_bslash ->
  crashProne inp = true.
Proof.
  intros Hb Hc. unfold crashProne. apply existsb_exists. exists b. split.
  - apply list_elem_of_In. eapply list_elem_of_lookup_2. exact Hb.
  - destruct Hc as [-> | ->]; reflexivity.
Qed.

Lemma crashProne_peek l :
  peek l = ch_cr \/ peek l = ch_bslash -> crashProne (input l) = true.
Proof.
  unfold peek. destruct (input l !! index (pos l)) as [b |] eqn:Hb.
  - apply (crashProne_lookup _ _ _ Hb).
  - unfold eofRune. lia.
Qed.

Lemma stepRes_trans {A} l l1 (r : Res T A) :
  moved l l1 -> stepRes l1 r -> stepRes l r.
Proof.
  intros Hm. destruct r as [a l2 | e l2 | p |]; cbn [stepRes]; try tauto.
  - intros H2. eapply moved_trans; eassumption.
  - intros [H2 He]. split; [eapply moved_trans; eassumption |].
    eapply errorOf_moved; eassumption.
  - intros [Hp Hc]. split; [exact Hp |]. now rewrite <- (moved_input _ _ Hm).
Qed.

Lemma stepOnly_ret {A} (a : A) : stepOnly (T := T) (retP a).
Proof. intros l Hb. now apply moved_refl. Qed.

Lemma stepOnly_bind {A B} (m : Parser T A) (k : A -> Parser T B) :
  stepOnly m -> (forall a, stepOnly (k a)) -> stepOnly (bindP m k).
Proof.
  intros Hm Hk l Hb. unfold bindP. specialize (Hm l Hb).
  destruct (m l) as [a l1 | e l1 | p |]; try assumption.
  cbn [stepRes] in Hm.
  eapply stepRes_trans; [eassumption |].
  apply Hk. eapply moved_inBounds; eassumption.
Qed.

Lemma stepOnly_gets {A} (f : iniParse T -> A) : stepOnly (gets f).
Proof. intros l Hb. now apply moved_refl. Qed.

Lemma stepOnly_state {A} (f : iniParse T -> A * iniParse T) :
  (forall l, inBounds l -> moved l (snd (f l))) -> stepOnly (state f).
Proof.
  intros Hf l Hb. unfold state. specialize (Hf l Hb). now destruct (f l).
Qed.

Lemma stepOnly_skip (n : nat) : stepOnly (T := T) (modify (skip n)).
Proof. intros l Hb. now apply skip_moved. Qed.

Lemma stepOnly_throwAt {A} (p : position) (msg : bytes) :
  stepOnly (T := T) (A := A) (throwAt p msg).
Proof. intros l Hb. split; [now apply moved_refl | apply errorOf_throwAt]. Qed.

Lemma stepOnly_throw {A} (msg : bytes) : stepOnly (T := T) (A := A) (throw msg).
Proof. intros l Hb. split; [now apply moved_refl | apply errorOf_throwAt]. Qed.

Lemma stepOnly_when (b : bool) (m : Parser T unit) :
  stepOnly m -> stepOnly (when b m).
Proof. intros Hm. destruct b; [exact Hm | apply stepOnly_ret]. Qed.

Lemma stepOnly_match (text : bytes) : stepOnly (T := T) (state (match_ text)).
Proof.
  apply stepOnly_state. intros l Hb.
  destruct (match_ text l) as [b l'] eqn:Hm. now apply (match_spec text l b l').
Qed.

Lemma stepOnly_skipWhile (fn : Z -> bool) : stepOnly (T := T) (state (skipWhile fn)).
Proof.
  apply stepOnly_state. intros l Hb.
  destruct (skipWhile fn l) as [b l'] eqn:Hm. now apply (skipWhile_spec fn l b l').
Qed.

Lemma stepOnly_skipTo (c : Z) : stepOnly (T := T) (state (skipTo c)).
Proof.
  apply stepOnly_state. intros l Hb.
  destruct (skipTo c l) as [b l'] eqn:Hm. now apply (skipTo_spec c l b l').
Qed.

Lemma stepOnly_takeWhile (fn : Z -> bool) : stepOnly (T := T) (state (takeWhile fn)).
Proof.
  apply stepOnly_state. intros l Hb. unfold takeWhile. cbn [snd].
  destruct (skipWhile fn l) as [b l'] eqn:Hm. now apply (skipWhile_spec fn l b l').
Qed.

(** Without a backslash the loop steps by one, and is left inside the
    input. *)
Lemma subsectionLoop_exit (fuel : nat) (inp : bytes) :
  forall (i : nat) (ret : bytes),
    i < length inp -> crashProne inp = false ->
    match subsectionLoop fuel inp i ret with
    | SubExit j _ => j < length inp
    | SubCrash => False
    | SubNil | SubFuel => True
    end.
Proof.
  induction fuel as [| fuel IH]; intros i ret Hi Hc; cbn [subsectionLoop].
  - destruct (Nat.ltb_spec (i + 1) (length inp)); [exact I | exact Hi].
  - destruct (Nat.ltb_spec (i + 1) (length inp)) as [Hlt |]; [| exact Hi].
    destruct (inp !! i) as [b |] eqn:Hb; [| apply lookup_ge_None in Hb; lia].
    destruct (rune_of_byte b =? 34)%Z; [exact Hi |].
    destruct (_ || _); [exact I |].
    destruct (Z.eqb_spec (rune_of_byte b) 92) as [Hbs | _].
    + rewrite (crashProne_lookup inp i b Hb (or_intror Hbs)) in Hc. discriminate.
    + apply IH; [lia | exact Hc].
Qed.

Lemma stepOnly_getSubsection : stepOnly (T := T) getSubsection.
Proof.
  intros l Hb. unfold getSubsection.
  destruct (Nat.ltb_spec (remaining l) 2) as [| Hrem]; cbn [orb];
    [now apply moved_refl |].
  destruct (negb _); [now apply moved_refl |].
  pose proof (subsectionLoop_fuel (length (input l)) (input l) (index (pos l) + 1) []) as Hf.
  assert (Hex : crashProne (input l) = false ->
                match subsectionLoop (length (input l)) (input l) (index (pos l) + 1) [] with
                | SubExit j _ => j < length (input l)
                | SubCrash => False
                | SubNil | SubFuel => True
                end).
  { apply subsectionLoop_exit. unfold remaining in Hrem. lia. }
  destruct (subsectionLoop _ _ _ _) as [i ret | | |].
  - destruct (input l !! i) eqn:Hi.
    + destruct (negb _); [now apply moved_refl | now apply skip_moved].
    + split; [reflexivity |]. destruct (crashProne (input l)); [reflexivity |].
      specialize (Hex eq_refl). apply lookup_ge_None in Hi. lia.
  - now apply moved_refl.
  - split; [reflexivity |]. destruct (crashProne (input l)); [reflexivity |].
    destruct (Hex eq_refl).
  - apply Hf; [lia | reflexivity].
Qed.

Ltac step_step :=
  first
    [ apply stepOnly_ret
    | apply stepOnly_throw
    | apply stepOnly_throwAt
    | apply stepOnly_gets
    | apply stepOnly_skip
    | apply stepOnly_match
    | apply stepOnly_skipWhile
    | apply stepOnly_skipTo
    | apply stepOnly_takeWhile
    | apply stepOnly_getSubsection
    | apply stepOnly_when
    | (apply stepOnly_bind; [| intros ?]) ].

Lemma stepOnly_getSection : stepOnly (T := T) getSection.
Proof.
  unfold getSection, getKey, skipWS.
  repeat (step_step || case_match).
Qed.

Lemma at_panic (n : nat) l :
  match at_ n l with
  | inr a => (-1 <= a < 256)%Z
  | inl p => p = PanicIndexOutOfRange
  end.
Proof.
  unfold at_. destruct (_ <? _); [unfold eofRune; lia |].
  destruct (input l !! _) as [b |]; [| reflexivity].
  pose proof (rune_of_byte_range b). lia.
Qed.

(** [at(1)] panics only when called on a carriage return that ends the
    input. *)
Lemma at_crash {A} l (p : Panic) :
  at_ 1 l = inl p -> (peek l =? ch_cr)%Z = true -> stepRes (A := A) l (Crash p).
Proof.
  intros Hat Hcr. pose proof (at_panic 1 l) as Hs. rewrite Hat in Hs.
  split; [exact Hs |]. apply crashProne_peek. left. now apply Z.eqb_eq.
Qed.

(** The loop of [getValue] only moves the cursor, and its fuel suffices:
    every iteration that goes on has consumed a byte. *)
Lemma getValueLoop_step (fuel : nat) :
  forall (ret : bytes) (escape inquote : bool) l,
    inBounds l -> remaining l < fuel ->
    stepRes l (getValueLoop fuel ret escape inquote l).
Proof.
  induction fuel as [| fuel IH]; intros ret escape inquote l Hb Hfuel; [lia |].
  assert (Hnext : forall ret' e' q',
             peek l <> eofRune ->
             stepRes l ((modify (skip 1) >> getValueLoop fuel ret' e' q') l)).
  { intros ret' e' q' Hne. unfold bindP, modify.
    eapply stepRes_trans; [now apply skip_moved |].
    apply IH; [eapply moved_inBounds; now apply skip_moved |].
    pose proof (remaining_skip1 l Hb Hne). lia. }
  assert (Hne_of : forall c : Z, (peek l =? c)%Z = true -> (0 <= c)%Z -> peek l <> eofRune).
  { intros c Hc Hc0. apply Z.eqb_eq in Hc. unfold eofRune. lia. }
  assert (Htwo : forall ret' e' q',
             peek l <> eofRune ->
             stepRes l ((modify (skip 1) >> modify (skip 1) >>
                           getValueLoop fuel ret' e' q') l)).
  { intros ret' e' q' Hne. unfold bindP, modify.
    pose proof (skip_moved 1 l Hb) as Hm1.
    pose proof (skip_moved 1 _ (moved_inBounds _ _ Hm1)) as Hm2.
    eapply stepRes_trans; [exact Hm1 |].
    eapply stepRes_trans; [exact Hm2 |].
    apply IH; [eapply moved_inBounds; eassumption |].
    pose proof (remaining_skip1 l Hb Hne).
    pose proof (remaining_moved _ _ Hm2). lia. }
  assert (Hcomment : forall ret' e' q',
             peek l <> 10%Z -> peek l <> eofRune ->
             stepRes l ((state (skipTo 10) >> modify (skip 1) >>
                           getValueLoop fuel ret' e' q') l)).
  { intros ret' e' q' Hnl Hne. unfold bindP at 1. unfold state at 1.
    destruct (skipTo 10 l) as [found l1] eqn:Hto.
    destruct (skipTo_spec 10 l found l1 Hb Hto) as (Hm1 & _ & _ & Hadv).
    eapply stepRes_trans; [exact Hm1 |].
    unfold bindP, modify.
    pose proof (skip_moved 1 _ (moved_inBounds _ _ Hm1)) as Hm2.
    eapply stepRes_trans; [exact Hm2 |].
    apply IH; [eapply moved_inBounds; eassumption |].
    pose proof (remaining_moved _ _ Hm2).
    specialize (Hadv Hnl Hne).
    destruct Hm1 as [Hi _ _ _ _ Hidx Hbd]. unfold remaining in *. rewrite Hi in *. lia. }
  assert (Hinvalid : forall c : Z,
             stepRes l ((when (c =? eofRune)%Z
                             (throw (lit "incomplete escape sequence at EOF")) >>
                           throw (A := bytes)
                             (lit "invalid escape sequence " ++ [x5c] ++ fmt_c c)) l)).
  { intros c. apply (stepOnly_bind _ _ (stepOnly_when _ _ (stepOnly_throw _)));
      [| exact Hb].
    intros _. apply stepOnly_throw. }
  assert (Hend : forall (c : Z) (q : bool) (r : bytes),
             stepRes l ((when (c =? 13)%Z (modify (skip 1)) >>
                           when q (throw (lit "missing close quotes")) >>
                           modify (skip 1) >> retP r) l)).
  { intros c q r.
    assert (Hc : stepOnly (T := T)
                   (when (c =? 13)%Z (modify (skip 1)) >>
                    when q (throw (lit "missing close quotes")) >>
                    modify (skip 1) >> retP r)) by repeat step_step.
    now apply Hc. }
  cbn [getValueLoop]. unfold bindP at 1. unfold gets at 1.
  pose proof (peek_range l) as Hrange.
  destruct escape.
  - repeat case_match; try (eapply at_crash; eassumption); try apply Hinvalid;
      try (apply Hnext; unfold eofRune in *; lia);
      try (apply Htwo; unfold eofRune in *; lia).
  - repeat case_match; try discriminate;
      try (match goal with Heq : inl _ = inl _ |- _ => injection Heq as <- end;
           eapply at_crash; eassumption);
      try apply Hend; try apply (Hend 13%Z); try apply (Hend 0%Z);
      try (apply Hnext; unfold eofRune in *; lia);
      try (apply Hcomment; unfold eofRune in *; lia).
Qed.

Lemma stepOnly_getValue : stepOnly (T := T) getValue.
Proof.
  intros l Hb. unfold getValue. apply getValueLoop_step; [exact Hb | lia].
Qed.

Lemma Forall_take_span (fn : Z -> bool) (s : bytes) :
  Forall (fun b => fn (rune_of_byte b) = true) (take (span fn s) s).
Proof.
  induction s as [| b t IH]; cbn [span]; [constructor |].
  destruct (fn (rune_of_byte b)) eqn:Hb; cbn [take]; [now constructor | constructor].
Qed.

Lemma takeWhile_span (fn : Z -> bool) l :
  inBounds l ->
  fst (takeWhile fn l)
  = take (span fn (drop (index (pos l)) (input l))) (drop (index (pos l)) (input l)).
Proof.
  intros Hb. unfold takeWhile, skipWhile. cbn [fst].
  pose proof (span_le fn (drop (index (pos l)) (input l))) as Hle.
  rewrite length_drop in Hle.
  destruct (Nat.ltb_spec 0 (span fn (drop (index (pos l)) (input l)))) as [Hgt | Hz];
    cbn [snd].
  - rewrite index_skip. f_equal. unfold remaining. lia.
  - f_equal. lia.
Qed.

Lemma getKey_chars l :
  inBounds l -> Forall (fun b => isKeyChar (rune_of_byte b) = true) (fst (getKey l)).
Proof.
  intros Hb. unfold getKey. rewrite takeWhile_span by exact Hb. apply Forall_take_span.
Qed.

(** A key read where the parser stands on a letter is a valid key. *)
Lemma getKey_valid l :
  inBounds l -> isAlpha (peek l) = true -> ValidIniKey (fst (getKey l)) = true.
Proof.
  intros Hb Ha. apply ValidIniKey_Forall. split; [| now apply getKey_chars].
  unfold getKey. rewrite takeWhile_span by exact Hb.
  rewrite peek_drop in Ha.
  destruct (drop (index (pos l)) (input l)) as [| b t].
  - vm_compute in Ha. discriminate.
  - cbn [span]. rewrite (isAlpha_isKeyChar _ Ha). cbn [take]. eauto.
Qed.

Lemma ValidIniSubsection_snoc (ret : bytes) (b : byte) :
  ValidIniSubsection ret = true ->
  rune_of_byte b <> ch_nl -> rune_of_byte b <> ch_nul ->
  ValidIniSubsection (ret ++ [b]) = true.
Proof.
  intros Hret Hnl Hnul. unfold ValidIniSubsection in *.
  rewrite forallb_app, Hret. cbn [forallb andb].
  destruct (Z.eqb_spec (rune_of_byte b) 10); [contradiction |].
  destruct (Z.eqb_spec (rune_of_byte b) 0); [contradiction | reflexivity].
Qed.

(** The subsection [getSubsection] builds has no newline and no NUL. *)
Lemma subsectionLoop_valid (fuel : nat) (inp : bytes) :
  forall (i : nat) (ret : bytes) (j : nat) (r : bytes),
    ValidIniSubsection ret = true ->
    subsectionLoop fuel inp i ret = SubExit j r ->
    ValidIniSubsection r = true.
Proof.
  induction fuel as [| fuel IH]; intros i ret j r Hret; cbn [subsectionLoop].
  - destruct (_ <? _); [discriminate | now intros [= _ <-]].
  - destruct (_ <? _); [| now intros [= _ <-]].
    destruct (inp !! i) as [b |]; [| discriminate].
    destruct (rune_of_byte b =? 34)%Z; [now intros [= _ <-] |].
    destruct (Z.eqb_spec (rune_of_byte b) 0) as [| Hnul]; cbn [orb]; [discriminate |].
    destruct (Z.eqb_spec (rune_of_byte b) 10) as [| Hnl]; [discriminate |].
    destruct (rune_of_byte b =? 92)%Z.
    + destruct (inp !! (i + 1)) as [nb |]; [| discriminate].
      apply IH.
      destruct (Z.eqb_spec (rune_of_byte nb) 92) as [Hbs | _]; cbn [orb].
      * apply ValidIniSubsection_snoc; [exact Hret | lia | lia].
      * destruct (Z.eqb_spec (rune_of_byte nb) 34) as [Hq | _]; [| exact Hret].
        apply ValidIniSubsection_snoc; [exact Hret | lia | lia].
    + apply IH. now apply ValidIniSubsection_snoc.
Qed.

Lemma getSubsection_valid l (r : bytes) l' :
  getSubsection l = Ok (Some r) l' -> ValidIniSubsection r = true.
Proof.
  unfold getSubsection. destruct (_ || _); [discriminate |].
  destruct (subsectionLoop _ _ _ _) as [i ret | | |] eqn:Hloop; try discriminate.
  destruct (input l !! i); [| discriminate].
  destruct (negb _); [discriminate |]. intros [= <- _].
  eapply subsectionLoop_valid; [| exact Hloop]. reflexivity.
Qed.

(** A section header that [getSection] accepts names a valid section. *)
Lemma getSection_valid l (s : IniSection) l' :
  inBounds l -> getSection l = Ok (Some s) l' -> IniSection_Valid (Some s) = true.
Proof.
  intros Hb. unfold getSection. rewrite bindP_state.
  destruct (match_ (lit "[") l) as [m l1] eqn:Hm. cbn [fst snd].
  destruct (match_spec _ _ _ _ Hb Hm) as (Hm1 & _ & _).
  destruct m; cbn [negb]; [| discriminate].
  rewrite bindP_state.
  pose proof (getKey_chars l1 (moved_inBounds _ _ Hm1)) as Hchars.
  destruct (getKey l1) as [name l2]. cbn [fst snd] in *.
  destruct (Nat.eqb_spec (length name) 0) as [Hz | Hnz]; cbn [when]; [discriminate |].
  assert (Hname : ValidIniSection name = true).
  { apply ValidIniSection_Forall. split; [| exact Hchars].
    intros ->. now apply Hnz. }
  rewrite bindP_ret, bindP_state.
  destruct (match_ (lit "]") l2) as [m2 l3]. cbn [fst snd].
  destruct m2.
  - intros [= <- _]. cbn. now rewrite Hname.
  - rewrite bindP_state. destruct (skipWS l3) as [ws l4]. cbn [fst snd].
    destruct ws; cbn [negb when]; [| discriminate].
    rewrite bindP_ret. unfold bindP at 1.
    destruct (getSubsection l4) as [[sub |] l5 | | |] eqn:Hsub; try discriminate.
    rewrite bool_decide_eq_false_2 by discriminate. cbn [when].
    rewrite bindP_ret, bindP_state.
    destruct (match_ (lit "]") l5) as [m3 l6]. cbn [fst snd].
    destruct m3; cbn [negb when]; [| discriminate].
    intros [= <- _]. cbn. rewrite Hname. cbn.
    eapply getSubsection_valid; eassumption.
Qed.

(** The end of a statement: the range is taken, the hook is called, and
    its error, if any, is raised. *)
Lemma hook_outcome l l1 (hook : IniRange -> T -> HookRes T)
    (k : option error -> Parser T unit) :
  input l1 = input l -> file l1 = file l -> prevEnd l1 = prevEnd l ->
  sink l1 = sink l -> index (pos l) < index (pos l1) -> inBounds l1 ->
  calledHook l l1 (hook (stmtRange l l1)) ->
  k None = retP tt ->
  (forall e, exists p, k (Some e) = throwAt p (error_Error e)) ->
  stmtOutcome l
    ((r <- state (getRange (index (pos l))) ;; err <- callHook (hook r) ;; k err) l1).
Proof.
  intros Hi Hf Hp Hs Hlt Hb1 Hhook Hnone Hsome.
  rewrite bindP_state. unfold getRange. cbn [fst snd].
  rewrite Hp, Hi. fold (stmtRange l l1).
  unfold bindP, callHook. cbn [sink set_prevEnd]. rewrite Hs.
  destruct (hook (stmtRange l l1) (sink l)) as [s' [e |] | p] eqn:Hh.
  - destruct (Hsome e) as [p ->]. unfold throwAt.
    eapply (outcome_hook_err l l1 _ s' e); eauto.
    cbn [file set_sink set_prevEnd]. rewrite Hf. apply errorOf_throwAt.
  - rewrite Hnone. unfold retP.
    eapply (outcome_hook_ok l l1 _ s'); eauto.
  - eapply (outcome_hook_panic l l1 _ p); eauto.
Qed.

(** One statement, from a cursor with input left, has the shape
    [stmtOutcome]; in particular its loops end. *)
Lemma do1_body_outcome l :
  inBounds l -> 0 < remaining l -> stmtOutcome l (do1_body l).
Proof.
  intros Hb Hrem. unfold do1_body.
  assert (Hpeek : peek l <> eofRune) by (rewrite peek_eof; lia).
  rewrite bindP_gets, bindP_state.
  destruct (skipWS l) as [ws la] eqn:Hws. cbn [fst snd].
  destruct (skipWhile_spec _ _ _ _ Hb Hws) as (Hma & _ & _ & _).
  pose proof (moved_inBounds _ _ Hma) as Hba.
  rewrite bindP_gets. unfold bindP at 1.
  pose proof (stepOnly_getSection la Hba) as Hsec.
  pose proof (getSection_progress la Hba) as Hprog.
  destruct (getSection la) as [[s |] lb | e lb | p |] eqn:Hgs; cbn [stepRes] in Hsec.
  - (* a section header *)
    rewrite bindP_state.
    destruct (skipWS lb) as [ws2 lc] eqn:Hws2. cbn [fst snd].
    pose proof (moved_inBounds _ _ Hsec) as Hbb.
    destruct (skipWhile_spec _ _ _ _ Hbb Hws2) as (Hmc & _ & _ & _).
    rewrite bindP_state.
    destruct (match_ [x0a] lc) as [m ld] eqn:Hnl. cbn [fst snd].
    destruct (match_spec _ _ _ _ (moved_inBounds _ _ Hmc) Hnl) as (Hmd & _ & _).
    rewrite bindP_modify.
    pose proof (moved_trans _ _ _ Hma (moved_trans _ _ _ Hsec (moved_trans _ _ _ Hmc Hmd)))
      as Hall.
    destruct Hsec as [_ _ _ _ _ Hx1 _]. destruct Hmc as [_ _ _ _ _ Hx2 _].
    destruct Hmd as [_ _ _ _ _ Hx3 _]. destruct Hma as [_ _ _ _ _ Hx0 _].
    destruct Hall as [Hi Hf Hsc Hp Hs Hidx Hbd].
    apply (hook_outcome l (set_sec (Some s) ld)
             (fun r => sink_Section (mkIniSecStart s r))); try assumption.
    + cbn. lia.
    + constructor; [reflexivity |]. exact (getSection_valid _ _ _ Hba Hgs).
    + reflexivity.
    + intros e0. eexists. reflexivity.
  - (* not a section header *)
    pose proof (moved_trans _ _ _ Hma Hsec) as Hmb.
    pose proof (moved_inBounds _ _ Hmb) as Hbb.
    rewrite bindP_gets.
    destruct (isAlpha (peek lb)) eqn:Halpha.
    + (* a key *)
      rewrite bindP_state.
      destruct (getKey lb) as [k lc] eqn:Hk. cbn [fst snd].
      destruct (getKey_spec _ _ _ Hbb Hk) as (Hmc & Hadv).
      specialize (Hadv (isAlpha_isKeyChar _ Halpha) (isAlpha_not_eof _ Halpha)).
      rewrite bindP_state.
      destruct (skipWS lc) as [ws2 ld] eqn:Hws2. cbn [fst snd].
      destruct (skipWhile_spec _ _ _ _ (moved_inBounds _ _ Hmc) Hws2) as (Hmd & _ & _ & _).
      rewrite bindP_state.
      destruct (match_ (lit "=") ld) as [m le] eqn:Heq. cbn [fst snd].
      destruct (match_spec _ _ _ _ (moved_inBounds _ _ Hmd) Heq) as (Hme & _ & _).
      pose proof (moved_trans _ _ _ Hmb (moved_trans _ _ _ Hmc (moved_trans _ _ _ Hmd Hme)))
        as Hall.
      assert (Hlt : index (pos l) < index (pos le)).
      { destruct Hmb as [_ _ _ _ _ Hx1 _]. destruct Hmd as [_ _ _ _ _ Hx2 _].
        destruct Hme as [_ _ _ _ _ Hx3 _]. lia. }
      unfold bindP at 1.
      match goal with
      | |- stmtOutcome l match ?mv le with _ => _ end =>
        assert (Hmv : stepOnly (T := T) mv)
          by (unfold skipWS; destruct m; cbn [negb];
              repeat (step_step || apply stepOnly_getValue));
        specialize (Hmv le (moved_inBounds _ _ Hall));
        destruct (mv le) as [vv lf | e lf | p |]; cbn [stepRes] in Hmv
      end.
      * pose proof (moved_trans _ _ _ Hall Hmv) as Hfin.
        rewrite bindP_gets.
        destruct Hmv as [_ _ _ _ _ Hx4 _].
        destruct Hfin as [Hi Hf Hsc Hp Hs Hidx Hbd].
        rewrite Hsc.
        apply (hook_outcome l lf (fun r => sink_Item (mkIniItem (sec l) k (fst vv) r)));
          try assumption.
        -- lia.
        -- constructor; [assumption |].
           pose proof (getKey_valid lb Hbb Halpha) as Hkv. now rewrite Hk in Hkv.
        -- reflexivity.
        -- intros [ke | m0 | m0]; eexists; reflexivity.
      * destruct Hmv as [Hmv He].
        pose proof (moved_trans _ _ _ Hall Hmv) as Hfin.
        apply outcome_throw; [exact Hfin | exact (errorOf_moved _ _ _ Hall He) |].
        left. destruct Hmv as [_ _ _ _ _ Hx4 _]. lia.
      * destruct Hmv as [-> Hc]. apply outcome_index_panic.
        now rewrite <- (moved_input _ _ Hall).
      * contradiction.
    + destruct (_ || _) eqn:Hcomment.
      * (* a comment or a blank line *)
        rewrite bindP_state.
        destruct (skipTo 10 lb) as [found lc] eqn:Hto. cbn [fst snd].
        unfold modify.
        assert (Hne : peek lb <> eofRune) by (unfold eofRune; lia).
        destruct (skipTo_skip1_progress 10 lb found lc Hbb Hne ltac:(discriminate) Hto)
          as (Hmc & Hadv).
        apply outcome_skip; [eapply moved_trans; eassumption |].
        destruct Hmb as [_ _ _ _ _ Hx1 _]. lia.
      * (* neither *)
        unfold throw, throwAt.
        apply outcome_throw; [exact Hmb | |].
        -- eapply errorOf_moved; [exact Hmb |]. apply errorOf_throwAt.
        -- destruct (moved_progress_or_same _ _ Hmb) as [Hlt | Hsame]; [now left |].
           right. rewrite Hsame. split; [| exact Hpeek].
           rewrite <- Hsame. lia.
  - (* the header is malformed *)
    destruct Hsec as [Hsec He].
    apply outcome_throw; [eapply moved_trans; eassumption | |].
    + exact (errorOf_moved _ _ _ Hma He).
    + left. destruct Hma as [_ _ _ _ _ Hx0 _]. lia.
  - destruct Hsec as [-> Hc]. apply outcome_index_panic.
    now rewrite <- (moved_input _ _ Hma).
  - contradiction.
Qed.

End ParserOutcome.

(** ** An invariant of the sink over a run, and when the run returns *)

Section SinkOutcome.
Context {T : Type} `{IniSink T}.
Implicit Types l : iniParse T.
Local Open Scope parser_scope.
Local Open Scope nat_scope.

Variable Inv : iniParse T -> Prop.
Hypothesis Inv_moved : forall l l', moved l l' -> Inv l -> Inv l'.
Hypothesis Inv_hook :
  forall l l1 hook s' err,
    inBounds l -> Inv l ->
    input l1 = input l -> file l1 = file l -> prevEnd l1 = prevEnd l ->
    sink l1 = sink l -> index (pos l) < index (pos l1) -> inBounds l1 ->
    calledHook l l1 hook -> hook (sink l) = HookOk s' err ->
    Inv (afterHook l1 s').

Lemma do1_keeps l e l' :
  inBounds l -> 0 < remaining l -> Inv l -> do1 l = Ok e l' -> Inv l'.
Proof.
  intros Hb Hrem HI. unfold do1.
  pose proof (do1_body_outcome l Hb Hrem) as Hshape.
  destruct (do1_body l) as [[] l0 | pe l0 | p |] eqn:Hbody; try discriminate.
  - intros [= <- <-].
    inversion Hshape as [l2 Hm Hlt | | l1 hook s' Hi Hf Hp Hs Hlt Hb1 Hhook Hcall | | |]; subst.
    + eapply Inv_moved; eassumption.
    + apply (Inv_hook l l1 hook s' None); assumption.
  - intros [= <- <-].
    assert (HI0 : Inv l0 /\ inBounds l0).
    { inversion Hshape as [| e2 l2 Hm He Hadv | |
                           l1 hook s' err e2 Hi Hf Hp Hs Hlt Hb1 Hhook Hcall He Hmsg | |]; subst.
      - split; [eapply Inv_moved; eassumption | eapply moved_inBounds; eassumption].
      - split; [apply (Inv_hook l l1 hook s' (Some err)); assumption | exact Hb1]. }
    destruct HI0 as [HI0 Hb0].
    destruct (skipTo 10 l0) as [found l1] eqn:Hto. cbn [snd].
    destruct (skipTo_spec _ _ _ _ Hb0 Hto) as (Hm & _).
    eapply Inv_moved; eassumption.
Qed.

Lemma statements_keep n l errs l' :
  statements n l errs l' -> inBounds l -> Inv l -> Inv l' /\ inBounds l'.
Proof.
  induction 1 as [l Hz | l l1 l' n errs Hrem Hdo _ IH | l l1 l' n pe errs Hrem Hdo _ IH];
    intros Hb HI.
  - now split.
  - pose proof (do1_progress l Hb Hrem) as H1. rewrite Hdo in H1.
    apply IH; [apply H1 | eapply do1_keeps; eassumption].
  - pose proof (do1_progress l Hb Hrem) as H1. rewrite Hdo in H1.
    apply IH; [apply H1 | eapply do1_keeps; eassumption].
Qed.

(** When [do] returns, the state it returns is the one the statement
    loop stopped in, after the [Done] hook got the trailing range. *)
Lemma do_ends l r l' :
  inBounds l -> Inv l -> do_ l = Ok r l' ->
  exists lend s',
    Inv lend /\ inBounds lend /\ remaining lend = 0 /\ input lend = input l
    /\ sink_Done (mkIniRange (index (pos lend)) (index (pos lend)) (prevEnd lend)
                             (input lend)) (sink lend) = inr s'
    /\ l' = set_sink s' (set_prevEnd (index (pos lend)) lend).
Proof.
  intros Hb HI. unfold do_. rewrite bindP_gets. unfold bindP at 1.
  pose proof (doLoop_statements (length (input l)) [] l Hb
                ltac:(unfold remaining; lia)) as Hloop.
  destruct (doLoop _ _ l) as [errs lend | | |]; try discriminate.
  destruct Hloop as (n & es & Hst & Herrs & Hn & Hend & Hi & Hf & Hbe).
  destruct (statements_keep _ _ _ _ Hst Hb HI) as [HIe _].
  rewrite bindP_gets, bindP_state. unfold getRange. cbn [fst snd].
  unfold bindP at 1. cbn [sink set_prevEnd].
  destruct (sink_Done _ _) as [p | s'] eqn:Hdone; [discriminate |].
  cbn [retP bindP]. intros [= <- <-].
  exists lend, s'. repeat split; try assumption.
Qed.

(** When, under the invariant, no hook panics, the run of [do] returns on
    every input with neither a carriage return nor a backslash. *)
Hypothesis Inv_returns :
  forall l l1 hook p,
    inBounds l -> Inv l ->
    input l1 = input l -> file l1 = file l -> prevEnd l1 = prevEnd l ->
    sink l1 = sink l -> index (pos l) < index (pos l1) -> inBounds l1 ->
    calledHook l l1 hook -> hook (sink l) <> HookPanic p.
Hypothesis Inv_done :
  forall l,
    inBounds l -> Inv l -> remaining l = 0 ->
    exists s', sink_Done (mkIniRange (index (pos l)) (index (pos l)) (prevEnd l)
                                     (input l)) (sink l) = inr s'.

Lemma do1_returns l :
  inBounds l -> 0 < remaining l -> Inv l -> crashProne (input l) = false ->
  exists e l', do1 l = Ok e l'.
Proof.
  intros Hb Hrem HI Hc.
  pose proof (do1_progress l Hb Hrem) as H1.
  destruct (do1 l) as [e l' | | p |] eqn:Hdo; try contradiction; [eauto |].
  exfalso. unfold do1 in Hdo.
  pose proof (do1_body_outcome l Hb Hrem) as Hshape.
  destruct (do1_body l) as [[] l0 | pe l0 | p0 |]; try discriminate.
  injection Hdo as ->.
  inversion Hshape as [| | | | l1 hook p1 Hi Hf Hp Hs Hlt Hb1 Hhook Hcall | Hcp]; subst.
  - exact (Inv_returns l l1 hook p Hb HI Hi Hf Hp Hs Hlt Hb1 Hhook Hcall).
  - congruence.
Qed.

Lemma doLoop_returns (fuel : nat) :
  forall (acc : list ParseError) l,
    inBounds l -> Inv l -> remaining l <= fuel -> crashProne (input l) = false ->
    exists errs l', doLoop fuel acc l = Ok errs l'.
Proof.
  induction fuel as [| fuel IH]; intros acc l Hb HI Hfuel Hc; cbn [doLoop].
  - destruct (Nat.ltb_spec 0 (remaining l)); [lia | eauto].
  - destruct (Nat.ltb_spec 0 (remaining l)) as [Hrem |]; [| eauto].
    unfold bindP.
    destruct (do1_returns l Hb Hrem HI Hc) as (e & l1 & Hdo).
    pose proof (do1_progress l Hb Hrem) as H1. rewrite Hdo in H1. rewrite Hdo.
    destruct H1 as (Hi & Hf & Hlt & Hb1 & _).
    apply IH; [exact Hb1 | exact (do1_keeps l e l1 Hb Hrem HI Hdo) | | now rewrite Hi].
    unfold remaining, inBounds in *. rewrite Hi in *. lia.
Qed.

Lemma do_returns l :
  inBounds l -> Inv l -> crashProne (input l) = false ->
  exists r l', do_ l = Ok r l'.
Proof.
  intros Hb HI Hc. unfold do_. rewrite bindP_gets. unfold bindP at 1.
  destruct (doLoop_returns (length (input l)) [] l Hb HI
              ltac:(unfold remaining; lia) Hc) as (errs & lend & Hloop).
  pose proof (doLoop_statements (length (input l)) [] l Hb
                ltac:(unfold remaining; lia)) as Hst.
  rewrite Hloop in Hst. rewrite Hloop.
  destruct Hst as (n & es & Hst & _ & _ & Hend & Hi & _ & Hbe).
  destruct (statements_keep _ _ _ _ Hst Hb HI) as [HIe _].
  rewrite bindP_gets, bindP_state. unfold getRange. cbn [fst snd].
  unfold bindP at 1. cbn [sink set_prevEnd].
  destruct (Inv_done lend Hbe HIe Hend) as [s' Hdone]. rewrite Hdone.
  cbn [retP bindP]. eauto.
Qed.

End SinkOutcome.

(** ** The editor as a sink: its hooks return *)

Section EditorSink.
Local Open Scope nat_scope.
Local Open Scope ed_scope.

Lemma escapeSubsection_valid (sub : bytes) :
  ValidIniSubsection sub = true -> exists e, escapeSubsection sub = Some e.
Proof.
  unfold ValidIniSubsection.
  induction sub as [| b t IH]; cbn [escapeSubsection forallb]; [eauto |].
  intros Hv. apply andb_true_iff in Hv as [Hb Ht]. apply negb_true_iff in Hb.
  rewrite Hb. destruct (IH Ht) as [e ->].
  destruct ((rune_of_byte b =? 92)%Z || _); eauto.
Qed.

Lemma IniSection_String_valid (s : option IniSection) :
  IniSection_Valid s = true -> exists str, IniSection_String s = inr str.
Proof.
  destruct s as [[name [sub |]] |]; cbn; [| eauto | eauto].
  destruct (ValidIniSection name); cbn; [| discriminate].
  intros Hv. destruct (escapeSubsection_valid sub Hv) as [e ->]. eauto.
Qed.

Lemma IniQKey_valid (s : option IniSection) (key : bytes) :
  IniSection_Valid s = true -> ValidIniKey key = true ->
  exists q, IniQKey s key = inr q.
Proof.
  intros Hs Hk. unfold IniQKey. rewrite Hs, Hk. cbn [negb].
  destruct s as [[name [sub |]] |]; cbn; eauto.
Qed.

Lemma appendItem_returns (r : IniRange) (ie : IniEditor) :
  PrevEndIndex r <= StartIndex r -> StartIndex r <= EndIndex r ->
  EndIndex r <= length (Input r) ->
  exists ee ie', appendItem r ie = Done ee ie'.
Proof.
  intros Hps Hse Hel. unfold appendItem, slice.
  assert (H1 : (PrevEndIndex r <=? StartIndex r) && (StartIndex r <=? length (Input r)) = true).
  { apply andb_true_iff. split; apply Nat.leb_le; lia. }
  assert (H2 : (StartIndex r <=? EndIndex r) && (EndIndex r <=? length (Input r)) = true).
  { apply andb_true_iff. split; apply Nat.leb_le; lia. }
  rewrite H1, H2. unfold bindE, PushBack, retE.
  destruct (_ <? _); destruct (_ <? _); eauto.
Qed.

Lemma IniEditor_Section_returns (ss : IniSecStart) (ie : IniEditor) :
  PrevEndIndex (SecRange ss) <= StartIndex (SecRange ss) ->
  StartIndex (SecRange ss) <= EndIndex (SecRange ss) ->
  EndIndex (SecRange ss) <= length (Input (SecRange ss)) ->
  IniSection_Valid (lastSec ie) = true ->
  exists ie', IniEditor_Section ss ie = Done None ie'
              /\ lastSec ie' = Some (SecSection ss).
Proof.
  intros Hps Hse Hel Hv. unfold IniEditor_Section, bindE at 1.
  destruct (appendItem_returns (SecRange ss) ie Hps Hse Hel) as (ee & ie1 & Happ).
  rewrite Happ. apply appendItem_spec in Happ; [| exact Hps | exact Hse].
  destruct Happ as (_ & _ & _ & Hlast).
  unfold bindE, getsE, liftE, modifyE, retE, panicE. rewrite Hlast.
  destruct (IniSection_String_valid _ Hv) as [str ->]. eauto.
Qed.

Lemma IniEditor_Item_returns (ii : IniItem) (ie : IniEditor) :
  PrevEndIndex (ItemRange ii) <= StartIndex (ItemRange ii) ->
  StartIndex (ItemRange ii) <= EndIndex (ItemRange ii) ->
  EndIndex (ItemRange ii) <= length (Input (ItemRange ii)) ->
  IniSection_Valid (ItemSection ii) = true -> ValidIniKey (Key ii) = true ->
  exists ie', IniEditor_Item ii ie = Done None ie' /\ lastSec ie' = lastSec ie.
Proof.
  intros Hps Hse Hel Hv Hk. unfold IniEditor_Item, bindE at 1, liftE, IniItem_QKey.
  destruct (IniQKey_valid _ _ Hv Hk) as [q ->]. unfold retE at 1.
  unfold bindE at 1.
  destruct (appendItem_returns (ItemRange ii) ie Hps Hse Hel) as (ee & ie1 & Happ).
  rewrite Happ. apply appendItem_spec in Happ; [| exact Hps | exact Hse].
  destruct Happ as (_ & _ & _ & Hlast).
  unfold bindE, modifyE, retE. eexists. split; [reflexivity |]. exact Hlast.
Qed.

Lemma IniEditor_Done_returns (r : IniRange) (ie : IniEditor) :
  PrevEndIndex r <= StartIndex r -> StartIndex r <= EndIndex r ->
  EndIndex r <= length (Input r) ->
  IniSection_Valid (lastSec ie) = true ->
  exists ie', IniEditor_Done r ie = Done tt ie'.
Proof.
  intros Hps Hse Hel Hv. unfold IniEditor_Done, bindE at 1.
  destruct (appendItem_returns r ie Hps Hse Hel) as (ee & ie1 & Happ).
  rewrite Happ. apply appendItem_spec in Happ; [| exact Hps | exact Hse].
  destruct Happ as (_ & _ & _ & Hlast).
  destruct (IniSection_String_valid _ Hv) as [str Hstr].
  unfold bindE at 1.
  destruct (fst ee) as [e1 |].
  - unfold retE at 1. unfold bindE, getsE, liftE, modifyE, retE, panicE.
    rewrite Hlast, Hstr. eauto.
  - unfold PushBack at 1. unfold bindE, getsE, liftE, modifyE, retE, panicE.
    cbn [lastSec set_nextElem set_fragments]. rewrite Hlast, Hstr. eauto.
Qed.

Lemma editorParse_moved (l l' : iniParse IniEditor) :
  moved l l' -> editorParse l -> editorParse l'.
Proof.
  intros [_ _ Hsec Hp Hs Hidx _] (Hle & Hv & Hlv). unfold editorParse.
  rewrite Hp, Hs, Hsec. split; [lia | now split].
Qed.

Lemma editorParse_call (l l1 : iniParse IniEditor) hook :
  inBounds l -> editorParse l ->
  input l1 = input l -> prevEnd l1 = prevEnd l ->
  (index (pos l) < index (pos l1))%nat -> inBounds l1 ->
  calledHook l l1 hook ->
  exists s', hook (sink l) = HookOk s' None /\ editorParse (afterHook l1 s').
Proof.
  intros Hb (Hle & Hv & Hlv) Hi Hp Hlt Hb1 Hhook.
  unfold inBounds in Hb1. rewrite Hi in Hb1.
  destruct Hhook as [s Hsec Hsv | k v Hsec Hkv];
    cbn [sink_Section sink_Item IniEditor_IniSink]; unfold hookOfEd.
  - destruct (IniEditor_Section_returns (mkIniSecStart s (stmtRange l l1)) (sink l))
      as (ie' & -> & Hlast); cbn [SecRange stmtRange PrevEndIndex StartIndex EndIndex Input];
      try lia; try assumption.
    exists ie'. split; [reflexivity |].
    unfold editorParse, afterHook. cbn [prevEnd index pos sink sec set_sink set_prevEnd].
    rewrite Hsec, Hlast. cbn [SecSection]. now repeat split.
  - destruct (IniEditor_Item_returns (mkIniItem (sec l) k v (stmtRange l l1)) (sink l))
      as (ie' & -> & Hlast);
      cbn [ItemRange ItemSection Key stmtRange PrevEndIndex StartIndex EndIndex Input];
      try lia; try assumption.
    exists ie'. split; [reflexivity |].
    unfold editorParse, afterHook. cbn [prevEnd index pos sink sec set_sink set_prevEnd].
    rewrite Hsec, Hlast. now repeat split.
Qed.

Lemma editorParse_hook (l l1 : iniParse IniEditor) hook s' err :
  inBounds l -> editorParse l ->
  input l1 = input l -> file l1 = file l -> prevEnd l1 = prevEnd l ->
  sink l1 = sink l -> (index (pos l) < index (pos l1))%nat -> inBounds l1 ->
  calledHook l l1 hook -> hook (sink l) = HookOk s' err ->
  editorParse (afterHook l1 s').
Proof.
  intros Hb HI Hi _ Hp _ Hlt Hb1 Hhook Hcall.
  destruct (editorParse_call l l1 hook Hb HI Hi Hp Hlt Hb1 Hhook) as (s2 & Hcall2 & HI2).
  rewrite Hcall in Hcall2. now injection Hcall2 as -> _.
Qed.

Lemma editorParse_returns (l l1 : iniParse IniEditor) hook p :
  inBounds l -> editorParse l ->
  input l1 = input l -> file l1 = file l -> prevEnd l1 = prevEnd l ->
  sink l1 = sink l -> (index (pos l) < index (pos l1))%nat -> inBounds l1 ->
  calledHook l l1 hook -> hook (sink l) <> HookPanic p.
Proof.
  intros Hb HI Hi _ Hp _ Hlt Hb1 Hhook Hcall.
  destruct (editorParse_call l l1 hook Hb HI Hi Hp Hlt Hb1 Hhook) as (s2 & Hcall2 & _).
  congruence.
Qed.

Lemma editorParse_done (l : iniParse IniEditor) :
  inBounds l -> editorParse l -> remaining l = 0 ->
  exists s', sink_Done (mkIniRange (index (pos l)) (index (pos l)) (prevEnd l)
                                   (input l)) (sink l) = inr s'.
Proof.
  intros Hb (Hle & Hv & Hlv) Hend. cbn [sink_Done IniEditor_IniSink].
  destruct (IniEditor_Done_returns
              (mkIniRange (index (pos l)) (index (pos l)) (prevEnd l) (input l)) (sink l))
    as (ie' & ->); cbn [PrevEndIndex StartIndex EndIndex Input]; try lia; try assumption.
  eauto.
Qed.

Lemma editorParse_new (filename contents : bytes) :
  editorParse (newParser emptyEditor filename contents).
Proof. split; [cbn; lia | split; reflexivity]. Qed.

(** On an input with neither a carriage return nor a backslash,
    [NewIniEdit] returns. *)
Lemma NewIniEdit_returns (filename contents : bytes) :
  crashProne contents = false ->
  exists ie err l, NewIniEdit filename contents = Ok (ie, err) l.
Proof.
  intros Hc. unfold NewIniEdit, IniParseContents.
  assert (Hb : inBounds (newParser emptyEditor filename contents))
    by (unfold inBounds; cbn; lia).
  destruct (do_returns editorParse editorParse_moved editorParse_hook
              editorParse_returns editorParse_done _ Hb
              (editorParse_new filename contents) Hc) as (r & l' & ->).
  eauto.
Qed.

End EditorSink.

(** ** Runs that return *)

Section Returns.
Local Open Scope nat_scope.

(** X1: with a sink whose hooks do not panic, the parse of an input that
    has neither a carriage return nor a backslash returns: the statements
    are run to the end of the input, and the result is nil or the errors
    of the statements that failed, in order. *)
Theorem X1_parse_returns {T : Type} `{IniSink T} (l : iniParse T) :
  hooksReturn T -> inBounds l -> crashProne (input l) = false ->
  exists r l' n errs lend,
    do_ l = Ok r l'
    /\ statements n l errs lend /\ remaining lend = 0
    /\ r = errorsResult errs
    /\ index (pos l') = length (input l).
Proof.
  intros (HItem & HSec & HDone) Hb Hc.
  destruct (do_returns (fun _ => True) (fun _ _ _ _ => I)
              (fun _ _ _ _ _ _ _ _ _ _ _ _ _ _ _ => I)) with (l := l)
    as (r & l' & Hdo); try exact I; try assumption.
  - intros l0 l1 hook p _ _ _ _ _ _ _ _ Hhook Hcall.
    destruct Hhook as [s _ _ | k v _ _].
    + destruct (HSec (mkIniSecStart s (stmtRange l0 l1)) (sink l0)) as (s' & e & Heq).
      congruence.
    + destruct (HItem (mkIniItem (sec l0) k v (stmtRange l0 l1)) (sink l0))
        as (s' & e & Heq).
      congruence.
  - intros l0 _ _ _. apply HDone.
  - pose proof (do_statements l Hb) as Hst. rewrite Hdo in Hst.
    destruct Hst as (n & errs & lend & Hst & _ & Hend & Hr & Hidx & _).
    exists r, l', n, errs, lend. now repeat split.
Qed.

Lemma X1_witness :
  exists r l' n errs lend,
    do_ (newParser ([] : list IniItem) (lit "f.ini") sample_input) = Ok r l'
    /\ statements n (newParser [] (lit "f.ini") sample_input) errs lend
    /\ remaining lend = 0
    /\ r = errorsResult errs
    /\ index (pos l') = length (input (newParser ([] : list IniItem) (lit "f.ini") sample_input)).
Proof.
  apply X1_parse_returns.
  - split; [| split]; intros; cbn; eauto.
  - unfold inBounds. cbn. lia.
  - reflexivity.
Defined.

(** X2: on contents with neither a carriage return nor a backslash,
    [NewIniEdit] returns an editor, which satisfies the invariant of the
    editor and serializes to the contents, whether or not the parse
    reported errors. *)
Theorem X2_NewIniEdit_returns (filename contents : bytes) :
  crashProne contents = false ->
  exists ie err l,
    NewIniEdit filename contents = Ok (ie, err) l
    /\ IniEditor_String ie = contents
    /\ wfEditor ie.
Proof.
  intros Hc. destruct (NewIniEdit_returns filename contents Hc) as (ie & err & l & Hnew).
  exists ie, err, l. split; [exact Hnew |]. split.
  - exact (NewIniEdit_round_trip _ _ _ _ _ Hnew).
  - exact (NewIniEdit_wf _ _ _ _ _ Hnew).
Qed.

Lemma X2_witness :
  exists ie err l,
    NewIniEdit (lit "f.ini") sample_input = Ok (ie, err) l
    /\ IniEditor_String ie = sample_input
    /\ wfEditor ie.
Proof. apply X2_NewIniEdit_returns. reflexivity. Defined.

(** X3: whenever [NewIniEdit] returns, with or without syntax errors, the
    editor it returns serializes to the contents it was given, byte for
    byte: the lines that did not parse are kept too. *)
Theorem X3_round_trip_with_errors (filename contents : bytes) (ie : IniEditor)
    (err : option (list ParseError)) (l : iniParse IniEditor) :
  NewIniEdit filename contents = Ok (ie, err) l ->
  IniEditor_String ie = contents.
Proof. apply NewIniEdit_round_trip. Qed.

Lemma X3_witness :
  exists ie errs l,
    NewIniEdit (lit "f.ini") sample_input = Ok (ie, Some errs) l
    /\ length errs = 2
    /\ IniEditor_String ie = sample_input.
Proof.
  assert (Hret : match returned (NewIniEdit (lit "f.ini") sample_input) with
                 | Some (_, Some errs) => length errs
                 | _ => 0
                 end = 2)
    by (vm_compute; reflexivity).
  destruct (NewIniEdit (lit "f.ini") sample_input) as [[ie [errs |]] l | | |] eqn:Hnew;
    try discriminate Hret.
  cbn [returned] in Hret.
  exists ie, errs, l. split; [reflexivity |]. split; [exact Hret |].
  exact (X3_round_trip_with_errors _ _ _ _ _ Hnew).
Defined.

End Returns.

(** ** The two index-out-of-range panics of the parser *)

Section IndexPanics.
Context {T : Type} `{IniSink T}.
Implicit Types l : iniParse T.
Local Open Scope nat_scope.

Lemma at_end_panics l : remaining l = 1 -> at_ 1 l = inl PanicIndexOutOfRange.
Proof.
  intros Hrem. unfold at_, remaining in *.
  destruct (Nat.ltb_spec (length (input l)) (1 + index (pos l))); [lia |].
  destruct (input l !! (1 + index (pos l))) as [b |] eqn:Hb; [| reflexivity].
  apply lookup_lt_Some in Hb. lia.
Qed.

(** X4: a value of plain characters that a carriage return follows,
    where the input ends, makes [getValue] panic with an index out of
    range: [at(1)] lets the index [len(input)] through. *)
Theorem X4_getValue_cr_at_end (v pre : bytes) (ln cn : nat) (f : bytes)
    (sc : option IniSection) (pe : nat) (snk : T) :
  Forall plainByte v ->
  getValue (mkParse (mkPos (length pre) ln cn) (pre ++ v ++ [x0d]) f sc pe snk)
  = Crash PanicIndexOutOfRange.
Proof.
  intros Hv.
  set (l := mkParse (mkPos (length pre) ln cn) (pre ++ v ++ [x0d]) f sc pe snk).
  assert (Hat : atText l (v ++ [x0d])).
  { unfold atText, l. cbn [pos index input]. now rewrite drop_app_length. }
  unfold getValue. rewrite (atText_remaining _ _ Hat), length_app. cbn [length].
  replace (S (length v + 1)) with (length v + 2) by lia.
  destruct (plain_run v Hv [] [x0d] 2 l Hat) as (l1 & Hat1 & _ & _ & ->).
  cbn [getValueLoop]. unfold bindP at 1, gets at 1.
  rewrite (atText_peek _ _ _ Hat1). cbn.
  rewrite (at_end_panics l1); [reflexivity |].
  now rewrite (atText_remaining _ _ Hat1).
Qed.


(** The loop of [getSubsection] over plain characters that end in a
    backslash and one more byte, where the input ends: the backslash
    makes it step to [len(input)]. *)
Lemma subsectionLoop_overrun (body : bytes) (c : byte) :
  Forall (fun b => rune_of_byte b <> 34%Z /\ rune_of_byte b <> 0%Z
                   /\ rune_of_byte b <> 10%Z /\ rune_of_byte b <> 92%Z) body ->
  forall (pre ret : bytes) (fuel : nat),
    length body < fuel ->
    exists ret',
      subsectionLoop fuel (pre ++ body ++ [x5c; c]) (length pre) ret
      = SubExit (length (pre ++ body ++ [x5c; c])) ret'.
Proof.
  induction 1 as [| b t (Hq & Hnul & Hnl & Hbs) _ IH]; intros pre ret fuel Hfuel.
  - destruct fuel as [| fuel]; [cbn in Hfuel; lia |]. cbn [app].
    assert (Hlen : length (pre ++ [x5c; c]) = length pre + 2)
      by (rewrite length_app; reflexivity).
    assert (H0 : (pre ++ [x5c; c]) !! length pre = Some x5c)
      by (rewrite lookup_app_r, Nat.sub_diag by lia; reflexivity).
    assert (H1 : (pre ++ [x5c; c]) !! (length pre + 1) = Some c).
    { rewrite lookup_app_r by lia.
      replace (length pre + 1 - length pre) with 1 by lia. reflexivity. }
    cbn [subsectionLoop]. rewrite Hlen, H0, H1.
    destruct (Nat.ltb_spec (length pre + 1) (length pre + 2)); [| lia].
    replace (rune_of_byte x5c) with 92%Z by reflexivity. cbn [Z.eqb Pos.eqb orb].
    destruct fuel; cbn [subsectionLoop]; rewrite Hlen;
      (destruct (Nat.ltb_spec (length pre + 2 + 1) (length pre + 2)); [lia |]); eauto.
  - destruct fuel as [| fuel]; [cbn in Hfuel; lia |].
    assert (Hlen : length (pre ++ (b :: t) ++ [x5c; c]) = length pre + (length t + 3))
      by (rewrite !length_app; cbn [length]; lia).
    assert (H0 : (pre ++ (b :: t) ++ [x5c; c]) !! length pre = Some b)
      by (rewrite lookup_app_r, Nat.sub_diag by lia; reflexivity).
    destruct (IH (pre ++ [b]) (ret ++ [b]) fuel ltac:(cbn in Hfuel; lia)) as [ret' Hloop].
    rewrite length_app in Hloop. cbn [length] in Hloop.
    rewrite <- !app_assoc in Hloop. cbn [app] in Hloop.
    cbn [subsectionLoop]. rewrite H0.
    destruct (Nat.ltb_spec (length pre + 1) (length (pre ++ (b :: t) ++ [x5c; c])));
      [| lia].
    destruct (Z.eqb_spec (rune_of_byte b) 34); [contradiction |].
    destruct (Z.eqb_spec (rune_of_byte b) 0); [contradiction |].
    destruct (Z.eqb_spec (rune_of_byte b) 10); [contradiction |].
    destruct (Z.eqb_spec (rune_of_byte b) 92); [contradiction |]. cbn [orb].
    cbn [app]. rewrite Hloop. eauto.
Qed.


(** X5: a quoted subsection of plain characters that ends in a backslash
    and one more byte, where the input ends, makes [getSubsection] panic
    with an index out of range: after its loop it reads
    [input[len(input)]]. *)
Theorem X5_getSubsection_backslash_at_end (body pre : bytes) (c : byte)
    (ln cn : nat) (f : bytes) (sc : option IniSection) (pe : nat) (snk : T) :
  Forall (fun b => rune_of_byte b <> 34%Z /\ rune_of_byte b <> 0%Z
                   /\ rune_of_byte b <> 10%Z /\ rune_of_byte b <> 92%Z) body ->
  getSubsection (mkParse (mkPos (length pre) ln cn)
                         (pre ++ [x22] ++ body ++ [x5c; c]) f sc pe snk)
  = Crash PanicIndexOutOfRange.
Proof.
  intros Hbody.
  set (inp := pre ++ [x22] ++ body ++ [x5c; c]).
  assert (Hlen : length inp = length pre + (length body + 3))
    by (unfold inp; rewrite !length_app; cbn [length]; lia).
  assert (H0 : inp !! length pre = Some x22)
    by (unfold inp; rewrite lookup_app_r, Nat.sub_diag by lia; reflexivity).
  unfold getSubsection, remaining, peek. cbn [input pos index].
  rewrite H0, Hlen.
  destruct (Nat.ltb_spec (length pre + (length body + 3) - length pre) 2); [lia |].
  replace (rune_of_byte x22) with 34%Z by reflexivity. cbn [Z.eqb Pos.eqb orb negb].
  destruct (subsectionLoop_overrun body c Hbody (pre ++ [x22]) []
              (length pre + (length body + 3)) ltac:(lia)) as [ret' Hloop].
  rewrite length_app in Hloop. cbn [length] in Hloop.
  rewrite <- !app_assoc in Hloop. fold inp in Hloop.
  rewrite Hloop.
  destruct (inp !! length inp) as [b |] eqn:Hb; [| reflexivity].
  apply lookup_lt_Some in Hb. lia.
Qed.


End IndexPanics.

Lemma X4_witness :
  getValue (mkParse (mkPos 2 0 2) (lit "a=" ++ lit "x" ++ [x0d]) (lit "f.ini")
                    None 0 emptyEditor)
  = Crash PanicIndexOutOfRange.
Proof.
  apply (X4_getValue_cr_at_end (lit "x") (lit "a=") 0 2 (lit "f.ini") None 0).
  repeat constructor; cbn; lia.
Defined.

Lemma X5_witness :
  getSubsection (mkParse (mkPos 3 0 3) (lit "[a " ++ [x22] ++ lit "b" ++ [x5c; x22])
                         (lit "f.ini") None 0 emptyEditor)
  = Crash PanicIndexOutOfRange.
Proof.
  apply (X5_getSubsection_backslash_at_end (lit "b") (lit "[a ") x22 0 3 (lit "f.ini")
           None 0).
  repeat constructor; cbn; lia.
Defined.

(** ** Edits of a well-formed editor *)

Section EditsReturn.
Local Open Scope nat_scope.
Local Open Scope ed_scope.
Implicit Types vs : list Elem.

Lemma IniEditor_newItem_returns (isec : option IniSection) (key value k : bytes) ie :
  wfEditor ie -> IniSection_Valid isec = true -> IniQKey isec key = inr k ->
  exists e ie', IniEditor_newItem isec key value ie = Done e ie'.
Proof.
  intros Hwf Hv Hq. unfold IniEditor_newItem, bindE at 1, liftE.
  destruct (IniSection_String_valid isec Hv) as [ss ->]. unfold retE at 1.
  unfold bindE at 1, getsE.
  assert (Hfinish : forall ie1 mark,
             wfEditor ie1 -> liveIn (fragments ie1) mark ->
             exists e ie',
               (e0 <- InsertBefore (iniLine key value) mark ;;
                k <- liftE (IniQKey isec key) ;;
                modifyE (fun ie => set_values (<[k := lookupValues k ie ++ [e0]]> (values ie)) ie)
                >> retE e0) ie1 = Done e ie').
  { intros ie1 mark Hwf1 Hmark. unfold bindE at 1.
    destruct (Insert_wf false (iniLine key value) mark ie1 Hwf1 Hmark)
      as (ie2 & Hins & _).
    cbn beta iota in Hins. rewrite Hins. unfold bindE at 1, liftE. rewrite Hq.
    unfold retE, bindE, modifyE. eauto. }
  destruct (secEnd ie !! ss) as [mark |] eqn:Hsec.
  - unfold bindE at 1, retE at 1.
    pose proof Hwf as Hwf'. apply wfEditor_iff in Hwf' as (_ & _ & _ & H4).
    apply (Hfinish ie mark Hwf). apply (H4 ss mark Hsec).
  - assert (Hmarker : forall ie1 e1,
               wfEditor ie1 -> liveIn (fragments ie1) e1 ->
               exists e ie',
                 (e2 <- (e0 <- InsertAfter [] e1 ;;
                         modifyE (fun ie => set_secEnd (<[ss := e0]> (secEnd ie)) ie)
                         >> retE e0) ;;
                  e0 <- InsertBefore (iniLine key value) e2 ;;
                  k <- liftE (IniQKey isec key) ;;
                  modifyE (fun ie => set_values (<[k := lookupValues k ie ++ [e0]]> (values ie)) ie)
                  >> retE e0) ie1 = Done e ie').
    { intros ie1 e1 Hwf1 He1. unfold bindE at 1. unfold bindE at 1.
      destruct (Insert_wf true [] e1 ie1 Hwf1 He1) as (ie2 & Hins & Hwf2 & _ & Hfresh).
      cbn beta iota in Hins. rewrite Hins. unfold bindE at 1, modifyE at 1, retE at 1.
      apply Hfinish.
      - apply wfEditor_set_secEnd; [exact Hwf2 | apply Hfresh].
      - apply Hfresh. }
    rewrite bindE_assoc_eq. unfold bindE at 1. cbn beta iota.
    rewrite bindE_assoc_eq.
    destruct (Back ie) as [[id v] |] eqn:Hback.
    + destruct v as [| b v].
      * rewrite bindE_assoc_eq. unfold bindE at 1, modifyE at 1.
        unfold bindE at 1, retE at 1.
        destruct (wfEditor_setElemValue ie id (ss ++ [x0a]) Hwf) as [Hwf1 Hst].
        apply Hmarker; [exact Hwf1 |].
        apply Hst. cbn. unfold Back in Hback. apply last_elem_of in Hback.
        apply list_elem_of_fmap. exists (id, []). auto.
      * destruct (PushBack_wf (ss ++ [x0a]) ie Hwf) as (ie1 & Hpush & Hwf1 & _ & Hfresh).
        unfold bindE at 1. rewrite Hpush.
        apply Hmarker; [exact Hwf1 | apply Hfresh].
    + destruct (PushBack_wf (ss ++ [x0a]) ie Hwf) as (ie1 & Hpush & Hwf1 & _ & Hfresh).
      unfold bindE at 1. rewrite Hpush.
      apply Hmarker; [exact Hwf1 | apply Hfresh].
Qed.

Lemma IniEditor_Set_returns (isec : option IniSection) (key value : bytes) ie :
  wfEditor ie -> IniSection_Valid isec = true -> ValidIniKey key = true ->
  exists ie', IniEditor_Set isec key value ie = Done tt ie'.
Proof.
  intros Hwf Hv Hkey. destruct (IniQKey_valid isec key Hv Hkey) as [k Hq].
  destruct (values ie !! k) as [vs |] eqn:Hk.
  - destruct (IniEditor_Set_spec isec key value k vs ie Hwf Hq Hk)
      as (m & old & pre & post & _ & _ & _ & ->). eauto.
  - unfold IniEditor_Set, bindE at 1, liftE. rewrite Hq. unfold retE at 1.
    unfold bindE at 1, getsE. rewrite (lookupValues_None _ _ Hk). cbn [last].
    unfold bindE.
    destruct (IniEditor_newItem_returns isec key value k ie Hwf Hv Hq) as (e & ie1 & ->).
    unfold retE. eauto.
Qed.

Lemma IniEditor_Add_returns (isec : option IniSection) (key value : bytes) ie :
  wfEditor ie -> IniSection_Valid isec = true -> ValidIniKey key = true ->
  exists ie', IniEditor_Add isec key value ie = Done tt ie'.
Proof.
  intros Hwf Hv Hkey. destruct (IniQKey_valid isec key Hv Hkey) as [k Hq].
  unfold IniEditor_Add, bindE at 1, liftE. rewrite Hq. unfold retE at 1.
  unfold bindE at 1, getsE.
  destruct (values ie !! k) as [vs |] eqn:Hk.
  - rewrite (lookupValues_Some _ _ _ Hk).
    destruct (wf_entry ie k vs Hwf Hk) as (Hne & _ & _ & Hlive).
    destruct (last vs) as [lastv |] eqn:Hlast; [| apply last_None in Hlast; contradiction].
    destruct (Insert_wf true (iniLine key value) lastv ie Hwf
                (Hlive _ (last_elem_of _ _ Hlast))) as (ie1 & Hins & _).
    cbn beta iota in Hins. unfold bindE. rewrite Hins. unfold modifyE. eauto.
  - rewrite (lookupValues_None _ _ Hk). cbn [last]. unfold bindE.
    destruct (IniEditor_newItem_returns isec key value k ie Hwf Hv Hq) as (e & ie1 & ->).
    unfold retE. eauto.
Qed.

End EditsReturn.

(** ** The elements of the fragment list are distinct *)

Section UniqueIds.
Local Open Scope nat_scope.
Local Open Scope ed_scope.

Lemma keepsIds_ret {A} (a : A) : keepsIds (retE a).
Proof. intros ie Hu. exact Hu. Qed.

Lemma keepsIds_bind {A B} (m : Ed A) (k : A -> Ed B) :
  keepsIds m -> (forall a, keepsIds (k a)) -> keepsIds (bindE m k).
Proof.
  intros Hm Hk ie Hu. unfold bindE. specialize (Hm ie Hu).
  destruct (m ie) as [a ie1 | p ie1]; [| exact I]. now apply Hk.
Qed.

Lemma keepsIds_getsE {A} (f : IniEditor -> A) : keepsIds (getsE f).
Proof. intros ie Hu. exact Hu. Qed.

Lemma keepsIds_panicE {A} (p : Panic) : keepsIds (panicE (A := A) p).
Proof. intros ie Hu. exact I. Qed.

Lemma keepsIds_liftE {A} (r : Panic + A) : keepsIds (liftE r).
Proof. destruct r; [apply keepsIds_panicE | apply keepsIds_ret]. Qed.

Lemma keepsIds_modifyE (f : IniEditor -> IniEditor) :
  (forall ie, map fst (fragments (f ie)) = map fst (fragments ie)
              /\ nextElem (f ie) = nextElem ie) ->
  keepsIds (modifyE f).
Proof.
  intros Hf ie [Hnd Hlt]. destruct (Hf ie) as [Hids Hn]. unfold modifyE, uniqueIds.
  rewrite Hids, Hn. split; [exact Hnd |].
  apply Forall_forall. intros x Hx.
  assert (Hi : fst x ∈ map fst (fragments ie))
    by (rewrite <- Hids; apply list_elem_of_fmap; eauto).
  apply list_elem_of_fmap in Hi as (y & -> & Hy).
  now apply (proj1 (Forall_forall _ _) Hlt).
Qed.

Lemma uniqueIds_fresh ie : uniqueIds ie -> nextElem ie ∉ map fst (fragments ie).
Proof.
  intros [_ Hlt] Hin. apply list_elem_of_fmap in Hin as (y & Hy & Hin).
  pose proof (proj1 (Forall_forall _ _) Hlt y Hin) as Hy2. cbn beta in Hy2. lia.
Qed.

(** Putting a new element anywhere in the list keeps the elements
    distinct. *)
Lemma uniqueIds_insert ie fr' (v : bytes) :
  uniqueIds ie ->
  map fst fr' ≡ₚ nextElem ie :: map fst (fragments ie) ->
  uniqueIds (set_nextElem (S (nextElem ie)) (set_fragments fr' ie)).
Proof.
  intros Hu Hperm. pose proof (uniqueIds_fresh ie Hu) as Hfresh.
  destruct Hu as [Hnd Hlt]. unfold uniqueIds.
  cbn [fragments nextElem set_nextElem set_fragments]. split.
  - rewrite Hperm. now constructor.
  - apply Forall_forall. intros x Hx.
    assert (Hi : fst x ∈ nextElem ie :: map fst (fragments ie))
      by (rewrite <- Hperm; apply list_elem_of_fmap; eauto).
    apply elem_of_cons in Hi as [-> | Hi]; [lia |].
    apply list_elem_of_fmap in Hi as (y & -> & Hy).
    pose proof (proj1 (Forall_forall _ _) Hlt y Hy) as Hy2. cbn beta in Hy2. lia.
Qed.

Lemma keepsIds_PushBack (v : bytes) : keepsIds (PushBack v).
Proof.
  intros ie Hu. unfold PushBack. apply (uniqueIds_insert ie _ v Hu).
  rewrite map_app. cbn [map fst]. now rewrite <- Permutation_cons_append.
Qed.

Lemma keepsIds_InsertAfter (v : bytes) (mark : Elem) : keepsIds (InsertAfter v mark).
Proof.
  intros ie Hu. unfold InsertAfter. destruct mark as [m |]; [| exact I].
  destruct (inList m (fragments ie)) eqn:Hin; [| exact Hu].
  apply inList_elem_of in Hin.
  destruct (split_at_elem m (fragments ie) Hin) as (pre & old & post & Hfr & Hpre).
  apply (uniqueIds_insert ie _ v Hu).
  rewrite Hfr, insertAfter_split by exact Hpre.
  rewrite !map_app. cbn [map fst].
  rewrite <- (Permutation_middle (map fst pre) (nextElem ie :: map fst post) m).
  rewrite <- (Permutation_middle (map fst pre) (map fst post) (nextElem ie)).
  rewrite <- (Permutation_middle (map fst pre) (map fst post) m).
  apply perm_swap.
Qed.

Lemma keepsIds_InsertBefore (v : bytes) (mark : Elem) : keepsIds (InsertBefore v mark).
Proof.
  intros ie Hu. unfold InsertBefore. destruct mark as [m |]; [| exact I].
  destruct (inList m (fragments ie)) eqn:Hin; [| exact Hu].
  apply inList_elem_of in Hin.
  destruct (split_at_elem m (fragments ie) Hin) as (pre & old & post & Hfr & Hpre).
  apply (uniqueIds_insert ie _ v Hu).
  rewrite Hfr, insertBefore_split by exact Hpre.
  rewrite !map_app. cbn [map fst].
  now rewrite <- (Permutation_middle (map fst pre) (m :: map fst post) (nextElem ie)).
Qed.

Lemma keepsIds_Remove (e : Elem) : keepsIds (Remove e).
Proof.
  intros ie [Hnd Hlt]. unfold Remove. destruct e as [id |]; [| exact I].
  unfold uniqueIds, removeElem. cbn [fragments nextElem set_fragments]. split.
  - eapply sublist_NoDup; [exact Hnd |]. apply fmap_sublist, sublist_filter.
  - apply Forall_forall. intros x Hx. apply list_elem_of_filter in Hx as [_ Hx].
    now apply (proj1 (Forall_forall _ _) Hlt).
Qed.

Lemma keepsIds_forE {A} (xs : list A) (f : A -> Ed unit) :
  (forall x, keepsIds (f x)) -> keepsIds (forE xs f).
Proof.
  intros Hf. induction xs as [| x t IH]; cbn [forE]; [apply keepsIds_ret |].
  apply keepsIds_bind; [apply Hf | intros _; exact IH].
Qed.

Ltac keeps_step :=
  first
    [ apply keepsIds_ret
    | apply keepsIds_getsE
    | apply keepsIds_liftE
    | apply keepsIds_panicE
    | apply keepsIds_PushBack
    | apply keepsIds_InsertAfter
    | apply keepsIds_InsertBefore
    | apply keepsIds_forE; intros ?; apply keepsIds_Remove
    | apply keepsIds_modifyE; intros ?; split;
        [first [reflexivity | apply setElemValue_ids] | reflexivity]
    | (apply keepsIds_bind; [| intros ?])
    | match goal with
      | |- keepsIds (match ?x with _ => _ end) => destruct x
      | |- keepsIds (if ?x then _ else _) => destruct x
      end ].

Lemma keepsIds_Del isec key : keepsIds (IniEditor_Del isec key).
Proof. unfold IniEditor_Del. repeat keeps_step. Qed.

Lemma keepsIds_newItem isec key value : keepsIds (IniEditor_newItem isec key value).
Proof. unfold IniEditor_newItem. repeat keeps_step. Qed.

Lemma keepsIds_Set isec key value : keepsIds (IniEditor_Set isec key value).
Proof.
  unfold IniEditor_Set. repeat first [apply keepsIds_newItem | keeps_step].
Qed.

Lemma keepsIds_Add isec key value : keepsIds (IniEditor_Add isec key value).
Proof.
  unfold IniEditor_Add. repeat first [apply keepsIds_newItem | keeps_step].
Qed.

Lemma keepsIds_appendItem r : keepsIds (appendItem r).
Proof. unfold appendItem, slice. repeat keeps_step. Qed.

Lemma keepsIds_Section ss : keepsIds (IniEditor_Section ss).
Proof.
  unfold IniEditor_Section. repeat first [apply keepsIds_appendItem | keeps_step].
Qed.

Lemma keepsIds_Item ii : keepsIds (IniEditor_Item ii).
Proof.
  unfold IniEditor_Item. repeat first [apply keepsIds_appendItem | keeps_step].
Qed.

Lemma keepsIds_Done r : keepsIds (IniEditor_Done r).
Proof.
  unfold IniEditor_Done. repeat first [apply keepsIds_appendItem | keeps_step].
Qed.

Lemma NewIniEdit_uniqueIds (filename contents : bytes) ie err (l : iniParse IniEditor) :
  NewIniEdit filename contents = Ok (ie, err) l -> uniqueIds ie.
Proof.
  unfold NewIniEdit, IniParseContents.
  destruct (do_ (newParser emptyEditor filename contents)) as [r l' | | |] eqn:Hdo;
    try discriminate.
  intros [= <- <- <-].
  assert (Hb : inBounds (newParser emptyEditor filename contents))
    by (unfold inBounds; cbn; lia).
  destruct (do_inv (fun l => uniqueIds (sink l))) with (3 := Hb) (5 := Hdo)
    as (lend & s' & Hu & _ & _ & _ & Hdone & ->).
  - intros l0 l1 Hm. now rewrite (moved_sink _ _ Hm).
  - intros l0 l1 hook s' err0 _ Hu _ _ _ _ _ _ Hhook Hcall.
    unfold afterHook. cbn [sink set_sink].
    destruct Hhook as [s Hsec | k v Hsec];
      cbn [sink_Section sink_Item IniEditor_IniSink] in Hcall; unfold hookOfEd in Hcall.
    + pose proof (keepsIds_Section (mkIniSecStart s (stmtRange l0 l1)) (sink l0) Hu) as Hk.
      destruct (IniEditor_Section _ (sink l0)) as [e2 ie2 | p ie2]; [| discriminate].
      now injection Hcall as <- <-.
    + pose proof (keepsIds_Item (mkIniItem (sec l0) k v (stmtRange l0 l1)) (sink l0) Hu)
        as Hk.
      destruct (IniEditor_Item _ (sink l0)) as [e2 ie2 | p ie2]; [| discriminate].
      now injection Hcall as <- <-.
  - split; [constructor | constructor].
  - cbn [sink set_sink]. cbn [sink_Done IniEditor_IniSink] in Hdone.
    pose proof (keepsIds_Done
                  (mkIniRange (index (pos lend)) (index (pos lend)) (prevEnd lend)
                              (input lend)) (sink lend) Hu) as Hk.
    destruct (IniEditor_Done _ (sink lend)) as [[] ie2 | p ie2]; [| discriminate].
    now injection Hdone as <-.
Qed.

Lemma reachable_uniqueIds ie : reachable ie -> uniqueIds ie.
Proof.
  induction 1 as [filename contents ie err l Hnew
                 | ie isec key ie' _ IH Hdel
                 | ie isec key value ie' _ IH Hset
                 | ie isec key value ie' _ IH Hadd].
  - eapply NewIniEdit_uniqueIds; eassumption.
  - pose proof (keepsIds_Del isec key ie IH) as Hk. now rewrite Hdel in Hk.
  - pose proof (keepsIds_Set isec key value ie IH) as Hk. now rewrite Hset in Hk.
  - pose proof (keepsIds_Add isec key value ie IH) as Hk. now rewrite Hadd in Hk.
Qed.

End UniqueIds.

(** ** What the edits do to the document *)

Section EditsSpec.
Local Open Scope nat_scope.
Local Open Scope ed_scope.
Implicit Types vs : list Elem.

(** X6: every editor state the package can produce, by [NewIniEdit]
    followed by any sequence of [Del], [Set] and [Add] that return,
    satisfies the invariant of the editor: the key index and the section
    ends only hold elements that are in the fragment list, no element is
    indexed under two keys, no section end is indexed under a key, and the
    elements of the list are distinct. *)
Theorem X6_reachable_invariant (ie : IniEditor) :
  reachable ie -> wfEditor ie /\ uniqueIds ie.
Proof.
  intros Hr. split; [now apply reachable_wfEditor | now apply reachable_uniqueIds].
Qed.

(** X7: on an editor that satisfies the invariant, [Del], [Set] and [Add]
    with a valid section and a valid key do not panic, and leave an editor
    that satisfies the invariant. *)
Theorem X7_edits_return (isec : option IniSection) (key value : bytes) (ie : IniEditor) :
  wfEditor ie -> IniSection_Valid isec = true -> ValidIniKey key = true ->
  (exists ie', IniEditor_Del isec key ie = Done tt ie' /\ wfEditor ie')
  /\ (exists ie', IniEditor_Set isec key value ie = Done tt ie' /\ wfEditor ie')
  /\ (exists ie', IniEditor_Add isec key value ie = Done tt ie' /\ wfEditor ie').
Proof.
  intros Hwf Hv Hkey. destruct (IniQKey_valid isec key Hv Hkey) as [k Hq].
  split; [| split].
  - exists (afterDel k ie). split; [now apply IniEditor_Del_spec |].
    now apply wfEditor_afterDel.
  - destruct (IniEditor_Set_returns isec key value ie Hwf Hv Hkey) as [ie' Hset].
    exists ie'. split; [exact Hset |]. exact (IniEditor_Set_wf _ _ _ _ _ Hwf Hset).
  - destruct (IniEditor_Add_returns isec key value ie Hwf Hv Hkey) as [ie' Hadd].
    exists ie'. split; [exact Hadd |]. exact (IniEditor_Add_wf _ _ _ _ _ Hwf Hadd).
Qed.

(** X8: [Add] on a key that has realizations puts the new line right
    after the last of them, keeps all of them, and appends the new element
    to the entry of the key in the index. *)
Theorem X8_Add_existing (isec : option IniSection) (key value k : bytes) vs
    (ie : IniEditor) :
  wfEditor ie -> IniQKey isec key = inr k -> values ie !! k = Some vs ->
  exists m old pre post ie',
    last vs = Some (Some m)
    /\ fragments ie = pre ++ (m, old) :: post /\ (m ∉ map fst pre)
    /\ IniEditor_Add isec key value ie = Done tt ie'
    /\ fragments ie' = pre ++ (m, old) :: (nextElem ie, iniLine key value) :: post
    /\ values ie' = <[k := vs ++ [Some (nextElem ie)]]> (values ie)
    /\ secEnd ie' = secEnd ie
    /\ IniEditor_String ie'
       = concat (map snd pre) ++ old ++ iniLine key value ++ concat (map snd post).
Proof.
  intros Hwf Hq Hk.
  destruct (wf_entry ie k vs Hwf Hk) as (Hne & _ & _ & Hlive).
  destruct (last vs) as [lastv |] eqn:Hlast; [| apply last_None in Hlast; contradiction].
  destruct (liveIn_alloc ie lastv Hwf (Hlive _ (last_elem_of _ _ Hlast)))
    as (m & -> & Hm & _).
  destruct (split_at_elem m (fragments ie) Hm) as (pre & old & post & Hfr & Hpre).
  exists m, old, pre, post. eexists.
  split; [reflexivity |]. split; [exact Hfr |]. split; [exact Hpre |].
  unfold IniEditor_Add, bindE at 1, liftE. rewrite Hq. unfold retE at 1.
  unfold bindE at 1, getsE. rewrite (lookupValues_Some _ _ _ Hk), Hlast.
  unfold bindE, InsertAfter. rewrite (proj2 (inList_elem_of m (fragments ie)) Hm).
  unfold modifyE.
  cbn [fragments nextElem secEnd values lastSec set_values set_nextElem set_fragments].
  split; [reflexivity |].
  cbn [fragments nextElem secEnd values lastSec set_values set_nextElem set_fragments].
  rewrite Hfr, insertAfter_split by exact Hpre.
  split; [reflexivity |]. split; [reflexivity |]. split; [reflexivity |].
  rewrite IniEditor_String_fragments. unfold fragmentBytes.
  cbn [fragments nextElem secEnd values lastSec set_values set_nextElem set_fragments].
  rewrite map_app, concat_app. cbn [map concat snd]. reflexivity.
Qed.

(** X9: [Set] and [Add] on a key that has no realization, in a section
    whose end the editor knows, both put the new line right before the
    element that ends the section, and index it as the only realization
    of the key. *)
Theorem X9_new_key_in_section (isec : option IniSection) (key value k ss : bytes)
    (e : Elem) (ie : IniEditor) :
  wfEditor ie -> IniSection_String isec = inr ss -> IniQKey isec key = inr k ->
  values ie !! k = None -> secEnd ie !! ss = Some e ->
  exists m old pre post ie',
    e = Some m
    /\ fragments ie = pre ++ (m, old) :: post /\ (m ∉ map fst pre)
    /\ IniEditor_Set isec key value ie = Done tt ie'
    /\ IniEditor_Add isec key value ie = Done tt ie'
    /\ fragments ie' = pre ++ (nextElem ie, iniLine key value) :: (m, old) :: post
    /\ values ie' = <[k := [Some (nextElem ie)]]> (values ie)
    /\ secEnd ie' = secEnd ie
    /\ IniEditor_String ie'
       = concat (map snd pre) ++ iniLine key value ++ old ++ concat (map snd post).
Proof.
  intros Hwf Hss Hq Hk Hend.
  pose proof Hwf as Hwf'. apply wfEditor_iff in Hwf' as (_ & _ & _ & H4).
  destruct (H4 ss e Hend) as [Hlive _].
  destruct (liveIn_alloc ie e Hwf Hlive) as (m & -> & Hm & _).
  destruct (split_at_elem m (fragments ie) Hm) as (pre & old & post & Hfr & Hpre).
  assert (Hnew : IniEditor_newItem isec key value ie
                 = Done (Some (nextElem ie))
                     (set_values (<[k := [Some (nextElem ie)]]> (values ie))
                        (set_nextElem (S (nextElem ie))
                           (set_fragments
                              (pre ++ (nextElem ie, iniLine key value) :: (m, old) :: post)
                              ie)))).
  { unfold IniEditor_newItem, bindE at 1, liftE. rewrite Hss. unfold retE at 1.
    unfold bindE at 1, getsE. rewrite Hend. unfold bindE at 1, retE at 1.
    unfold bindE at 1, InsertBefore.
    rewrite (proj2 (inList_elem_of m (fragments ie)) Hm).
    unfold bindE at 1, liftE. rewrite Hq. unfold retE, bindE, modifyE.
    unfold lookupValues.
    cbn [fragments nextElem secEnd values lastSec set_values set_nextElem set_fragments].
    rewrite Hk. cbn [default app].
    now rewrite Hfr at 1; rewrite insertBefore_split by exact Hpre. }
  exists m, old, pre, post. eexists.
  split; [reflexivity |]. split; [exact Hfr |]. split; [exact Hpre |].
  split; [| split].
  - unfold IniEditor_Set, bindE at 1, liftE. rewrite Hq. unfold retE at 1.
    unfold bindE at 1, getsE. rewrite (lookupValues_None _ _ Hk). cbn [last].
    unfold bindE. rewrite Hnew. reflexivity.
  - unfold IniEditor_Add, bindE at 1, liftE. rewrite Hq. unfold retE at 1.
    unfold bindE at 1, getsE. rewrite (lookupValues_None _ _ Hk). cbn [last].
    unfold bindE. rewrite Hnew. reflexivity.
  - cbn [fragments nextElem secEnd values lastSec set_values set_nextElem set_fragments].
    split; [reflexivity |]. split; [reflexivity |]. split; [reflexivity |].
    rewrite IniEditor_String_fragments. unfold fragmentBytes.
    cbn [fragments nextElem secEnd values lastSec set_values set_nextElem set_fragments].
    rewrite map_app, concat_app. cbn [map concat snd]. reflexivity.
Qed.

End EditsSpec.

Lemma X6_witness :
  exists ie, reachable ie /\ wfEditor ie /\ uniqueIds ie.
Proof.
  assert (Hret : snd <$> returned (NewIniEdit (lit "f.ini") example6_input) = Some None)
    by (vm_compute; reflexivity).
  destruct (NewIniEdit (lit "f.ini") example6_input) as [[ie err] l | | |] eqn:Hnew;
    try discriminate Hret.
  assert (Hreach : reachable ie) by exact (reach_new _ _ _ _ _ Hnew).
  exists ie. split; [exact Hreach |]. exact (X6_reachable_invariant ie Hreach).
Defined.

Lemma X7_witness :
  wfEditor example6_editor
  /\ (exists ie', IniEditor_Del core (lit "bar") example6_editor = Done tt ie'
                  /\ wfEditor ie')
  /\ (exists ie', IniEditor_Set core (lit "bar") (lit "1") example6_editor = Done tt ie'
                  /\ wfEditor ie')
  /\ (exists ie', IniEditor_Add core (lit "bar") (lit "1") example6_editor = Done tt ie'
                  /\ wfEditor ie').
Proof.
  assert (Hwf : wfEditor example6_editor)
    by (apply (bool_decide_unpack _); vm_compute; exact I).
  split; [exact Hwf |].
  apply (X7_edits_return core (lit "bar") (lit "1") example6_editor Hwf);
    vm_compute; reflexivity.
Defined.

Lemma X8_witness :
  exists m old pre post ie',
    last [Some 1%nat; Some 2%nat] = Some (Some m)
    /\ fragments example6_editor = pre ++ (m, old) :: post /\ (m ∉ map fst pre)
    /\ IniEditor_Add core (lit "foo") (lit "3") example6_editor = Done tt ie'
    /\ fragments ie'
       = pre ++ (m, old) :: (nextElem example6_editor, iniLine (lit "foo") (lit "3")) :: post
    /\ values ie'
       = <[lit "core.foo" := [Some 1%nat; Some 2%nat] ++ [Some (nextElem example6_editor)]]>
           (values example6_editor)
    /\ secEnd ie' = secEnd example6_editor
    /\ IniEditor_String ie'
       = concat (map snd pre) ++ old ++ iniLine (lit "foo") (lit "3")
           ++ concat (map snd post).
Proof.
  assert (Hwf : wfEditor example6_editor)
    by (apply (bool_decide_unpack _); vm_compute; exact I).
  apply (X8_Add_existing core (lit "foo") (lit "3") (lit "core.foo")
           [Some 1%nat; Some 2%nat] example6_editor Hwf);
    vm_compute; reflexivity.
Defined.

Lemma X9_witness :
  exists m old pre post ie',
    Some 3%nat = Some m
    /\ fragments example6_editor = pre ++ (m, old) :: post /\ (m ∉ map fst pre)
    /\ IniEditor_Set core (lit "bar") (lit "1") example6_editor = Done tt ie'
    /\ IniEditor_Add core (lit "bar") (lit "1") example6_editor = Done tt ie'
    /\ fragments ie'
       = pre ++ (nextElem example6_editor, iniLine (lit "bar") (lit "1")) :: (m, old) :: post
    /\ values ie' = <[lit "core.bar" := [Some (nextElem example6_editor)]]>
                      (values example6_editor)
    /\ secEnd ie' = secEnd example6_editor
    /\ IniEditor_String ie'
       = concat (map snd pre) ++ iniLine (lit "bar") (lit "1") ++ old
           ++ concat (map snd post).
Proof.
  assert (Hwf : wfEditor example6_editor)
    by (apply (bool_decide_unpack _); vm_compute; exact I).
  apply (X9_new_key_in_section core (lit "bar") (lit "1") (lit "core.bar") (lit "[core]")
           (Some 3%nat) example6_editor Hwf);
    vm_compute; reflexivity.
Defined.

(** ** A key of a section the document does not have *)

Section NewSection.
Local Open Scope nat_scope.
Local Open Scope ed_scope.

Lemma setElemValue_notin (id : nat) (v : bytes) fr :
  id ∉ map fst fr -> setElemValue id v fr = fr.
Proof.
  unfold setElemValue. induction fr as [| x t IH]; cbn [map]; [reflexivity |].
  intros Hnot. apply not_elem_of_cons in Hnot as [Hne Hnot].
  destruct (Nat.eqb_spec (fst x) id) as [Heq | _]; [congruence |].
  now rewrite IH.
Qed.

(** The section header is in the last element of the list: an empty
    marker goes after it, the section ends there, and the line goes
    between the two. *)
Lemma newItem_marker (isec : option IniSection) (key value k ss hdr : bytes)
    (h : nat) fr1 ie1 :
  IniQKey isec key = inr k ->
  fragments ie1 = fr1 ++ [(h, hdr)] -> uniqueIds ie1 ->
  exists ie',
    (e2 <- (e0 <- InsertAfter [] (Some h) ;;
            modifyE (fun ie => set_secEnd (<[ss := e0]> (secEnd ie)) ie)
            >> retE e0) ;;
     e0 <- InsertBefore (iniLine key value) e2 ;;
     k <- liftE (IniQKey isec key) ;;
     modifyE (fun ie => set_values (<[k := lookupValues k ie ++ [e0]]> (values ie)) ie)
     >> retE e0) ie1 = Done (Some (S (nextElem ie1))) ie'
    /\ fragments ie'
       = fr1 ++ [(h, hdr); (S (nextElem ie1), iniLine key value); (nextElem ie1, [])]
    /\ secEnd ie' = <[ss := Some (nextElem ie1)]> (secEnd ie1)
    /\ values ie' = <[k := lookupValues k ie1 ++ [Some (S (nextElem ie1))]]> (values ie1).
Proof.
  intros Hq Hfr Hu. pose proof (uniqueIds_fresh ie1 Hu) as Hfresh.
  destruct Hu as [Hnd _]. rewrite Hfr in Hnd, Hfresh.
  rewrite map_app in Hnd. apply NoDup_app in Hnd as (_ & Hsep & _).
  assert (Hh : h ∉ map fst fr1).
  { intros Hin. apply (Hsep h Hin). cbn. apply list_elem_of_here. }
  assert (Hin1 : inList h (fragments ie1) = true).
  { apply inList_elem_of. rewrite Hfr, map_app, elem_of_app. right. cbn.
    apply list_elem_of_here. }
  unfold bindE at 1. unfold bindE at 1. unfold InsertAfter. rewrite Hin1.
  unfold bindE at 1, modifyE at 1, retE at 1.
  rewrite Hfr, insertAfter_split by exact Hh.
  unfold bindE at 1, InsertBefore.
  cbn [fragments nextElem secEnd values lastSec set_secEnd set_nextElem set_fragments].
  assert (Hin2 : inList (nextElem ie1)
                   (fr1 ++ [(h, hdr); (nextElem ie1, [])]) = true).
  { apply inList_elem_of. rewrite map_app, elem_of_app. right. cbn.
    apply list_elem_of_further, list_elem_of_here. }
  rewrite Hin2.
  replace (fr1 ++ [(h, hdr); (nextElem ie1, [])])
    with ((fr1 ++ [(h, hdr)]) ++ (nextElem ie1, []) :: [])
    by (now rewrite <- app_assoc).
  rewrite insertBefore_split by exact Hfresh.
  unfold bindE at 1, liftE. rewrite Hq. unfold retE, bindE, modifyE.
  eexists. split; [reflexivity |].
  cbn [fragments nextElem secEnd values lastSec set_values set_secEnd set_nextElem
       set_fragments].
  split; [now rewrite <- app_assoc |]. split; reflexivity.
Qed.

(** The header goes in the last element when it is empty, else in a new
    last element; the line and the marker follow it. *)
Lemma newItem_new_section (isec : option IniSection) (key value k ss : bytes) ie :
  uniqueIds ie -> IniSection_String isec = inr ss -> IniQKey isec key = inr k ->
  secEnd ie !! ss = None ->
  exists h e m pre ie',
    IniEditor_newItem isec key value ie = Done (Some e) ie'
    /\ fragments ie' = pre ++ [(h, ss ++ [x0a]); (e, iniLine key value); (m, [])]
    /\ (pre = fragments ie \/ fragments ie = pre ++ [(h, [])])
    /\ secEnd ie' = <[ss := Some m]> (secEnd ie)
    /\ values ie' = <[k := lookupValues k ie ++ [Some e]]> (values ie).
Proof.
  intros Hu Hss Hq Hend.
  unfold IniEditor_newItem, bindE at 1, liftE. rewrite Hss. unfold retE at 1.
  unfold bindE at 1, getsE. rewrite Hend.
  rewrite bindE_assoc_eq. unfold bindE at 1. cbn beta iota.
  rewrite bindE_assoc_eq.
  assert (Hpush :
            exists h e m pre ie',
              (e1 <- PushBack (ss ++ [x0a]) ;;
               e2 <- (e0 <- InsertAfter [] e1 ;;
                      modifyE (fun ie => set_secEnd (<[ss := e0]> (secEnd ie)) ie)
                      >> retE e0) ;;
               e0 <- InsertBefore (iniLine key value) e2 ;;
               k <- liftE (IniQKey isec key) ;;
               modifyE (fun ie => set_values (<[k := lookupValues k ie ++ [e0]]> (values ie)) ie)
               >> retE e0) ie = Done (Some e) ie'
              /\ fragments ie' = pre ++ [(h, ss ++ [x0a]); (e, iniLine key value); (m, [])]
              /\ (pre = fragments ie \/ fragments ie = pre ++ [(h, [])])
              /\ secEnd ie' = <[ss := Some m]> (secEnd ie)
              /\ values ie' = <[k := lookupValues k ie ++ [Some e]]> (values ie)).
  { pose proof (keepsIds_PushBack (ss ++ [x0a]) ie Hu) as Hu1.
    unfold bindE at 1. unfold PushBack in *.
    destruct (newItem_marker isec key value k ss (ss ++ [x0a]) (nextElem ie) (fragments ie)
                (set_nextElem (S (nextElem ie))
                   (set_fragments (fragments ie ++ [(nextElem ie, ss ++ [x0a])]) ie))
                Hq eq_refl Hu1) as (ie' & Hrun & Hfr & Hse & Hval).
    cbn [fragments nextElem secEnd values lastSec set_nextElem set_fragments] in *.
    exists (nextElem ie), (S (S (nextElem ie))), (S (nextElem ie)), (fragments ie), ie'.
    split; [exact Hrun |]. split; [exact Hfr |]. split; [now left |].
    split; [exact Hse | exact Hval]. }
  destruct (Back ie) as [[id v] |] eqn:Hback; [destruct v as [| b v] |];
    try exact Hpush.
  clear Hpush.
  rewrite bindE_assoc_eq. unfold bindE at 1, modifyE at 1.
  unfold bindE at 1, retE at 1.
  unfold Back in Hback. apply last_Some in Hback as [init Hfr0].
  assert (Hid : id ∉ map fst init).
  { destruct Hu as [Hnd _]. rewrite Hfr0, map_app in Hnd.
    apply NoDup_app in Hnd as (_ & Hsep & _).
    intros Hin. apply (Hsep id Hin). cbn. apply list_elem_of_here. }
  assert (Hfr1 : setElemValue id (ss ++ [x0a]) (fragments ie) = init ++ [(id, ss ++ [x0a])]).
  { rewrite Hfr0. unfold setElemValue. rewrite map_app.
    fold (setElemValue id (ss ++ [x0a]) init). rewrite setElemValue_notin by exact Hid.
    cbn [map fst]. now rewrite Nat.eqb_refl. }
  assert (Hu1 : uniqueIds (set_fragments (setElemValue id (ss ++ [x0a]) (fragments ie)) ie)).
  { destruct Hu as [Hnd Hlt]. unfold uniqueIds. cbn [fragments nextElem set_fragments].
    rewrite setElemValue_ids. split; [exact Hnd |].
    apply Forall_forall. intros x Hx.
    assert (Hi : fst x ∈ map fst (fragments ie))
      by (rewrite <- (setElemValue_ids id (ss ++ [x0a])); apply list_elem_of_fmap; eauto).
    apply list_elem_of_fmap in Hi as (y & -> & Hy).
    now apply (proj1 (Forall_forall _ _) Hlt). }
  destruct (newItem_marker isec key value k ss (ss ++ [x0a]) id init
              (set_fragments (setElemValue id (ss ++ [x0a]) (fragments ie)) ie)
              Hq Hfr1 Hu1) as (ie' & Hrun & Hfr & Hse & Hval).
  cbn [fragments nextElem secEnd values lastSec set_nextElem set_fragments] in *.
  exists id, (S (nextElem ie)), (nextElem ie), init, ie'.
  split; [exact Hrun |]. split; [exact Hfr |]. split; [now right |].
  split; [exact Hse | exact Hval].
Qed.

(** X10: [Set] and [Add] on a key of a section whose end the editor
    does not know both reach the same editor.  Its list ends with three
    elements: the section header, in the last element of the old list
    when that was empty and else in a new one; the new line; and an empty
    element, where the new section ends.  The elements are distinct, and
    the only realization of the key is the element that holds the line.
    So the document is the old one followed by the header and the
    line. *)
Theorem X10_new_section (isec : option IniSection) (key value k ss : bytes)
    (ie : IniEditor) :
  uniqueIds ie -> IniSection_String isec = inr ss -> IniQKey isec key = inr k ->
  values ie !! k = None -> secEnd ie !! ss = None ->
  exists h e m pre ie',
    IniEditor_Set isec key value ie = Done tt ie'
    /\ IniEditor_Add isec key value ie = Done tt ie'
    /\ fragments ie' = pre ++ [(h, ss ++ [x0a]); (e, iniLine key value); (m, [])]
    /\ (pre = fragments ie \/ fragments ie = pre ++ [(h, [])])
    /\ NoDup (map fst (fragments ie'))
    /\ IniEditor_String ie' = IniEditor_String ie ++ ss ++ [x0a] ++ iniLine key value
    /\ last (fragments ie') = Some (m, [])
    /\ secEnd ie' = <[ss := Some m]> (secEnd ie)
    /\ values ie' = <[k := [Some e]]> (values ie).
Proof.
  intros Hu Hss Hq Hk Hend.
  destruct (newItem_new_section isec key value k ss ie Hu Hss Hq Hend)
    as (h & e & m & pre & ie' & Hnew & Hfr & Hpre & Hse & Hval).
  rewrite (lookupValues_None _ _ Hk) in Hval. cbn [app] in Hval.
  pose proof (keepsIds_newItem isec key value ie Hu) as Hu'. rewrite Hnew in Hu'.
  exists h, e, m, pre, ie'.
  split; [| split]; [| | split; [exact Hfr |]; split; [exact Hpre |];
                         split; [apply Hu' |]; split; [| split; [| now split]]].
  - unfold IniEditor_Set, bindE at 1, liftE. rewrite Hq. unfold retE at 1.
    unfold bindE at 1, getsE. rewrite (lookupValues_None _ _ Hk). cbn [last].
    unfold bindE. rewrite Hnew. reflexivity.
  - unfold IniEditor_Add, bindE at 1, liftE. rewrite Hq. unfold retE at 1.
    unfold bindE at 1, getsE. rewrite (lookupValues_None _ _ Hk). cbn [last].
    unfold bindE. rewrite Hnew. reflexivity.
  - rewrite !IniEditor_String_fragments. unfold fragmentBytes. rewrite Hfr.
    rewrite map_app, concat_app. cbn [map concat snd]. rewrite !app_nil_r.
    destruct Hpre as [-> | ->]; [now rewrite <- app_assoc |].
    rewrite map_app, concat_app. cbn [map concat snd].
    now rewrite !app_nil_r, <- app_assoc.
  - rewrite Hfr.
    replace (pre ++ [(h, ss ++ [x0a]); (e, iniLine key value); (m, [])])
      with ((pre ++ [(h, ss ++ [x0a]); (e, iniLine key value)]) ++ [(m, [])])
      by (now rewrite <- app_assoc).
    apply last_snoc.
Qed.

End NewSection.

Lemma X10_witness :
  exists h e m pre ie',
    IniEditor_Set (Some (mkIniSection (lit "net") None)) (lit "bar") (lit "1")
                  example6_editor = Done tt ie'
    /\ IniEditor_Add (Some (mkIniSection (lit "net") None)) (lit "bar") (lit "1")
                     example6_editor = Done tt ie'
    /\ fragments ie'
       = pre ++ [(h, lit "[net]" ++ [x0a]); (e, iniLine (lit "bar") (lit "1")); (m, [])]
    /\ (pre = fragments example6_editor \/ fragments example6_editor = pre ++ [(h, [])])
    /\ NoDup (map fst (fragments ie'))
    /\ IniEditor_String ie'
       = IniEditor_String example6_editor ++ lit "[net]" ++ [x0a]
           ++ iniLine (lit "bar") (lit "1")
    /\ last (fragments ie') = Some (m, [])
    /\ secEnd ie' = <[lit "[net]" := Some m]> (secEnd example6_editor)
    /\ values ie' = <[lit "net.bar" := [Some e]]> (values example6_editor).
Proof.
  apply (X10_new_section (Some (mkIniSection (lit "net") None)) (lit "bar") (lit "1")
           (lit "net.bar") (lit "[net]") example6_editor).
  - split; [apply (bool_decide_unpack _); vm_compute; exact I |].
    apply (bool_decide_unpack _); vm_compute; exact I.
  - vm_compute; reflexivity.
  - vm_compute; reflexivity.
  - vm_compute; reflexivity.
  - vm_compute; reflexivity.
Defined.

(** ** Reading a section header back *)

Section HeaderRoundTrip.
Context {T : Type} `{IniSink T}.
Implicit Types l : iniParse T.
Local Open Scope nat_scope.

Lemma atText_skip l (a b : bytes) :
  atText l (a ++ b) ->
  atText (skip (length a) l) b
  /\ index (pos (skip (length a) l)) = index (pos l) + length a.
Proof.
  intros Hd. pose proof (atText_remaining _ _ Hd) as Hrem. rewrite length_app in Hrem.
  assert (Hidx : index (pos (skip (length a) l)) = index (pos l) + length a).
  { rewrite index_skip. lia. }
  split; [| exact Hidx].
  unfold atText in *. rewrite Hidx. rewrite input_skip.
  rewrite <- (drop_drop (input l) (length a) (index (pos l))).
  now rewrite Hd, drop_app_length.
Qed.

(** [match] succeeds exactly on a prefix of the rest of the input, and
    then skips it; else it leaves the cursor where it is. *)
Lemma match_prefix l (text t : bytes) :
  atText l (text ++ t) -> match_ text l = (true, skip (length text) l).
Proof.
  intros Hd. unfold match_. rewrite (atText_remaining _ _ Hd), length_app.
  destruct (Nat.leb_spec (length text) (length text + length t)); [| lia].
  unfold atText in Hd. rewrite Hd, take_app_length. unfold bytes_eqb.
  now rewrite bool_decide_eq_true_2.
Qed.

Lemma match_other l (b c : byte) (t : bytes) :
  atText l (b :: t) -> b <> c -> match_ [c] l = (false, l).
Proof.
  intros Hd Hne. unfold match_, atText in *. rewrite Hd. cbn [length take].
  unfold bytes_eqb. rewrite bool_decide_eq_false_2 by congruence.
  now rewrite andb_false_r.
Qed.

Lemma span_prefix (fn : Z -> bool) (a : bytes) (c : byte) (t : bytes) :
  Forall (fun b => fn (rune_of_byte b) = true) a -> fn (rune_of_byte c) = false ->
  span fn (a ++ c :: t) = length a.
Proof.
  intros Ha Hc. induction Ha as [| b a' Hb _ IH]; cbn [app span length].
  - now rewrite Hc.
  - now rewrite Hb, IH.
Qed.

Lemma skipWhile_prefix (fn : Z -> bool) l (a : bytes) (c : byte) (t : bytes) :
  a <> [] -> Forall (fun b => fn (rune_of_byte b) = true) a ->
  fn (rune_of_byte c) = false -> atText l (a ++ c :: t) ->
  skipWhile fn l = (true, skip (length a) l).
Proof.
  intros Hne Ha Hc Hd. unfold skipWhile. unfold atText in Hd.
  rewrite Hd, (span_prefix fn a c t Ha Hc).
  destruct a; [contradiction | reflexivity].
Qed.

Lemma getKey_prefix l (a : bytes) (c : byte) (t : bytes) :
  a <> [] -> Forall (fun b => isKeyChar (rune_of_byte b) = true) a ->
  isKeyChar (rune_of_byte c) = false -> atText l (a ++ c :: t) ->
  getKey l = (a, skip (length a) l).
Proof.
  intros Hne Ha Hc Hd. unfold getKey, takeWhile.
  rewrite (skipWhile_prefix _ _ _ _ _ Hne Ha Hc Hd). cbn [snd].
  destruct (atText_skip l a (c :: t) Hd) as [_ ->].
  unfold atText in Hd. rewrite Hd.
  replace (index (pos l) + length a - index (pos l)) with (length a) by lia.
  now rewrite take_app_length.
Qed.

(** The loop of [getSubsection] over an escaped subsection that a quote
    and at least one more byte follow stops on the quote, with the
    subsection. *)
Lemma subsectionLoop_escaped (sub : bytes) :
  forall (e pre ret tail : bytes) (b0 : byte) (fuel : nat),
    escapeSubsection sub = Some e ->
    length e < fuel ->
    subsectionLoop fuel (pre ++ e ++ x22 :: b0 :: tail) (length pre) ret
    = SubExit (length pre + length e) (ret ++ sub).
Proof.
  induction sub as [| b t IH]; intros e pre ret tail b0 fuel; cbn [escapeSubsection].
  - intros [= <-] Hfuel. destruct fuel as [| fuel]; [cbn in Hfuel; lia |].
    cbn [subsectionLoop app length].
    rewrite length_app. cbn [length].
    destruct (Nat.ltb_spec (length pre + 1) (length pre + S (S (length tail)))); [| lia].
    rewrite lookup_app_r, Nat.sub_diag by lia. cbn [lookup list_lookup].
    replace (rune_of_byte x22) with 34%Z by reflexivity. cbn [Z.eqb Pos.eqb].
    now rewrite Nat.add_0_r, app_nil_r.
  - destruct (Z.eqb_spec (rune_of_byte b) 10) as [| Hnl]; cbn [orb]; [discriminate |].
    destruct (Z.eqb_spec (rune_of_byte b) 0) as [| Hnul]; [discriminate |].
    destruct (escapeSubsection t) as [r |] eqn:Hr; [| discriminate].
    destruct ((rune_of_byte b =? 92)%Z || (rune_of_byte b =? 34)%Z) eqn:Hesc;
      intros [= <-] Hfuel; (destruct fuel as [| fuel]; [cbn in Hfuel; lia |]).
    + (* a backslash and the byte *)
      assert (Hlen : length pre + 1
                     < length (pre ++ (x5c :: b :: r) ++ x22 :: b0 :: tail))
        by (rewrite !length_app; cbn [length]; lia).
      assert (H0 : (pre ++ (x5c :: b :: r) ++ x22 :: b0 :: tail) !! length pre = Some x5c)
        by (rewrite lookup_app_r, Nat.sub_diag by lia; reflexivity).
      assert (H1 : (pre ++ (x5c :: b :: r) ++ x22 :: b0 :: tail) !! (length pre + 1)
                   = Some b).
      { rewrite lookup_app_r by lia.
        replace (length pre + 1 - length pre) with 1 by lia. reflexivity. }
      cbn [subsectionLoop]. rewrite H0, H1.
      destruct (Nat.ltb_spec (length pre + 1)
                  (length (pre ++ (x5c :: b :: r) ++ x22 :: b0 :: tail))); [| lia].
      replace (rune_of_byte x5c) with 92%Z by reflexivity. cbn [Z.eqb Pos.eqb orb].
      rewrite Hesc.
      specialize (IH r (pre ++ [x5c; b]) (ret ++ [b]) tail b0 fuel eq_refl
                     ltac:(cbn [length] in Hfuel; lia)).
      rewrite length_app in IH. cbn [length] in IH.
      rewrite <- !app_assoc in IH. cbn [app] in IH. cbn [app].
      rewrite IH. cbn [length]. f_equal. lia.
    + (* the byte as it is *)
      apply orb_false_iff in Hesc as [Hbs Hq].
      assert (Hlen : length pre + 1 < length (pre ++ (b :: r) ++ x22 :: b0 :: tail))
        by (rewrite !length_app; cbn [length]; lia).
      assert (H0 : (pre ++ (b :: r) ++ x22 :: b0 :: tail) !! length pre = Some b)
        by (rewrite lookup_app_r, Nat.sub_diag by lia; reflexivity).
      cbn [subsectionLoop]. rewrite H0.
      destruct (Nat.ltb_spec (length pre + 1)
                  (length (pre ++ (b :: r) ++ x22 :: b0 :: tail))); [| lia].
      rewrite Hq, Hbs.
      destruct (Z.eqb_spec (rune_of_byte b) 0); [contradiction |].
      destruct (Z.eqb_spec (rune_of_byte b) 10); [contradiction |]. cbn [orb].
      specialize (IH r (pre ++ [b]) (ret ++ [b]) tail b0 fuel eq_refl
                     ltac:(cbn [length] in Hfuel; lia)).
      rewrite length_app in IH. cbn [length] in IH.
      rewrite <- !app_assoc in IH. cbn [app] in IH. cbn [app].
      rewrite IH. cbn [length]. f_equal. lia.
Qed.

Lemma getSubsection_escaped l (sub e tail : bytes) (b0 : byte) :
  escapeSubsection sub = Some e ->
  atText l (x22 :: e ++ x22 :: b0 :: tail) ->
  getSubsection l = Ok (Some sub) (skip (length e + 2) l).
Proof.
  intros He Hd. unfold getSubsection.
  rewrite (atText_remaining _ _ Hd), (atText_peek _ _ _ Hd).
  cbn [length]. rewrite length_app. cbn [length].
  destruct (Nat.ltb_spec (S (length e + S (S (length tail)))) 2); [lia |].
  replace (rune_of_byte x22) with 34%Z by reflexivity. cbn [Z.eqb Pos.eqb orb negb].
  assert (Hinp : input l
                 = (take (index (pos l)) (input l) ++ [x22]) ++ e ++ x22 :: b0 :: tail).
  { rewrite <- (take_drop (index (pos l)) (input l)) at 1.
    unfold atText in Hd. rewrite Hd. now rewrite <- app_assoc. }
  assert (Hidx : index (pos l) < length (input l)).
  { pose proof (atText_remaining _ _ Hd) as Hrem. unfold remaining in Hrem.
    cbn [length] in Hrem. lia. }
  assert (Hpre : length (take (index (pos l)) (input l) ++ [x22]) = index (pos l) + 1).
  { rewrite length_app, length_take. cbn [length]. lia. }
  pose proof (subsectionLoop_escaped sub e (take (index (pos l)) (input l) ++ [x22]) []
                tail b0 (length (input l)) He) as Hloop.
  rewrite <- Hinp, Hpre in Hloop.
  rewrite Hloop.
  2:{ rewrite Hinp, !length_app. cbn [length]. lia. }
  assert (Hq : input l !! (index (pos l) + 1 + length e) = Some x22).
  { rewrite Hinp at 1. rewrite lookup_app_r by lia. rewrite Hpre.
    replace (index (pos l) + 1 + length e - (index (pos l) + 1)) with (length e) by lia.
    rewrite lookup_app_r by lia. now rewrite Nat.sub_diag. }
  rewrite Hq. replace (rune_of_byte x22) with 34%Z by reflexivity.
  cbn [Z.eqb Pos.eqb negb app]. do 2 f_equal. lia.
Qed.

Lemma not_keychar_rbrack : isKeyChar (rune_of_byte x5d) = false.
Proof. reflexivity. Qed.

Lemma not_keychar_space : isKeyChar (rune_of_byte x20) = false.
Proof. reflexivity. Qed.

(** X11: [getSection] reads back the header that [IniSection.String]
    writes for a valid section, whatever follows it: it returns that
    section and leaves the cursor right after the closing bracket. *)
Theorem X11_section_header_round_trip (s : IniSection) (str : bytes) l (rest : bytes) :
  IniSection_Valid (Some s) = true ->
  IniSection_String (Some s) = inr str ->
  atText l (str ++ rest) ->
  exists l',
    getSection l = Ok (Some s) l'
    /\ atText l' rest
    /\ index (pos l') = index (pos l) + length str.
Proof.
  destruct s as [name osub]. cbn [IniSection_Valid IniSection_String Section_ Subsection].
  destruct (ValidIniSection name) eqn:Hname; cbn [negb]; [| discriminate].
  apply ValidIniSection_Forall in Hname as [Hne Hchars].
  intros Hsub Hstr Hd. unfold getSection.
  change (lit "[") with [x5b] in *. change (lit " ") with [x20] in *.
  change (lit "]") with [x5d] in *.
  assert (Hlen0 : (length name =? 0) = false)
    by (destruct name; [contradiction | reflexivity]).
  destruct osub as [sub |].
  - (* with a subsection *)
    destruct (escapeSubsection sub) as [e |] eqn:He; [| discriminate].
    injection Hstr as <-.
    assert (Hd0 : atText l ([x5b] ++ name ++ x20 :: x22 :: e ++ x22 :: x5d :: rest)).
    { unfold atText in *. rewrite Hd. cbn [app]. rewrite <- !app_assoc. cbn [app].
      rewrite <- !app_assoc. reflexivity. }
    rewrite bindP_state, (match_prefix _ _ _ Hd0). cbn [fst snd negb].
    destruct (atText_skip _ _ _ Hd0) as [Hd1 Hx1].
    rewrite bindP_state, (getKey_prefix _ _ _ _ Hne Hchars not_keychar_space Hd1).
    cbn [fst snd].
    destruct (atText_skip _ _ _ Hd1) as [Hd2 Hx2].
    rewrite Hlen0. cbn [when]. rewrite bindP_ret, bindP_state.
    rewrite (match_other _ x20 x5d _ Hd2) by discriminate. cbn [fst snd].
    rewrite bindP_state. unfold skipWS.
    rewrite (skipWhile_prefix isWS _ [x20] x22 _ ltac:(discriminate)
               ltac:(repeat constructor) eq_refl Hd2).
    cbn [fst snd negb when]. rewrite bindP_ret.
    destruct (atText_skip _ [x20] _ Hd2) as [Hd3 Hx3].
    unfold bindP at 1. rewrite (getSubsection_escaped _ sub e rest x5d He Hd3).
    rewrite bool_decide_eq_false_2 by discriminate. cbn [when].
    rewrite bindP_ret, bindP_state.
    assert (Hd4 : atText (skip (length e + 2)
                            (skip (length [x20]) (skip (length name)
                               (skip (length [x5b]) l)))) (x5d :: rest)).
    { destruct (atText_skip (skip (length [x20]) (skip (length name)
                               (skip (length [x5b]) l)))
                  (x22 :: e ++ [x22]) (x5d :: rest)) as [Hd4 _].
      - rewrite <- app_comm_cons, <- app_assoc. exact Hd3.
      - rewrite length_cons, length_app in Hd4. cbn [length] in Hd4.
        now replace (S (length e + 1)) with (length e + 2) in Hd4 by lia. }
    assert (Hx4 : index (pos (skip (length e + 2)
                            (skip (length [x20]) (skip (length name)
                               (skip (length [x5b]) l)))))
                  = index (pos (skip (length [x20]) (skip (length name)
                                  (skip (length [x5b]) l)))) + (length e + 2)).
    { rewrite index_skip, (atText_remaining _ _ Hd3). cbn [length].
      rewrite length_app. cbn [length]. lia. }
    rewrite (match_prefix _ [x5d] rest Hd4). cbn [fst snd negb when].
    rewrite bindP_ret. unfold retP.
    destruct (atText_skip _ [x5d] rest Hd4) as [Hd5 Hx5].
    eexists. split; [reflexivity |]. split; [exact Hd5 |].
    rewrite Hx5, Hx4, Hx3, Hx2, Hx1. cbn [length app]. rewrite !length_app.
    cbn [length]. rewrite !length_app. cbn [length]. lia.
  - (* without *)
    injection Hstr as <-.
    assert (Hd0 : atText l ([x5b] ++ name ++ x5d :: rest)).
    { unfold atText in *. rewrite Hd. cbn [app]. now rewrite <- !app_assoc. }
    rewrite bindP_state, (match_prefix _ _ _ Hd0). cbn [fst snd negb].
    destruct (atText_skip _ _ _ Hd0) as [Hd1 Hx1].
    rewrite bindP_state, (getKey_prefix _ _ _ _ Hne Hchars not_keychar_rbrack Hd1).
    cbn [fst snd].
    destruct (atText_skip _ _ _ Hd1) as [Hd2 Hx2].
    rewrite Hlen0. cbn [when]. rewrite bindP_ret, bindP_state.
    rewrite (match_prefix _ [x5d] rest Hd2). cbn [fst snd]. unfold retP.
    destruct (atText_skip _ [x5d] rest Hd2) as [Hd3 Hx3].
    eexists. split; [reflexivity |]. split; [exact Hd3 |].
    rewrite Hx3, Hx2, Hx1. cbn [length app]. rewrite !length_app. cbn [length]. lia.
Qed.

End HeaderRoundTrip.

Lemma X11_witness :
  exists l',
    getSection (newParser emptyEditor (lit "f.ini")
                  ((lit "[a " ++ [x22] ++ lit "b" ++ [x5c; x22] ++ lit "c" ++ [x22] ++ lit "]")
                     ++ [x0a]))
    = Ok (Some (mkIniSection (lit "a") (Some (lit "b" ++ [x22] ++ lit "c")))) l'
    /\ atText l' [x0a]
    /\ (index (pos l')
        = index (pos (newParser emptyEditor (lit "f.ini")
                        ((lit "[a " ++ [x22] ++ lit "b" ++ [x5c; x22] ++ lit "c" ++ [x22]
                            ++ lit "]") ++ [x0a])))
          + length (lit "[a " ++ [x22] ++ lit "b" ++ [x5c; x22] ++ lit "c" ++ [x22]
                      ++ lit "]"))%nat.
Proof.
  apply (X11_section_header_round_trip
           (mkIniSection (lit "a") (Some (lit "b" ++ [x22] ++ lit "c")))).
  - reflexivity.
  - reflexivity.
  - reflexivity.
Defined.

(** ** Qualified keys *)

Section QualifiedKeys.
Local Open Scope nat_scope.

Lemma keychars_dotfree (a : bytes) :
  Forall (fun b => isKeyChar (rune_of_byte b) = true) a -> Forall (fun b => b <> x2e) a.
Proof.
  intros Ha. eapply Forall_impl; [exact Ha |].
  intros b Hb ->. vm_compute in Hb. discriminate.
Qed.

Lemma dotfree_no_dot (a r : bytes) : Forall (fun b => b <> x2e) (a ++ x2e :: r) -> False.
Proof.
  intros Hf. apply Forall_app in Hf as [_ Hf]. inversion Hf as [| ? ? Hne]; subst.
  now apply Hne.
Qed.

Lemma split_first_dot (a a' r r' : bytes) :
  Forall (fun b => b <> x2e) a -> Forall (fun b => b <> x2e) a' ->
  a ++ x2e :: r = a' ++ x2e :: r' -> a = a' /\ r = r'.
Proof.
  intros Ha. revert a'. induction Ha as [| b a Hb _ IH]; intros a' Ha' Heq.
  - destruct Ha' as [| b' a' Hb' _]; cbn [app] in Heq.
    + now injection Heq as ->.
    + injection Heq as <- _. now contradiction Hb'.
  - destruct Ha' as [| b' a' Hb' Ha']; cbn [app] in Heq.
    + injection Heq as -> _. now contradiction Hb.
    + injection Heq as -> Heq. destruct (IH a' Ha' Heq) as [-> ->]. now split.
Qed.

Lemma split_last_dot (r r' k k' : bytes) :
  Forall (fun b => b <> x2e) k -> Forall (fun b => b <> x2e) k' ->
  r ++ x2e :: k = r' ++ x2e :: k' -> r = r' /\ k = k'.
Proof.
  intros Hk Hk' Heq. apply (f_equal (@rev byte)) in Heq.
  rewrite !rev_app_distr in Heq. cbn [rev] in Heq. rewrite <- !app_assoc in Heq.
  cbn [app] in Heq.
  apply split_first_dot in Heq as [Hk1 Hr1]; try now apply Forall_rev.
  apply (f_equal (@rev byte)) in Hk1, Hr1. rewrite !rev_involutive in Hk1, Hr1.
  now split.
Qed.

Lemma IniQKey_inr (s : option IniSection) (key q : bytes) :
  IniQKey s key = inr q ->
  IniSection_Valid s = true /\ ValidIniKey key = true
  /\ q = match s with
         | None => key
         | Some sec =>
           match Subsection sec with
           | None => Section_ sec ++ x2e :: key
           | Some sub => Section_ sec ++ x2e :: sub ++ x2e :: key
           end
         end.
Proof.
  unfold IniQKey. destruct (IniSection_Valid s); cbn [negb].
  - destruct (ValidIniKey key); cbn [negb]; [| discriminate].
    destruct s as [[name [sub |]] |]; cbn [Subsection Section_]; intros [= <-];
      repeat split; change (lit ".") with [x2e]; cbn [app];
      now rewrite <- ?app_assoc.
  - destruct (IniSection_String s); discriminate.
Qed.

(** X12: the qualified key names its section and key: two calls of
    [IniQKey] that return the same string were given the same section,
    subsection and key.  So the entries of the editor's key index do not
    collide. *)
Theorem X12_IniQKey_injective (s1 s2 : option IniSection) (k1 k2 q : bytes) :
  IniQKey s1 k1 = inr q -> IniQKey s2 k2 = inr q -> s1 = s2 /\ k1 = k2.
Proof.
  intros H1 H2.
  apply IniQKey_inr in H1 as (Hv1 & Hk1 & Hq1).
  apply IniQKey_inr in H2 as (Hv2 & Hk2 & Hq2).
  apply ValidIniKey_Forall in Hk1 as [_ Hk1]. apply keychars_dotfree in Hk1.
  apply ValidIniKey_Forall in Hk2 as [_ Hk2]. apply keychars_dotfree in Hk2.
  assert (Hname : forall name sub,
             IniSection_Valid (Some (mkIniSection name sub)) = true ->
             Forall (fun b => b <> x2e) name).
  { intros name sub Hv. cbn in Hv.
    destruct (ValidIniSection name) eqn:Hn; [| discriminate].
    apply ValidIniSection_Forall in Hn as [_ Hn]. now apply keychars_dotfree. }
  rewrite Hq1 in Hq2. clear Hq1.
  destruct s1 as [[n1 [sub1 |]] |], s2 as [[n2 [sub2 |]] |];
    cbn [Subsection Section_] in Hq2;
    try pose proof (Hname _ _ Hv1) as Hn1; try pose proof (Hname _ _ Hv2) as Hn2.
  - apply split_first_dot in Hq2 as [-> Hq2]; try assumption.
    apply split_last_dot in Hq2 as [-> ->]; try assumption. now split.
  - apply split_first_dot in Hq2 as [-> Hq2]; try assumption.
    subst k2. now apply dotfree_no_dot in Hk2.
  - subst k2. rewrite app_comm_cons in Hk2.
    exfalso. apply (dotfree_no_dot n1 (sub1 ++ x2e :: k1)). exact Hk2.
  - apply split_first_dot in Hq2 as [-> Hq2]; try assumption.
    subst k1. now apply dotfree_no_dot in Hk1.
  - apply split_first_dot in Hq2 as [-> ->]; try assumption. now split.
  - subst k2. now apply dotfree_no_dot in Hk2.
  - subst k1. exfalso. apply (dotfree_no_dot n2 (sub2 ++ x2e :: k2)). exact Hk1.
  - subst k1. now apply dotfree_no_dot in Hk1.
  - now split.
Qed.

End QualifiedKeys.

Lemma X12_witness :
  core = Some (mkIniSection (lit "core") None) /\ lit "foo" = lit "foo".
Proof.
  apply (X12_IniQKey_injective core (Some (mkIniSection (lit "core") None))
           (lit "foo") (lit "foo") (lit "core.foo")); reflexivity.
Defined.

(** ** Keys and escaped values *)

Section KeysAndValues.
Local Open Scope nat_scope.

Lemma isAlpha_byte (b : byte) : isAlpha (rune_of_byte b) = asciiLetter b.
Proof. destruct b; reflexivity. Qed.

(** X13: [ValidIniKey s] holds exactly when [s] starts with an ASCII
    letter and all its bytes are ASCII letters, ASCII digits or ['-'];
    in particular the empty string and any string with a byte of a
    multi-byte character are not valid keys. *)
Theorem X13_ValidIniKey_iff (s : bytes) :
  ValidIniKey s = true
  <-> (exists b t, s = b :: t /\ asciiLetter b = true)
      /\ Forall (fun b => asciiLetterDigitHyphen b = true) s.
Proof.
  rewrite ValidIniKey_Forall. split; intros [(b & t & -> & Hb) Hall]; split.
  - exists b, t. split; [reflexivity |]. now rewrite <- isAlpha_byte.
  - eapply Forall_impl; [exact Hall |]. intros x Hx. now rewrite <- isKeyChar_byte.
  - exists b, t. split; [reflexivity |]. now rewrite isAlpha_byte.
  - eapply Forall_impl; [exact Hall |]. intros x Hx. now rewrite isKeyChar_byte.
Qed.

Lemma escapeByte_no_newline (b : byte) :
  Forall (fun x => rune_of_byte x <> 10%Z) (escapeByte b).
Proof.
  destruct (escapeByte_cases b)
    as [[[Hc | Hc] ->] | [(Hc & _ & ->) | [(Hc & _ & ->) | [(Hc & _ & ->) | Hc]]]].
  - repeat constructor; [discriminate | lia].
  - repeat constructor; [discriminate | lia].
  - repeat constructor; discriminate.
  - repeat constructor; discriminate.
  - repeat constructor; discriminate.
  - destruct Hc as (_ & _ & _ & Hnl & _ & ->). repeat constructor. exact Hnl.
Qed.

Lemma escaped_no_newline (val : bytes) :
  Forall (fun x => rune_of_byte x <> 10%Z) (concat (map escapeByte val)).
Proof.
  induction val as [| b t IH]; cbn [map concat]; [constructor |].
  apply Forall_app. split; [apply escapeByte_no_newline | exact IH].
Qed.

(** X14: the escaped form of a value has no newline, whatever the bytes
    of the value; so the line that [Set] and [Add] write for a valid key
    is one line: its only newline is its last byte. *)
Theorem X14_escaped_value_on_one_line :
  (forall val : bytes, Forall (fun x => rune_of_byte x <> 10%Z) (EscapeIniValue val))
  /\ (forall key value : bytes,
         ValidIniKey key = true ->
         exists body,
           iniLine key value = body ++ [x0a]
           /\ Forall (fun x => rune_of_byte x <> 10%Z) body).
Proof.
  assert (Hesc : forall val : bytes,
             Forall (fun x => rune_of_byte x <> 10%Z) (EscapeIniValue val)).
  { intros val. unfold EscapeIniValue. destruct (needQuotes val) eqn:Hq; cbn [negb].
    - apply Forall_app. split; [repeat constructor; discriminate |].
      apply Forall_app. split; [apply escaped_no_newline |].
      repeat constructor; discriminate.
    - eapply Forall_impl; [exact (needQuotes_false val Hq) |].
      intros b (Hr & _). cbn beta zeta in Hr. lia. }
  split; [exact Hesc |].
  intros key value Hkey.
  exists ([x09] ++ key ++ lit " = " ++ EscapeIniValue value). split.
  - unfold iniLine. now rewrite <- !app_assoc.
  - apply Forall_app. split; [repeat constructor; discriminate |].
    apply Forall_app. split.
    + apply ValidIniKey_Forall in Hkey as [_ Hkey].
      eapply Forall_impl; [exact Hkey |].
      intros b Hb Hnl. cbn beta in Hb. rewrite Hnl in Hb. vm_compute in Hb. discriminate.
    + apply Forall_app. split; [repeat constructor; discriminate | apply Hesc].
Qed.

End KeysAndValues.

(** ** A comment after an unquoted value *)

Section CommentInValue.
Context {T : Type} `{IniSink T}.
Implicit Types l : iniParse T.
Local Open Scope nat_scope.

Lemma IndexByte_first (a : bytes) (c : byte) (t : bytes) :
  Forall (fun b => rune_of_byte b <> rune_of_byte c) a ->
  IndexByte (a ++ c :: t) (rune_of_byte c) = Some (length a).
Proof.
  induction 1 as [| b a Hb _ IH]; cbn [app IndexByte length].
  - now rewrite Z.eqb_refl.
  - destruct (Z.eqb_spec (rune_of_byte b) (rune_of_byte c)); [contradiction |].
    now rewrite IH.
Qed.

Lemma skipTo_first l (a : bytes) (c : byte) (t : bytes) :
  Forall (fun b => rune_of_byte b <> rune_of_byte c) a ->
  atText l (a ++ c :: t) ->
  skipTo (rune_of_byte c) l = (true, skip (length a) l).
Proof.
  intros Ha Hd. unfold skipTo. unfold atText in Hd. rewrite Hd.
  now rewrite (IndexByte_first a c t Ha).
Qed.

Lemma step_comment fuel ret l :
  peek l = 35%Z \/ peek l = 59%Z ->
  getValueLoop (S fuel) ret false false l
  = getValueLoop fuel ret false false (skip 1 (snd (skipTo 10 l))).
Proof.
  intros Hp. cbn [getValueLoop]. rewrite bindP_gets.
  destruct Hp as [-> | ->]; cbn; rewrite bindP_state; reflexivity.
Qed.

(** X15: in an unquoted value, a [#] or [;] comment ends at the newline,
    and that newline is skipped with it: [getValue] goes on with the next
    line, and returns the text before the comment followed by the text
    of the next line. *)
Theorem X15_comment_joins_lines l (v1 cmt v2 rest : bytes) (m : byte) :
  Forall plainByte v1 -> Forall plainByte v2 ->
  Forall (fun b => rune_of_byte b <> 10%Z) cmt ->
  m = x23 \/ m = x3b ->
  atText l (v1 ++ m :: cmt ++ x0a :: v2 ++ x0a :: rest) ->
  exists l',
    getValue l = Ok (v1 ++ v2) l'
    /\ atText l' rest
    /\ index (pos l')
       = index (pos l) + length (v1 ++ m :: cmt ++ x0a :: v2 ++ [x0a]).
Proof.
  intros Hv1 Hv2 Hcmt Hm Hd. unfold getValue.
  rewrite (atText_remaining _ _ Hd).
  replace (S (length (v1 ++ m :: cmt ++ x0a :: v2 ++ x0a :: rest)))
    with (length v1 + S (length v2 + S (S (S (length cmt + length rest)))))
    by (repeat first [rewrite length_app | progress cbn [length]]; lia).
  destruct (plain_run v1 Hv1 [] _ (S (length v2 + S (S (S (length cmt + length rest))))) l Hd)
    as (l1 & Hd1 & Hi1 & Hx1 & ->).
  cbn [app].
  assert (Hp1 : peek l1 = 35%Z \/ peek l1 = 59%Z).
  { rewrite (atText_peek _ _ _ Hd1). destruct Hm as [-> | ->]; [now left | now right]. }
  rewrite (step_comment _ _ _ Hp1).
  assert (Hto : skipTo 10 l1 = (true, skip (length (m :: cmt)) l1)).
  { apply (skipTo_first l1 (m :: cmt) x0a (v2 ++ x0a :: rest)).
    - constructor; [destruct Hm as [-> | ->]; discriminate | exact Hcmt].
    - exact Hd1. }
  rewrite Hto. cbn [snd].
  destruct (atText_skip l1 (m :: cmt) (x0a :: v2 ++ x0a :: rest) Hd1) as [Hd2 Hx2].
  pose proof (atText_skip1 _ _ _ Hd2) as Hd3.
  pose proof (index_skip1_text _ _ _ Hd2) as Hx3.
  destruct (plain_run v2 Hv2 v1 _ (S (S (S (length cmt + length rest)))) _ Hd3)
    as (l4 & Hd4 & Hi4 & Hx4 & ->).
  rewrite (step_end _ _ _ (or_introl (atText_peek _ _ _ Hd4))).
  eexists. split; [reflexivity |]. split; [exact (atText_skip1 _ _ _ Hd4) |].
  rewrite (index_skip1_text _ _ _ Hd4), Hx4, Hx3, Hx2, Hx1.
  repeat first [rewrite length_app | progress cbn [length]]. lia.
Qed.

End CommentInValue.

Lemma X15_witness :
  exists l',
    getValue (mkParse (mkPos 4 0 4)
                (lit "a = " ++ lit "b " ++ x23 :: lit " note" ++ x0a :: lit "c = d"
                   ++ x0a :: [])
                (lit "f.ini") None 0%nat emptyEditor)
    = Ok (lit "b " ++ lit "c = d") l'
    /\ atText l' []
    /\ (index (pos l')
        = 4 + length (lit "b " ++ x23 :: lit " note" ++ x0a :: lit "c = d" ++ [x0a]))%nat.
Proof.
  apply (X15_comment_joins_lines
           (mkParse (mkPos 4 0 4)
              (lit "a = " ++ lit "b " ++ x23 :: lit " note" ++ x0a :: lit "c = d"
                 ++ x0a :: [])
              (lit "f.ini") None 0%nat emptyEditor)
           (lit "b ") (lit " note") (lit "c = d") [] x23).
  - repeat constructor; cbn; lia.
  - repeat constructor; cbn; lia.
  - repeat constructor; discriminate.
  - now left.
  - reflexivity.
Defined.

(** ** Edit scripts on a parsed document *)

Section ValidBatch.
Local Open Scope nat_scope.
Local Open Scope ed_scope.

Lemma validEdit_returns (f : Ed unit) (t : IniEditor) :
  validEdit f -> wfEditor t -> exists t', f t = Done tt t' /\ wfEditor t'.
Proof.
  intros Hf Hwf. destruct Hf as [isec key Hv Hk | isec key value Hv Hk | isec key value Hv Hk].
  - destruct (IniQKey_valid isec key Hv Hk) as [k Hq].
    exists (afterDel k t). split; [now apply IniEditor_Del_spec |].
    now apply wfEditor_afterDel.
  - destruct (IniEditor_Set_returns isec key value t Hwf Hv Hk) as [t' Hset].
    exists t'. split; [exact Hset |]. exact (IniEditor_Set_wf _ _ _ _ _ Hwf Hset).
  - destruct (IniEditor_Add_returns isec key value t Hwf Hv Hk) as [t' Hadd].
    exists t'. split; [exact Hadd |]. exact (IniEditor_Add_wf _ _ _ _ _ Hwf Hadd).
Qed.

Lemma validEdits_return (fs : list (Ed unit)) :
  Forall validEdit fs ->
  forall t, wfEditor t ->
    exists t', forE fs (fun f => f) t = Done tt t' /\ wfEditor t'.
Proof.
  induction 1 as [| f fs Hf _ IH]; intros t Hwf; cbn [forE].
  - exists t. now split.
  - unfold bindE. destruct (validEdit_returns f t Hf Hwf) as (t1 & -> & Hwf1).
    now apply IH.
Qed.

(** X16: a batch of [Del], [Set] and [Add] operations, each on a valid
    section and a valid key, applies to any editor that satisfies the
    invariant without a panic: the operations run in order, the batch is
    cleared, and the editor still satisfies the invariant. *)
Theorem X16_valid_batch_applies (script : IniEdits) (target : IniEditor) :
  Forall validEdit script -> wfEditor target ->
  exists target',
    IniEdits_Apply script target = ([], Done tt target')
    /\ runsInOrder script target target'
    /\ wfEditor target'.
Proof.
  intros Hs Hwf. destruct (validEdits_return script Hs target Hwf) as (t' & Hrun & Hwf').
  exists t'. split; [| split; [| exact Hwf']].
  - unfold IniEdits_Apply. now rewrite Hrun.
  - now apply runsInOrder_forE.
Qed.

End ValidBatch.

Lemma X16_witness :
  exists target',
    IniEdits_Apply [IniEditor_Set core (lit "bar") (lit "1");
                    IniEditor_Del core (lit "foo");
                    IniEditor_Add (Some (mkIniSection (lit "net") None)) (lit "x") (lit "y")]
                   example6_editor
    = ([], Done tt target')
    /\ runsInOrder [IniEditor_Set core (lit "bar") (lit "1");
                    IniEditor_Del core (lit "foo");
                    IniEditor_Add (Some (mkIniSection (lit "net") None)) (lit "x") (lit "y")]
                   example6_editor target'
    /\ wfEditor target'.
Proof.
  apply X16_valid_batch_applies.
  - repeat constructor.
  - apply (bool_decide_unpack _). vm_compute. exact I.
Defined.

(** ** One statement *)

Section StatementShape.
Context {T : Type} `{IniSink T}.
Implicit Types l : iniParse T.
Local Open Scope nat_scope.


End StatementShape.


(** ** Writing the document *)

Section Writing.
Local Open Scope nat_scope.
Context {W : Type}.
Variable write : bytes -> W -> W * nat * bool.

Lemma WriteToFrom_app (pre post : list (nat * bytes)) (n n1 : nat) (w w1 : W) :
  WriteToFrom write pre n w = (w1, n1, false) ->
  WriteToFrom write (pre ++ post) n w = WriteToFrom write post n1 w1.
Proof.
  revert n w. induction pre as [| e t IH]; intros n w; cbn [WriteToFrom app].
  - now intros [= -> ->].
  - destruct (write (snd e) w) as [[w' k] failed]. destruct failed; [discriminate |].
    apply IH.
Qed.

Lemma WriteToFrom_count (fr : list (nat * bytes)) (n : nat) (w : W) :
  (forall p w0, snd (fst (write p w0)) = length p /\ snd (write p w0) = false) ->
  snd (fst (WriteToFrom write fr n w)) = n + length (concat (map snd fr))
  /\ snd (WriteToFrom write fr n w) = false.
Proof.
  intros Hw. revert n w. induction fr as [| e t IH]; intros n w;
    cbn [WriteToFrom map concat].
  - cbn. split; [lia | reflexivity].
  - destruct (Hw (snd e) w) as [Hk Hf].
    destruct (write (snd e) w) as [[w' k] failed]. cbn [fst snd] in Hk, Hf. subst.
    destruct (IH (n + length (snd e)) w') as [-> ->].
    rewrite length_app. split; [lia | reflexivity].
Qed.

(** X18: [WriteTo] gives the writer the fragments in order, and stops at
    the first [Write] that fails, returning the bytes counted so far, the
    failed write included, and the error; with a writer that takes all
    it is given and never fails, it returns the length of the document
    and no error. *)
Theorem X18_WriteTo (ie : IniEditor) (w : W) :
  (forall pre e post w1 n1 w2 k,
      fragments ie = pre ++ e :: post ->
      WriteToFrom write pre 0 w = (w1, n1, false) ->
      write (snd e) w1 = (w2, k, true) ->
      IniEditor_WriteTo write ie w = (w2, n1 + k, true))
  /\ ((forall p w0, snd (fst (write p w0)) = length p /\ snd (write p w0) = false) ->
      snd (fst (IniEditor_WriteTo write ie w)) = length (IniEditor_String ie)
      /\ snd (IniEditor_WriteTo write ie w) = false).
Proof.
  split.
  - intros pre e post w1 n1 w2 k Hfr Hpre Hfail. unfold IniEditor_WriteTo.
    rewrite Hfr, (WriteToFrom_app pre (e :: post) 0 n1 w w1 Hpre).
    cbn [WriteToFrom]. now rewrite Hfail.
  - intros Hw. unfold IniEditor_WriteTo.
    destruct (WriteToFrom_count (fragments ie) 0 w Hw) as [-> ->].
    now rewrite IniEditor_String_fragments.
Qed.

End Writing.

(** ** The cursor *)

Section Skipping.
Context {T : Type}.
Implicit Types l : iniParse T.
Local Open Scope nat_scope.

Lemma lineCol_lines (bs : bytes) (lc : nat * nat) :
  fst (foldl lineCol lc bs)
  = fst lc + length (filter (fun b => rune_of_byte b = 10%Z) bs).
Proof.
  revert lc. induction bs as [| b t IH]; intros lc; cbn [foldl]; [cbn; lia |].
  rewrite IH, filter_cons. unfold lineCol.
  destruct (Z.eqb_spec (rune_of_byte b) 10) as [Hnl | Hnl].
  - rewrite decide_True by exact Hnl. cbn [fst length]. lia.
  - rewrite decide_False by exact Hnl. destruct (_ =? _)%Z; cbn [fst]; lia.
Qed.

Lemma skip_eq (k : nat) l :
  skip k l
  = set_pos (mkPos (index (pos l) + Nat.min k (remaining l))
               (fst (foldl lineCol (lineno (pos l), colno (pos l))
                       (take k (drop (index (pos l)) (input l)))))
               (snd (foldl lineCol (lineno (pos l), colno (pos l))
                       (take k (drop (index (pos l)) (input l)))))) l.
Proof.
  unfold skip. destruct (Nat.ltb_spec (remaining l) k) as [Hlt | Hge].
  - replace (Nat.min k (remaining l)) with (remaining l) by lia.
    unfold remaining in *.
    rewrite (take_ge (drop _ _) k) by (rewrite length_drop; lia).
    rewrite (take_ge (drop _ _) (length (input l) - index (pos l)))
      by (rewrite length_drop; lia).
    reflexivity.
  - replace (Nat.min k (remaining l)) with k by lia. reflexivity.
Qed.

Lemma skip_skip (n m : nat) l : skip m (skip n l) = skip (n + m) l.
Proof.
  rewrite (skip_eq m (skip n l)), (skip_eq (n + m) l).
  assert (Hrem : remaining (skip n l) = remaining l - Nat.min n (remaining l)).
  { unfold remaining at 1. rewrite index_skip. unfold skip. cbn [input set_pos].
    unfold remaining. lia. }
  rewrite Hrem. rewrite (skip_eq n l).
  cbn [pos set_pos input lineno colno index].
  set (s := drop (index (pos l)) (input l)).
  assert (Hdrop : drop (index (pos l) + Nat.min n (remaining l)) (input l)
                  = drop n s).
  { unfold s. rewrite drop_drop.
    destruct (Nat.le_gt_cases n (remaining l)) as [Hle | Hgt].
    - now replace (Nat.min n (remaining l)) with n by lia.
    - replace (Nat.min n (remaining l)) with (remaining l) by lia.
      unfold remaining in *. rewrite !drop_ge; [reflexivity | lia | lia]. }
  rewrite Hdrop.
  assert (Htake : take (n + m) s = take n s ++ take m (drop n s))
    by (now rewrite take_take_drop).
  rewrite Htake, foldl_app, <- surjective_pairing.
  unfold set_pos. cbn [input file sec prevEnd sink]. f_equal. f_equal. lia.
Qed.

Lemma skip_0 l : skip 0 l = l.
Proof.
  rewrite skip_eq. cbn [take foldl fst snd]. rewrite Nat.min_0_l, Nat.add_0_r.
  destruct l as [[i ln cn] inp f sc pe snk]. reflexivity.
Qed.

(** X19: [skip(n)] moves the cursor over the next [n] bytes, or over
    what is left of the input when that is less, and adds to the line
    number the number of newlines among the bytes it moves over; and
    skipping [n] bytes and then [m] is skipping [n + m]. *)
Theorem X19_skip (n m : nat) l :
  index (pos (skip n l)) = index (pos l) + Nat.min n (remaining l)
  /\ lineno (pos (skip n l))
     = lineno (pos l)
       + length (filter (fun b => rune_of_byte b = 10%Z)
                   (take n (drop (index (pos l)) (input l))))
  /\ skip m (skip n l) = skip (n + m) l.
Proof.
  split; [apply index_skip |]. split.
  - rewrite skip_eq. cbn [pos set_pos lineno]. now rewrite lineCol_lines.
  - apply skip_skip.
Qed.

End Skipping.

(** ** What the hooks of the editor record *)

Section HooksRecord.
Local Open Scope nat_scope.
Local Open Scope ed_scope.

(** [appendItem] on a range with a statement: the gap before it, if any,
    and the statement are appended, each as an element of its own; the
    first of them and the statement are returned. *)
Lemma appendItem_statement (r : IniRange) (ie : IniEditor) :
  PrevEndIndex r <= StartIndex r -> StartIndex r < EndIndex r ->
  EndIndex r <= length (Input r) ->
  exists e1 v1 rest e2 ie',
    appendItem r ie = Done (Some e1, Some e2) ie'
    /\ fragments ie' = fragments ie ++ (e1, v1) :: rest
    /\ last (fragments ie')
       = Some (e2, take (EndIndex r - StartIndex r) (drop (StartIndex r) (Input r)))
    /\ fragmentBytes ie'
       = fragmentBytes ie
           ++ take (EndIndex r - PrevEndIndex r) (drop (PrevEndIndex r) (Input r))
    /\ secEnd ie' = secEnd ie /\ values ie' = values ie /\ lastSec ie' = lastSec ie.
Proof.
  intros Hps Hse Hel.
  assert (Hbytes : forall ee ie', appendItem r ie = Done ee ie' ->
             fragmentBytes ie'
             = fragmentBytes ie
                 ++ take (EndIndex r - PrevEndIndex r) (drop (PrevEndIndex r) (Input r))).
  { intros ee ie' Happ. apply appendItem_spec in Happ as (-> & _); [| lia | lia].
    f_equal.
    replace (drop (StartIndex r) (Input r))
      with (drop (StartIndex r - PrevEndIndex r) (drop (PrevEndIndex r) (Input r)))
      by (rewrite drop_drop; f_equal; lia).
    rewrite take_take_drop. f_equal. lia. }
  revert Hbytes. unfold appendItem, slice.
  assert (H1 : (PrevEndIndex r <=? StartIndex r) && (StartIndex r <=? length (Input r)) = true).
  { apply andb_true_iff. split; apply Nat.leb_le; lia. }
  assert (H2 : (StartIndex r <=? EndIndex r) && (EndIndex r <=? length (Input r)) = true).
  { apply andb_true_iff. split; apply Nat.leb_le; lia. }
  rewrite H1, H2. destruct (Nat.ltb_spec (StartIndex r) (EndIndex r)); [| lia].
  unfold bindE, PushBack, retE.
  destruct (Nat.ltb_spec (PrevEndIndex r) (StartIndex r)); intros Hbytes;
    cbn [fragments nextElem secEnd values lastSec set_nextElem set_fragments].
  - do 5 eexists. split; [reflexivity |].
    cbn [fragments nextElem secEnd values lastSec set_nextElem set_fragments].
    split; [now rewrite <- app_assoc |]. split; [apply last_snoc |].
    split; [now apply (Hbytes _ _ eq_refl) |]. now repeat split.
  - do 5 eexists. split; [reflexivity |].
    cbn [fragments nextElem secEnd values lastSec set_nextElem set_fragments].
    split; [reflexivity |]. split; [apply last_snoc |].
    split; [now apply (Hbytes _ _ eq_refl) |]. now repeat split.
Qed.

(** X20: the [Item] hook, given a valid key and the range of a
    statement, appends the bytes from the end of the previous statement
    to the end of this one, the statement as the last element of the
    list, and indexes that element as one more realization of the
    qualified key; it returns no error. *)
Theorem X20_Item_records (ii : IniItem) (ie : IniEditor) (k : bytes) :
  IniItem_QKey ii = inr k ->
  PrevEndIndex (ItemRange ii) <= StartIndex (ItemRange ii) ->
  StartIndex (ItemRange ii) < EndIndex (ItemRange ii) ->
  EndIndex (ItemRange ii) <= length (Input (ItemRange ii)) ->
  exists e ie',
    IniEditor_Item ii ie = Done None ie'
    /\ last (fragments ie')
       = Some (e, take (EndIndex (ItemRange ii) - StartIndex (ItemRange ii))
                       (drop (StartIndex (ItemRange ii)) (Input (ItemRange ii))))
    /\ values ie' = <[k := lookupValues k ie ++ [Some e]]> (values ie)
    /\ IniEditor_String ie'
       = IniEditor_String ie
           ++ take (EndIndex (ItemRange ii) - PrevEndIndex (ItemRange ii))
                   (drop (PrevEndIndex (ItemRange ii)) (Input (ItemRange ii)))
    /\ secEnd ie' = secEnd ie /\ lastSec ie' = lastSec ie.
Proof.
  intros Hq Hps Hse Hel.
  destruct (appendItem_statement (ItemRange ii) ie Hps Hse Hel)
    as (e1 & v1 & rest & e2 & ie1 & Happ & _ & Hlast & Hbytes & Hsec & Hval & Hls).
  unfold IniEditor_Item, bindE at 1, liftE. rewrite Hq. unfold retE at 1.
  unfold bindE at 1. rewrite Happ. unfold bindE, modifyE, retE. cbn [snd].
  exists e2. eexists. split; [reflexivity |].
  cbn [fragments nextElem secEnd values lastSec set_values].
  split; [exact Hlast |]. split.
  - unfold lookupValues. now rewrite Hval.
  - rewrite !IniEditor_String_fragments. unfold fragmentBytes at 1.
    cbn [fragments set_values]. fold (fragmentBytes ie1). now repeat split.
Qed.

(** X21: the [Section] hook, given the range of a header, appends the
    bytes from the end of the previous statement to the end of the header
    and records the first element it appended, the gap before the header
    if there is one, as the end of the section that was current; the
    section of the header becomes the current one.  The [Done] hook does
    the same with what is left of the input after the last statement, and
    with an empty element when nothing is left; no section is current
    after it. *)
Theorem X21_Section_and_Done_record :
  (forall (ss : IniSecStart) (ie : IniEditor) (sig : bytes),
      IniSection_String (lastSec ie) = inr sig ->
      PrevEndIndex (SecRange ss) <= StartIndex (SecRange ss) ->
      StartIndex (SecRange ss) < EndIndex (SecRange ss) ->
      EndIndex (SecRange ss) <= length (Input (SecRange ss)) ->
      exists e v rest ie',
        IniEditor_Section ss ie = Done None ie'
        /\ fragments ie' = fragments ie ++ (e, v) :: rest
        /\ secEnd ie' = <[sig := Some e]> (secEnd ie)
        /\ lastSec ie' = Some (SecSection ss)
        /\ values ie' = values ie
        /\ IniEditor_String ie'
           = IniEditor_String ie
               ++ take (EndIndex (SecRange ss) - PrevEndIndex (SecRange ss))
                       (drop (PrevEndIndex (SecRange ss)) (Input (SecRange ss))))
  /\ (forall (inp : bytes) (prev : nat) (ie : IniEditor) (sig : bytes),
      IniSection_String (lastSec ie) = inr sig ->
      prev <= length inp ->
      exists e v ie',
        IniEditor_Done (mkIniRange (length inp) (length inp) prev inp) ie = Done tt ie'
        /\ fragments ie' = fragments ie ++ [(e, v)]
        /\ v = drop prev inp
        /\ secEnd ie' = <[sig := Some e]> (secEnd ie)
        /\ lastSec ie' = None
        /\ values ie' = values ie).
Proof.
  split.
  - intros ss ie sig Hsig Hps Hse Hel.
    destruct (appendItem_statement (SecRange ss) ie Hps Hse Hel)
      as (e1 & v1 & rest & e2 & ie1 & Happ & Hfr & _ & Hbytes & Hsec & Hval & Hls).
    unfold IniEditor_Section, bindE at 1. rewrite Happ.
    unfold bindE, getsE, liftE, modifyE, retE. rewrite Hls, Hsig. cbn [fst].
    exists e1, v1, rest. eexists. split; [reflexivity |].
    cbn [fragments nextElem secEnd values lastSec set_secEnd set_lastSec].
    split; [exact Hfr |]. split; [now rewrite Hsec |]. split; [reflexivity |].
    split; [exact Hval |].
    rewrite !IniEditor_String_fragments. unfold fragmentBytes at 1.
    cbn [fragments set_secEnd set_lastSec]. exact Hbytes.
  - intros inp prev ie sig Hsig Hprev.
    unfold IniEditor_Done, appendItem, slice.
    cbn [PrevEndIndex StartIndex EndIndex Input].
    rewrite Nat.ltb_irrefl.
    destruct (Nat.ltb_spec prev (length inp)) as [Hlt | Hge].
    + assert (H1 : (prev <=? length inp) && (length inp <=? length inp) = true)
        by (apply andb_true_iff; split; apply Nat.leb_le; lia).
      rewrite H1. unfold bindE, PushBack, retE, getsE, liftE, modifyE.
      cbn [fst fragments nextElem secEnd values lastSec set_nextElem set_fragments].
      rewrite Hsig. do 3 eexists. split; [reflexivity |].
      cbn [fragments nextElem secEnd values lastSec set_nextElem set_fragments
           set_secEnd set_lastSec].
      split; [reflexivity |]. split; [| now repeat split].
      apply take_ge. rewrite length_drop. lia.
    + unfold bindE, PushBack, retE, getsE, liftE, modifyE.
      cbn [fst fragments nextElem secEnd values lastSec set_nextElem set_fragments].
      rewrite Hsig. do 3 eexists. split; [reflexivity |].
      cbn [fragments nextElem secEnd values lastSec set_nextElem set_fragments
           set_secEnd set_lastSec].
      split; [reflexivity |]. split; [| now repeat split].
      symmetry. apply drop_ge. lia.
Qed.

End HooksRecord.

Lemma X20_witness :
  exists e ie',
    IniEditor_Item (mkIniItem core (lit "foo") (Some (lit "1"))
                      (mkIniRange 8 16 7 example6_input)) emptyEditor
    = Done None ie'
    /\ last (fragments ie') = Some (e, take (16 - 8) (drop 8 example6_input))
    /\ values ie' = <[lit "core.foo" := lookupValues (lit "core.foo") emptyEditor ++ [Some e]]>
                      (values emptyEditor)
    /\ IniEditor_String ie'
       = IniEditor_String emptyEditor ++ take (16 - 7) (drop 7 example6_input)
    /\ secEnd ie' = secEnd emptyEditor /\ lastSec ie' = lastSec emptyEditor.
Proof.
  apply (X20_Item_records (mkIniItem core (lit "foo") (Some (lit "1"))
                             (mkIniRange 8 16 7 example6_input)) emptyEditor
           (lit "core.foo")).
  - reflexivity.
  - cbn. lia.
  - cbn. lia.
  - vm_compute. lia.
Defined.

(** ** Reading back the line that [Set] and [Add] write *)

Section LineParsesBack.
Context {T : Type} `{IniSink T}.
Implicit Types l : iniParse T.
Local Open Scope nat_scope.

Lemma EscapeIniValue_head (v t : bytes) :
  exists b tl, EscapeIniValue v ++ x0a :: t = b :: tl /\ isWS (rune_of_byte b) = false.
Proof.
  unfold EscapeIniValue. destruct (needQuotes v) eqn:Hq; cbn [negb].
  - eexists. eexists. split; reflexivity.
  - destruct v as [| b0 v]; [eexists; eexists; split; reflexivity |].
    exists b0. eexists. split; [reflexivity |].
    pose proof (needQuotes_false _ Hq) as Hp.
    inversion Hp as [| ? ? (Hr & _) _]; subst. cbn beta zeta in Hr.
    unfold needQuotes in Hq.
    destruct ((rune_of_byte b0 =? 32)%Z || (rune_of_byte b0 =? 9)%Z) eqn:Hws;
      [discriminate |].
    unfold isWS. rewrite Hws. cbn [orb].
    destruct (Z.eqb_spec (rune_of_byte b0) 13); [lia | reflexivity].
Qed.

Lemma atText_advance l l' (a b : bytes) :
  atText l (a ++ b) -> input l' = input l ->
  index (pos l') = index (pos l) + length a -> atText l' b.
Proof.
  unfold atText. intros Hd Hi Hx. rewrite Hi, Hx, <- drop_drop, Hd.
  apply drop_app_length.
Qed.

Lemma getSection_none l (b : byte) (t : bytes) :
  atText l (b :: t) -> b <> x5b -> getSection l = Ok None l.
Proof.
  intros Hd Hne. unfold getSection. rewrite bindP_state.
  change (lit "[") with [x5b]. now rewrite (match_other l b x5b t Hd Hne).
Qed.

(** X22: the line that [Set] and [Add] write for a valid key reads back
    as that key with that value: a statement read at the start of such a
    line consumes exactly the line and calls [Item] with the key, the
    value and the range of the line, in the current section; it returns
    when the hook reports no error, raises the hook's error, and panics
    only if the hook does. *)
Theorem X22_written_line_parses_back l (key value rest : bytes) :
  ValidIniKey key = true ->
  atText l (iniLine key value ++ rest) ->
  exists l1,
    moved l l1
    /\ index (pos l1) = index (pos l) + length (iniLine key value)
    /\ atText l1 rest
    /\ match sink_Item (mkIniItem (sec l) key (Some value) (stmtRange l l1)) (sink l) with
       | HookOk s' None => do1_body l = Ok tt (afterHook l1 s')
       | HookOk s' (Some err) =>
         exists e, do1_body l = Throw e (afterHook l1 s') /\ Msg e = error_Error err
       | HookPanic p => do1_body l = Crash p
       end.
Proof.
  intros Hkey Hd.
  pose proof Hkey as Hkey'. apply ValidIniKey_Forall in Hkey' as [(b & kt & -> & Ha) Hchars].
  assert (Hb : inBounds l).
  { pose proof (atText_remaining _ _ Hd) as Hrem. unfold iniLine in Hrem.
    unfold remaining, inBounds in *.
    repeat first [rewrite length_app in Hrem | progress cbn [length] in Hrem]. lia. }
  destruct (EscapeIniValue_head value rest) as (h & htl & Hhead & Hhws).
  assert (Hd0 : atText l ([x09] ++ (b :: kt) ++ x20 :: x3d :: x20 :: h :: htl)).
  { unfold atText in *. rewrite Hd. unfold iniLine. rewrite <- Hhead.
    change (lit " = ") with [x20; x3d; x20].
    rewrite <- !app_assoc. reflexivity. }
  assert (Hbws : isWS (rune_of_byte b) = false)
    by (destruct b; try reflexivity; vm_compute in Ha; discriminate).
  assert (Hbbr : b <> x5b) by (intros ->; vm_compute in Ha; discriminate).
  destruct (atText_skip l [x09] _ Hd0) as [Hd1 Hx1].
  set (l1 := skip (length [x09]) l) in *.
  destruct (atText_skip l1 (b :: kt) _ Hd1) as [Hd2 Hx2].
  set (l2 := skip (length (b :: kt)) l1) in *.
  destruct (atText_skip l2 [x20] (x3d :: x20 :: h :: htl) Hd2) as [Hd3 Hx3].
  set (l3 := skip (length [x20]) l2) in *.
  destruct (atText_skip l3 [x3d] (x20 :: h :: htl) Hd3) as [Hd4 Hx4].
  set (l4 := skip (length [x3d]) l3) in *.
  destruct (atText_skip l4 [x20] (h :: htl) Hd4) as [Hd5 Hx5].
  set (l5 := skip (length [x20]) l4) in *.
  rewrite <- Hhead in Hd5.
  destruct (getValue_escaped l5 value (x0a :: rest) Hd5 ltac:(right; eauto))
    as (lf & Hval & Hif & Hxf).
  assert (Hm1 : moved l l1) by (now apply skip_moved).
  assert (Hm2 : moved l1 l2) by (apply skip_moved; exact (moved_inBounds _ _ Hm1)).
  assert (Hm3 : moved l2 l3) by (apply skip_moved; exact (moved_inBounds _ _ Hm2)).
  assert (Hm4 : moved l3 l4) by (apply skip_moved; exact (moved_inBounds _ _ Hm3)).
  assert (Hm5 : moved l4 l5) by (apply skip_moved; exact (moved_inBounds _ _ Hm4)).
  pose proof (cursorOnly_getValue l5 (moved_inBounds _ _ Hm5)) as Hmf.
  rewrite Hval in Hmf. cbn [cursorRes] in Hmf.
  pose proof (moved_trans _ _ _ Hm1 (moved_trans _ _ _ Hm2 (moved_trans _ _ _ Hm3
                (moved_trans _ _ _ Hm4 (moved_trans _ _ _ Hm5 Hmf))))) as Hall.
  assert (Hxall : index (pos lf) = index (pos l) + length (iniLine (b :: kt) value)).
  { rewrite Hxf, Hx5, Hx4, Hx3, Hx2, Hx1. unfold iniLine.
    change (lit " = ") with [x20; x3d; x20].
    repeat first [rewrite length_app | progress cbn [length]]. lia. }
  assert (Hdf : atText lf rest).
  { apply (atText_advance l5 lf (EscapeIniValue value ++ [x0a]) rest).
    - now rewrite <- app_assoc.
    - exact Hif.
    - rewrite Hxf, length_app. cbn [length Nat.min]. lia. }
  exists lf. split; [exact Hall |]. split; [exact Hxall |]. split; [exact Hdf |].
  assert (Hrun : exists kp vp,
             do1_body l
             = (r <- state (getRange (index (pos l))) ;;
                err <- callHook (sink_Item (mkIniItem (sec l) (b :: kt) (Some value) r)) ;;
                match err with
                | Some (BadKey ke) => throwAt kp ke
                | Some e => throwAt vp (error_Error e)
                | None => retP tt
                end)%parser lf).
  { unfold do1_body, skipWS.
    rewrite bindP_gets, bindP_state.
    rewrite (skipWhile_prefix isWS l [x09] b _ ltac:(discriminate)
               ltac:(repeat constructor) Hbws Hd0).
    cbn [fst snd]. fold l1. rewrite bindP_gets. unfold bindP at 1.
    rewrite (getSection_none l1 b _ Hd1 Hbbr).
    rewrite bindP_gets, (atText_peek _ _ _ Hd1), Ha.
    rewrite bindP_state,
      (getKey_prefix l1 (b :: kt) x20 _ ltac:(discriminate) Hchars eq_refl Hd1).
    cbn [fst snd]. fold l2. rewrite bindP_state.
    rewrite (skipWhile_prefix isWS l2 [x20] x3d _ ltac:(discriminate)
               ltac:(repeat constructor) eq_refl Hd2).
    cbn [fst snd]. fold l3. rewrite bindP_state.
    change (lit "=") with [x3d]. rewrite (match_prefix l3 [x3d] _ Hd3).
    cbn [fst snd negb]. fold l4. unfold bindP at 1. rewrite bindP_state.
    rewrite (skipWhile_prefix isWS l4 [x20] h _ ltac:(discriminate)
               ltac:(repeat constructor) Hhws Hd4).
    cbn [fst snd]. fold l5. rewrite bindP_gets. unfold bindP at 1. rewrite Hval.
    unfold retP at 1. rewrite bindP_gets. rewrite (moved_sec _ _ Hall). cbn [fst snd].
    eexists. eexists. reflexivity. }
  destruct Hrun as (kp & vp & ->).
  rewrite bindP_state. unfold getRange. cbn [fst snd].
  rewrite (moved_prevEnd _ _ Hall), (moved_input _ _ Hall). fold (stmtRange l lf).
  unfold bindP, callHook. cbn [sink set_prevEnd]. rewrite (moved_sink _ _ Hall).
  destruct (sink_Item _ (sink l)) as [s' [err |] | p]; [| reflexivity | reflexivity].
  destruct err as [ke | m0 | m0]; eexists; (split; [reflexivity | reflexivity]).
Qed.

End LineParsesBack.

Lemma X22_witness :
  exists l1,
    moved (newParser emptyEditor (lit "f.ini") (iniLine (lit "foo") (lit "a b") ++ [])) l1
    /\ (index (pos l1)
        = index (pos (newParser emptyEditor (lit "f.ini")
                        (iniLine (lit "foo") (lit "a b") ++ [])))
          + length (iniLine (lit "foo") (lit "a b")))%nat
    /\ atText l1 []
    /\ match sink_Item
               (mkIniItem
                  (sec (newParser emptyEditor (lit "f.ini")
                          (iniLine (lit "foo") (lit "a b") ++ [])))
                  (lit "foo") (Some (lit "a b"))
                  (stmtRange (newParser emptyEditor (lit "f.ini")
                                (iniLine (lit "foo") (lit "a b") ++ [])) l1))
               (sink (newParser emptyEditor (lit "f.ini")
                        (iniLine (lit "foo") (lit "a b") ++ []))) with
       | HookOk s' None =>
         do1_body (newParser emptyEditor (lit "f.ini")
                     (iniLine (lit "foo") (lit "a b") ++ []))
         = Ok tt (afterHook l1 s')
       | HookOk s' (Some err) =>
         exists e,
           do1_body (newParser emptyEditor (lit "f.ini")
                       (iniLine (lit "foo") (lit "a b") ++ []))
           = Throw e (afterHook l1 s')
           /\ Msg e = error_Error err
       | HookPanic p =>
         do1_body (newParser emptyEditor (lit "f.ini")
                     (iniLine (lit "foo") (lit "a b") ++ []))
         = Crash p
       end.
Proof.
  apply (X22_written_line_parses_back
           (newParser emptyEditor (lit "f.ini") (iniLine (lit "foo") (lit "a b") ++ []))
           (lit "foo") (lit "a b") []).
  - reflexivity.
  - reflexivity.
Defined.

(** ** Statements without a value, and statements that are none *)

Section StatementErrors.
Context {T : Type} `{IniSink T}.
Implicit Types l : iniParse T.
Local Open Scope nat_scope.

Lemma skipWhile_none (fn : Z -> bool) l (b : byte) (t : bytes) :
  atText l (b :: t) -> fn (rune_of_byte b) = false -> skipWhile fn l = (false, l).
Proof.
  intros Hd Hb. unfold skipWhile. unfold atText in Hd. rewrite Hd. cbn [span].
  now rewrite Hb.
Qed.

Lemma lineCol_plain (a : bytes) (ln cn : nat) :
  Forall (fun b => rune_of_byte b <> 10%Z /\ rune_of_byte b <> 9%Z) a ->
  foldl lineCol (ln, cn) a = (ln, cn + length a).
Proof.
  intros Ha. revert cn. induction Ha as [| b a [Hnl Htab] _ IH]; intros cn; cbn [foldl length].
  - f_equal. lia.
  - unfold lineCol at 2. cbn [fst snd].
    destruct (Z.eqb_spec (rune_of_byte b) 10); [contradiction |].
    destruct (Z.eqb_spec (rune_of_byte b) 9); [contradiction |].
    rewrite IH. f_equal. lia.
Qed.

(** Skipping bytes that are neither newlines nor tabs keeps the line and
    adds their number to the column. *)
Lemma skip_plain_pos l (a t : bytes) :
  atText l (a ++ t) ->
  Forall (fun b => rune_of_byte b <> 10%Z /\ rune_of_byte b <> 9%Z) a ->
  pos (skip (length a) l)
  = mkPos (index (pos l) + length a) (lineno (pos l)) (colno (pos l) + length a).
Proof.
  intros Hd Ha. rewrite skip_eq. cbn [pos set_pos].
  rewrite (atText_remaining _ _ Hd), length_app.
  unfold atText in Hd. rewrite Hd, take_app_length, (lineCol_plain a _ _ Ha).
  cbn [fst snd]. f_equal. lia.
Qed.

Lemma keychars_plain (a : bytes) :
  Forall (fun b => isKeyChar (rune_of_byte b) = true) a ->
  Forall (fun b => rune_of_byte b <> 10%Z /\ rune_of_byte b <> 9%Z) a.
Proof.
  intros Ha. eapply Forall_impl; [exact Ha |]. intros b Hb. cbn beta in Hb.
  split; intros Heq; rewrite Heq in Hb; vm_compute in Hb; discriminate.
Qed.

(** X23: a valid key alone on its line is an item with no value: the
    statement consumes the key and the newline and calls [Item] with the
    key, a nil value and the range of the line, in the current section. *)
Theorem X23_key_without_value l (key rest : bytes) :
  ValidIniKey key = true ->
  atText l (key ++ x0a :: rest) ->
  exists l1,
    moved l l1
    /\ index (pos l1) = index (pos l) + length key + 1
    /\ match sink_Item (mkIniItem (sec l) key None (stmtRange l l1)) (sink l) with
       | HookOk s' None => do1_body l = Ok tt (afterHook l1 s')
       | HookOk s' (Some err) =>
         exists e, do1_body l = Throw e (afterHook l1 s') /\ Msg e = error_Error err
       | HookPanic p => do1_body l = Crash p
       end.
Proof.
  intros Hkey Hd.
  pose proof Hkey as Hkey'. apply ValidIniKey_Forall in Hkey' as [(b & kt & -> & Ha) Hchars].
  assert (Hb : inBounds l).
  { pose proof (atText_remaining _ _ Hd) as Hrem. unfold remaining, inBounds in *.
    rewrite length_app in Hrem. cbn [length] in Hrem. lia. }
  assert (Hbws : isWS (rune_of_byte b) = false)
    by (destruct b; try reflexivity; vm_compute in Ha; discriminate).
  assert (Hbbr : b <> x5b) by (intros ->; vm_compute in Ha; discriminate).
  assert (Hd' : atText l (b :: kt ++ x0a :: rest)) by exact Hd.
  destruct (atText_skip l (b :: kt) _ Hd) as [Hd1 Hx1].
  set (l1 := skip (length (b :: kt)) l) in *.
  pose proof (atText_skip1 _ _ _ Hd1) as Hd2.
  pose proof (index_skip1_text _ _ _ Hd1) as Hx2.
  assert (Hm1 : moved l l1) by (now apply skip_moved).
  assert (Hm2 : moved l1 (skip 1 l1)) by (apply skip_moved; exact (moved_inBounds _ _ Hm1)).
  pose proof (moved_trans _ _ _ Hm1 Hm2) as Hall.
  exists (skip 1 l1). split; [exact Hall |]. split; [rewrite Hx2, Hx1; lia |].
  assert (Hrun : exists kp vp,
             do1_body l
             = (r <- state (getRange (index (pos l))) ;;
                err <- callHook (sink_Item (mkIniItem (sec l) (b :: kt) None r)) ;;
                match err with
                | Some (BadKey ke) => throwAt kp ke
                | Some e => throwAt vp (error_Error e)
                | None => retP tt
                end)%parser (skip 1 l1)).
  { unfold do1_body, skipWS.
    rewrite bindP_gets, bindP_state, (skipWhile_none isWS l b _ Hd' Hbws).
    cbn [fst snd]. rewrite bindP_gets. unfold bindP at 1.
    rewrite (getSection_none l b _ Hd' Hbbr).
    rewrite bindP_gets, (atText_peek _ _ _ Hd'), Ha.
    rewrite bindP_state,
      (getKey_prefix l (b :: kt) x0a _ ltac:(discriminate) Hchars eq_refl Hd).
    cbn [fst snd]. fold l1. rewrite bindP_state.
    rewrite (skipWhile_none isWS l1 x0a _ Hd1 eq_refl).
    cbn [fst snd]. rewrite bindP_state.
    change (lit "=") with [x3d].
    rewrite (match_other l1 x0a x3d _ Hd1 ltac:(discriminate)).
    cbn [fst snd negb]. unfold bindP at 1. rewrite bindP_gets.
    rewrite (atText_peek _ _ _ Hd1).
    replace (rune_of_byte x0a) with 10%Z by reflexivity.
    cbn [Z.eqb Pos.eqb negb andb when]. rewrite bindP_ret, bindP_gets, bindP_state.
    pose proof (skipTo_first l1 [] x0a rest ltac:(constructor) Hd1) as Hto.
    change (rune_of_byte x0a) with 10%Z in Hto. rewrite Hto.
    cbn [fst snd when length]. rewrite bindP_modify.
    rewrite skip_0. unfold retP at 1. rewrite bindP_gets, (moved_sec _ _ Hall).
    cbn [fst snd]. eexists. eexists. reflexivity. }
  destruct Hrun as (kp & vp & ->).
  rewrite bindP_state. unfold getRange. cbn [fst snd].
  rewrite (moved_prevEnd _ _ Hall), (moved_input _ _ Hall).
  fold (stmtRange l (skip 1 l1)).
  unfold bindP, callHook. cbn [sink set_prevEnd]. rewrite (moved_sink _ _ Hall).
  destruct (sink_Item _ (sink l)) as [s' [err |] | p]; [| reflexivity | reflexivity].
  destruct err as [ke | m0 | m0]; eexists; (split; [reflexivity | reflexivity]).
Qed.

(** X24: a valid key followed by a byte that is neither a key
    character, nor white space, nor ['='], a newline, ['#'] or [';']
    raises the error [Expected '=' after key], located on the line of
    the key at the column of that byte. *)
Theorem X24_missing_equals l (key t : bytes) (c : byte) :
  ValidIniKey key = true ->
  atText l (key ++ c :: t) ->
  isKeyChar (rune_of_byte c) = false -> isWS (rune_of_byte c) = false ->
  c <> x3d -> c <> x0a -> c <> x23 -> c <> x3b ->
  do1_body l
  = Throw (mkParseError (file l) (lineno (pos l) + 1) (colno (pos l) + length key + 1)
                        (lit "Expected '=' after " ++ key))
          (skip (length key) l).
Proof.
  intros Hkey Hd Hck Hcws Heq Hnl Hhash Hsemi.
  pose proof Hkey as Hkey'. apply ValidIniKey_Forall in Hkey' as [(b & kt & -> & Ha) Hchars].
  assert (Hbws : isWS (rune_of_byte b) = false)
    by (destruct b; try reflexivity; vm_compute in Ha; discriminate).
  assert (Hbbr : b <> x5b) by (intros ->; vm_compute in Ha; discriminate).
  assert (Hd' : atText l (b :: kt ++ c :: t)) by exact Hd.
  destruct (atText_skip l (b :: kt) _ Hd) as [Hd1 Hx1].
  pose proof (skip_plain_pos l (b :: kt) _ Hd (keychars_plain _ Hchars)) as Hpos.
  set (l1 := skip (length (b :: kt)) l) in *.
  unfold do1_body, skipWS.
  rewrite bindP_gets, bindP_state, (skipWhile_none isWS l b _ Hd' Hbws).
  cbn [fst snd]. rewrite bindP_gets. unfold bindP at 1.
  rewrite (getSection_none l b _ Hd' Hbbr).
  rewrite bindP_gets, (atText_peek _ _ _ Hd'), Ha.
  rewrite bindP_state,
    (getKey_prefix l (b :: kt) c _ ltac:(discriminate) Hchars Hck Hd).
  cbn [fst snd]. fold l1. rewrite bindP_state.
  rewrite (skipWhile_none isWS l1 c _ Hd1 Hcws).
  cbn [fst snd]. rewrite bindP_state.
  change (lit "=") with [x3d].
  rewrite (match_other l1 c x3d _ Hd1 Heq).
  cbn [fst snd negb]. unfold bindP at 1. rewrite bindP_gets.
  rewrite (atText_peek _ _ _ Hd1).
  assert (Hc10 : (rune_of_byte c =? 10)%Z = false).
  { apply Z.eqb_neq. intros Hr. apply Hnl. now apply rune_of_byte_inj. }
  assert (Hc35 : (rune_of_byte c =? 35)%Z = false).
  { apply Z.eqb_neq. intros Hr. apply Hhash. now apply rune_of_byte_inj. }
  assert (Hc59 : (rune_of_byte c =? 59)%Z = false).
  { apply Z.eqb_neq. intros Hr. apply Hsemi. now apply rune_of_byte_inj. }
  assert (Hceof : (rune_of_byte c =? eofRune)%Z = false).
  { apply Z.eqb_neq. pose proof (rune_of_byte_range c). unfold eofRune. lia. }
  rewrite Hc10, Hc35, Hc59, Hceof. cbn [negb andb when].
  unfold bindP at 1. unfold throw, throwAt. rewrite Hpos. cbn [lineno colno].
  replace (file l1) with (file l) by reflexivity. reflexivity.
Qed.

(** X25: a statement that starts with a byte that is neither white
    space, nor a letter, nor ['['], ['#'], [';'] or a newline is the error
    [Expected section or key] at the line and column of that byte;
    [do1] returns it and moves the cursor to the next newline, or to the
    end of the input when there is none. *)
Theorem X25_unexpected_start l (c : byte) (t : bytes) :
  atText l (c :: t) ->
  isWS (rune_of_byte c) = false -> isAlpha (rune_of_byte c) = false ->
  c <> x5b -> c <> x23 -> c <> x3b -> c <> x0a ->
  do1 l
  = Ok (Some (mkParseError (file l) (lineno (pos l) + 1) (colno (pos l) + 1)
                           (lit "Expected section or key")))
       (snd (skipTo 10 l)).
Proof.
  intros Hd Hws Ha Hbr Hhash Hsemi Hnl.
  assert (Hbody : do1_body l
                  = Throw (mkParseError (file l) (lineno (pos l) + 1) (colno (pos l) + 1)
                                        (lit "Expected section or key")) l).
  { unfold do1_body, skipWS.
    rewrite bindP_gets, bindP_state, (skipWhile_none isWS l c _ Hd Hws).
    cbn [fst snd]. rewrite bindP_gets. unfold bindP at 1.
    rewrite (getSection_none l c _ Hd Hbr).
    rewrite bindP_gets, (atText_peek _ _ _ Hd), Ha.
    assert (Hc10 : (rune_of_byte c =? 10)%Z = false).
    { apply Z.eqb_neq. intros Hr. apply Hnl. now apply rune_of_byte_inj. }
    assert (Hc35 : (rune_of_byte c =? 35)%Z = false).
    { apply Z.eqb_neq. intros Hr. apply Hhash. now apply rune_of_byte_inj. }
    assert (Hc59 : (rune_of_byte c =? 59)%Z = false).
    { apply Z.eqb_neq. intros Hr. apply Hsemi. now apply rune_of_byte_inj. }
    rewrite Hc10, Hc35, Hc59. cbn [orb]. reflexivity. }
  unfold do1. now rewrite Hbody.
Qed.

End StatementErrors.

Lemma X23_witness :
  exists l1,
    moved (newParser emptyEditor (lit "f.ini") (lit "foo" ++ x0a :: [])) l1
    /\ (index (pos l1)
        = index (pos (newParser emptyEditor (lit "f.ini") (lit "foo" ++ x0a :: [])))
          + length (lit "foo") + 1)%nat
    /\ match sink_Item
               (mkIniItem
                  (sec (newParser emptyEditor (lit "f.ini") (lit "foo" ++ x0a :: [])))
                  (lit "foo") None
                  (stmtRange (newParser emptyEditor (lit "f.ini") (lit "foo" ++ x0a :: []))
                             l1))
               (sink (newParser emptyEditor (lit "f.ini") (lit "foo" ++ x0a :: []))) with
       | HookOk s' None =>
         do1_body (newParser emptyEditor (lit "f.ini") (lit "foo" ++ x0a :: []))
         = Ok tt (afterHook l1 s')
       | HookOk s' (Some err) =>
         exists e,
           do1_body (newParser emptyEditor (lit "f.ini") (lit "foo" ++ x0a :: []))
           = Throw e (afterHook l1 s')
           /\ Msg e = error_Error err
       | HookPanic p =>
         do1_body (newParser emptyEditor (lit "f.ini") (lit "foo" ++ x0a :: [])) = Crash p
       end.
Proof.
  apply (X23_key_without_value
           (newParser emptyEditor (lit "f.ini") (lit "foo" ++ x0a :: [])) (lit "foo") []).
  - reflexivity.
  - reflexivity.
Defined.

Lemma X24_witness :
  do1_body (newParser emptyEditor (lit "f.ini") (lit "foo" ++ x21 :: lit "bar"))
  = Throw (mkParseError
             (file (newParser emptyEditor (lit "f.ini") (lit "foo" ++ x21 :: lit "bar")))
             (lineno (pos (newParser emptyEditor (lit "f.ini")
                             (lit "foo" ++ x21 :: lit "bar"))) + 1)
             (colno (pos (newParser emptyEditor (lit "f.ini")
                            (lit "foo" ++ x21 :: lit "bar"))) + length (lit "foo") + 1)
             (lit "Expected '=' after " ++ lit "foo"))
          (skip (length (lit "foo"))
                (newParser emptyEditor (lit "f.ini") (lit "foo" ++ x21 :: lit "bar"))).
Proof.
  apply (X24_missing_equals
           (newParser emptyEditor (lit "f.ini") (lit "foo" ++ x21 :: lit "bar"))
           (lit "foo") (lit "bar") x21);
    first [reflexivity | discriminate].
Defined.

Lemma X25_witness :
  do1 (newParser emptyEditor (lit "f.ini") example4_input)
  = Ok (Some (mkParseError
                (file (newParser emptyEditor (lit "f.ini") example4_input))
                (lineno (pos (newParser emptyEditor (lit "f.ini") example4_input)) + 1)
                (colno (pos (newParser emptyEditor (lit "f.ini") example4_input)) + 1)
                (lit "Expected section or key")))
       (snd (skipTo 10 (newParser emptyEditor (lit "f.ini") example4_input))).
Proof.
  apply (X25_unexpected_start (newParser emptyEditor (lit "f.ini") example4_input)
           x3d (lit " foo" ++ [x0a]));
    first [reflexivity | discriminate].
Defined.

(** ** Comments, and the errors of headers and values *)

Section MoreStatements.
Context {T : Type} `{IniSink T}.
Implicit Types l : iniParse T.
Local Open Scope nat_scope.

Lemma skipWS_run l (ws : bytes) (c : byte) (t : bytes) :
  Forall (fun b => isWS (rune_of_byte b) = true) ws ->
  isWS (rune_of_byte c) = false -> atText l (ws ++ c :: t) ->
  snd (skipWS l) = skip (length ws) l.
Proof.
  intros Hws Hc Hd. unfold skipWS. destruct ws as [| w ws'].
  - rewrite (skipWhile_none isWS l c t Hd Hc). cbn [snd length]. now rewrite skip_0.
  - now rewrite (skipWhile_prefix isWS l (w :: ws') c t ltac:(discriminate) Hws Hc Hd).
Qed.

(** X26: a line that, after optional white space, starts with ['#'],
    [';'] or a newline is skipped up to and including its newline, or to
    the end of the input: no hook is called, no error is raised, and the
    sink, the current section and the end of the previous statement are
    as before, so the line belongs to the range of the next statement. *)
Theorem X26_comment_line_skipped l (ws t : bytes) (c : byte) :
  Forall (fun b => isWS (rune_of_byte b) = true) ws ->
  c = x23 \/ c = x3b \/ c = x0a ->
  atText l (ws ++ c :: t) ->
  exists l',
    do1 l = Ok None l'
    /\ l' = skip 1 (snd (skipTo 10 (skip (length ws) l)))
    /\ sink l' = sink l /\ sec l' = sec l /\ prevEnd l' = prevEnd l.
Proof.
  intros Hws Hc Hd.
  assert (Hcws : isWS (rune_of_byte c) = false)
    by (destruct Hc as [-> | [-> | ->]]; reflexivity).
  assert (Hcbr : c <> x5b) by (destruct Hc as [-> | [-> | ->]]; discriminate).
  assert (Hca : isAlpha (rune_of_byte c) = false)
    by (destruct Hc as [-> | [-> | ->]]; reflexivity).
  assert (Hcc : (rune_of_byte c =? 35)%Z || (rune_of_byte c =? 59)%Z
                || (rune_of_byte c =? 10)%Z = true)
    by (destruct Hc as [-> | [-> | ->]]; reflexivity).
  destruct (atText_skip l ws _ Hd) as [Hd1 _].
  pose proof (skipWS_run l ws c t Hws Hcws Hd) as Hskip.
  eexists. split; [| split; [reflexivity |]].
  - unfold do1, do1_body.
    rewrite bindP_gets, bindP_state, Hskip. rewrite bindP_gets. unfold bindP at 1.
    rewrite (getSection_none _ c _ Hd1 Hcbr).
    rewrite bindP_gets, (atText_peek _ _ _ Hd1), Hca, Hcc.
    rewrite bindP_state. unfold modify. reflexivity.
  - unfold skipTo. destruct (IndexByte _ _); now repeat split.
Qed.

Lemma getKey_none l (c : byte) (t : bytes) :
  atText l (c :: t) -> isKeyChar (rune_of_byte c) = false -> getKey l = ([], l).
Proof.
  intros Hd Hc. unfold getKey, takeWhile.
  rewrite (skipWhile_none isKeyChar l c t Hd Hc). cbn [snd].
  now rewrite Nat.sub_diag.
Qed.

(** X27: the first two errors of a section header.  After ['['], a byte
    that is not a key character raises [expected section name after '['],
    at the column of that byte; after ['['] and a name, a byte that is
    neither a key character, nor [']'], nor white space raises
    [expected ']' or space followed by quoted subsection], at the column
    of that byte. *)
Theorem X27_header_errors :
  (forall l (c : byte) (t : bytes),
      atText l (x5b :: c :: t) -> isKeyChar (rune_of_byte c) = false ->
      getSection l
      = Throw (mkParseError (file l) (lineno (pos l) + 1) (colno (pos l) + 2)
                            (lit "expected section name after '['"))
              (skip 1 l))
  /\ (forall l (name t : bytes) (c : byte),
      name <> [] -> Forall (fun b => isKeyChar (rune_of_byte b) = true) name ->
      atText l (x5b :: name ++ c :: t) ->
      isKeyChar (rune_of_byte c) = false -> isWS (rune_of_byte c) = false ->
      c <> x5d ->
      getSection l
      = Throw (mkParseError (file l) (lineno (pos l) + 1)
                            (colno (pos l) + length name + 2)
                            (lit "expected ']' or space followed by quoted subsection"))
              (skip (length name) (skip 1 l))).
Proof.
  split.
  - intros l c t Hd Hc.
    assert (Hd0 : atText l ([x5b] ++ c :: t)) by exact Hd.
    destruct (atText_skip l [x5b] _ Hd0) as [Hd1 _].
    pose proof (skip_plain_pos l [x5b] _ Hd0
                  ltac:(repeat constructor; discriminate)) as Hpos.
    cbn [length] in Hd1, Hpos.
    unfold getSection. rewrite bindP_state.
    change (lit "[") with [x5b]. rewrite (match_prefix l [x5b] _ Hd0).
    cbn [fst snd negb length]. rewrite bindP_state, (getKey_none _ c t Hd1 Hc).
    cbn [fst snd length Nat.eqb when]. unfold bindP at 1, throw, throwAt.
    rewrite Hpos. cbn [lineno colno].
    replace (colno (pos l) + 1 + 1) with (colno (pos l) + 2) by lia. reflexivity.
  - intros l name t c Hne Hchars Hd Hc Hcws Hcb.
    assert (Hd0 : atText l ([x5b] ++ name ++ c :: t)) by exact Hd.
    destruct (atText_skip l [x5b] _ Hd0) as [Hd1 _].
    pose proof (skip_plain_pos l [x5b] _ Hd0
                  ltac:(repeat constructor; discriminate)) as Hpos1.
    cbn [length] in Hd1, Hpos1.
    destruct (atText_skip (skip 1 l) name _ Hd1) as [Hd2 _].
    pose proof (skip_plain_pos (skip 1 l) name _ Hd1 (keychars_plain _ Hchars)) as Hpos2.
    rewrite Hpos1 in Hpos2. cbn [index lineno colno] in Hpos2.
    unfold getSection. rewrite bindP_state.
    change (lit "[") with [x5b]. rewrite (match_prefix l [x5b] _ Hd0).
    cbn [fst snd negb length].
    rewrite bindP_state, (getKey_prefix _ name c t Hne Hchars Hc Hd1).
    cbn [fst snd].
    assert (Hlen0 : (length name =? 0) = false)
      by (destruct name; [contradiction | reflexivity]).
    rewrite Hlen0. cbn [when]. rewrite bindP_ret, bindP_state.
    change (lit "]") with [x5d].
    rewrite (match_other _ c x5d t Hd2 Hcb). cbn [fst snd].
    rewrite bindP_state. unfold skipWS.
    rewrite (skipWhile_none isWS _ c t Hd2 Hcws). cbn [fst snd negb when].
    unfold bindP at 1, throw, throwAt. rewrite Hpos2. cbn [lineno colno].
    replace (colno (pos l) + 1 + length name + 1) with (colno (pos l) + length name + 2)
      by lia.
    reflexivity.
Qed.

(** A byte that [getValue] copies as it is, outside quotes ([q] false)
    or inside, and that is neither a newline nor a tab. *)
Lemma raw_run (q : bool) (v : bytes) :
  Forall (fun b => let c := rune_of_byte b in
                   c <> 92%Z /\ c <> 34%Z /\ c <> 10%Z /\ c <> 13%Z
                   /\ (q = false -> c <> 35%Z /\ c <> 59%Z)) v ->
  forall (ret tail : bytes) (fuel : nat) l,
    atText l (v ++ tail) ->
    getValueLoop (length v + fuel) ret false q l
    = getValueLoop fuel (ret ++ v) false q (skip (length v) l).
Proof.
  induction 1 as [| b v (H92 & H34 & H10 & H13 & Hq) _ IH]; intros ret tail fuel l Hd.
  - cbn [length app Nat.add]. now rewrite app_nil_r, skip_0.
  - cbn [length Nat.add].
    rewrite (step_raw _ _ _ _ (rune_of_byte b) (atText_peek _ _ _ Hd) H92 H34 H10).
    + rewrite byte_of_rune_of_byte.
      rewrite (IH (ret ++ [b]) tail fuel (skip 1 l) (atText_skip1 _ _ _ Hd)).
      rewrite <- app_assoc. cbn [app]. now rewrite skip_skip.
    + pose proof (rune_of_byte_range b). unfold eofRune. lia.
    + intros Hcr. contradiction.
    + exact Hq.
Qed.

(** X28: two errors of a value.  A quote that is still open at the end
    of the line raises [missing close quotes], and a backslash that ends
    the input raises [incomplete escape sequence at EOF]; both are
    located where the value stops, counting one column for each byte of
    the value. *)
Theorem X28_value_errors :
  (forall l (v rest : bytes),
      Forall (fun b => let c := rune_of_byte b in
                       c <> 92%Z /\ c <> 34%Z /\ c <> 10%Z /\ c <> 13%Z /\ c <> 9%Z) v ->
      atText l (x22 :: v ++ x0a :: rest) ->
      getValue l
      = Throw (mkParseError (file l) (lineno (pos l) + 1) (colno (pos l) + length v + 2)
                            (lit "missing close quotes"))
              (skip (length v) (skip 1 l)))
  /\ (forall l (v : bytes),
      Forall plainByte v ->
      atText l (v ++ [x5c]) ->
      getValue l
      = Throw (mkParseError (file l) (lineno (pos l) + 1) (colno (pos l) + length v + 2)
                            (lit "incomplete escape sequence at EOF"))
              (skip 1 (skip (length v) l))).
Proof.
  split.
  - intros l v rest Hv Hd.
    assert (Hd0 : atText l ([x22] ++ v ++ x0a :: rest)) by exact Hd.
    destruct (atText_skip l [x22] _ Hd0) as [Hd1 _].
    pose proof (skip_plain_pos l [x22] _ Hd0
                  ltac:(repeat constructor; discriminate)) as Hpos1.
    cbn [length] in Hd1, Hpos1.
    destruct (atText_skip (skip 1 l) v _ Hd1) as [Hd2 _].
    assert (Hplain : Forall (fun b => rune_of_byte b <> 10%Z /\ rune_of_byte b <> 9%Z) v).
    { eapply Forall_impl; [exact Hv |]. intros b Hb. cbn beta zeta in Hb. tauto. }
    pose proof (skip_plain_pos (skip 1 l) v _ Hd1 Hplain) as Hpos2.
    rewrite Hpos1 in Hpos2. cbn [index lineno colno] in Hpos2.
    unfold getValue. rewrite (atText_remaining _ _ Hd). cbn [length].
    rewrite length_app. cbn [length].
    replace (S (S (length v + S (length rest))))
      with (S (length v + S (S (length rest)))) by lia.
    rewrite (step_quote _ _ _ _ (atText_peek _ _ _ Hd)). cbn [negb].
    rewrite (raw_run true v) with (tail := x0a :: rest); [| | exact Hd1].
    2:{ eapply Forall_impl; [exact Hv |]. intros b Hb. cbn beta zeta in Hb |- *.
        repeat split; try tauto; discriminate. }
    cbn [getValueLoop app]. rewrite bindP_gets, (atText_peek _ _ _ Hd2).
    replace (rune_of_byte x0a) with 10%Z by reflexivity.
    cbn [Z.eqb Pos.eqb orb negb andb when]. rewrite bindP_ret.
    unfold bindP at 1, throw, throwAt. rewrite Hpos2. cbn [lineno colno].
    replace (colno (pos l) + 1 + length v + 1) with (colno (pos l) + length v + 2) by lia.
    reflexivity.
  - intros l v Hv Hd.
    destruct (atText_skip l v _ Hd) as [Hd1 _].
    assert (Hplain : Forall (fun b => rune_of_byte b <> 10%Z /\ rune_of_byte b <> 9%Z) v).
    { eapply Forall_impl; [exact Hv |]. intros b (Hr & _). cbn beta zeta in Hr. lia. }
    pose proof (skip_plain_pos l v _ Hd Hplain) as Hpos1.
    assert (Hd1' : atText (skip (length v) l) ([x5c] ++ [])) by exact Hd1.
    destruct (atText_skip _ [x5c] [] Hd1') as [Hd2 _].
    pose proof (skip_plain_pos _ [x5c] [] Hd1'
                  ltac:(repeat constructor; discriminate)) as Hpos2.
    rewrite Hpos1 in Hpos2. cbn [index lineno colno length] in Hpos2, Hd2.
    unfold getValue. rewrite (atText_remaining _ _ Hd), length_app. cbn [length].
    replace (S (length v + 1)) with (length v + 2) by lia.
    rewrite (raw_run false v) with (tail := [x5c]); [| | exact Hd].
    2:{ eapply Forall_impl; [exact Hv |].
        intros b (Hr & H34 & H35 & H59 & H92). cbn beta zeta in *.
        repeat split; try assumption; lia. }
    cbn [app]. rewrite (step_backslash _ _ _ _ (atText_peek _ _ _ Hd1)).
    cbn [getValueLoop]. rewrite bindP_gets, (atText_eof _ Hd2).
    unfold eofRune. cbn [Z.eqb Pos.eqb orb when].
    unfold bindP at 1, throw, throwAt. cbn beta iota. rewrite Hpos2. cbn [lineno colno].
    replace (colno (pos l) + length v + 1 + 1) with (colno (pos l) + length v + 2) by lia.
    reflexivity.
Qed.

End MoreStatements.

Lemma X26_witness :
  exists l',
    do1 (newParser emptyEditor (lit "f.ini") (lit "  " ++ x23 :: lit " note" ++ [x0a]))
    = Ok None l'
    /\ l' = skip 1 (snd (skipTo 10
                (skip (length (lit "  "))
                   (newParser emptyEditor (lit "f.ini")
                      (lit "  " ++ x23 :: lit " note" ++ [x0a])))))
    /\ sink l' = sink (newParser emptyEditor (lit "f.ini")
                         (lit "  " ++ x23 :: lit " note" ++ [x0a]))
    /\ sec l' = sec (newParser emptyEditor (lit "f.ini")
                       (lit "  " ++ x23 :: lit " note" ++ [x0a]))
    /\ prevEnd l' = prevEnd (newParser emptyEditor (lit "f.ini")
                               (lit "  " ++ x23 :: lit " note" ++ [x0a])).
Proof.
  apply (X26_comment_line_skipped
           (newParser emptyEditor (lit "f.ini") (lit "  " ++ x23 :: lit " note" ++ [x0a]))
           (lit "  ") (lit " note" ++ [x0a]) x23).
  - repeat constructor.
  - now left.
  - reflexivity.
Defined.
